(** * VexFlow layout core: accidental column layout, the Formatter and
    the Stave

    A shallow embedding of [Accidental.format] / [Accidental.checkCollision]
    (accidental.ts), of the [Formatter] class (formatter.ts) and of the
    lines, the x position and the modifier order of the [Stave] class
    (stave.ts), with the properties of the layout engine proved over it.

    Conventions.  A JavaScript [number] holding a pixel value, a stave line
    or a tick value is a rational [Q]; counters and array indices are [nat]
    or [Z].  A JavaScript [throw] is a result [Err e]; reading a property of
    [undefined] is the error [TypeError].  Objects mutated in place are
    threaded explicitly through the functions that mutate them.  Rounding
    of floating-point arithmetic is not modelled, and neither are [NaN]
    and [Infinity], except where a function says how it stands for them. *)

From Stdlib Require Import ZArith QArith Qabs Qround Lqa Lia List String Bool Sorted.
From stdpp Require Import base option list gmap strings pretty sorting.

Open Scope Q_scope.

(* ================================================================== *)
(** * Numbers *)
(* ================================================================== *)

(** [x < y] on JavaScript numbers. *)
Definition Qltb (x y : Q) : bool := negb (Qle_bool y x).

(** [Math.max(x, y)] and [Math.min(x, y)]. *)
Definition maxQ (x y : Q) : Q := if Qle_bool x y then y else x.
Definition minQ (x y : Q) : Q := if Qle_bool x y then x else y.

(** [Math.round(x)]: the nearest integer, halves rounded up. *)
Definition roundQ (x : Q) : Z := Qfloor (x + (1 # 2)).

(** [sumArray]. *)
Definition sumArray (l : list Q) : Q := fold_left Qplus l 0.

(** A stave line on half-line granularity: twice the line is an integer. *)
Definition halfLine (q : Q) : Prop := exists z : Z, 2 * q == inject_Z z.
Definition halfLineb (q : Q) : bool := Qeq_bool (inject_Z (Qfloor (2 * q))) (2 * q).

(* ================================================================== *)
(** * Results of operations that may throw *)
(* ================================================================== *)

(** The [RuntimeError] codes thrown by the Formatter ([UndefinedError]
    is the one thrown by [defined]), the built-in [TypeError] of a
    property access on [undefined], and [UndefinedValue]
    for a computation that goes on with [undefined] (and ends in [NaN])
    instead of throwing.  [OutOfFuel] is not a JavaScript error: a loop
    of the model stopped for lack of fuel. *)
Inductive Error : Type :=
| BadArgument
| TickMismatch
| IncompleteVoice
| NoMinTotalWidth
| NoTickContexts
| NoTickContext
| TypeError
| UndefinedError
| UndefinedValue
| OutOfFuel.

Inductive Result (A : Type) : Type :=
| Ok (x : A)
| Err (e : Error).
Arguments Ok {A} x.
Arguments Err {A} e.

Definition bindR {A B} (r : Result A) (k : A -> Result B) : Result B :=
  match r with
  | Ok x => k x
  | Err e => Err e
  end.

Notation "'let*' x ':=' r 'in' k" := (bindR r (fun x => k))
  (at level 10, x name, r at level 100, k at level 200).

(** [defined(x)]: a missing value is an error. *)
Definition definedR {A} (o : option A) : Result A :=
  match o with
  | Some x => Ok x
  | None => Err TypeError
  end.

(* ================================================================== *)
(** * Accidental layout (accidental.ts) *)
(* ================================================================== *)

Module Accidental.

(** The part of [Stave] (stave.ts) that [format] reads. *)
Record Stave : Type := mkStave {
  stave_y : Q;
  spacingBetweenLinesPx : Q;
  spaceAboveStaffLn : Q
}.

Definition getSpacingBetweenLines (s : Stave) : Q := spacingBetweenLinesPx s.

Definition getYForLine (s : Stave) (line : Q) : Q :=
  let spacing := spacingBetweenLinesPx s in
  let headroom := spaceAboveStaffLn s in
  stave_y s + line * spacing + headroom * spacing.

(** The note an accidental is attached to.  [note_id] stands for the
    identity of the object ([note !== prevNote]); [note_keyLines] holds
    [getKeyProps()[i].line] for each key [i]. *)
Record Note : Type := mkNote {
  note_id : nat;
  note_stave : option Stave;
  note_keyLines : list Q;
  note_leftDisplacedHeadPx : Q;
  note_xShift : Q
}.

(** [acc_xShift] is the shift that [getXShift()] reports. *)
Record Accidental : Type := mkAccidental {
  acc_type : string;
  acc_width : Q;
  acc_note : Note;
  acc_index : nat;
  acc_xShift : Q
}.

(** Modelled: [Modifier.setXShift] (modifier.ts is not among the
    sources).  The constructor of an Accidental sets its position to
    [Modifier.Position.LEFT], and for a modifier on the left
    [setXShift(x)] stores the shift negated: [getXShift()] is [-x]
    afterwards. *)
Definition setXShift (a : Accidental) (x : Q) : Accidental :=
  {| acc_type := acc_type a; acc_width := acc_width a; acc_note := acc_note a;
     acc_index := acc_index a; acc_xShift := - x |}.

(** [ModifierContextState]: [format] reads and writes only [leftShift]. *)
Record ModifierContextState : Type := mkState {
  leftShift : Q
}.

(** The three values [format] fetches with [Metrics.get]. *)
Record AccidentalMetrics : Type := mkMetrics {
  noteheadAccidentalPadding : Q;
  accidentalSpacing : Q;
  leftPadding : Q
}.

Record StaveLineAccidentalLayoutMetrics : Type := mkLine {
  column : nat;
  line : Q;
  flatLine : bool;
  dblSharpLine : bool;
  numAcc : nat;
  width : Q
}.

(** Helper function to determine whether two lines of accidentals collide
    vertically. *)
Definition checkCollision (line1 line2 : StaveLineAccidentalLayoutMetrics) : bool :=
  let clearance := line line2 - line line1 in
  if Qltb 0 clearance then
    (* then line 2 is on top *)
    let clearanceRequired := if flatLine line2 || dblSharpLine line2 then 2.5 else 3.0 in
    let clearance := if dblSharpLine line1 then clearance - 0.5 else clearance in
    Qltb (Qabs clearance) clearanceRequired
  else
    (* line 1 is on top *)
    let clearanceRequired := if flatLine line1 || dblSharpLine line1 then 2.5 else 3.0 in
    let clearance := if dblSharpLine line2 then clearance - 0.5 else clearance in
    Qltb (Qabs clearance) clearanceRequired.

(** The collision rule in the words of the specification: the required
    clearance is 3.0, 2.5 when the higher line is flat-only or
    double-sharp-only, a further 0.5 less when the lower line is
    double-sharp-only; two lines collide when their absolute line
    difference is below it.  The same for both orders of the arguments. *)
Definition requiredClearance (higher lower : StaveLineAccidentalLayoutMetrics) : Q :=
  (if flatLine higher || dblSharpLine higher then 2.5 else 3.0)
  - (if dblSharpLine lower then 0.5 else 0).

Definition collidesSpec (line1 line2 : StaveLineAccidentalLayoutMetrics) : bool :=
  let required :=
    if Qltb (line line1) (line line2)
    then requiredClearance line2 line1
    else requiredClearance line1 line2 in
  Qltb (Qabs (line line2 - line line1)) required.

(** One element of [accidentalLinePositionsAndSpaceNeeds].  [e_pos] is the
    position of the accidental in the array handed to [format], so that
    the write [accidental.setXShift] reaches the caller's object. *)
Record AccidentalLinePositionsAndXSpaceNeeds : Type := mkEntry {
  e_y : option Q;
  e_line : Q;
  e_extraXSpaceNeeded : Q;
  e_pos : nat;
  e_accidental : Accidental;
  e_spacingBetweenStaveLines : option Q
}.

(** The first loop of [format]: the line of every accidental.  The state
    is [(prevNote, extraXSpaceNeededForLeftDisplacedNotehead, entries)]. *)
Definition linePositionStep
    (st : Result (option nat * Q * list AccidentalLinePositionsAndXSpaceNeeds))
    (ia : nat * Accidental)
  : Result (option nat * Q * list AccidentalLinePositionsAndXSpaceNeeds) :=
  let* st := st in
  let '(prevNote, extra, entries) := st in
  let '(i, accidental) := ia in
  let note := acc_note accidental in
  let stave := note_stave note in
  let index := acc_index accidental in
  let* propsLine := definedR (note_keyLines note !! index) in
  let extra :=
    if bool_decide (prevNote = Some (note_id note)) then extra
    else fold_left
           (fun x _ => maxQ (note_leftDisplacedHeadPx note - note_xShift note) x)
           (note_keyLines note) extra in
  let entry :=
    match stave with
    | Some stave =>
        let lineSpace := getSpacingBetweenLines stave in
        let y := getYForLine stave propsLine in
        let accLine := inject_Z (roundQ ((y / lineSpace) * 2)) / 2 in
        {| e_y := Some y; e_line := accLine; e_extraXSpaceNeeded := extra;
           e_pos := i; e_accidental := accidental;
           e_spacingBetweenStaveLines := Some lineSpace |}
    | None =>
        {| e_y := None; e_line := propsLine; e_extraXSpaceNeeded := extra;
           e_pos := i; e_accidental := accidental;
           e_spacingBetweenStaveLines := None |}
    end in
  Ok (Some (note_id note), extra, entries ++ [entry]).

Definition linePositions (accidentals : list Accidental)
  : Result (list AccidentalLinePositionsAndXSpaceNeeds) :=
  let* st :=
    fold_left linePositionStep (imap (fun i a => (i, a)) accidentals)
              (Ok (None, 0, [])) in
  Ok (snd st).

(** [entries.sort((a, b) => b.line - a.line)]: a stable sort by descending
    line. *)
Fixpoint insertByLine (x : AccidentalLinePositionsAndXSpaceNeeds)
    (l : list AccidentalLinePositionsAndXSpaceNeeds)
  : list AccidentalLinePositionsAndXSpaceNeeds :=
  match l with
  | [] => [x]
  | y :: l' => if Qltb (e_line x) (e_line y) then y :: insertByLine x l' else x :: l
  end.

Definition sortByLine (l : list AccidentalLinePositionsAndXSpaceNeeds)
  : list AccidentalLinePositionsAndXSpaceNeeds :=
  foldr insertByLine [] l.

(** The second loop: one [StaveLineAccidentalLayoutMetrics] per distinct
    line, and [maxExtraXSpaceNeeded]. *)
Definition lineMetricStep (accidentalSpacing : Q)
    (st : list StaveLineAccidentalLayoutMetrics * Q)
    (e : AccidentalLinePositionsAndXSpaceNeeds)
  : list StaveLineAccidentalLayoutMetrics * Q :=
  let '(metrics, maxExtraXSpaceNeeded) := st in
  let accidentalType := acc_type (e_accidental e) in
  let priorLineMetric := last metrics in
  let fresh := {| line := e_line e; flatLine := true; dblSharpLine := true;
                  numAcc := 0; width := 0; column := 0 |} in
  let '(others, currentLineMetric) :=
    match priorLineMetric with
    | Some prior =>
        if Qeq_bool (line prior) (e_line e)
        then (removelast metrics, prior)
        else (metrics, fresh)
    | None => (metrics, fresh)
    end in
  let notFlat := negb (String.eqb accidentalType "b") && negb (String.eqb accidentalType "bb") in
  let notDblSharp := negb (String.eqb accidentalType "##") in
  let currentLineMetric :=
    {| line := line currentLineMetric;
       flatLine := if notFlat then false else flatLine currentLineMetric;
       dblSharpLine := if notDblSharp then false else dblSharpLine currentLineMetric;
       numAcc := S (numAcc currentLineMetric);
       width := width currentLineMetric + (acc_width (e_accidental e) + accidentalSpacing);
       column := column currentLineMetric |} in
  (others ++ [currentLineMetric], maxQ (e_extraXSpaceNeeded e) maxExtraXSpaceNeeded).

Definition lineMetrics (accidentalSpacing : Q)
    (entries : list AccidentalLinePositionsAndXSpaceNeeds)
  : list StaveLineAccidentalLayoutMetrics * Q :=
  fold_left (lineMetricStep accidentalSpacing) entries ([], 0).

(** The classifier of a conflict group, the key into the column table. *)
Inductive EndCase : Type :=
| EndA
| EndB
| SecondOnBottom
| SpacedOutTetrachord
| SpacedOutPentachord
| VerySpacedOutPentachord
| SpacedOutHexachord
| VerySpacedOutHexachord.

(** [Tables.accidentalColumnsTable[groupLength][endCase]]; [None] where
    the table has no such entry. *)
Definition ColumnsTable : Type := nat -> EndCase -> option (list nat).

(** [checkCollision(lines[i], lines[j])].  Every index that [format]
    passes lies inside the array. *)
Definition collideAt (lines : list StaveLineAccidentalLayoutMetrics) (i j : nat) : bool :=
  match lines !! i, lines !! j with
  | Some line1, Some line2 => checkCollision line1 line2
  | _, _ => false
  end.

(** The [while] loop that extends a group while the next line collides
    with the current last one. *)
Fixpoint extendGroup (lines : list StaveLineAccidentalLayoutMetrics)
    (groupEnd fuel : nat) : nat :=
  match fuel with
  | O => groupEnd
  | S fuel' =>
      if bool_decide (groupEnd + 1 < length lines)%nat && collideAt lines groupEnd (groupEnd + 1)
      then extendGroup lines (groupEnd + 1) fuel'
      else groupEnd
  end.

Definition lineDifference (lines : list StaveLineAccidentalLayoutMetrics)
    (groupStart indexA indexB : nat) : option Q :=
  match lines !! (groupStart + indexA)%nat, lines !! (groupStart + indexB)%nat with
  | Some a, Some b => Some (line a - line b)
  | _, _ => None
  end.

Definition lineDifferenceIs (lines : list StaveLineAccidentalLayoutMetrics)
    (groupStart indexA indexB : nat) (d : Q) : bool :=
  match lineDifference lines groupStart indexA indexB with
  | Some x => Qeq_bool x d
  | None => false
  end.

Definition notColliding (lines : list StaveLineAccidentalLayoutMetrics)
    (groupStart : nat) (indexPairs : list (nat * nat)) : bool :=
  forallb (fun p => negb (collideAt lines (groupStart + fst p) (groupStart + snd p)))
          indexPairs.

Definition isEndA (e : EndCase) : bool := match e with EndA => true | _ => false end.
Definition isEndB (e : EndCase) : bool := match e with EndB => true | _ => false end.

(** The [switch (groupLength)] that refines [endCase]. *)
Definition classifyGroup (lines : list StaveLineAccidentalLayoutMetrics)
    (groupStart groupEnd : nat) : EndCase :=
  let groupLength := (groupEnd - groupStart + 1)%nat in
  let endCase := if collideAt lines groupStart groupEnd then EndA else EndB in
  match groupLength with
  | 3%nat =>
      if isEndA endCase
         && lineDifferenceIs lines groupStart 1 2 0.5
         && negb (lineDifferenceIs lines groupStart 0 1 0.5)
      then SecondOnBottom else endCase
  | 4%nat =>
      if notColliding lines groupStart [(0, 2); (1, 3)]%nat
      then SpacedOutTetrachord else endCase
  | 5%nat =>
      if isEndB endCase && notColliding lines groupStart [(1, 3)]%nat
      then if notColliding lines groupStart [(0, 2); (2, 4)]%nat
           then VerySpacedOutPentachord else SpacedOutPentachord
      else endCase
  | 6%nat =>
      let endCase :=
        if notColliding lines groupStart [(0, 3); (1, 4); (2, 5)]%nat
        then SpacedOutHexachord else endCase in
      if notColliding lines groupStart [(0, 2); (2, 4); (1, 3); (3, 5)]%nat
      then VerySpacedOutHexachord else endCase
  | _ => endCase
  end.

(** The search for the number of columns of a group of seven or more
    lines: the [for] loop over the whole array, then the [while] loop
    around it. *)
Definition collisionDetected (lines : list StaveLineAccidentalLayoutMetrics)
    (patternLength : nat) : bool :=
  existsb (fun l => collideAt lines l (l + patternLength))
          (seq 0 (length lines - patternLength)).

Fixpoint findPatternLength (lines : list StaveLineAccidentalLayoutMetrics)
    (patternLength fuel : nat) : option nat :=
  match fuel with
  | O => None
  | S fuel' =>
      if collisionDetected lines patternLength
      then findPatternLength lines (S patternLength) fuel'
      else Some patternLength
  end.

(** The columns of the members of one group, in order. *)
Definition groupColumns (table : ColumnsTable)
    (lines : list StaveLineAccidentalLayoutMetrics) (groupStart groupEnd : nat)
  : Result (list nat) :=
  let groupLength := (groupEnd - groupStart + 1)%nat in
  let endCase := classifyGroup lines groupStart groupEnd in
  if bool_decide (7 <= groupLength)%nat then
    let* patternLength := definedR (findPatternLength lines 2 (S (length lines))) in
    Ok (map (fun member => (member mod patternLength + 1)%nat) (seq 0 groupLength))
  else
    let* row := definedR (table groupLength endCase) in
    foldr (fun member (rest : Result (list nat)) =>
             let* c := match row !! member with
                       | Some c => Ok c
                       | None => Err UndefinedValue
                       end in
             let* cs := rest in
             Ok (c :: cs))
          (Ok []) (seq 0 groupLength).

Definition setColumn (c : nat) (m : StaveLineAccidentalLayoutMetrics)
  : StaveLineAccidentalLayoutMetrics :=
  {| column := c; line := line m; flatLine := flatLine m;
     dblSharpLine := dblSharpLine m; numAcc := numAcc m; width := width m |}.

(** The two [for (groupMember = i; groupMember <= groupEnd; groupMember++)]
    loops: write the columns and keep the largest one. *)
Fixpoint writeColumns (lines : list StaveLineAccidentalLayoutMetrics)
    (totalColumns groupMember : nat) (columns : list nat)
  : list StaveLineAccidentalLayoutMetrics * nat :=
  match columns with
  | [] => (lines, totalColumns)
  | c :: columns' =>
      writeColumns (alter (setColumn c) groupMember lines)
                   (if bool_decide (c < totalColumns)%nat then totalColumns else c)
                   (S groupMember) columns'
  end.

(** The loop [for (let i = 0; i < lines.length; i++) { ...; i = groupEnd }]. *)
Fixpoint placeGroups (table : ColumnsTable) (fuel : nat)
    (lines : list StaveLineAccidentalLayoutMetrics) (totalColumns i : nat)
  : Result (list StaveLineAccidentalLayoutMetrics * nat) :=
  if bool_decide (length lines <= i)%nat then Ok (lines, totalColumns)
  else
    match fuel with
    | O => Err TypeError
    | S fuel' =>
        let groupStart := i in
        let groupEnd := extendGroup lines i (length lines) in
        let* columns := groupColumns table lines groupStart groupEnd in
        let '(lines, totalColumns) := writeColumns lines totalColumns i columns in
        placeGroups table fuel' lines totalColumns (S groupEnd)
    end.

(** [columnWidths]: the widest line of every column; slot 0 holds the
    space to the right of the first column. *)
Definition widenColumn (columnWidths : list Q) (l : StaveLineAccidentalLayoutMetrics)
  : list Q :=
  match columnWidths !! column l with
  | Some w => if Qltb w (width l) then <[column l := width l]> columnWidths else columnWidths
  | None => columnWidths
  end.

(** [columnXOffsets[i] = columnWidths[i] + columnXOffsets[i - 1]] for
    [i = 1 .. columnWidths.length - 1]. *)
Definition offsetStep (columnWidths : list Q) (columnXOffsets : list Q) (i : nat)
  : list Q :=
  match columnWidths !! i, columnXOffsets !! (i - 1)%nat with
  | Some w, Some o => <[i := w + o]> columnXOffsets
  | _, _ => columnXOffsets
  end.

Definition columnOffsets (totalColumns : nat) (leftShift maxExtraXSpaceNeeded : Q)
    (lines : list StaveLineAccidentalLayoutMetrics) : list Q * list Q :=
  let columnWidths := <[0%nat := leftShift + maxExtraXSpaceNeeded]> (replicate (S totalColumns) 0) in
  let columnXOffsets := <[0%nat := leftShift]> (replicate (S totalColumns) 0) in
  let columnWidths := fold_left widenColumn lines columnWidths in
  let columnXOffsets :=
    fold_left (offsetStep columnWidths) (seq 1 (length columnWidths - 1)) columnXOffsets in
  (columnWidths, columnXOffsets).

(** The inner loop of the last pass: the accidentals of one line, from
    [accCount] on.  The state is [(accidentals, lineWidth)]. *)
Fixpoint shiftLine (accidentalSpacing maxExtraXSpaceNeeded columnXOffset : Q)
    (entries : list AccidentalLinePositionsAndXSpaceNeeds)
    (accidentals : list Accidental) (lineWidth : Q) (accCount n : nat)
  : Result (list Accidental) :=
  match n with
  | O => Ok accidentals
  | S n' =>
      let xShift := columnXOffset + lineWidth + maxExtraXSpaceNeeded in
      let* entry := definedR (entries !! accCount) in
      let accidentals := alter (fun a => setXShift a xShift) (e_pos entry) accidentals in
      let lineWidth := lineWidth + (acc_width (e_accidental entry) + accidentalSpacing) in
      shiftLine accidentalSpacing maxExtraXSpaceNeeded columnXOffset entries
                accidentals lineWidth (S accCount) n'
  end.

(** The last pass: the state is [(accidentals, accCount)]. *)
Definition shiftStep (accidentalSpacing maxExtraXSpaceNeeded : Q) (columnXOffsets : list Q)
    (entries : list AccidentalLinePositionsAndXSpaceNeeds)
    (st : Result (list Accidental * nat)) (l : StaveLineAccidentalLayoutMetrics)
  : Result (list Accidental * nat) :=
  let* st := st in
  let '(accidentals, accCount) := st in
  let* columnXOffset :=
    match column l with
    | O => Err UndefinedValue
    | S c => match columnXOffsets !! c with
             | Some o => Ok o
             | None => Err UndefinedValue
             end
    end in
  let* accidentals :=
    shiftLine accidentalSpacing maxExtraXSpaceNeeded columnXOffset entries
              accidentals 0 accCount (numAcc l) in
  Ok (accidentals, (accCount + numAcc l)%nat).

(** What a call of [format] leaves behind: the accidentals with their new
    [xShift], the modifier-context state, and the per-line layout metrics
    (local to the call, kept here so that the layout can be observed). *)
Record FormatOutput : Type := mkOutput {
  out_accidentals : list Accidental;
  out_state : ModifierContextState;
  out_lines : list StaveLineAccidentalLayoutMetrics;
  out_totalColumns : nat
}.

(** Arrange accidentals inside a ModifierContext. *)
Definition format (table : ColumnsTable) (metrics : AccidentalMetrics)
    (accidentals : list Accidental) (state : ModifierContextState)
  : Result FormatOutput :=
  (* If there are no accidentals, no need to format their positions. *)
  if bool_decide (length accidentals = 0%nat) then
    Ok {| out_accidentals := accidentals; out_state := state;
          out_lines := []; out_totalColumns := 0 |}
  else
    let leftShift := leftShift state + noteheadAccidentalPadding metrics in
    let accidentalSpacing := accidentalSpacing metrics in
    let additionalPadding := leftPadding metrics in
    (* First determine the accidentals' Y positions from the note.keys *)
    let* entries := linePositions accidentals in
    (* Sort accidentals by line number. *)
    let entries := sortByLine entries in
    let '(lines, maxExtraXSpaceNeeded) := lineMetrics accidentalSpacing entries in
    (* Place accidentals in columns *)
    let* placed := placeGroups table (length lines) lines 0 0 in
    let '(lines, totalColumns) := placed in
    (* Convert columns to xOffsets *)
    let '(columnWidths, columnXOffsets) :=
      columnOffsets totalColumns leftShift maxExtraXSpaceNeeded lines in
    let* totalShift :=
      match last columnXOffsets with
      | Some o => Ok o
      | None => Err UndefinedValue
      end in
    let* shifted :=
      fold_left (shiftStep accidentalSpacing maxExtraXSpaceNeeded columnXOffsets entries)
                lines (Ok (accidentals, 0%nat)) in
    Ok {| out_accidentals := fst shifted;
          out_state := {| leftShift := totalShift + additionalPadding |};
          out_lines := lines;
          out_totalColumns := totalColumns |}.

(** The layouts of [Tables.accidentalColumnsTable] (tables.ts), the table
    VexFlow ships.  [format] takes its table as an argument; this is the
    instance it runs with. *)
Definition accidentalColumnsTable : ColumnsTable :=
  fun groupLength endCase =>
    match groupLength, endCase with
    | 1, EndA => Some [1]
    | 1, EndB => Some [1]
    | 2, EndA => Some [1; 2]
    | 3, EndA => Some [1; 3; 2]
    | 3, EndB => Some [1; 2; 1]
    | 3, SecondOnBottom => Some [1; 2; 3]
    | 4, EndA => Some [1; 3; 4; 2]
    | 4, EndB => Some [1; 2; 3; 1]
    | 4, SpacedOutTetrachord => Some [1; 2; 1; 2]
    | 5, EndA => Some [1; 3; 5; 4; 2]
    | 5, EndB => Some [1; 2; 4; 3; 1]
    | 5, SpacedOutPentachord => Some [1; 2; 3; 2; 1]
    | 5, VerySpacedOutPentachord => Some [1; 2; 1; 2; 1]
    | 6, EndA => Some [1; 3; 5; 6; 4; 2]
    | 6, EndB => Some [1; 2; 4; 5; 3; 1]
    | 6, SpacedOutHexachord => Some [1; 3; 2; 1; 3; 2]
    | 6, VerySpacedOutHexachord => Some [1; 2; 1; 2; 1; 2]
    | _, _ => None
    end%nat.

(** ** Notions used to state the layout properties *)

(** Lines in strictly descending order on half-line granularity: a later
    line lies at least half a line below an earlier one. *)
Definition Spaced (lines : list StaveLineAccidentalLayoutMetrics) : Prop :=
  forall i j l1 l2, (i < j)%nat ->
    lines !! i = Some l1 -> lines !! j = Some l2 -> line l2 + 0.5 <= line l1.

(** The classifiers the [switch] of [format] can select for a group of a
    given length below seven. *)
Definition reachableEndCases (groupLength : nat) : list EndCase :=
  match groupLength with
  | 1 => [EndA]
  | 2 => [EndA]
  | 3 => [EndA; EndB; SecondOnBottom]
  | 4 => [EndA; EndB; SpacedOutTetrachord]
  | 5 => [EndA; EndB; SpacedOutPentachord; VerySpacedOutPentachord]
  | 6 => [EndA; EndB; SpacedOutHexachord; VerySpacedOutHexachord]
  | _ => []
  end%nat.

(** The pairs of group members that [format] has tested and found not to
    collide when it selects a classifier. *)
Definition separatedPairs (groupLength : nat) (endCase : EndCase) : list (nat * nat) :=
  match endCase with
  | EndA => []
  | SecondOnBottom => []
  | EndB => [(0, groupLength - 1)]
  | SpacedOutTetrachord => [(0, 2); (1, 3)]
  | SpacedOutPentachord => [(0, 4); (1, 3)]
  | VerySpacedOutPentachord => [(0, 4); (1, 3); (0, 2); (2, 4)]
  | SpacedOutHexachord => [(0, 3); (1, 4); (2, 5)]
  | VerySpacedOutHexachord => [(0, 2); (2, 4); (1, 3); (3, 5)]
  end%nat.

(** A row of the table suits a classifier when it has one column, from 1
    up, for every member, and gives two members the same column only if
    they enclose a pair that was found not to collide. *)
Definition rowOk (groupLength : nat) (endCase : EndCase) (row : list nat) : bool :=
  bool_decide (length row = groupLength)
  && forallb (fun c => bool_decide (1 <= c)%nat) row
  && forallb (fun x =>
       forallb (fun y =>
         implb (bool_decide (x < y)%nat && bool_decide (row !! x = row !! y))
               (existsb (fun pq => bool_decide (x <= fst pq)%nat
                                   && bool_decide (fst pq < snd pq)%nat
                                   && bool_decide (snd pq <= y)%nat)
                        (separatedPairs groupLength endCase)))
         (seq 0 groupLength))
       (seq 0 groupLength).

Definition tableOk (table : ColumnsTable) : bool :=
  forallb (fun groupLength =>
    forallb (fun endCase =>
      match table groupLength endCase with
      | Some row => rowOk groupLength endCase row
      | None => false
      end) (reachableEndCases groupLength))
    (seq 1 6).

(** Two arrays of line metrics that differ in the columns only. *)
Definition sameLines (lines lines' : list StaveLineAccidentalLayoutMetrics) : Prop :=
  forall m, setColumn 0 <$> lines' !! m = setColumn 0 <$> lines !! m.

(** No two lines before index [i], the upper one first, collide and share
    a column. *)
Definition separatedBelow (lines : list StaveLineAccidentalLayoutMetrics) (i : nat) : Prop :=
  forall x y l1 l2, (x < y)%nat -> (y < i)%nat ->
    lines !! x = Some l1 -> lines !! y = Some l2 ->
    checkCollision l1 l2 = true -> column l1 <> column l2.

(** Every line before index [i] has a column between 1 and [total]. *)
Definition columnsBelow (lines : list StaveLineAccidentalLayoutMetrics) (i total : nat) : Prop :=
  forall x l, (x < i)%nat -> lines !! x = Some l -> (1 <= column l <= total)%nat.

(** The accidental names a key of its note. *)
Definition validIndex (a : Accidental) : Prop :=
  is_Some (note_keyLines (acc_note a) !! acc_index a).

(** The line of the accidental's key lies on half-line granularity.  With
    a stave, [format] rounds the line to the nearest half line itself;
    without one it takes the line of the key as it is. *)
Definition onHalfLine (a : Accidental) : Prop :=
  note_stave (acc_note a) = None ->
  forall l, note_keyLines (acc_note a) !! acc_index a = Some l -> halfLine l.

Definition DescendingEntries (entries : list AccidentalLinePositionsAndXSpaceNeeds) : Prop :=
  StronglySorted (fun x y => e_line y <= e_line x) entries.

Definition totalAcc (lines : list StaveLineAccidentalLayoutMetrics) : nat :=
  sum_list_with numAcc lines.

(** ** Sample inputs *)

Definition sampleMetrics : AccidentalMetrics :=
  {| noteheadAccidentalPadding := 1; accidentalSpacing := 3; leftPadding := 2 |}.

(** A chord without a stave whose keys lie on the given lines. *)
Definition chordOn (keyLines : list Q) : Note :=
  {| note_id := 1; note_stave := None; note_keyLines := keyLines;
     note_leftDisplacedHeadPx := 0; note_xShift := 0 |}.

(** Naturals on lines 6 and 4 and a double sharp on line 3. *)
Definition chordWithDblSharp : list Accidental :=
  let chord := chordOn [6; 4; 3] in
  [ {| acc_type := "n"; acc_width := 8; acc_note := chord; acc_index := 0; acc_xShift := 0 |};
    {| acc_type := "n"; acc_width := 8; acc_note := chord; acc_index := 1; acc_xShift := 0 |};
    {| acc_type := "##"; acc_width := 10; acc_note := chord; acc_index := 2; acc_xShift := 0 |} ].

(** A natural on line 3, a flat a quarter line below it and a natural on
    line 0.25: lines off the half-line grid. *)
Definition chordOnQuarterLines : list Accidental :=
  let chord := chordOn [3; 2.75; 0.25] in
  [ {| acc_type := "n"; acc_width := 8; acc_note := chord; acc_index := 0; acc_xShift := 0 |};
    {| acc_type := "b"; acc_width := 8; acc_note := chord; acc_index := 1; acc_xShift := 0 |};
    {| acc_type := "n"; acc_width := 8; acc_note := chord; acc_index := 2; acc_xShift := 0 |} ].

(** A line of accidentals at [l] that holds one accidental of width 8. *)
Definition layoutLineAt (l : Q) (flat dblSharp : bool) : StaveLineAccidentalLayoutMetrics :=
  {| column := 0; line := l; flatLine := flat; dblSharpLine := dblSharp;
     numAcc := 1; width := 8 |}.

End Accidental.

(* ================================================================== *)
(** * The Formatter (formatter.ts) *)
(* ================================================================== *)

(** [Math.pow] / [**] and [Math.sqrt] are not rational functions, and
    [midLine] of util is not among the sources; the Formatter is modelled
    over arbitrary such functions. *)
Record MathFns : Type := mkMath {
  Math_pow : Q -> Q -> Q;
  Math_sqrt : Q -> Q;
  midLine : Q -> Q -> Q
}.

Module Formatter.

(** ** Fraction *)

Record Fraction : Type := mkFraction {
  numerator : Z;
  denominator : Z
}.

(** Modelled from the spec: [Fraction.value], the closest number to the
    fraction (fraction.ts is not among the sources). *)
Definition value (f : Fraction) : Q := inject_Z (numerator f) / inject_Z (denominator f).

(** Modelled from the spec: [Fraction.equals] compares cross-multiplied
    numerators for exactness. *)
Definition equals (f g : Fraction) : bool :=
  (numerator f * denominator g =? numerator g * denominator f)%Z.

(** Modelled from the spec: the static [Fraction.LCM], the least common
    multiple of two positive integers. *)
Definition LCM (a b : Z) : Z := Z.lcm a b.

(** Modelled from the spec: [Fraction.add], exact addition over the least
    common denominator, so that an accumulator whose denominator is the
    common resolution keeps that denominator. *)
Definition add (f g : Fraction) : Fraction :=
  let lcm := LCM (denominator f) (denominator g) in
  {| numerator := numerator f * (lcm / denominator f) + numerator g * (lcm / denominator g);
     denominator := lcm |}%Z.

(** Modelled from the spec: [clone().simplify().toString()], the reduced
    fraction written as numerator/denominator; it names the duration
    class of a note. *)
Definition simplify (f : Fraction) : Fraction :=
  let g := Z.gcd (numerator f) (denominator f) in
  if (g =? 0)%Z then f
  else {| numerator := numerator f / g; denominator := denominator f / g |}%Z.

Definition toString (f : Fraction) : string :=
  pretty (numerator f) +:+ "/" +:+ pretty (denominator f).

(** ** Voice *)

Inductive Mode : Type := STRICT | SOFT.

Definition Mode_eqb (a b : Mode) : bool :=
  match a, b with
  | STRICT, STRICT => true
  | SOFT, SOFT => true
  | _, _ => false
  end.

(** Modelled from the spec: a [Voice] (voice.ts is not among the
    sources): the declared total ticks, the running ticks used, the mode,
    its own resolution multiplier, the softmax factor with its
    normalisation constant, and its tickables in musical order, each
    named by its key in the store of tickables. *)
Record Voice : Type := mkVoice {
  v_totalTicks : Fraction;
  v_ticksUsed : Fraction;
  v_mode : Mode;
  v_resolutionMultiplier : Z;
  v_softmaxFactor : Q;
  v_expTicksUsed : Q;
  v_tickables : list nat
}.

Definition getTotalTicks (v : Voice) : Fraction := v_totalTicks v.
Definition getTicksUsed (v : Voice) : Fraction := v_ticksUsed v.
Definition getMode (v : Voice) : Mode := v_mode v.
Definition getTickables (v : Voice) : list nat := v_tickables v.
Definition getResolutionMultiplierOfVoice (v : Voice) : Z := v_resolutionMultiplier v.

(** Modelled from the spec: [Voice.isComplete], ticks used equals the
    declared total (exact Fraction comparison). *)
Definition isComplete (v : Voice) : bool := equals (v_ticksUsed v) (v_totalTicks v).

(** Modelled from the spec: [Voice.softmax(ticks)] is
    [softmaxFactor ** (ticks / totalTicks) / normalizationConstant]. *)
Definition softmax (M : MathFns) (v : Voice) (ticks : Q) : Q :=
  Math_pow M (v_softmaxFactor v) (ticks / value (v_totalTicks v)) / v_expTicksUsed v.

Definition setSoftmaxFactor (factor : Q) (v : Voice) : Voice :=
  {| v_totalTicks := v_totalTicks v; v_ticksUsed := v_ticksUsed v; v_mode := v_mode v;
     v_resolutionMultiplier := v_resolutionMultiplier v; v_softmaxFactor := factor;
     v_expTicksUsed := v_expTicksUsed v; v_tickables := v_tickables v |}.

(** ** getResolutionMultiplier *)

(** One step of the [reduce] in [getResolutionMultiplier]. *)
Definition resolutionStep (totalTicks : Fraction) (accumulator : Result Z) (voice : Voice)
  : Result Z :=
  let* accumulator := accumulator in
  if negb (equals (getTotalTicks voice) totalTicks) then Err TickMismatch
  else if Mode_eqb (getMode voice) STRICT && negb (isComplete voice) then Err IncompleteVoice
  else Ok (Z.max accumulator (LCM accumulator (getResolutionMultiplierOfVoice voice))).

(** Calculate the resolution multiplier for [voices], which is the least
    common multiple of all the voices' getResolutionMultiplier() results. *)
Definition getResolutionMultiplier (voices : list Voice) : Result Z :=
  match voices with
  | [] => Err BadArgument
  | first :: _ =>
      let totalTicks := getTotalTicks first in
      fold_left (resolutionStep totalTicks) voices (Ok 1%Z)
  end.

(** ** Tickable *)

(** Modelled from the spec: what [Tickable.getMetrics()] reports, the
    intrinsic rendering width and the extra space needed left and right
    for modifiers and displaced note heads (tickable.ts and note.ts are
    not among the sources). *)
Record TickableMetrics : Type := mkTickableMetrics {
  m_width : Q;
  m_notePx : Q;
  m_modLeftPx : Q;
  m_modRightPx : Q;
  m_leftDisplacedHeadPx : Q;
  m_rightDisplacedHeadPx : Q
}.

(** Modelled from the spec: the formatter-computed metrics record
    [{space: {used, mean, deviation}, freedom: {left, right}, duration,
    iterations}] of a Tickable. *)
Record FormatterMetrics : Type := mkFormatterMetrics {
  freedom_left : Q;
  freedom_right : Q;
  space_used : Q;
  space_mean : Q;
  space_deviation : Q;
  fm_duration : string;
  fm_iterations : nat
}.

(** Modelled from the spec: a [Tickable].  [t_tickContext] is the
    back-reference to the TickContext that positions it (the tick of that
    context), [t_voice] the voice it was added to (the key of the voice
    in the store), [t_stave] its stave, if any.  The remaining fields answer the queries of
    [AlignRestsToNotes] and of the justification. *)
Record Tickable : Type := mkTickable {
  t_ticks : Fraction;
  t_metrics : TickableMetrics;
  t_formatterMetrics : FormatterMetrics;
  t_tickContext : option Z;
  t_voice : nat;
  t_stave : option nat;
  t_isNote : bool;
  t_isStaveNote : bool;
  t_isRest : bool;
  t_ignoreTicks : bool;
  t_hasTuplet : bool;
  t_hasBeam : bool;
  t_lineForRest : Q;
  t_keyLine : Q;
  t_centerAligned : bool;
  t_centerXShift : Q
}.

Definition getTicks (t : Tickable) : Fraction := t_ticks t.
Definition getMetrics (t : Tickable) : TickableMetrics := t_metrics t.
Definition getFormatterMetrics (t : Tickable) : FormatterMetrics := t_formatterMetrics t.
Definition getWidthOfTickable (t : Tickable) : Q := m_width (t_metrics t).

Definition setFormatterMetrics (fm : FormatterMetrics) (t : Tickable) : Tickable :=
  {| t_ticks := t_ticks t; t_metrics := t_metrics t; t_formatterMetrics := fm;
     t_tickContext := t_tickContext t; t_voice := t_voice t; t_stave := t_stave t;
     t_isNote := t_isNote t;
     t_isStaveNote := t_isStaveNote t; t_isRest := t_isRest t;
     t_ignoreTicks := t_ignoreTicks t; t_hasTuplet := t_hasTuplet t;
     t_hasBeam := t_hasBeam t; t_lineForRest := t_lineForRest t;
     t_keyLine := t_keyLine t; t_centerAligned := t_centerAligned t;
     t_centerXShift := t_centerXShift t |}.

Definition setTickContext (tick : Z) (t : Tickable) : Tickable :=
  {| t_ticks := t_ticks t; t_metrics := t_metrics t;
     t_formatterMetrics := t_formatterMetrics t;
     t_tickContext := Some tick; t_voice := t_voice t; t_stave := t_stave t;
     t_isNote := t_isNote t;
     t_isStaveNote := t_isStaveNote t; t_isRest := t_isRest t;
     t_ignoreTicks := t_ignoreTicks t; t_hasTuplet := t_hasTuplet t;
     t_hasBeam := t_hasBeam t; t_lineForRest := t_lineForRest t;
     t_keyLine := t_keyLine t; t_centerAligned := t_centerAligned t;
     t_centerXShift := t_centerXShift t |}.

Definition setKeyLine (l : Q) (t : Tickable) : Tickable :=
  {| t_ticks := t_ticks t; t_metrics := t_metrics t;
     t_formatterMetrics := t_formatterMetrics t;
     t_tickContext := t_tickContext t; t_voice := t_voice t; t_stave := t_stave t;
     t_isNote := t_isNote t;
     t_isStaveNote := t_isStaveNote t; t_isRest := t_isRest t;
     t_ignoreTicks := t_ignoreTicks t; t_hasTuplet := t_hasTuplet t;
     t_hasBeam := t_hasBeam t; t_lineForRest := t_lineForRest t;
     t_keyLine := l; t_centerAligned := t_centerAligned t;
     t_centerXShift := t_centerXShift t |}.

Definition setCenterXShift (x : Q) (t : Tickable) : Tickable :=
  {| t_ticks := t_ticks t; t_metrics := t_metrics t;
     t_formatterMetrics := t_formatterMetrics t;
     t_tickContext := t_tickContext t; t_voice := t_voice t; t_stave := t_stave t;
     t_isNote := t_isNote t;
     t_isStaveNote := t_isStaveNote t; t_isRest := t_isRest t;
     t_ignoreTicks := t_ignoreTicks t; t_hasTuplet := t_hasTuplet t;
     t_hasBeam := t_hasBeam t; t_lineForRest := t_lineForRest t;
     t_keyLine := t_keyLine t; t_centerAligned := t_centerAligned t;
     t_centerXShift := x |}.

(** The objects shared between the caller, the voices and the tick
    contexts: every Voice and every Tickable under its key. *)
Record Store : Type := mkStore {
  s_voices : gmap nat Voice;
  s_tickables : gmap nat Tickable
}.

Definition getVoiceOf (s : Store) (v : nat) : Result Voice := definedR (s_voices s !! v).
Definition getTickable (s : Store) (t : nat) : Result Tickable := definedR (s_tickables s !! t).

Definition updateTickable (f : Tickable -> Tickable) (t : nat) (s : Store) : Store :=
  {| s_voices := s_voices s; s_tickables := alter f t (s_tickables s) |}.

Definition updateVoice (f : Voice -> Voice) (v : nat) (s : Store) : Store :=
  {| s_voices := alter f v (s_voices s); s_tickables := s_tickables s |}.

(** [voices.map(deref)], failing on a dangling key. *)
Fixpoint getVoices (s : Store) (voices : list nat) : Result (list Voice) :=
  match voices with
  | [] => Ok []
  | v :: voices' =>
      let* voice := getVoiceOf s v in
      let* rest := getVoices s voices' in
      Ok (voice :: rest)
  end.

Fixpoint getTickablesOf (s : Store) (ts : list nat) : Result (list Tickable) :=
  match ts with
  | [] => Ok []
  | t :: ts' =>
      let* tickable := getTickable s t in
      let* rest := getTickablesOf s ts' in
      Ok (tickable :: rest)
  end.

(** ** TickContext *)

(** Modelled from the spec: a [TickContext] (tickcontext.ts is not among
    the sources): its integer tick, the tickables at that tick in the
    order added and by voice index (ascending, as [Object.keys] lists
    them), its x, its width and the aggregated left and right totals, and
    the freedom the formatter grants it. *)
Record TickContext : Type := mkTickContext {
  tc_tickID : Z;
  tc_tickables : list nat;
  tc_tickablesByVoice : list (nat * nat);
  tc_x : Q;
  tc_width : Q;
  tc_notePx : Q;
  tc_totalLeftPx : Q;
  tc_totalRightPx : Q;
  tc_freedomLeft : Q;
  tc_freedomRight : Q
}.

Definition newTickContext (tickID : Z) : TickContext :=
  {| tc_tickID := tickID; tc_tickables := []; tc_tickablesByVoice := [];
     tc_x := 0; tc_width := 0; tc_notePx := 0; tc_totalLeftPx := 0;
     tc_totalRightPx := 0; tc_freedomLeft := 0; tc_freedomRight := 0 |}.

(** [tickablesByVoice[voiceIndex] = tickable]. *)
Fixpoint setByVoice (voiceIndex tickable : nat) (m : list (nat * nat)) : list (nat * nat) :=
  match m with
  | [] => [(voiceIndex, tickable)]
  | (v, t) :: m' =>
      if bool_decide (voiceIndex < v)%nat then (voiceIndex, tickable) :: m
      else if bool_decide (voiceIndex = v) then (voiceIndex, tickable) :: m'
      else (v, t) :: setByVoice voiceIndex tickable m'
  end.

Fixpoint getByVoice (m : list (nat * nat)) (voiceIndex : nat) : option nat :=
  match m with
  | [] => None
  | (v, t) :: m' => if bool_decide (v = voiceIndex) then Some t else getByVoice m' voiceIndex
  end.

(** Modelled from the spec: [TickContext.addTickable(tickable, voiceIndex)]
    attaches the tickable under its voice index. *)
Definition addTickable (tickable voiceIndex : nat) (c : TickContext) : TickContext :=
  {| tc_tickID := tc_tickID c;
     tc_tickables := tc_tickables c ++ [tickable];
     tc_tickablesByVoice := setByVoice voiceIndex tickable (tc_tickablesByVoice c);
     tc_x := tc_x c; tc_width := tc_width c; tc_notePx := tc_notePx c;
     tc_totalLeftPx := tc_totalLeftPx c; tc_totalRightPx := tc_totalRightPx c;
     tc_freedomLeft := tc_freedomLeft c; tc_freedomRight := tc_freedomRight c |}.

Definition setX (x : Q) (c : TickContext) : TickContext :=
  {| tc_tickID := tc_tickID c; tc_tickables := tc_tickables c;
     tc_tickablesByVoice := tc_tickablesByVoice c;
     tc_x := x; tc_width := tc_width c; tc_notePx := tc_notePx c;
     tc_totalLeftPx := tc_totalLeftPx c; tc_totalRightPx := tc_totalRightPx c;
     tc_freedomLeft := tc_freedomLeft c; tc_freedomRight := tc_freedomRight c |}.

Definition setFreedomLeft (x : Q) (c : TickContext) : TickContext :=
  {| tc_tickID := tc_tickID c; tc_tickables := tc_tickables c;
     tc_tickablesByVoice := tc_tickablesByVoice c;
     tc_x := tc_x c; tc_width := tc_width c; tc_notePx := tc_notePx c;
     tc_totalLeftPx := tc_totalLeftPx c; tc_totalRightPx := tc_totalRightPx c;
     tc_freedomLeft := x; tc_freedomRight := tc_freedomRight c |}.

Definition setFreedomRight (x : Q) (c : TickContext) : TickContext :=
  {| tc_tickID := tc_tickID c; tc_tickables := tc_tickables c;
     tc_tickablesByVoice := tc_tickablesByVoice c;
     tc_x := tc_x c; tc_width := tc_width c; tc_notePx := tc_notePx c;
     tc_totalLeftPx := tc_totalLeftPx c; tc_totalRightPx := tc_totalRightPx c;
     tc_freedomLeft := tc_freedomLeft c; tc_freedomRight := x |}.

Definition getX (c : TickContext) : Q := tc_x c.
Definition getWidth (c : TickContext) : Q := tc_width c.

(** Modelled from the spec: the width a Tickable requires, its natural
    rendering width with its side-clearance needs. *)
Definition requiredWidth (t : Tickable) : Q :=
  let m := getMetrics t in
  m_width m + (m_modLeftPx m + m_leftDisplacedHeadPx m)
            + (m_modRightPx m + m_rightDisplacedHeadPx m).

(** Modelled from the spec: [TickContext.preFormat] asks its tickables
    for their widths and side-clearance needs; the width of the context
    is the largest required width, its left and right totals the largest
    among its tickables. *)
Definition preFormatStep (c : TickContext) (t : Tickable) : TickContext :=
  let m := getMetrics t in
  {| tc_tickID := tc_tickID c; tc_tickables := tc_tickables c;
     tc_tickablesByVoice := tc_tickablesByVoice c;
     tc_x := tc_x c;
     tc_width := maxQ (tc_width c) (requiredWidth t);
     tc_notePx := maxQ (tc_notePx c) (m_notePx m);
     tc_totalLeftPx := maxQ (tc_totalLeftPx c) (m_modLeftPx m + m_leftDisplacedHeadPx m);
     tc_totalRightPx := maxQ (tc_totalRightPx c) (m_modRightPx m + m_rightDisplacedHeadPx m);
     tc_freedomLeft := tc_freedomLeft c; tc_freedomRight := tc_freedomRight c |}.

Definition preFormatContext (s : Store) (c : TickContext) : Result TickContext :=
  let* ts := getTickablesOf s (tc_tickables c) in
  Ok (fold_left preFormatStep ts c).

(** ** The Formatter object *)

Record FormatterOptions : Type := mkOptions {
  softmaxFactor : Q;
  globalSoftmax : bool;
  maxIterations : Z
}.

(** The optional [options] argument of the constructor. *)
Record FormatterOptionsArg : Type := mkOptionsArg {
  arg_softmaxFactor : option Q;
  arg_globalSoftmax : option bool;
  arg_maxIterations : option Z
}.

Record AlignmentTickContexts : Type := mkTickContexts {
  atc_list : list Z;
  atc_map : gmap Z TickContext;
  atc_array : list Z;
  atc_resolutionMultiplier : Z
}.

(** A [ModifierContext] is known here by the tickables added to it. *)
Record ModifierContext : Type := mkModifierContext {
  mc_members : list nat
}.

Record AlignmentModifierContexts : Type := mkModifierContexts {
  amc_map : gmap (option nat * Z) nat;
  amc_array : list ModifierContext;
  amc_resolutionMultiplier : Z
}.

Record ContextGaps : Type := mkGaps {
  gaps_total : Q;
  gaps : list (Q * Q)
}.

Record DurationStats : Type := mkStats {
  stats_mean : Q;
  stats_count : Q;
  stats_total : Q
}.

Record Formatter : Type := mkFormatter {
  hasMinTotalWidth : bool;
  minTotalWidth : Q;
  contextGaps : ContextGaps;
  justifyWidth : Q;
  totalCost : Q;
  totalShift : Q;
  tickContexts : AlignmentTickContexts;
  formatterOptions : FormatterOptions;
  modifierContexts : list AlignmentModifierContexts;
  voices : list nat;
  lossHistory : list Q;
  durationStats : gmap string DurationStats
}.

Definition set_hasMinTotalWidth (x : bool) (this : Formatter) : Formatter :=
  {| hasMinTotalWidth := x;
     minTotalWidth := minTotalWidth this;
     contextGaps := contextGaps this;
     justifyWidth := justifyWidth this;
     totalCost := totalCost this;
     totalShift := totalShift this;
     tickContexts := tickContexts this;
     formatterOptions := formatterOptions this;
     modifierContexts := modifierContexts this;
     voices := voices this;
     lossHistory := lossHistory this;
     durationStats := durationStats this |}.

Definition set_minTotalWidth (x : Q) (this : Formatter) : Formatter :=
  {| hasMinTotalWidth := hasMinTotalWidth this;
     minTotalWidth := x;
     contextGaps := contextGaps this;
     justifyWidth := justifyWidth this;
     totalCost := totalCost this;
     totalShift := totalShift this;
     tickContexts := tickContexts this;
     formatterOptions := formatterOptions this;
     modifierContexts := modifierContexts this;
     voices := voices this;
     lossHistory := lossHistory this;
     durationStats := durationStats this |}.

Definition set_contextGaps (x : ContextGaps) (this : Formatter) : Formatter :=
  {| hasMinTotalWidth := hasMinTotalWidth this;
     minTotalWidth := minTotalWidth this;
     contextGaps := x;
     justifyWidth := justifyWidth this;
     totalCost := totalCost this;
     totalShift := totalShift this;
     tickContexts := tickContexts this;
     formatterOptions := formatterOptions this;
     modifierContexts := modifierContexts this;
     voices := voices this;
     lossHistory := lossHistory this;
     durationStats := durationStats this |}.

Definition set_justifyWidth (x : Q) (this : Formatter) : Formatter :=
  {| hasMinTotalWidth := hasMinTotalWidth this;
     minTotalWidth := minTotalWidth this;
     contextGaps := contextGaps this;
     justifyWidth := x;
     totalCost := totalCost this;
     totalShift := totalShift this;
     tickContexts := tickContexts this;
     formatterOptions := formatterOptions this;
     modifierContexts := modifierContexts this;
     voices := voices this;
     lossHistory := lossHistory this;
     durationStats := durationStats this |}.

Definition set_totalCost (x : Q) (this : Formatter) : Formatter :=
  {| hasMinTotalWidth := hasMinTotalWidth this;
     minTotalWidth := minTotalWidth this;
     contextGaps := contextGaps this;
     justifyWidth := justifyWidth this;
     totalCost := x;
     totalShift := totalShift this;
     tickContexts := tickContexts this;
     formatterOptions := formatterOptions this;
     modifierContexts := modifierContexts this;
     voices := voices this;
     lossHistory := lossHistory this;
     durationStats := durationStats this |}.

Definition set_totalShift (x : Q) (this : Formatter) : Formatter :=
  {| hasMinTotalWidth := hasMinTotalWidth this;
     minTotalWidth := minTotalWidth this;
     contextGaps := contextGaps this;
     justifyWidth := justifyWidth this;
     totalCost := totalCost this;
     totalShift := x;
     tickContexts := tickContexts this;
     formatterOptions := formatterOptions this;
     modifierContexts := modifierContexts this;
     voices := voices this;
     lossHistory := lossHistory this;
     durationStats := durationStats this |}.

Definition set_tickContexts (x : AlignmentTickContexts) (this : Formatter) : Formatter :=
  {| hasMinTotalWidth := hasMinTotalWidth this;
     minTotalWidth := minTotalWidth this;
     contextGaps := contextGaps this;
     justifyWidth := justifyWidth this;
     totalCost := totalCost this;
     totalShift := totalShift this;
     tickContexts := x;
     formatterOptions := formatterOptions this;
     modifierContexts := modifierContexts this;
     voices := voices this;
     lossHistory := lossHistory this;
     durationStats := durationStats this |}.

Definition set_modifierContexts (x : list AlignmentModifierContexts) (this : Formatter) : Formatter :=
  {| hasMinTotalWidth := hasMinTotalWidth this;
     minTotalWidth := minTotalWidth this;
     contextGaps := contextGaps this;
     justifyWidth := justifyWidth this;
     totalCost := totalCost this;
     totalShift := totalShift this;
     tickContexts := tickContexts this;
     formatterOptions := formatterOptions this;
     modifierContexts := x;
     voices := voices this;
     lossHistory := lossHistory this;
     durationStats := durationStats this |}.

Definition set_voices (x : list nat) (this : Formatter) : Formatter :=
  {| hasMinTotalWidth := hasMinTotalWidth this;
     minTotalWidth := minTotalWidth this;
     contextGaps := contextGaps this;
     justifyWidth := justifyWidth this;
     totalCost := totalCost this;
     totalShift := totalShift this;
     tickContexts := tickContexts this;
     formatterOptions := formatterOptions this;
     modifierContexts := modifierContexts this;
     voices := x;
     lossHistory := lossHistory this;
     durationStats := durationStats this |}.

Definition set_lossHistory (x : list Q) (this : Formatter) : Formatter :=
  {| hasMinTotalWidth := hasMinTotalWidth this;
     minTotalWidth := minTotalWidth this;
     contextGaps := contextGaps this;
     justifyWidth := justifyWidth this;
     totalCost := totalCost this;
     totalShift := totalShift this;
     tickContexts := tickContexts this;
     formatterOptions := formatterOptions this;
     modifierContexts := modifierContexts this;
     voices := voices this;
     lossHistory := x;
     durationStats := durationStats this |}.

Definition set_durationStats (x : gmap string DurationStats) (this : Formatter) : Formatter :=
  {| hasMinTotalWidth := hasMinTotalWidth this;
     minTotalWidth := minTotalWidth this;
     contextGaps := contextGaps this;
     justifyWidth := justifyWidth this;
     totalCost := totalCost this;
     totalShift := totalShift this;
     tickContexts := tickContexts this;
     formatterOptions := formatterOptions this;
     modifierContexts := modifierContexts this;
     voices := voices this;
     lossHistory := lossHistory this;
     durationStats := x |}.

(** The values the Formatter fetches with [Metrics.get]. *)
Record StaveMetrics : Type := mkStaveMetrics {
  unalignedNotePadding : Q;
  endPaddingMin : Q;
  endPaddingMax : Q;
  stavePadding : Q
}.

Definition emptyTickContexts : AlignmentTickContexts :=
  {| atc_map := ∅; atc_array := []; atc_list := []; atc_resolutionMultiplier := 0 |}.

(** [new Formatter(options)]; [SOFTMAX_FACTOR] is [Tables.SOFTMAX_FACTOR]. *)
Definition constructor (SOFTMAX_FACTOR : Q) (options : FormatterOptionsArg) : Formatter :=
  {| formatterOptions :=
       {| globalSoftmax := default false (arg_globalSoftmax options);
          softmaxFactor := default SOFTMAX_FACTOR (arg_softmaxFactor options);
          maxIterations := default 5%Z (arg_maxIterations options) |};
     justifyWidth := 0;
     totalCost := 0;
     totalShift := 0;
     durationStats := ∅;
     minTotalWidth := 0;
     hasMinTotalWidth := false;
     tickContexts := emptyTickContexts;
     modifierContexts := [];
     contextGaps := {| gaps_total := 0; gaps := [] |};
     voices := [];
     lossHistory := [] |}.

Definition noOptions : FormatterOptionsArg :=
  {| arg_softmaxFactor := None; arg_globalSoftmax := None; arg_maxIterations := None |}.

(** Get minimum width required to render all voices. *)
Definition getMinTotalWidth (this : Formatter) : Result Q :=
  if negb (hasMinTotalWidth this) then Err NoMinTotalWidth
  else Ok (minTotalWidth this).

(** ** createModifierContexts and joinVoices *)

Record ModifierContextsLoop : Type := mkMCLoop {
  mcl_store : Store;
  mcl_map : gmap (option nat * Z) nat;
  mcl_contexts : list ModifierContext;
  mcl_ticksUsed : Fraction
}.

Definition modifierContextStep (acc : Result ModifierContextsLoop) (tickable : nat)
  : Result ModifierContextsLoop :=
  let* st := acc in
  let* t := getTickable (mcl_store st) tickable in
  let integerTicks := numerator (mcl_ticksUsed st) in
  let key := (t_stave t, integerTicks) in
  let '(map, contexts, index) :=
    match mcl_map st !! key with
    | Some index => (mcl_map st, mcl_contexts st, index)
    | None =>
        (<[key := length (mcl_contexts st)]> (mcl_map st),
         mcl_contexts st ++ [{| mc_members := [] |}],
         length (mcl_contexts st))
    end in
  (* tickable.addToModifierContext(context) *)
  let contexts :=
    alter (fun c => {| mc_members := mc_members c ++ [tickable] |}) index contexts in
  Ok {| mcl_store := mcl_store st; mcl_map := map; mcl_contexts := contexts;
        mcl_ticksUsed := add (mcl_ticksUsed st) (getTicks t) |}.

Definition modifierContextVoice (resolutionMultiplier : Z)
    (acc : Result ModifierContextsLoop) (voice : Voice) : Result ModifierContextsLoop :=
  let* st := acc in
  let ticksUsed := {| numerator := 0; denominator := resolutionMultiplier |} in
  fold_left modifierContextStep (getTickables voice)
    (Ok {| mcl_store := mcl_store st; mcl_map := mcl_map st;
           mcl_contexts := mcl_contexts st; mcl_ticksUsed := ticksUsed |}).

(** Create a [ModifierContext] for each tick in [voices]. *)
Definition createModifierContexts (voices : list nat) (s : Store) (this : Formatter)
  : Result (Store * Formatter) :=
  if bool_decide (length voices = 0%nat) then Ok (s, this)
  else
    let* vs := getVoices s voices in
    let* resolutionMultiplier := getResolutionMultiplier vs in
    let* st :=
      fold_left (modifierContextVoice resolutionMultiplier) vs
        (Ok {| mcl_store := s; mcl_map := ∅; mcl_contexts := [];
               mcl_ticksUsed := {| numerator := 0; denominator := resolutionMultiplier |} |}) in
    Ok (mcl_store st,
        set_modifierContexts
          (modifierContexts this ++
           [{| amc_map := mcl_map st; amc_array := mcl_contexts st;
               amc_resolutionMultiplier := resolutionMultiplier |}]) this).

(** Take all [voices] and create [ModifierContext]s out of them. *)
Definition joinVoices (voices : list nat) (s : Store) (this : Formatter)
  : Result (Store * Formatter) :=
  let* r := createModifierContexts voices s this in
  let '(s, this) := r in
  Ok (s, set_hasMinTotalWidth false this).

(** ** createTickContexts *)

Record TickContextsLoop : Type := mkTCLoop {
  tcl_store : Store;
  tcl_map : gmap Z TickContext;
  tcl_tickList : list Z;
  tcl_tickContexts : list Z;
  tcl_ticksUsed : Fraction
}.

Definition tickContextStep (voiceIndex : nat) (acc : Result TickContextsLoop) (tickable : nat)
  : Result TickContextsLoop :=
  let* st := acc in
  let* t := getTickable (tcl_store st) tickable in
  let integerTicks := numerator (tcl_ticksUsed st) in
  (* If we have no tick context for this tick, create one. *)
  let '(map, tickContexts, tickList) :=
    match tcl_map st !! integerTicks with
    | Some _ => (tcl_map st, tcl_tickContexts st, tcl_tickList st)
    | None =>
        (<[integerTicks := newTickContext integerTicks]> (tcl_map st),
         tcl_tickContexts st ++ [integerTicks],
         tcl_tickList st ++ [integerTicks])
    end in
  (* Add this tickable to the TickContext. *)
  let map := alter (addTickable tickable voiceIndex) integerTicks map in
  Ok {| tcl_store := updateTickable (setTickContext integerTicks) tickable (tcl_store st);
        tcl_map := map; tcl_tickList := tickList; tcl_tickContexts := tickContexts;
        tcl_ticksUsed := add (tcl_ticksUsed st) (getTicks t) |}.

Definition tickContextVoice (resolutionMultiplier : Z)
    (acc : Result TickContextsLoop) (iv : nat * Voice) : Result TickContextsLoop :=
  let* st := acc in
  let '(voiceIndex, voice) := iv in
  let ticksUsed := {| numerator := 0; denominator := resolutionMultiplier |} in
  fold_left (tickContextStep voiceIndex) (getTickables voice)
    (Ok {| tcl_store := tcl_store st; tcl_map := tcl_map st;
           tcl_tickList := tcl_tickList st; tcl_tickContexts := tcl_tickContexts st;
           tcl_ticksUsed := ticksUsed |}).

(** Create a [TickContext] for each tick in [voices]. *)
Definition createTickContexts (voices : list nat) (s : Store) (this : Formatter)
  : Result (AlignmentTickContexts * Store * Formatter) :=
  if bool_decide (length voices = 0%nat) then
    (* We need to short-circuit this since at present,
       Formatter.getResolutionMultiplier throws an error on no voices. *)
    Ok (emptyTickContexts, s, this)
  else
    let* vs := getVoices s voices in
    let* resolutionMultiplier := getResolutionMultiplier vs in
    let* st :=
      fold_left (tickContextVoice resolutionMultiplier) (imap (fun i v => (i, v)) vs)
        (Ok {| tcl_store := s; tcl_map := ∅; tcl_tickList := []; tcl_tickContexts := [];
               tcl_ticksUsed := {| numerator := 0; denominator := resolutionMultiplier |} |}) in
    let contexts :=
      {| atc_map := tcl_map st;
         atc_array := tcl_tickContexts st;
         atc_list := merge_sort Z.le (tcl_tickList st);
         atc_resolutionMultiplier := resolutionMultiplier |} in
    Ok (contexts, tcl_store st, set_tickContexts contexts this).

(** Modelled from the spec: the x of a Tickable is the x of the
    TickContext that positions it; a Tickable without one has none. *)
Definition getXOfTickable (contextMap : gmap Z TickContext) (t : Tickable) : Result Q :=
  match t_tickContext t with
  | None => Err NoTickContext
  | Some tick =>
      match contextMap !! tick with
      | Some c => Ok (getX c)
      | None => Err NoTickContext
      end
  end.

(** ** preCalculateMinTotalWidth *)

Record WidthLoop : Type := mkWidthLoop {
  wl_map : gmap Z TickContext;
  wl_unalignedCtxCount : Q;
  wl_wsum : Q;
  wl_dsum : Q;
  wl_widths : list Q;
  wl_durations : list Q;
  wl_minTotalWidth : Q
}.

(** Calculate the 'width entropy' over all the Tickables. *)
Definition entropyStep (st : WidthLoop) (t : Tickable) : WidthLoop :=
  {| wl_map := wl_map st;
     wl_unalignedCtxCount := wl_unalignedCtxCount st;
     wl_wsum := wl_wsum st + m_width (getMetrics t);
     wl_dsum := wl_dsum st + value (getTicks t);
     wl_widths := wl_widths st ++ [m_width (getMetrics t)];
     wl_durations := wl_durations st ++ [value (getTicks t)];
     wl_minTotalWidth := wl_minTotalWidth st |}.

(** The body of [contextList.forEach] in [preCalculateMinTotalWidth]. *)
Definition widthStep (s : Store) (nvoices : nat) (acc : Result WidthLoop) (tick : Z)
  : Result WidthLoop :=
  let* st := acc in
  let* context := definedR (wl_map st !! tick) in
  let* context := preFormatContext s context in
  let* ts := getTickablesOf s (tc_tickables context) in
  (* If this TC doesn't have all the voices on it, it's unaligned. *)
  let unalignedCtxCount :=
    if bool_decide (length (tc_tickables context) < nvoices)%nat
    then wl_unalignedCtxCount st + 1 else wl_unalignedCtxCount st in
  let st :=
    fold_left entropyStep ts
      {| wl_map := <[tick := context]> (wl_map st);
         wl_unalignedCtxCount := unalignedCtxCount;
         wl_wsum := wl_wsum st; wl_dsum := wl_dsum st;
         wl_widths := wl_widths st; wl_durations := wl_durations st;
         wl_minTotalWidth := wl_minTotalWidth st |} in
  let width := getWidth context in
  Ok {| wl_map := wl_map st; wl_unalignedCtxCount := wl_unalignedCtxCount st;
        wl_wsum := wl_wsum st; wl_dsum := wl_dsum st;
        wl_widths := wl_widths st; wl_durations := wl_durations st;
        wl_minTotalWidth := wl_minTotalWidth st + width |}.

Definition lengthQ {A : Type} (l : list A) : Q := inject_Z (Z.of_nat (length l)).

(** The padding added on top of the bare minimum: the greatest of the
    three estimates.  [None] stands for a result that is not a finite
    number: without any tickable the averages divide by zero, and so does
    the duration estimate when the tick values sum to zero. *)
Definition paddingEstimate (M : MathFns) (unalignedPadding : Q) (contexts : nat)
    (st : WidthLoop) : option Q :=
  let widths := wl_widths st in
  let durations := wl_durations st in
  if bool_decide (length widths = 0%nat) then None
  else
    (* normalized (0-1) STDDEV of widths/durations gives us padding hints. *)
    let wavg := if Qltb 0 (wl_wsum st) then wl_wsum st / lengthQ widths
                else 1 / lengthQ widths in
    let wvar := sumArray (List.map (fun ll => Math_pow M (ll - wavg) 2) widths) in
    let wpads := Math_pow M (wvar / lengthQ widths) 0.5 / wavg in
    let davg := wl_dsum st / lengthQ durations in
    if Qeq_bool davg 0 then None
    else
      let dvar := sumArray (List.map (fun ll => Math_pow M (ll - davg) 2) durations) in
      let dpads := Math_pow M (dvar / lengthQ durations) 0.5 / davg in
      (* Find max of 3 methods pad the width with that *)
      let padmax := maxQ dpads wpads * inject_Z (Z.of_nat contexts) * unalignedPadding in
      let unalignedPad := unalignedPadding * wl_unalignedCtxCount st in
      Some (maxQ unalignedPad padmax).

Definition withMap (m : gmap Z TickContext) (c : AlignmentTickContexts)
  : AlignmentTickContexts :=
  {| atc_list := atc_list c; atc_map := m; atc_array := atc_array c;
     atc_resolutionMultiplier := atc_resolutionMultiplier c |}.

(** Estimate the width required to render [voices].  The argument is
    [None] for a missing [voices]. *)
Definition preCalculateMinTotalWidth (M : MathFns) (cfg : StaveMetrics)
    (voices : option (list nat)) (s : Store) (this : Formatter)
  : Result (option Q * Store * Formatter) :=
  let unalignedPadding := unalignedNotePadding cfg in
  (* Cache results. *)
  if hasMinTotalWidth this then Ok (Some (minTotalWidth this), s, this)
  else
    match voices with
    | None => Err BadArgument
    | Some voices =>
        (* Create tick contexts. *)
        let* r := createTickContexts voices s this in
        let '(_, s, this) := r in
        let contextList := atc_list (tickContexts this) in
        let contextMap := atc_map (tickContexts this) in
        let this := set_minTotalWidth 0 this in
        let* st :=
          fold_left (widthStep s (length voices)) contextList
            (Ok {| wl_map := contextMap; wl_unalignedCtxCount := 0;
                   wl_wsum := 0; wl_dsum := 0; wl_widths := []; wl_durations := [];
                   wl_minTotalWidth := minTotalWidth this |}) in
        let this := set_tickContexts (withMap (wl_map st) (tickContexts this)) this in
        let this := set_minTotalWidth (wl_minTotalWidth st) this in
        let this := set_hasMinTotalWidth true this in
        let result :=
          match paddingEstimate M unalignedPadding (length contextList) st with
          | Some padding => Some (minTotalWidth this + padding)
          | None => None
          end in
        Ok (result, s, this)
    end.

(** ** evaluate *)

Definition setFreedom (left right : option Q) (fm : FormatterMetrics) : FormatterMetrics :=
  {| freedom_left := default (freedom_left fm) left;
     freedom_right := default (freedom_right fm) right;
     space_used := space_used fm; space_mean := space_mean fm;
     space_deviation := space_deviation fm; fm_duration := fm_duration fm;
     fm_iterations := fm_iterations fm |}.

Definition setSpaceUsed (used : Q) (fm : FormatterMetrics) : FormatterMetrics :=
  {| freedom_left := freedom_left fm; freedom_right := freedom_right fm;
     space_used := used; space_mean := space_mean fm;
     space_deviation := space_deviation fm; fm_duration := fm_duration fm;
     fm_iterations := fm_iterations fm |}.

(** Calculate available slack per tick context: the body of
    [contexts.list.forEach], for [index > 0]. *)
Definition gapStep (ticks : list Z) (acc : Result (gmap Z TickContext * ContextGaps))
    (index : nat) : Result (gmap Z TickContext * ContextGaps) :=
  let* st := acc in
  let '(contextMap, contextGaps) := st in
  if bool_decide (index = 0%nat) then Ok st
  else
    let* tick := definedR (ticks !! index) in
    let* prevTick := definedR (ticks !! (index - 1)%nat) in
    let* prevContext := definedR (contextMap !! prevTick) in
    let* context := definedR (contextMap !! tick) in
    (* Calculate X position of right edge of previous note *)
    let insideRightEdge := getX prevContext + tc_notePx prevContext + tc_totalRightPx prevContext in
    (* Calculate X position of left edge of current note *)
    let insideLeftEdge := getX context - tc_totalLeftPx context in
    let gap := insideLeftEdge - insideRightEdge in
    let contextGaps :=
      {| gaps_total := gaps_total contextGaps + gap;
         gaps := gaps contextGaps ++ [(insideRightEdge, insideLeftEdge)] |} in
    (* Tell the tick contexts how much they can reposition themselves. *)
    let contextMap := alter (setFreedomLeft gap) tick contextMap in
    let contextMap := alter (setFreedomRight gap) prevTick contextMap in
    Ok (contextMap, contextGaps).

Definition updateStats (duration : string) (space : Q)
    (durationStats : gmap string DurationStats) : gmap string DurationStats :=
  match durationStats !! duration with
  | None =>
      <[duration := {| stats_mean := space; stats_count := 1; stats_total := space |}]>
        durationStats
  | Some stats =>
      let count := stats_count stats + 1 in
      let total := stats_total stats + space in
      <[duration := {| stats_mean := total / count; stats_count := count;
                       stats_total := total |}]> durationStats
  end.

Definition durationOf (t : Tickable) : string := toString (simplify (getTicks t)).

(** The first pass over the notes of one voice: the space each note uses.
    The state is the store and the duration statistics. *)
Definition spaceStep (contextMap : gmap Z TickContext) (justifyWidth : Q) (notes : list nat)
    (acc : Result (Store * gmap string DurationStats)) (i : nat)
  : Result (Store * gmap string DurationStats) :=
  let* st := acc in
  let '(s, durationStats) := st in
  let* id := definedR (notes !! i) in
  let* note := getTickable s id in
  let duration := durationOf note in
  let metrics := getMetrics note in
  let* x := getXOfTickable contextMap note in
  let leftNoteEdge := x + m_notePx metrics + m_modRightPx metrics + m_rightDisplacedHeadPx metrics in
  if bool_decide (i < length notes - 1)%nat then
    let* rightId := definedR (notes !! (i + 1)%nat) in
    let* rightNote := getTickable s rightId in
    let rightMetrics := getMetrics rightNote in
    let* rightX := getXOfTickable contextMap rightNote in
    let rightNoteEdge := rightX - m_modLeftPx rightMetrics - m_leftDisplacedHeadPx rightMetrics in
    let space := rightNoteEdge - leftNoteEdge in
    let used := rightX - x in
    let s := updateTickable
               (fun t => setFormatterMetrics (setSpaceUsed used (getFormatterMetrics t)) t) id s in
    let s := updateTickable
               (fun t => setFormatterMetrics (setFreedom (Some space) None (getFormatterMetrics t)) t)
               rightId s in
    let s := updateTickable
               (fun t => setFormatterMetrics (setFreedom None (Some space) (getFormatterMetrics t)) t)
               id s in
    Ok (s, updateStats duration used durationStats)
  else
    let space := justifyWidth - leftNoteEdge in
    let used := justifyWidth - x in
    let s := updateTickable
               (fun t => setFormatterMetrics (setSpaceUsed used (getFormatterMetrics t)) t) id s in
    let s := updateTickable
               (fun t => setFormatterMetrics (setFreedom None (Some space) (getFormatterMetrics t)) t)
               id s in
    Ok (s, updateStats duration used durationStats).

Definition spaceVoice (contextMap : gmap Z TickContext) (justifyWidth : Q)
    (acc : Result (Store * gmap string DurationStats)) (voice : nat)
  : Result (Store * gmap string DurationStats) :=
  let* st := acc in
  let* v := getVoiceOf (fst st) voice in
  let notes := getTickables v in
  fold_left (spaceStep contextMap justifyWidth notes) (seq 0 (length notes)) (Ok st).

(** The second pass: how much each note deviates from the mean of its
    duration class.  The state is the store and [totalDeviation]. *)
Definition deviationStep (M : MathFns) (durationStats : gmap string DurationStats)
    (acc : Result (Store * Q)) (id : nat) : Result (Store * Q) :=
  let* st := acc in
  let '(s, totalDeviation) := st in
  let* note := getTickable s id in
  let duration := durationOf note in
  let metrics := getFormatterMetrics note in
  let* stats := definedR (durationStats !! duration) in
  let mean := stats_mean stats in
  let deviation := space_used metrics - mean in
  let metrics :=
    {| freedom_left := freedom_left metrics; freedom_right := freedom_right metrics;
       space_used := space_used metrics; space_mean := mean;
       space_deviation := deviation; fm_duration := duration;
       fm_iterations := S (fm_iterations metrics) |} in
  Ok (updateTickable (setFormatterMetrics metrics) id s,
      totalDeviation + Math_pow M deviation 2).

Definition deviationVoice (M : MathFns) (durationStats : gmap string DurationStats)
    (acc : Result (Store * Q)) (voice : nat) : Result (Store * Q) :=
  let* st := acc in
  let* v := getVoiceOf (fst st) voice in
  fold_left (deviationStep M durationStats) (getTickables v) (Ok st).

(** Calculate the total cost of this formatting decision. *)
Definition evaluate (M : MathFns) (s : Store) (this : Formatter)
  : Result (Q * Store * Formatter) :=
  let contexts := tickContexts this in
  let justifyWidth := justifyWidth this in
  let* r :=
    fold_left (gapStep (atc_list contexts)) (seq 0 (length (atc_list contexts)))
      (Ok (atc_map contexts, {| gaps_total := 0; gaps := [] |})) in
  let '(contextMap, contextGaps) := r in
  let this := set_contextGaps contextGaps this in
  let this := set_tickContexts (withMap contextMap contexts) this in
  (* Calculate mean distance in each voice for each duration type. *)
  let* r := fold_left (spaceVoice contextMap justifyWidth) (voices this) (Ok (s, ∅)) in
  let '(s, durationStats) := r in
  let this := set_durationStats durationStats this in
  (* Calculate how much each note deviates from the mean. *)
  let* r := fold_left (deviationVoice M durationStats) (voices this) (Ok (s, 0)) in
  let '(s, totalDeviation) := r in
  let this := set_totalCost (Math_sqrt M totalDeviation) this in
  let this := set_lossHistory (lossHistory this ++ [totalCost this]) this in
  Ok (totalCost this, s, this).

(** ** preFormat *)

(** [defined(x)] of util: throws on a missing value. *)
Definition definedOrThrow {A : Type} (o : option A) : Result A :=
  match o with
  | Some x => Ok x
  | None => Err UndefinedError
  end.

(** Modelled from the spec: the longest-duration tickable of a context,
    among those that consume ticks; the first one when several are
    longest. *)
Definition maxTickableStep (acc : option (nat * Tickable)) (it : nat * Tickable)
  : option (nat * Tickable) :=
  if t_ignoreTicks it.2 then acc
  else
    let best := match acc with Some b => value (getTicks b.2) | None => 0 end in
    if Qltb best (value (getTicks it.2)) then Some it else acc.

Definition getMaxTickable (s : Store) (c : TickContext) : Result (option (nat * Tickable)) :=
  let* ts := getTickablesOf s (tc_tickables c) in
  Ok (fold_left maxTickableStep (zip (tc_tickables c) ts) None).

Definition getMaxTicks (s : Store) (c : TickContext) : Result Q :=
  let* t := getMaxTickable s c in
  Ok (match t with Some b => value (getTicks b.2) | None => 0 end).

(** Modelled from the spec: [voice.setStave(stave).preFormat()] assigns
    the stave to the tickables of the voice. *)
Definition setStaveOfTickable (stave : nat) (t : Tickable) : Tickable :=
  {| t_ticks := t_ticks t; t_metrics := t_metrics t;
     t_formatterMetrics := t_formatterMetrics t;
     t_tickContext := t_tickContext t; t_voice := t_voice t; t_stave := Some stave;
     t_isNote := t_isNote t; t_isStaveNote := t_isStaveNote t; t_isRest := t_isRest t;
     t_ignoreTicks := t_ignoreTicks t; t_hasTuplet := t_hasTuplet t;
     t_hasBeam := t_hasBeam t; t_lineForRest := t_lineForRest t;
     t_keyLine := t_keyLine t; t_centerAligned := t_centerAligned t;
     t_centerXShift := t_centerXShift t |}.

Definition setStaveOfVoice (stave : nat) (acc : Result Store) (voice : nat) : Result Store :=
  let* s := acc in
  let* v := getVoiceOf s voice in
  Ok (fold_left (fun s t => updateTickable (setStaveOfTickable stave) t s) (getTickables v) s).

(** Pass 1: Give each note maximum width requested by context. *)
Record Pass1 : Type := mkPass1 {
  p1_map : gmap Z TickContext;
  p1_x : Q;
  p1_shift : Q;
  p1_minTotalWidth : Q;
  p1_totalTicks : Q
}.

Definition pass1Step (s : Store) (acc : Result Pass1) (tick : Z) : Result Pass1 :=
  let* st := acc in
  let* context := definedR (p1_map st !! tick) in
  (* Make sure that all tickables in this context have calculated their
     space requirements. *)
  let* context := preFormatContext s context in
  let width := getWidth context in
  let* maxTicks := getMaxTicks s context in
  let x := p1_x st + p1_shift st + tc_totalLeftPx context in
  let context := setX x context in
  Ok {| p1_map := <[tick := context]> (p1_map st);
        p1_x := x;
        (* Calculate shift for the next tick. *)
        p1_shift := width - tc_totalLeftPx context;
        p1_minTotalWidth := p1_minTotalWidth st + width;
        p1_totalTicks := p1_totalTicks st + maxTicks |}.

Record Distance : Type := mkDistance {
  maxNegativeShiftPx : Q;
  expectedDistance : Q;
  fromTickable : option nat
}.

(** What the closures of [preFormat] capture. *)
Record JustifyEnv : Type := mkEnv {
  je_contextList : list Z;
  je_globalSoftmax : bool;
  je_softmaxFactor : Q;
  je_totalTicks : Q;
  je_expTicksUsed : Q;
  je_adjustedJustifyWidth : Q;
  je_firstContext : Z;
  je_lastContext : Z;
  je_configMinPadding : Q;
  je_configMaxPadding : Q;
  je_leftPadding : Q
}.

(** [Math.min(x, y)] where [None] stands for [Infinity]. *)
Definition minInf (x : option Q) (y : Q) : Q :=
  match x with
  | Some x => minQ x y
  | None => y
  end.

Record MatchLoop : Type := mkMatchLoop {
  ml_backTickable : option nat;
  ml_maxTicks : Q;
  ml_maxNegativeShiftPx : option Q
}.

(** The body of [matchingVoices.forEach]. *)
Definition matchStep (s : Store) (contextMap : gmap Z TickContext)
    (voices backVoices : list (nat * nat)) (acc : Result MatchLoop) (v : nat)
  : Result MatchLoop :=
  let* st := acc in
  let* backId := definedR (getByVoice backVoices v) in
  let* back := getTickable s backId in
  let ticks := value (getTicks back) in
  let '(backTickable, maxTicks) :=
    if Qltb (ml_maxTicks st) ticks then (Some backId, ticks)
    else (ml_backTickable st, ml_maxTicks st) in
  (* Calculate the limits of the shift based on modifiers, etc. *)
  let* thisId := definedR (getByVoice voices v) in
  let* thisTickable := getTickable s thisId in
  let* thisX := getXOfTickable contextMap thisTickable in
  let insideLeftEdge :=
    thisX - (m_modLeftPx (getMetrics thisTickable)
             + m_leftDisplacedHeadPx (getMetrics thisTickable)) in
  let backMetrics := getMetrics back in
  let* backX := getXOfTickable contextMap back in
  let insideRightEdge :=
    backX + m_notePx backMetrics + m_modRightPx backMetrics
    + m_rightDisplacedHeadPx backMetrics in
  (* Don't allow shifting if notes in the same voice can collide *)
  Ok {| ml_backTickable := backTickable; ml_maxTicks := maxTicks;
        ml_maxNegativeShiftPx :=
          Some (minInf (ml_maxNegativeShiftPx st) (insideLeftEdge - insideRightEdge)) |}.

(** The loop [for (let j = i - 1; j >= 0; j--)], over the indices still
    to try. *)
Fixpoint searchBack (M : MathFns) (env : JustifyEnv) (s : Store)
    (contextMap : gmap Z TickContext) (adjustedJustifyWidth : Q)
    (context prevContext : TickContext) (js : list nat) : Result Distance :=
  match js with
  | [] => Ok {| expectedDistance := 0; maxNegativeShiftPx := 0; fromTickable := None |}
  | j :: js' =>
      let* backTickId := definedR (je_contextList env !! j) in
      let* backTick := definedR (contextMap !! backTickId) in
      let voices := tc_tickablesByVoice context in
      let backVoices := tc_tickablesByVoice backTick in
      (* Look for matching voices between tick contexts. *)
      let matchingVoices :=
        List.filter (fun v => bool_decide (is_Some (getByVoice backVoices v)))
                    (List.map fst voices) in
      if bool_decide (0 < length matchingVoices)%nat then
        (* Found matching voices, get largest duration *)
        let* st :=
          fold_left (matchStep s contextMap voices backVoices) matchingVoices
            (Ok {| ml_backTickable := None; ml_maxTicks := 0;
                   ml_maxNegativeShiftPx := None |}) in
        let maxTicks := ml_maxTicks st in
        let backTickable := ml_backTickable st in
        (* Don't shift further left than the notehead of the last context. *)
        let maxNegativeShiftPx :=
          minInf (ml_maxNegativeShiftPx st)
                 (getX context - (getX prevContext + adjustedJustifyWidth * 0.05)) in
        let* expectedDistance :=
          if je_globalSoftmax env then
            Ok ((Math_pow M (je_softmaxFactor env) (maxTicks / je_totalTicks env)
                 / je_expTicksUsed env) * adjustedJustifyWidth)
          else
            match backTickable with
            | Some b =>
                let* bt := getTickable s b in
                let* voice := getVoiceOf s (t_voice bt) in
                Ok (softmax M voice maxTicks * adjustedJustifyWidth)
            | None => Ok 0
            end in
        Ok {| expectedDistance := expectedDistance;
              maxNegativeShiftPx := maxNegativeShiftPx;
              fromTickable := backTickable |}
      else searchBack M env s contextMap adjustedJustifyWidth context prevContext js'
  end.

(** Calculate the "distance error" between the tick contexts. *)
Definition idealDistance (M : MathFns) (env : JustifyEnv) (s : Store)
    (contextMap : gmap Z TickContext) (adjustedJustifyWidth : Q) (i : nat)
  : Result Distance :=
  let* tick := definedR (je_contextList env !! i) in
  let* context := definedR (contextMap !! tick) in
  if bool_decide (0 < i)%nat then
    let* prevTick := definedR (je_contextList env !! (i - 1)%nat) in
    let* prevContext := definedR (contextMap !! prevTick) in
    searchBack M env s contextMap adjustedJustifyWidth context prevContext
               (rev (seq 0 i))
  else Ok {| expectedDistance := 0; maxNegativeShiftPx := 0; fromTickable := None |}.

Fixpoint mapResult {A B : Type} (f : A -> Result B) (l : list A) : Result (list B) :=
  match l with
  | [] => Ok []
  | x :: l' =>
      let* y := f x in
      let* ys := mapResult f l' in
      Ok (y :: ys)
  end.

Definition calculateIdealDistances (M : MathFns) (env : JustifyEnv) (s : Store)
    (contextMap : gmap Z TickContext) (adjustedJustifyWidth : Q) : Result (list Distance) :=
  mapResult (idealDistance M env s contextMap adjustedJustifyWidth)
            (seq 0 (length (je_contextList env))).

Record ShiftLoop : Type := mkShiftLoop {
  sl_store : Store;
  sl_map : gmap Z TickContext;
  sl_spaceAccum : Q
}.

(** The body of [contextList.forEach] in [shiftToIdealDistances]. *)
Definition shiftStep (env : JustifyEnv) (idealDistances : list Distance)
    (acc : Result ShiftLoop) (index : nat) : Result ShiftLoop :=
  let centerX := je_adjustedJustifyWidth env / 2 in
  let* st := acc in
  let* tick := definedR (je_contextList env !! index) in
  let* context := definedR (sl_map st !! tick) in
  let* st :=
    if bool_decide (0 < index)%nat then
      let contextX := getX context in
      let* ideal := definedR (idealDistances !! index) in
      let* fromId := definedOrThrow (fromTickable ideal) in
      let* from := getTickable (sl_store st) fromId in
      let* fromX := getXOfTickable (sl_map st) from in
      let errorPx := fromX + expectedDistance ideal - (contextX + sl_spaceAccum st) in
      let spaceAccum :=
        if Qltb 0 errorPx then sl_spaceAccum st + errorPx
        else if Qltb errorPx 0
             then sl_spaceAccum st + - minQ (maxNegativeShiftPx ideal) (Qabs errorPx)
             else sl_spaceAccum st in
      Ok {| sl_store := sl_store st;
            sl_map := alter (setX (contextX + spaceAccum)) tick (sl_map st);
            sl_spaceAccum := spaceAccum |}
    else Ok st in
  (* Move center aligned tickables to middle *)
  let* context := definedR (sl_map st !! tick) in
  let* ts := getTickablesOf (sl_store st) (tc_tickables context) in
  let centered :=
    List.map fst (List.filter (fun it => t_centerAligned it.2) (zip (tc_tickables context) ts)) in
  Ok {| sl_store :=
          fold_left (fun s t => updateTickable (setCenterXShift (centerX - getX context)) t s)
                    centered (sl_store st);
        sl_map := sl_map st; sl_spaceAccum := sl_spaceAccum st |}.

(** Distribute ticks to the contexts based on the calculated distance
    error; returns the distance from the first to the last context. *)
Definition shiftToIdealDistances (env : JustifyEnv) (s : Store)
    (contextMap : gmap Z TickContext) (idealDistances : list Distance)
  : Result (Q * Store * gmap Z TickContext) :=
  let* st :=
    fold_left (shiftStep env idealDistances) (seq 0 (length (je_contextList env)))
      (Ok {| sl_store := s; sl_map := contextMap; sl_spaceAccum := 0 |}) in
  let* lastContext := definedR (sl_map st !! je_lastContext env) in
  let* firstContext := definedR (sl_map st !! je_firstContext env) in
  Ok (getX lastContext - getX firstContext, sl_store st, sl_map st).

Definition calcMinDistance (targetWidth : Q) (distances : list Distance) : Q :=
  fold_left (fun mdCalc d => minQ (expectedDistance d / 2) mdCalc)
            (drop 1 distances) (targetWidth / 2).

(** Right justify to either the configured padding, or the min distance
    between notes, whichever is greatest. *)
Definition paddingMaxCalc (M : MathFns) (env : JustifyEnv) (minDistance : Q) (s : Store)
    (contextMap : gmap Z TickContext) (curTargetWidth : Q) : Result Q :=
  let configMaxPadding := je_configMaxPadding env in
  let* lastContext := definedR (contextMap !! je_lastContext env) in
  let* lastTickable := getMaxTickable s lastContext in
  match lastTickable with
  | Some lastTickable =>
      let* voice := getVoiceOf s (t_voice lastTickable.2) in
      (* If the number of actual ticks in the measure <> configured ticks,
         right-justify because the softmax won't yield the correct value *)
      if Qltb (value (getTotalTicks voice)) (value (getTicksUsed voice)) then
        Ok (if Qltb (configMaxPadding * 2) minDistance then minDistance else configMaxPadding)
      else
        let tickWidth := getWidthOfTickable lastTickable.2 in
        let* maxTicks := getMaxTicks s lastContext in
        let lastTickablePadding :=
          softmax M voice maxTicks * curTargetWidth - (tickWidth + je_leftPadding env) in
        Ok (if Qltb (configMaxPadding * 2) lastTickablePadding
            then lastTickablePadding else configMaxPadding)
  | None =>
      let lastTickablePadding := 0 in
      Ok (if Qltb (configMaxPadding * 2) lastTickablePadding
          then lastTickablePadding else configMaxPadding)
  end.

(** The variables of the justification loop; [jl_bodyRuns] counts the
    executions of the loop body. *)
Record JustifyLoop : Type := mkJustifyLoop {
  jl_store : Store;
  jl_map : gmap Z TickContext;
  jl_targetWidth : Q;
  jl_paddingMax : Q;
  jl_paddingMin : Q;
  jl_actualWidth : Q;
  jl_iterations : Z;
  jl_bodyRuns : nat
}.

(** [(actualWidth > maxX && iterations > 0) ||
     (actualWidth + paddingMax < maxX && iterations > 1)] *)
Definition loopCondition (maxX : Q) (st : JustifyLoop) : bool :=
  (Qltb maxX (jl_actualWidth st) && (0 <? jl_iterations st)%Z)
  || (Qltb (jl_actualWidth st + jl_paddingMax st) maxX && (1 <? jl_iterations st)%Z).

Definition loopBody (M : MathFns) (env : JustifyEnv) (minDistance maxX : Q)
    (st : JustifyLoop) : Result JustifyLoop :=
  let targetWidth := jl_targetWidth st - (jl_actualWidth st - maxX) in
  let* paddingMax := paddingMaxCalc M env minDistance (jl_store st) (jl_map st) targetWidth in
  let paddingMin := paddingMax - (je_configMaxPadding env - je_configMinPadding env) in
  let* distances := calculateIdealDistances M env (jl_store st) (jl_map st) targetWidth in
  let* r := shiftToIdealDistances env (jl_store st) (jl_map st) distances in
  let '(actualWidth, s, contextMap) := r in
  Ok {| jl_store := s; jl_map := contextMap; jl_targetWidth := targetWidth;
        jl_paddingMax := paddingMax; jl_paddingMin := paddingMin;
        jl_actualWidth := actualWidth; jl_iterations := jl_iterations st - 1;
        jl_bodyRuns := S (jl_bodyRuns st) |}.

(** Adjust justification width until the right margin is as close as
    possible to the calculated padding, without going over: the [while]
    loop.  The model runs it on [fuel]; [None] means that the fuel ran
    out before the loop ended. *)
Fixpoint justifyLoop (M : MathFns) (env : JustifyEnv) (minDistance maxX : Q)
    (fuel : nat) (st : JustifyLoop) : option (Result JustifyLoop) :=
  if loopCondition maxX st then
    match fuel with
    | O => None
    | S fuel' =>
        match loopBody M env minDistance maxX st with
        | Ok st => justifyLoop M env minDistance maxX fuel' st
        | Err e => Some (Err e)
        end
    end
  else Some (Ok st).

(** Where [preFormat] stands when it has laid the contexts out and
    justified them once: it has returned already (no justification asked
    for, or just one context), or it is at the head of the [while] loop
    with these values of its variables. *)
Record LoopHead : Type := mkLoopHead {
  lh_env : JustifyEnv;
  lh_minDistance : Q;
  lh_maxX : Q;
  lh_contexts : AlignmentTickContexts;
  lh_this : Formatter;
  lh_state : JustifyLoop
}.

Inductive BeforeLoop : Type :=
| Returned (r : Q) (s : Store) (this : Formatter)
| AtLoop (h : LoopHead).

(** [preFormat] up to the [while] loop. *)
Definition preFormatBeforeLoop (M : MathFns) (cfg : StaveMetrics) (justifyWidth : Q)
    (voicesParam : option (list nat)) (stave : option nat)
    (s : Store) (this : Formatter) : Result BeforeLoop :=
  (* Initialize context maps. *)
  let contexts := tickContexts this in
  let contextList := atc_list contexts in
  (* Reset loss history for evaluator. *)
  let this := set_lossHistory [] this in
  (* If voices and a stave were provided, set the Stave for each voice. *)
  let* s :=
    match voicesParam, stave with
    | Some voicesParam, Some stave => fold_left (setStaveOfVoice stave) voicesParam (Ok s)
    | _, _ => Ok s
    end in
  (* Now distribute the ticks to each tick context, and assign them their
     own X positions. *)
  let this := set_minTotalWidth 0 this in
  let* p1 :=
    fold_left (pass1Step s) contextList
      (Ok {| p1_map := atc_map contexts; p1_x := 0; p1_shift := 0;
             p1_minTotalWidth := 0; p1_totalTicks := 0 |}) in
  let contextMap := p1_map p1 in
  let totalTicks := p1_totalTicks p1 in
  let globalSoftmax := globalSoftmax (formatterOptions this) in
  let softmaxFactor := softmaxFactor (formatterOptions this) in
  let maxIterations := maxIterations (formatterOptions this) in
  let* exps :=
    mapResult (fun tick =>
                 let* c := definedR (contextMap !! tick) in
                 let* maxTicks := getMaxTicks s c in
                 Ok (Math_pow M softmaxFactor (maxTicks / totalTicks)))
              contextList in
  let expTicksUsed := sumArray exps in
  let this := set_tickContexts (withMap contextMap contexts) this in
  let this := set_minTotalWidth (p1_x p1 + p1_shift p1) this in
  let this := set_hasMinTotalWidth true this in
  (* No justification needed. End formatting. *)
  if Qle_bool justifyWidth 0 then
    let* r := evaluate M s this in
    let '(cost, s, this) := r in
    Ok (Returned cost s this)
  else
    (* Start justification. *)
    let* firstTick := definedR (contextList !! 0%nat) in
    let* lastTick := definedR (last contextList) in
    let* firstContext := definedR (contextMap !! firstTick) in
    let* lastContext := definedR (contextMap !! lastTick) in
    let adjustedJustifyWidth :=
      justifyWidth - tc_notePx lastContext - tc_totalRightPx lastContext
      - tc_totalLeftPx firstContext in
    let env :=
      {| je_contextList := contextList; je_globalSoftmax := globalSoftmax;
         je_softmaxFactor := softmaxFactor; je_totalTicks := totalTicks;
         je_expTicksUsed := expTicksUsed;
         je_adjustedJustifyWidth := adjustedJustifyWidth;
         je_firstContext := firstTick; je_lastContext := lastTick;
         je_configMinPadding := endPaddingMin cfg;
         je_configMaxPadding := endPaddingMax cfg;
         je_leftPadding := stavePadding cfg |} in
    let targetWidth := adjustedJustifyWidth in
    let* distances := calculateIdealDistances M env s contextMap targetWidth in
    let* r := shiftToIdealDistances env s contextMap distances in
    let '(actualWidth, s, contextMap) := r in
    let this := set_tickContexts (withMap contextMap contexts) this in
    (* Just one context. Done formatting. *)
    if bool_decide (length contextList = 1%nat) then Ok (Returned 0 s this)
    else
      let minDistance := calcMinDistance targetWidth distances in
      let* paddingMax := paddingMaxCalc M env minDistance s contextMap targetWidth in
      let paddingMin := paddingMax - (endPaddingMax cfg - endPaddingMin cfg) in
      let maxX := adjustedJustifyWidth - paddingMin in
      let iterations := maxIterations in
      Ok (AtLoop
            {| lh_env := env; lh_minDistance := minDistance; lh_maxX := maxX;
               lh_contexts := contexts; lh_this := this;
               lh_state :=
                 {| jl_store := s; jl_map := contextMap; jl_targetWidth := targetWidth;
                    jl_paddingMax := paddingMax; jl_paddingMin := paddingMin;
                    jl_actualWidth := actualWidth; jl_iterations := iterations;
                    jl_bodyRuns := 0 |} |}).

(** This is the core formatter logic. Format voices and justify them to
    [justifyWidth] pixels.  The [while] loop gets [maxIterations] units
    of fuel. *)
Definition preFormat (M : MathFns) (cfg : StaveMetrics) (justifyWidth : Q)
    (voicesParam : option (list nat)) (stave : option nat)
    (s : Store) (this : Formatter) : Result (Q * Store * Formatter) :=
  let* b := preFormatBeforeLoop M cfg justifyWidth voicesParam stave s this in
  match b with
  | Returned r s this => Ok (r, s, this)
  | AtLoop h =>
      let maxIterations := maxIterations (formatterOptions this) in
      match justifyLoop M (lh_env h) (lh_minDistance h) (lh_maxX h)
                        (Z.to_nat maxIterations) (lh_state h) with
      | None => Err OutOfFuel
      | Some r =>
          let* st := r in
          let this := set_tickContexts (withMap (jl_map st) (lh_contexts h)) (lh_this h) in
          let this := set_justifyWidth justifyWidth this in
          evaluate M (jl_store st) this
      end
  end.

(** ** Rest alignment *)

(** Modelled from the spec: the line a rest is drawn on.  A rest has one
    key, whose line it is; for a note the field answers the query. *)
Definition getLineForRest (t : Tickable) : Q :=
  if t_isRest t then t_keyLine t else t_lineForRest t.

(** Get the rest line number of the next non-rest note(s). *)
Definition getRestLineForNextNoteGroup (M : MathFns) (notes : list Tickable)
    (currRestLine : Q) (currNoteIndex : nat) (compare : bool) : Q :=
  (* Start with the next note and keep going until we find a valid
     non-rest note group. *)
  let nextRestLine :=
    match List.find (fun note => t_isNote note && negb (t_isRest note)
                                 && negb (t_ignoreTicks note))
                    (drop (currNoteIndex + 1) notes) with
    | Some note => getLineForRest note
    | None => currRestLine
    end in
  (* Locate the midpoint between two lines. *)
  if compare && negb (Qeq_bool currRestLine nextRestLine) then
    let top := maxQ currRestLine nextRestLine in
    let bot := minQ currRestLine nextRestLine in
    midLine M top bot
  else nextRestLine.

(** The body of [tickables.forEach] in [AlignRestsToNotes]. *)
Definition alignRestStep (M : MathFns) (alignAllNotes alignTuplets : bool)
    (tickables : list nat) (acc : Result Store) (index : nat) : Result Store :=
  let* s := acc in
  let* id := definedR (tickables !! index) in
  let* currTickable := getTickable s id in
  if negb (t_isStaveNote currTickable && t_isRest currTickable) then Ok s
  else if t_hasTuplet currTickable && negb alignTuplets then Ok s
  else
    (* If activated rests not on default can be rendered as specified. *)
    let line := getLineForRest currTickable in
    if negb (Qeq_bool line 3) then Ok s
    else if negb (alignAllNotes || t_hasBeam currTickable) then Ok s
    else
      (* Align rests with previous/next notes. *)
      let* notes := getTickablesOf s tickables in
      let propsLine := t_keyLine currTickable in
      let* propsLine :=
        if bool_decide (index = 0%nat) then
          Ok (getRestLineForNextNoteGroup M notes propsLine index false)
        else
          (* If previous tickable is a rest, use its line number. *)
          let* prevTickable := definedR (notes !! (index - 1)%nat) in
          if t_isStaveNote prevTickable then
            if t_isRest prevTickable then Ok (t_keyLine prevTickable)
            else
              let restLine := getLineForRest prevTickable in
              (* Get the rest line for next valid non-rest note group. *)
              Ok (getRestLineForNextNoteGroup M notes restLine index true)
          else Ok propsLine in
      Ok (updateTickable (setKeyLine propsLine) id s).

(** Automatically set the vertical position of rests based on
    previous/next note positions. *)
Definition AlignRestsToNotes (M : MathFns) (tickables : list nat)
    (alignAllNotes alignTuplets : bool) (s : Store) : Result Store :=
  fold_left (alignRestStep M alignAllNotes alignTuplets tickables)
            (seq 0 (length tickables)) (Ok s).

(** Find all the rests in each of the [voices] and align them vertically
    to neighboring notes. *)
Definition alignRests (M : MathFns) (voices : list nat) (alignAllNotes : bool) (s : Store)
  : Result Store :=
  if bool_decide (length voices = 0%nat) then Err BadArgument
  else
    fold_left (fun acc voice =>
                 let* s := acc in
                 let* v := getVoiceOf s voice in
                 AlignRestsToNotes M (getTickables v) alignAllNotes false s)
              voices (Ok s).

(** ** postFormat and format *)

(** Calls postFormat on each ModifierContext and TickContext; here it
    only requires every tick of the list to have its context. *)
Definition postFormat (s : Store) (this : Formatter) : Result (Store * Formatter) :=
  let* _ :=
    mapResult (fun tick => definedR (atc_map (tickContexts this) !! tick))
              (atc_list (tickContexts this)) in
  Ok (s, this).

(** Align rests in voices, justify the contexts, and position the notes
    so voices are aligned and ready to render onto the stave. *)
Definition format (M : MathFns) (cfg : StaveMetrics) (voices : list nat)
    (justifyWidth : option Q) (optAlignRests : bool) (optStave : option nat)
    (s : Store) (this : Formatter) : Result (Store * Formatter) :=
  let this := set_voices voices this in
  let softmaxFactor := softmaxFactor (formatterOptions this) in
  let s :=
    if negb (Qeq_bool softmaxFactor 0)
    then fold_left (fun s v => updateVoice (setSoftmaxFactor softmaxFactor) v s) voices s
    else s in
  let* s := alignRests M voices optAlignRests s in
  let* r := createTickContexts voices s this in
  let '(_, s, this) := r in
  let* r := preFormat M cfg (default 0 justifyWidth) (Some voices) optStave s this in
  let '(_, s, this) := r in
  (* Only postFormat if a stave was supplied for y value formatting *)
  match optStave with
  | Some _ => postFormat s this
  | None => Ok (s, this)
  end.

(** ** SimpleFormat *)

(** Helper function to layout "notes" one after the other without regard
    for proportions.  Every note gets a TickContext of its own; they are
    returned in the order of the notes, and the note refers to its
    context by its position in that list. *)
Definition simpleFormatStep (paddingBetween : Q)
    (acc : Result (Q * Store * list TickContext)) (note : nat)
  : Result (Q * Store * list TickContext) :=
  let* st := acc in
  let '(accumulator, s, created) := st in
  let key := Z.of_nat (length created) in
  let tickContext := addTickable note 0 (newTickContext 0) in
  let s := updateTickable (setTickContext key) note s in
  let* tickContext := preFormatContext s tickContext in
  let tickContext := setX (accumulator + tc_totalLeftPx tickContext) tickContext in
  Ok (accumulator + getWidth tickContext + tc_totalRightPx tickContext + paddingBetween,
      s, created ++ [tickContext]).

Definition SimpleFormat (notes : list nat) (x : option Q) (paddingBetween : option Q)
    (s : Store) : Result (Store * list TickContext) :=
  let* st :=
    fold_left (simpleFormatStep (default 10 paddingBetween)) notes
              (Ok (default 0 x, s, [])) in
  Ok (snd (fst st), snd st).

(** ** Notions used to state the properties *)

(** The bare sum of the widths of the tick contexts, in tick order. *)
Definition sumContextWidths (contexts : AlignmentTickContexts) : Q :=
  sumArray (omap (fun tick => getWidth <$> atc_map contexts !! tick) (atc_list contexts)).

(** The first voice of the list that makes [getResolutionMultiplier]
    throw. *)
Definition offending (totalTicks : Fraction) (voice : Voice) : bool :=
  negb (equals (getTotalTicks voice) totalTicks)
  || (Mode_eqb (getMode voice) STRICT && negb (isComplete voice)).



(** The ticks collected so far are distinct and each has its context. *)
Definition ticksDistinct (st : TickContextsLoop) : Prop :=
  NoDup (tcl_tickList st) /\
  forall tick, tick ∈ tcl_tickList st -> is_Some (tcl_map st !! tick).

(** What [evaluate] reads of a tickable is everything but the metrics
    record that it writes itself; of a tick context, everything but the
    freedom that it writes. *)
Definition eraseFM (t : Tickable) : Tickable :=
  setFormatterMetrics
    {| freedom_left := 0; freedom_right := 0; space_used := 0; space_mean := 0;
       space_deviation := 0; fm_duration := EmptyString; fm_iterations := 0 |} t.

Definition eraseFreedom (c : TickContext) : TickContext :=
  setFreedomLeft 0 (setFreedomRight 0 c).

Definition usedOf (t : Tickable) : Q := space_used (getFormatterMetrics t).

(** Two stores that hold the same voices and the same tickables up to
    their formatter metrics, and agree on the space used by the
    tickables in [V]. *)
Definition sameTickable (V : nat -> Prop) (id : nat) (o1 o2 : option Tickable) : Prop :=
  match o1, o2 with
  | Some t1, Some t2 => eraseFM t1 = eraseFM t2 /\ (V id -> usedOf t1 = usedOf t2)
  | None, None => True
  | _, _ => False
  end.

Definition sameStore (V : nat -> Prop) (s1 s2 : Store) : Prop :=
  s_voices s1 = s_voices s2 /\
  forall id, sameTickable V id (s_tickables s1 !! id) (s_tickables s2 !! id).

(** Two maps of tick contexts that are the same up to the freedom. *)
Definition sameMap (m1 m2 : gmap Z TickContext) : Prop :=
  forall tick, eraseFreedom <$> m1 !! tick = eraseFreedom <$> m2 !! tick.

(** ** Queries of the tick contexts *)

(** Get the AlignmentTickContexts of TickContexts that were created by
    createTickContexts. *)
Definition getTickContexts (this : Formatter) : AlignmentTickContexts := tickContexts this.

(** [this.tickContexts?.map[tick]]: the context of a tick, if any. *)
Definition getTickContext (this : Formatter) (tick : Z) : option TickContext :=
  atc_map (tickContexts this) !! tick.

(** ** Further notions used to state the properties *)

(** Every context of the map has its tick in the list, the array of
    contexts goes with the list of ticks, and a context knows its tick. *)
Definition ticksKnown (st : TickContextsLoop) : Prop :=
  (forall tick, is_Some (tcl_map st !! tick) -> tick ∈ tcl_tickList st) /\
  tcl_tickContexts st = tcl_tickList st /\
  forall tick c, tcl_map st !! tick = Some c -> tc_tickID c = tick.

(** The tickables that were added to the modifier contexts, context by
    context. *)
Definition allMembers (contexts : list ModifierContext) : list nat :=
  contexts ≫= mc_members.

(** The modifier contexts built so far hold exactly the tickables [seen],
    and the map points into the array. *)
Definition membersAre (seen : list nat) (st : ModifierContextsLoop) : Prop :=
  allMembers (mcl_contexts st) ≡ₚ seen /\
  forall key index, mcl_map st !! key = Some index -> (index < length (mcl_contexts st))%nat.

(** The x of the left edge of a tick context: its x less the space its
    tickables need to the left of it. *)
Definition leftEdge (c : TickContext) : Q := getX c - tc_totalLeftPx c.

(** Two maps of tick contexts that are the same up to the x and the
    freedom of the contexts. *)
Definition sameButX (m1 m2 : gmap Z TickContext) : Prop :=
  forall tick,
    setX 0 <$> (eraseFreedom <$> m1 !! tick) = setX 0 <$> (eraseFreedom <$> m2 !! tick).

(** Where the first pass of [preFormat] stands after the ticks [done]:
    the contexts visited lie side by side from x = 0 on, and the running
    [x + shift] is the sum of their widths. *)
Definition laidOut (done : list Z) (st : Pass1) : Prop :=
  (forall t, t ∈ done -> is_Some (p1_map st !! t)) /\
  p1_x st + p1_shift st
    == sumArray (omap (fun t => getWidth <$> p1_map st !! t) done) /\
  match last done with
  | Some t =>
      exists c, p1_map st !! t = Some c /\ leftEdge c + getWidth c == p1_x st + p1_shift st
  | None => p1_x st + p1_shift st == 0
  end /\
  (forall t c, head done = Some t -> p1_map st !! t = Some c -> leftEdge c == 0) /\
  (forall i t1 t2 c1 c2, done !! i = Some t1 -> done !! S i = Some t2 ->
     p1_map st !! t1 = Some c1 -> p1_map st !! t2 = Some c2 ->
     leftEdge c2 == leftEdge c1 + getWidth c1).

(** The tickables seen so far have their tick context, and the context
    holds them; the voices are those of the store [s0], and a tickable
    differs from the one of [s0] in its tick context only. *)
Definition contextsAssigned (s0 : Store) (seen : list nat) (st : TickContextsLoop) : Prop :=
  s_voices (tcl_store st) = s_voices s0 /\
  (forall id, setTickContext 0 <$> s_tickables (tcl_store st) !! id
              = setTickContext 0 <$> s_tickables s0 !! id) /\
  forall id, id ∈ seen ->
    exists t tick c,
      s_tickables (tcl_store st) !! id = Some t /\ t_tickContext t = Some tick /\
      tcl_map st !! tick = Some c /\ id ∈ tc_tickables c.

(** Every duration class has a count of at least 1, and its mean is its
    total over its count. *)
Definition statsConsistent (durationStats : gmap string DurationStats) : Prop :=
  forall duration stats, durationStats !! duration = Some stats ->
    1 <= stats_count stats /\
    stats_mean stats == stats_total stats / stats_count stats.

(** The rests that [AlignRestsToNotes] may move: stave-note rests on the
    middle line, beamed unless all notes are to be aligned, and outside
    tuplets unless tuplets are to be aligned. *)
Definition alignable (alignAllNotes alignTuplets : bool) (t : Tickable) : bool :=
  t_isStaveNote t && t_isRest t
  && negb (t_hasTuplet t && negb alignTuplets)
  && Qeq_bool (getLineForRest t) 3
  && (alignAllNotes || t_hasBeam t).

(** The store [s] comes from [s0] by moving rests that may be moved:
    the voices are the same, every tickable is there with at most its
    key line changed, and unchanged if it is not such a rest. *)
Definition restsMoved (alignAllNotes alignTuplets : bool) (s0 s : Store) : Prop :=
  s_voices s = s_voices s0 /\
  forall id t0, s_tickables s0 !! id = Some t0 ->
    exists t, s_tickables s !! id = Some t /\ setKeyLine 0 t = setKeyLine 0 t0 /\
              (alignable alignAllNotes alignTuplets t0 = false -> t = t0).

(** What [SimpleFormat] has built so far: the contexts follow each other
    at the distance of their width, their right extra space and the
    padding, and the accumulator is where the next one begins. *)
Definition chained (x0 paddingBetween : Q) (accumulator : Q) (created : list TickContext)
  : Prop :=
  match last created with
  | Some c => accumulator == leftEdge c + getWidth c + tc_totalRightPx c + paddingBetween
  | None => accumulator == x0
  end /\
  (forall c, head created = Some c -> leftEdge c == x0) /\
  (forall i c1 c2, created !! i = Some c1 -> created !! S i = Some c2 ->
     leftEdge c2 == leftEdge c1 + getWidth c1 + tc_totalRightPx c1 + paddingBetween).

(** ** Sample inputs *)

(** A rational stand-in for the square root: exact on perfect squares of
    numbers with at most six decimals, rounded down otherwise. *)
Definition sqrtApprox (x : Q) : Q :=
  Z.sqrt (Qnum x * 1000000000000 / Zpos (Qden x)) # 1000000.

(** A rational stand-in for [Math.pow]: exact for the exponents 0, 1 and
    2, the approximate square root for 0.5, and the linear interpolation
    between [b ** 0] and [b ** 1] otherwise. *)
Definition powApprox (b e : Q) : Q :=
  if Qeq_bool e 2 then b * b
  else if Qeq_bool e 0.5 then sqrtApprox b
  else 1 + e * (b - 1).

Definition sampleMath : MathFns :=
  {| Math_pow := powApprox; Math_sqrt := sqrtApprox;
     midLine := fun a b => b + (a - b) / 2 |}.

Definition sampleStaveMetrics : StaveMetrics :=
  {| unalignedNotePadding := 10; endPaddingMin := 5; endPaddingMax := 10;
     stavePadding := 12 |}.

Definition noFormatterMetrics : FormatterMetrics :=
  {| freedom_left := 0; freedom_right := 0; space_used := 0; space_mean := 0;
     space_deviation := 0; fm_duration := EmptyString; fm_iterations := 0 |}.

(** A plain note: no modifiers, no displaced heads. *)
Definition plainNote (voice : nat) (ticks : Z) (w : Q) : Tickable :=
  {| t_ticks := {| numerator := ticks; denominator := 1 |};
     t_metrics := {| m_width := w; m_notePx := w; m_modLeftPx := 0; m_modRightPx := 0;
                     m_leftDisplacedHeadPx := 0; m_rightDisplacedHeadPx := 0 |};
     t_formatterMetrics := noFormatterMetrics;
     t_tickContext := None; t_voice := voice; t_stave := None;
     t_isNote := true; t_isStaveNote := true; t_isRest := false;
     t_ignoreTicks := false; t_hasTuplet := false; t_hasBeam := false;
     t_lineForRest := 3; t_keyLine := 3; t_centerAligned := false;
     t_centerXShift := 0 |}.

(** A quarter note lasts 4096 ticks, a 4/4 measure 16384. *)
Definition quarterNote (voice : nat) (w : Q) : Tickable := plainNote voice 4096 w.

(** A voice in 4/4 holding the given tickables, [used] ticks long. *)
Definition voice44 (mode : Mode) (used : Z) (tickables : list nat) : Voice :=
  {| v_totalTicks := {| numerator := 16384; denominator := 1 |};
     v_ticksUsed := {| numerator := used; denominator := 1 |};
     v_mode := mode; v_resolutionMultiplier := 1;
     v_softmaxFactor := 10; v_expTicksUsed := 1; v_tickables := tickables |}.

(** One STRICT voice in 4/4 with three quarter notes: one is missing. *)
Definition incompleteStore : Store :=
  {| s_voices := {[ 0%nat := voice44 STRICT 12288 [0; 1; 2]%nat ]};
     s_tickables := {[ 0%nat := quarterNote 0 12; 1%nat := quarterNote 0 12;
                       2%nat := quarterNote 0 12 ]} |}.

(** One voice in 4/4 with four quarter notes of the given widths. *)
Definition fourQuarters (w0 w1 w2 w3 : Q) : Store :=
  {| s_voices := {[ 0%nat := voice44 STRICT 16384 [0; 1; 2; 3]%nat ]};
     s_tickables := {[ 0%nat := quarterNote 0 w0; 1%nat := quarterNote 0 w1;
                       2%nat := quarterNote 0 w2; 3%nat := quarterNote 0 w3 ]} |}.

(** Two voices in 4/4, each with one whole note of width 10. *)
Definition twoAlignedVoices : Store :=
  {| s_voices := {[ 0%nat := voice44 STRICT 16384 [0%nat];
                    1%nat := voice44 STRICT 16384 [1%nat] ]};
     s_tickables := {[ 0%nat := plainNote 0 16384 10; 1%nat := plainNote 1 16384 10 ]} |}.

(** A STRICT voice in 4/4 that is one quarter short, and a voice in 3/4. *)
Definition incompleteVoice : Voice := voice44 STRICT 12288 [].
Definition voice34 : Voice :=
  {| v_totalTicks := {| numerator := 12288; denominator := 1 |};
     v_ticksUsed := {| numerator := 12288; denominator := 1 |};
     v_mode := SOFT; v_resolutionMultiplier := 1;
     v_softmaxFactor := 10; v_expTicksUsed := 1; v_tickables := [] |}.

(** One voice in 4/4 with two half notes of widths 12 and 14; the
    normalisation constant of its softmax is that of the stand-in:
    twice 10 ** 0.5, which the stand-in takes for 5.5. *)
Definition twoHalfNotes : Store :=
  {| s_voices :=
       {[ 0%nat := {| v_totalTicks := {| numerator := 16384; denominator := 1 |};
                      v_ticksUsed := {| numerator := 16384; denominator := 1 |};
                      v_mode := STRICT; v_resolutionMultiplier := 1;
                      v_softmaxFactor := 10; v_expTicksUsed := 11;
                      v_tickables := [0; 1]%nat |} ]};
     s_tickables := {[ 0%nat := plainNote 0 8192 12; 1%nat := plainNote 0 8192 14 ]} |}.

(** The state in which [format] calls [preFormat] for the two half notes:
    the voices set and the tick contexts created. *)
Definition twoHalfNotesContexts : Result (AlignmentTickContexts * Store * Formatter) :=
  createTickContexts [0%nat] twoHalfNotes
    (set_voices [0%nat] (constructor 10 noOptions)).

(** A new Formatter with the default options. *)
Definition newFormatter : Formatter := constructor 10 noOptions.

(** A note whose key is on [line], and a rest on the middle line. *)
Definition noteOnLine (voice : nat) (ticks : Z) (w line : Q) : Tickable :=
  {| t_ticks := {| numerator := ticks; denominator := 1 |};
     t_metrics := {| m_width := w; m_notePx := w; m_modLeftPx := 0; m_modRightPx := 0;
                     m_leftDisplacedHeadPx := 0; m_rightDisplacedHeadPx := 0 |};
     t_formatterMetrics := noFormatterMetrics;
     t_tickContext := None; t_voice := voice; t_stave := None;
     t_isNote := true; t_isStaveNote := true; t_isRest := false;
     t_ignoreTicks := false; t_hasTuplet := false; t_hasBeam := false;
     t_lineForRest := line; t_keyLine := line; t_centerAligned := false;
     t_centerXShift := 0 |}.

Definition restNote (voice : nat) (ticks : Z) (w : Q) : Tickable :=
  {| t_ticks := {| numerator := ticks; denominator := 1 |};
     t_metrics := {| m_width := w; m_notePx := w; m_modLeftPx := 0; m_modRightPx := 0;
                     m_leftDisplacedHeadPx := 0; m_rightDisplacedHeadPx := 0 |};
     t_formatterMetrics := noFormatterMetrics;
     t_tickContext := None; t_voice := voice; t_stave := None;
     t_isNote := true; t_isStaveNote := true; t_isRest := true;
     t_ignoreTicks := false; t_hasTuplet := false; t_hasBeam := false;
     t_lineForRest := 3; t_keyLine := 3; t_centerAligned := false;
     t_centerXShift := 0 |}.

(** One voice in 4/4: a half note on line 6, a quarter rest and a
    quarter note on line 2. *)
Definition noteRestNote : Store :=
  {| s_voices := {[ 0%nat := voice44 STRICT 16384 [0; 1; 2]%nat ]};
     s_tickables := {[ 0%nat := noteOnLine 0 8192 12 6; 1%nat := restNote 0 4096 10;
                       2%nat := noteOnLine 0 4096 12 2 ]} |}.

End Formatter.

(* ================================================================== *)
(** * The stave (stave.ts) *)
(* ================================================================== *)

Module Stave.

Import Accidental.

(** ** Lines and y coordinates *)

(** Does the reverse of getYForLine.  [None] stands for the quotient by a
    spacing of 0, which is not a finite number. *)
Definition getLineForY (s : Accidental.Stave) (y : Q) : option Q :=
  let spacing := spacingBetweenLinesPx s in
  let headroom := spaceAboveStaffLn s in
  if Qeq_bool spacing 0 then None
  else Some ((y - stave_y s) / spacing - headroom).

Definition getYForNote (s : Accidental.Stave) (line : Q) : Q :=
  let spacing := spacingBetweenLinesPx s in
  let headroom := spaceAboveStaffLn s in
  stave_y s + headroom * spacing + 5 * spacing - line * spacing.

Definition space (s : Accidental.Stave) (spacing : Q) : Q :=
  spacingBetweenLinesPx s * spacing.

Definition getTopLineTopY (s : Accidental.Stave) : Q := getYForLine s 0.

Definition getYForGlyphs (s : Accidental.Stave) : Q := getYForLine s 3.

(** ** The configuration of the lines *)

Inductive StaveError : Type :=
| StaveConfigError.

Inductive Outcome (A : Type) : Type :=
| Done (x : A)
| Thrown (e : StaveError).
Arguments Done {A} x.
Arguments Thrown {A} e.

(** [StaveLineConfig]: [visible] may be missing. *)
Record StaveLineConfig : Type := mkLineConfig {
  visible : option bool
}.

(** The part of a Stave that its line functions read and write: the
    geometry, the options on the lines and the text positions, and the
    height.  An element of [lineConfig] is [None] where the array has a
    hole. *)
Record Lines : Type := mkLines {
  geometry : Accidental.Stave;
  numLines : Z;
  lineConfig : list (option StaveLineConfig);
  spaceBelowStaffLn : Q;
  topTextPosition : Q;
  bottomTextPosition : Q;
  height : Q
}.

Definition getNumLines (st : Lines) : Z := numLines st.

Definition getConfigForLines (st : Lines) : list (option StaveLineConfig) := lineConfig st.

(** The [for] loop pushes one visible line for [i = 0 .. numLines - 1]. *)
Definition resetLines (st : Lines) : Lines :=
  {| geometry := geometry st;
     numLines := numLines st;
     lineConfig := replicate (Z.to_nat (numLines st)) (Some {| visible := Some true |});
     spaceBelowStaffLn := spaceBelowStaffLn st;
     topTextPosition := topTextPosition st;
     bottomTextPosition := inject_Z (numLines st);
     height := (inject_Z (numLines st) + spaceAboveStaffLn (geometry st))
               * spacingBetweenLinesPx (geometry st) |}.

Definition setNumLines (n : Z) (st : Lines) : Lines :=
  resetLines
    {| geometry := geometry st; numLines := n; lineConfig := lineConfig st;
       spaceBelowStaffLn := spaceBelowStaffLn st; topTextPosition := topTextPosition st;
       bottomTextPosition := bottomTextPosition st; height := height st |}.

Definition getBottomLineY (st : Lines) : Q :=
  getYForLine (geometry st) (inject_Z (numLines st)).

Definition getBottomY (st : Lines) : Q :=
  let spacing := spacingBetweenLinesPx (geometry st) in
  let scoreBottom :=
    getYForLine (geometry st) (inject_Z (numLines st)) + spaceBelowStaffLn st * spacing in
  scoreBottom.

Definition getYForTopText (st : Lines) (line : Q) : Q :=
  getYForLine (geometry st) (- line - topTextPosition st).

Definition getYForBottomText (st : Lines) (line : Q) : Q :=
  getYForLine (geometry st) (bottomTextPosition st + line).

(** [array[i] = x]: within the array the element is replaced; beyond its
    end the array grows, with holes up to [i]. *)
Definition writeAt {A : Type} (i : nat) (x : A) (l : list (option A)) : list (option A) :=
  if bool_decide (i < length l)%nat then <[i := Some x]> l
  else l ++ replicate (i - length l) None ++ [Some x].

Definition setLineConfig (c : list (option StaveLineConfig)) (st : Lines) : Lines :=
  {| geometry := geometry st; numLines := numLines st; lineConfig := c;
     spaceBelowStaffLn := spaceBelowStaffLn st; topTextPosition := topTextPosition st;
     bottomTextPosition := bottomTextPosition st; height := height st |}.

(** Configure properties of the lines in the Stave.  The line number is
    an integer. *)
Definition setConfigForLine (lineNumber : Z) (config : StaveLineConfig) (st : Lines)
  : Outcome Lines :=
  if (numLines st <=? lineNumber)%Z || (lineNumber <? 0)%Z then Thrown StaveConfigError
  else
    match visible config with
    | None => Thrown StaveConfigError
    | Some _ =>
        Done (setLineConfig (writeAt (Z.to_nat lineNumber) config (lineConfig st)) st)
    end.

(** [{...a, ...b}] on line configurations: the properties of [b] win; a
    missing object contributes nothing. *)
Definition spread (a b : option StaveLineConfig) : StaveLineConfig :=
  {| visible :=
       match b ≫= visible with
       | Some v => Some v
       | None => a ≫= visible
       end |}.

(** The body of the [for ... in] loop of [setConfigForLines]: the state is
    the caller's array and [this.options.lineConfig]. *)
Definition configStep
    (acc : list (option StaveLineConfig) * list (option StaveLineConfig)) (i : nat)
  : list (option StaveLineConfig) * list (option StaveLineConfig) :=
  let '(linesConfiguration, lineConfig) := acc in
  (* Allow '{}' to be used if the caller just wants the default for a
     particular node. *)
  let linesConfiguration :=
    match linesConfiguration !! i with
    | Some (Some given) =>
        match visible given with
        | None => <[i := mjoin (lineConfig !! i)]> linesConfiguration
        | Some _ => linesConfiguration
        end
    | _ => linesConfiguration
    end in
  let lineConfig :=
    writeAt i (spread (mjoin (lineConfig !! i)) (mjoin (linesConfiguration !! i))) lineConfig in
  (linesConfiguration, lineConfig).

(** Set the staff line configuration array for all of the lines at once. *)
Definition setConfigForLines (linesConfiguration : list StaveLineConfig) (st : Lines)
  : Outcome Lines :=
  if bool_decide (Z.of_nat (length linesConfiguration) <> numLines st)
  then Thrown StaveConfigError
  else
    let '(linesConfiguration, _) :=
      fold_left configStep (seq 0 (length linesConfiguration))
                (Some <$> linesConfiguration, lineConfig st) in
    Done (setLineConfig linesConfiguration st).

(** The lines are configured as the functions above leave them: one
    entry for every line, each with its [visible] flag. *)
Definition configured (st : Lines) : Prop :=
  Z.of_nat (length (lineConfig st)) = numLines st /\
  Forall (fun c => exists b, c = Some {| visible := Some b |}) (lineConfig st).

(** ** The x position *)

(** The part of a Stave that [setX] and [setWidth] write; a modifier is
    known here by its x. *)
Record Position : Type := mkPosition {
  pos_x : Q;
  pos_width : Q;
  startX : Q;
  endX : Q;
  formatted : bool;
  modifiers : list Q
}.

(** What the constructor leaves for the position, before it adds the two
    barlines. *)
Definition newPosition (x width : Q) : Position :=
  {| pos_x := x; pos_width := width; startX := x + 5; endX := x + width;
     formatted := false; modifiers := [] |}.

Definition setX (x : Q) (p : Position) : Position :=
  let shift := x - pos_x p in
  {| pos_x := x; pos_width := pos_width p;
     startX := startX p + shift; endX := endX p + shift;
     formatted := false;
     modifiers := List.map (fun modX => modX + shift) (modifiers p) |}.

Definition setWidth (width : Q) (p : Position) : Position :=
  {| pos_x := pos_x p; pos_width := width; startX := startX p;
     endX := pos_x p + width; formatted := false; modifiers := modifiers p |}.

Definition getTieStartX (p : Position) : Q := startX p.
Definition getTieEndX (p : Position) : Q := endX p.

(** A call of [setX] or of [setWidth], to speak of sequences of them. *)
Inductive PositionCall : Type :=
| CallSetX (x : Q)
| CallSetWidth (width : Q).

Definition call (p : Position) (c : PositionCall) : Position :=
  match c with
  | CallSetX x => setX x p
  | CallSetWidth width => setWidth width p
  end.

(** ** sortByCategory *)

Section SortByCategory.

Variable Modifier : Type.
Variable getCategory : Modifier -> string.

(** [order[a.getCategory()] > order[b.getCategory()]]: false when a
    category has no entry in [order]. *)
Definition orderAbove (order : string -> option Q) (a b : Modifier) : bool :=
  match order (getCategory a), order (getCategory b) with
  | Some x, Some y => Qltb y x
  | _, _ => false
  end.

(** The body of the inner loop: swap [items[j]] and [items[j + 1]] when
    they are out of order. *)
Definition swapStep (order : string -> option Q) (items : list Modifier) (j : nat)
  : list Modifier :=
  match items !! j, items !! (j + 1)%nat with
  | Some a, Some b =>
      if orderAbove order a b then <[(j + 1)%nat := a]> (<[j := b]> items) else items
  | _, _ => items
  end.

(** Use the modifier's category as a key for the [order]; sort the
    modifiers from left to right: [i] runs from the last index down to 0,
    [j] from 0 up to [i - 1]. *)
Definition sortByCategory (order : string -> option Q) (items : list Modifier)
  : list Modifier :=
  fold_left (fun items i => fold_left (swapStep order) (seq 0 i) items)
            (rev (seq 0 (length items))) items.

(** The place of a modifier in the order, 0 for a category without one. *)
Definition rank (order : string -> option Q) (m : Modifier) : Q :=
  default 0 (order (getCategory m)).

(** The modifier's category has a place in the order. *)
Definition ranked (order : string -> option Q) (m : Modifier) : Prop :=
  is_Some (order (getCategory m)).

End SortByCategory.

Arguments orderAbove {Modifier} getCategory order a b.
Arguments swapStep {Modifier} getCategory order items j.
Arguments sortByCategory {Modifier} getCategory order items.
Arguments rank {Modifier} getCategory order m.
Arguments ranked {Modifier} getCategory order m.

(** ** Sample inputs *)

(** A stave at y = 40 with 10 pixels between its lines and four lines of
    headroom, and its five lines as the constructor leaves them. *)
Definition sampleStave : Accidental.Stave :=
  {| stave_y := 40; spacingBetweenLinesPx := 10; spaceAboveStaffLn := 4 |}.

Definition fiveLines : Lines :=
  resetLines
    {| geometry := sampleStave; numLines := 5; lineConfig := [];
       spaceBelowStaffLn := 4; topTextPosition := 1; bottomTextPosition := 4;
       height := 0 |}.

(** An order of four categories, as the stave has for the modifiers at
    its beginning; the modifiers of the samples are their category. *)
Definition sampleOrder (category : string) : option Q :=
  if String.eqb category "Barline" then Some 0
  else if String.eqb category "Clef" then Some 1
  else if String.eqb category "KeySignature" then Some 2
  else if String.eqb category "TimeSignature" then Some 3
  else None.

Definition sampleModifiers : list string :=
  ["TimeSignature"; "Barline"; "KeySignature"; "Clef"; "Barline"]%string.

End Stave.

(* ================================================================== *)
(** * Properties *)
(* ================================================================== *)

Lemma Qltb_lt (x y : Q) : Qltb x y = true <-> x < y.
Proof.
  unfold Qltb. rewrite negb_true_iff. split; intros H.
  - apply Qnot_le_lt. intros Hle. apply Qle_bool_iff in Hle. congruence.
  - destruct (Qle_bool y x) eqn:E; [|reflexivity].
    apply Qle_bool_iff in E. lra.
Qed.

Lemma Qltb_ge (x y : Q) : Qltb x y = false <-> y <= x.
Proof.
  unfold Qltb. rewrite negb_false_iff. apply Qle_bool_iff.
Qed.

Import Accidental.

(** ** checkCollision *)

(** With the first argument on top (or on the same line) the code tests
    the line difference against the required clearance; the half line
    granted to a double sharp below is added to the difference. *)
Lemma checkCollision_top_first (l1 l2 : StaveLineAccidentalLayoutMetrics) :
  line l2 <= line l1 ->
  checkCollision l1 l2 = true <->
  line l1 - line l2 + (if dblSharpLine l2 then 0.5 else 0)
    < (if flatLine l1 || dblSharpLine l1 then 2.5 else 3.0).
Proof.
  intros Hle. unfold checkCollision. cbv zeta.
  assert (Hb : Qltb 0 (line l2 - line l1) = false) by (apply Qltb_ge; lra).
  rewrite Hb, Qltb_lt.
  destruct (dblSharpLine l2), (flatLine l1 || dblSharpLine l1); cbv iota;
    rewrite Qabs_Qlt_condition; (split; [intros [? ?] | intros ?; split]); lra.
Qed.

Lemma checkCollision_top_first_false (l1 l2 : StaveLineAccidentalLayoutMetrics) :
  line l2 <= line l1 ->
  checkCollision l1 l2 = false <->
  (if flatLine l1 || dblSharpLine l1 then 2.5 else 3.0)
    <= line l1 - line l2 + (if dblSharpLine l2 then 0.5 else 0).
Proof.
  intros Hle. pose proof (checkCollision_top_first l1 l2 Hle) as H.
  destruct (checkCollision l1 l2); split; intros H1; try discriminate; try reflexivity.
  - exfalso. destruct H as [H _]. specialize (H eq_refl).
    apply (Qlt_not_le _ _ H). exact H1.
  - apply Qnot_lt_le. intros H2. apply H in H2. discriminate.
Qed.

(** In that order the code agrees with the rule of the specification. *)
Lemma checkCollision_top_first_spec (l1 l2 : StaveLineAccidentalLayoutMetrics) :
  line l2 <= line l1 ->
  checkCollision l1 l2 = collidesSpec l1 l2.
Proof.
  intros Hle. apply eq_true_iff_eq.
  rewrite (checkCollision_top_first l1 l2 Hle).
  unfold collidesSpec, requiredClearance. cbv zeta.
  assert (Hb : Qltb (line l1) (line l2) = false) by (apply Qltb_ge; lra).
  rewrite Hb, Qltb_lt, Qabs_Qlt_condition.
  destruct (dblSharpLine l2), (flatLine l1 || dblSharpLine l1); cbv iota;
    (split; [intros ?; split | intros [? ?]]); lra.
Qed.

(** A line collides with itself. *)
Lemma checkCollision_refl (l : StaveLineAccidentalLayoutMetrics) :
  checkCollision l l = true.
Proof.
  apply checkCollision_top_first; [lra|].
  destruct (dblSharpLine l), (flatLine l); cbn [orb]; lra.
Qed.

(** The column of a line plays no part in the collision test. *)
Lemma checkCollision_setColumn (c1 c2 : nat) (l1 l2 : StaveLineAccidentalLayoutMetrics) :
  checkCollision (setColumn c1 l1) (setColumn c2 l2) = checkCollision l1 l2.
Proof. reflexivity. Qed.

(** C2 (code defect).  A double-sharp line three stave lines below a plain
    line: with the lower line passed first, [checkCollision] subtracts the
    half line from a positive clearance and reports a collision
    (|3 - 0.5| < 3), although the specified rule requires a clearance of
    only 3.0 - 0.5 = 2.5 and the lines are 3 apart; with the arguments
    swapped the code reports none.  The two orders are not symmetric. *)
Theorem checkCollision_lower_dblSharp_first :
  let lower := {| column := 0; line := 0; flatLine := false; dblSharpLine := true;
                  numAcc := 1; width := 0 |} in
  let upper := {| column := 0; line := 3; flatLine := false; dblSharpLine := false;
                  numAcc := 1; width := 0 |} in
  checkCollision lower upper = true /\
  collidesSpec lower upper = false /\
  checkCollision upper lower = false /\
  collidesSpec upper lower = false.
Proof. vm_compute. repeat split; reflexivity. Qed.

(** ** Collisions among spaced lines *)

Lemma collideAt_lookup (lines : list StaveLineAccidentalLayoutMetrics) i j l1 l2 :
  lines !! i = Some l1 -> lines !! j = Some l2 ->
  collideAt lines i j = checkCollision l1 l2.
Proof. intros H1 H2. unfold collideAt. rewrite H1, H2. reflexivity. Qed.

Lemma Spaced_le (lines : list StaveLineAccidentalLayoutMetrics) i j l1 l2 :
  Spaced lines -> (i <= j)%nat ->
  lines !! i = Some l1 -> lines !! j = Some l2 -> line l2 <= line l1.
Proof.
  intros Hs Hij H1 H2. destruct (decide (i = j)) as [->|Hne].
  - rewrite H1 in H2. injection H2 as ->. lra.
  - assert (Hlt : (i < j)%nat) by lia.
    pose proof (Hs i j l1 l2 Hlt H1 H2). lra.
Qed.

(** Among spaced lines, a pair that does not collide keeps every pair
    that encloses it from colliding. *)
Lemma collideAt_widen (lines : list StaveLineAccidentalLayoutMetrics) i j i' j' :
  Spaced lines ->
  (i' <= i)%nat -> (i < j)%nat -> (j <= j')%nat -> (j' < length lines)%nat ->
  collideAt lines i j = false -> collideAt lines i' j' = false.
Proof.
  intros Hs Hi Hij Hj Hlen Hc.
  destruct (lookup_lt_is_Some_2 lines i') as [a' Ha']; [lia|].
  destruct (lookup_lt_is_Some_2 lines i) as [a Ha]; [lia|].
  destruct (lookup_lt_is_Some_2 lines j) as [b Hb]; [lia|].
  destruct (lookup_lt_is_Some_2 lines j') as [b' Hb']; [lia|].
  rewrite (collideAt_lookup _ _ _ _ _ Ha Hb) in Hc.
  rewrite (collideAt_lookup _ _ _ _ _ Ha' Hb').
  pose proof (Hs i j a b Hij Ha Hb) as Hab.
  apply checkCollision_top_first_false in Hc; [|lra].
  assert (Hab' : line b' <= line a').
  { apply (Spaced_le lines i' j'); auto. lia. }
  apply checkCollision_top_first_false; [exact Hab'|].
  assert (Hleft : a' = a \/ line a + 0.5 <= line a').
  { destruct (decide (i' = i)) as [->|Hne].
    - left. congruence.
    - right. apply (Hs i' i); auto. lia. }
  assert (Hright : b' = b \/ line b' + 0.5 <= line b).
  { destruct (decide (j = j')) as [->|Hne].
    - left. congruence.
    - right. apply (Hs j j'); auto. lia. }
  destruct Hleft as [->|Hleft], Hright as [->|Hright];
    destruct (flatLine a || dblSharpLine a), (dblSharpLine b);
    try destruct (flatLine a' || dblSharpLine a');
    try destruct (dblSharpLine b'); cbv iota in *; lra.
Qed.

(** ** The loops of the column placement *)

Lemma extendGroup_spec (lines : list StaveLineAccidentalLayoutMetrics) fuel g :
  (g < length lines)%nat -> (length lines <= g + fuel)%nat ->
  let e := extendGroup lines g fuel in
  (g <= e)%nat /\ (e < length lines)%nat /\
  (forall k, (g <= k)%nat -> (k < e)%nat -> collideAt lines k (k + 1) = true) /\
  ((e + 1 < length lines)%nat -> collideAt lines e (e + 1) = false).
Proof.
  revert g. induction fuel as [|fuel IH]; intros g Hg Hfuel; [lia|].
  cbn [extendGroup].
  destruct (bool_decide (g + 1 < length lines)%nat) eqn:Hnext; cbn [andb].
  - apply bool_decide_eq_true in Hnext.
    destruct (collideAt lines g (g + 1)) eqn:Hc.
    + destruct (IH (g + 1)%nat ltac:(lia) ltac:(lia)) as (H1 & H2 & H3 & H4).
      repeat split; [lia|lia| |exact H4].
      intros k Hk1 Hk2. destruct (decide (k = g)) as [->|Hne]; [exact Hc|].
      apply H3; lia.
    + repeat split; [lia|lia|intros; lia|auto].
  - apply bool_decide_eq_false in Hnext.
    repeat split; [lia|lia|intros; lia|intros; lia].
Qed.

Lemma collisionDetected_false (lines : list StaveLineAccidentalLayoutMetrics) p l :
  collisionDetected lines p = false -> (l + p < length lines)%nat ->
  collideAt lines l (l + p) = false.
Proof.
  unfold collisionDetected. intros H Hl.
  destruct (collideAt lines l (l + p)) eqn:Hc; [|reflexivity].
  assert (Hex : existsb (fun l => collideAt lines l (l + p)) (seq 0 (length lines - p)) = true).
  { apply existsb_exists. exists l. split; [|exact Hc]. apply in_seq. lia. }
  congruence.
Qed.

Lemma findPatternLength_spec (lines : list StaveLineAccidentalLayoutMetrics) fuel p p' :
  findPatternLength lines p fuel = Some p' ->
  (p <= p')%nat /\ collisionDetected lines p' = false.
Proof.
  revert p. induction fuel as [|fuel IH]; intros p H; [discriminate|].
  cbn [findPatternLength] in H.
  destruct (collisionDetected lines p) eqn:Hc.
  - apply IH in H. split; [lia|tauto].
  - injection H as <-. split; [lia|exact Hc].
Qed.

Lemma findPatternLength_total (lines : list StaveLineAccidentalLayoutMetrics) fuel p :
  (length lines <= p + fuel)%nat ->
  exists p', findPatternLength lines p (S fuel) = Some p'.
Proof.
  revert p. induction fuel as [|fuel IH]; intros p H.
  - cbn. unfold collisionDetected.
    replace (length lines - p)%nat with 0%nat by lia. cbn. eauto.
  - cbn [findPatternLength].
    destruct (collisionDetected lines p) eqn:Hc; [|eauto].
    apply IH. lia.
Qed.

Lemma writeColumns_lookup (columns : list nat) :
  forall (lines : list StaveLineAccidentalLayoutMetrics) total g lines' total' m,
  writeColumns lines total g columns = (lines', total') ->
  lines' !! m =
    match columns !! (m - g)%nat with
    | Some c => if decide (g <= m)%nat then setColumn c <$> lines !! m else lines !! m
    | None => lines !! m
    end.
Proof.
  induction columns as [|c columns IH]; intros lines total g lines' total' m H.
  - cbn in H. injection H as <- <-. reflexivity.
  - cbn [writeColumns] in H. rewrite (IH _ _ _ _ _ m H). clear IH H.
    destruct (decide (m = g)) as [->|Hne].
    + replace (g - S g)%nat with 0%nat by lia. replace (g - g)%nat with 0%nat by lia.
      cbn [lookup list_lookup].
      rewrite list_lookup_alter_eq. destruct (decide (g <= g)%nat); [|lia].
      destruct (decide (S g <= g)%nat); [lia|].
      destruct columns; reflexivity.
    + rewrite list_lookup_alter_ne by auto.
      destruct (decide (g <= m)%nat) as [Hle|Hgt].
      * replace (m - g)%nat with (S (m - S g))%nat by lia. cbn [lookup list_lookup].
        destruct (decide (S g <= m)%nat); [|lia]. reflexivity.
      * replace (m - S g)%nat with 0%nat by lia. replace (m - g)%nat with 0%nat by lia.
        cbn [lookup list_lookup]. destruct (decide (S g <= m)%nat); [lia|].
        destruct columns; reflexivity.
Qed.

Lemma writeColumns_total (columns : list nat) :
  forall (lines : list StaveLineAccidentalLayoutMetrics) total g lines' total',
  writeColumns lines total g columns = (lines', total') ->
  (total <= total')%nat /\ Forall (fun c => (c <= total')%nat) columns.
Proof.
  induction columns as [|c columns IH]; intros lines total g lines' total' H.
  - cbn in H. injection H as <- <-. split; [lia|constructor].
  - cbn [writeColumns] in H. apply IH in H. destruct H as [H1 H2].
    case_bool_decide; (split; [lia|]); constructor; (lia || exact H2).
Qed.

Lemma collideAt_refl (lines : list StaveLineAccidentalLayoutMetrics) i :
  (i < length lines)%nat -> collideAt lines i i = true.
Proof.
  intros H. destruct (lookup_lt_is_Some_2 lines i H) as [a Ha].
  rewrite (collideAt_lookup _ _ _ _ _ Ha Ha). apply checkCollision_refl.
Qed.

Lemma notColliding_In (lines : list StaveLineAccidentalLayoutMetrics) i pairs p q :
  notColliding lines i pairs = true -> In (p, q) pairs ->
  collideAt lines (i + p) (i + q) = false.
Proof.
  unfold notColliding. intros H Hin.
  rewrite forallb_forall in H. specialize (H _ Hin). cbn in H.
  apply negb_true_iff in H. exact H.
Qed.

(** The classifier chosen for a group of fewer than seven lines is one
    the table is consulted for, and the pairs it stands for were found
    not to collide. *)
Lemma classifyGroup_reachable (lines : list StaveLineAccidentalLayoutMetrics) i n :
  (n < 6)%nat -> (i + n < length lines)%nat ->
  (forall k, (i <= k)%nat -> (k < i + n)%nat -> collideAt lines k (k + 1) = true) ->
  let c := classifyGroup lines i (i + n) in
  In c (reachableEndCases (S n)) /\ notColliding lines i (separatedPairs (S n) c) = true.
Proof.
  intros Hn Hlen Hgroup. unfold classifyGroup. cbv zeta.
  replace (i + n - i + 1)%nat with (S n) by lia.
  assert (Hrefl : collideAt lines i i = true) by (apply collideAt_refl; lia).
  do 6 (try destruct n as [|n]); try lia;
    unfold notColliding;
    cbn [forallb fst snd separatedPairs reachableEndCases Nat.sub];
    rewrite ?Nat.add_0_r;
    rewrite ?Hrefl, ?(Hgroup i) by lia;
    repeat match goal with
    | |- context [collideAt ?l ?a ?b] =>
        let E := fresh "E" in destruct (collideAt l a b) eqn:E
    | |- context [lineDifferenceIs ?l ?a ?b ?c ?d] =>
        destruct (lineDifferenceIs l a b c d)
    end;
    cbn [negb andb isEndA isEndB separatedPairs forallb fst snd Nat.sub In];
    rewrite ?Nat.add_0_r;
    repeat match goal with
    | H : collideAt _ _ _ = _ |- _ => rewrite ?H; clear H
    end;
    cbn [negb andb]; auto 10.
Qed.

Lemma tableOk_row (table : ColumnsTable) n c :
  tableOk table = true -> (n < 6)%nat -> In c (reachableEndCases (S n)) ->
  exists row, table (S n) c = Some row /\ rowOk (S n) c row = true.
Proof.
  unfold tableOk. intros H Hn Hc.
  rewrite forallb_forall in H.
  specialize (H (S n) ltac:(apply in_seq; lia)).
  rewrite forallb_forall in H. specialize (H c Hc).
  destruct (table (S n) c) as [row|]; [eauto|discriminate].
Qed.

Lemma rowOk_spec len c (row : list nat) :
  rowOk len c row = true ->
  length row = len /\ Forall (fun k => (1 <= k)%nat) row /\
  forall x y, (x < y)%nat -> (y < len)%nat -> row !! x = row !! y ->
    exists p q, In (p, q) (separatedPairs len c) /\ (x <= p)%nat /\ (p < q)%nat /\ (q <= y)%nat.
Proof.
  unfold rowOk. rewrite !andb_true_iff. intros [[H1 H2] H3].
  apply bool_decide_eq_true in H1. split; [exact H1|]. split.
  - rewrite Forall_forall. intros k Hk.
    rewrite forallb_forall in H2. apply list_elem_of_In in Hk.
    specialize (H2 k Hk). apply bool_decide_eq_true in H2. exact H2.
  - intros x y Hxy Hy Heq.
    rewrite forallb_forall in H3.
    specialize (H3 x ltac:(apply in_seq; lia)).
    rewrite forallb_forall in H3.
    specialize (H3 y ltac:(apply in_seq; lia)).
    rewrite (bool_decide_eq_true_2 _ Hxy), (bool_decide_eq_true_2 _ Heq) in H3.
    cbn in H3. apply existsb_exists in H3. destruct H3 as [[p q] [Hin Hpq]].
    rewrite !andb_true_iff in Hpq. destruct Hpq as [[Hp Hpq] Hq].
    apply bool_decide_eq_true in Hp, Hpq, Hq. cbn in *. eauto 10.
Qed.

Lemma tableColumns_take (row : list nat) len s :
  (s + len <= length row)%nat ->
  foldr (fun member (rest : Result (list nat)) =>
           let* c := match row !! member with
                     | Some c => Ok c
                     | None => Err UndefinedValue
                     end in
           let* cs := rest in
           Ok (c :: cs))
        (Ok []) (seq s len) = Ok (take len (drop s row)).
Proof.
  revert s. induction len as [|len IH]; intros s H; [reflexivity|].
  cbn [seq foldr]. rewrite (IH (S s)) by lia.
  destruct (lookup_lt_is_Some_2 row s ltac:(lia)) as [c Hc].
  rewrite Hc. cbn. f_equal.
  rewrite (drop_S _ _ _ Hc). reflexivity.
Qed.

(** The columns given to the members of one group: one column from 1 up
    for every member, and members sharing a column do not collide. *)
Lemma groupColumns_spec (table : ColumnsTable)
    (lines : list StaveLineAccidentalLayoutMetrics) i n :
  tableOk table = true -> Spaced lines -> (i + n < length lines)%nat ->
  (forall k, (i <= k)%nat -> (k < i + n)%nat -> collideAt lines k (k + 1) = true) ->
  exists columns,
    groupColumns table lines i (i + n) = Ok columns /\
    length columns = S n /\
    Forall (fun k => (1 <= k)%nat) columns /\
    forall x y, (x < y)%nat -> (y <= n)%nat -> columns !! x = columns !! y ->
      collideAt lines (i + x) (i + y) = false.
Proof.
  intros Ht Hs Hlen Hgroup. unfold groupColumns. cbv zeta.
  replace (i + n - i + 1)%nat with (S n) by lia.
  case_bool_decide as Hseven.
  - destruct (findPatternLength_total lines (length lines) 2 ltac:(lia)) as [p Hp].
    rewrite Hp. cbn [definedR bindR].
    apply findPatternLength_spec in Hp. destruct Hp as [Hp2 Hp].
    eexists. split; [reflexivity|]. split; [|split].
    + rewrite length_map, length_seq. reflexivity.
    + rewrite Forall_forall. intros k Hk. apply list_elem_of_In, in_map_iff in Hk.
      destruct Hk as (m & <- & _). lia.
    + intros x y Hxy Hy Heq.
      rewrite !list_lookup_fmap in Heq.
      rewrite !lookup_seq_lt in Heq by lia. cbn in Heq.
      assert (Hmod : (x mod p = y mod p)%nat) by (injection Heq; lia).
      assert (Hge : (x + p <= y)%nat).
      { pose proof (Nat.div_mod_eq x p). pose proof (Nat.div_mod_eq y p).
        destruct (decide (x / p < y / p)%nat); [nia|].
        assert (y / p <= x / p)%nat by lia. nia. }
      apply (collideAt_widen lines (i + x) (i + x + p)); try lia; auto.
      apply collisionDetected_false; auto. lia.
  - destruct (classifyGroup_reachable lines i n ltac:(lia) Hlen Hgroup) as [Hin Hsep].
    cbv zeta in Hin, Hsep.
    destruct (tableOk_row table n _ Ht ltac:(lia) Hin) as (row & Hrow & Hok).
    rewrite Hrow. cbn [definedR bindR].
    apply rowOk_spec in Hok. destruct Hok as (Hl & Hpos & Hsame).
    rewrite tableColumns_take by lia.
    rewrite drop_0, take_ge by lia.
    eexists. split; [reflexivity|]. split; [exact Hl|]. split; [exact Hpos|].
    intros x y Hxy Hy Heq.
    destruct (Hsame x y Hxy ltac:(lia) Heq) as (p & q & Hpq & Hxp & Hlt & Hqy).
    apply (collideAt_widen lines (i + p) (i + q)); try lia; auto.
    apply (notColliding_In _ _ _ _ _ Hsep Hpq).
Qed.

Lemma fmap_Some_eq {A B : Type} (f : A -> B) (x y : A) :
  f <$> Some x = f <$> Some y -> f x = f y.
Proof. intros H. injection H. auto. Qed.

Lemma sameLines_collideAt (lines lines' : list StaveLineAccidentalLayoutMetrics) i j :
  sameLines lines lines' -> collideAt lines' i j = collideAt lines i j.
Proof.
  intros H. unfold collideAt. pose proof (H i) as Hi. pose proof (H j) as Hj.
  destruct (lines' !! i) as [a'|], (lines !! i) as [a|]; try discriminate;
    destruct (lines' !! j) as [b'|], (lines !! j) as [b|]; try discriminate; try reflexivity.
  apply fmap_Some_eq in Hi, Hj.
  change (checkCollision a' b') with (checkCollision (setColumn 0 a') (setColumn 0 b')).
  change (checkCollision a b) with (checkCollision (setColumn 0 a) (setColumn 0 b)).
  rewrite Hi, Hj. reflexivity.
Qed.

Lemma sameLines_Spaced (lines lines' : list StaveLineAccidentalLayoutMetrics) :
  sameLines lines lines' -> Spaced lines -> Spaced lines'.
Proof.
  intros H Hs i j l1 l2 Hij H1 H2.
  pose proof (H i) as Hi. pose proof (H j) as Hj. rewrite H1 in Hi. rewrite H2 in Hj.
  destruct (lines !! i) as [a|] eqn:Ha; [|discriminate].
  destruct (lines !! j) as [b|] eqn:Hb; [|discriminate].
  apply fmap_Some_eq in Hi, Hj.
  pose proof (Hs i j a b Hij Ha Hb) as Hab.
  replace (line l1) with (line (setColumn 0 l1)) by reflexivity.
  replace (line l2) with (line (setColumn 0 l2)) by reflexivity.
  rewrite Hi, Hj. exact Hab.
Qed.

Lemma sameLines_length (lines lines' : list StaveLineAccidentalLayoutMetrics) :
  sameLines lines lines' -> length lines' = length lines.
Proof.
  intros H.
  destruct (decide (length lines' < length lines)%nat) as [Hlt|Hge].
  - exfalso. pose proof (H (length lines')) as Hm.
    rewrite (lookup_ge_None_2 lines') in Hm by lia.
    destruct (lookup_lt_is_Some_2 lines (length lines') Hlt) as [a Ha].
    rewrite Ha in Hm. discriminate.
  - destruct (decide (length lines < length lines')%nat) as [Hlt|Hge']; [|lia].
    exfalso. pose proof (H (length lines)) as Hm.
    rewrite (lookup_ge_None_2 lines) in Hm by lia.
    destruct (lookup_lt_is_Some_2 lines' (length lines) Hlt) as [a Ha].
    rewrite Ha in Hm. discriminate.
Qed.

Lemma sameLines_trans (l1 l2 l3 : list StaveLineAccidentalLayoutMetrics) :
  sameLines l1 l2 -> sameLines l2 l3 -> sameLines l1 l3.
Proof. intros H1 H2 m. rewrite H2, H1. reflexivity. Qed.

Lemma writeColumns_sameLines (columns : list nat)
    (lines : list StaveLineAccidentalLayoutMetrics) total g lines' total' :
  writeColumns lines total g columns = (lines', total') -> sameLines lines lines'.
Proof.
  intros H m. rewrite (writeColumns_lookup _ _ _ _ _ _ m H).
  destruct (columns !! (m - g)%nat); [|reflexivity].
  destruct (decide (g <= m)%nat); [|reflexivity].
  destruct (lines !! m); reflexivity.
Qed.

(** The loop over the groups: it ends with a result, changes nothing but
    columns, gives every line a column between 1 and [totalColumns], and
    never gives two colliding lines the same column. *)
Lemma placeGroups_spec (table : ColumnsTable) (fuel : nat) :
  forall (lines : list StaveLineAccidentalLayoutMetrics) total i,
  tableOk table = true -> Spaced lines ->
  (length lines <= i + fuel)%nat -> (i <= length lines)%nat ->
  (forall x y, (x < i)%nat -> (i <= y)%nat -> (y < length lines)%nat ->
     collideAt lines x y = false) ->
  separatedBelow lines i -> columnsBelow lines i total ->
  exists lines' total',
    placeGroups table fuel lines total i = Ok (lines', total') /\
    sameLines lines lines' /\
    separatedBelow lines' (length lines') /\
    columnsBelow lines' (length lines') total'.
Proof.
  induction fuel as [|fuel IH];
    intros lines total i Ht Hs Hfuel Hi Hbound Hsep Hcols.
  - cbn [placeGroups]. rewrite bool_decide_eq_true_2 by lia.
    assert (i = length lines) as -> by lia.
    exists lines, total.
    split; [reflexivity|]. split; [intros m; reflexivity|]. split; assumption.
  - cbn [placeGroups]. case_bool_decide as Hend.
    { assert (i = length lines) as -> by lia.
      exists lines, total.
      split; [reflexivity|]. split; [intros m; reflexivity|]. split; assumption. }
    pose proof (extendGroup_spec lines (length lines) i ltac:(lia) ltac:(lia)) as He.
    cbv zeta in He. set (e := extendGroup lines i (length lines)) in *.
    destruct He as (He1 & He2 & He3 & He4).
    assert (Hei : e = (i + (e - i))%nat) by lia.
    destruct (groupColumns_spec table lines i (e - i) Ht Hs ltac:(lia))
      as (columns & Hcolumns & Hlen & Hpos & Hsame).
    { intros k Hk1 Hk2. apply He3; lia. }
    rewrite <- Hei in Hcolumns. rewrite Hcolumns. cbn [bindR].
    destruct (writeColumns lines total i columns) as [lines1 total1] eqn:Hw.
    pose proof (writeColumns_sameLines _ _ _ _ _ _ Hw) as Hsame1.
    pose proof (sameLines_length _ _ Hsame1) as Hlen1.
    pose proof (writeColumns_total _ _ _ _ _ _ Hw) as [Htot1 Htot2].
    destruct (IH lines1 total1 (S e) Ht) as (lines' & total' & Hplace & Hsame2 & Hsep' & Hcols').
    + apply (sameLines_Spaced lines); auto.
    + lia.
    + lia.
    + intros x y Hx Hy Hylen. rewrite (sameLines_collideAt lines lines1) by auto.
      apply (collideAt_widen lines e (e + 1)); try lia; auto. apply He4. lia.
    + intros x y l1 l2 Hxy Hy H1 H2 Hc.
      rewrite (writeColumns_lookup _ _ _ _ _ _ x Hw) in H1.
      rewrite (writeColumns_lookup _ _ _ _ _ _ y Hw) in H2.
      destruct (decide (i <= y)%nat) as [Hiy|Hiy].
      * destruct (lookup_lt_is_Some_2 columns (y - i)) as [cy Hcy]; [lia|].
        rewrite Hcy in H2.
        destruct (lines !! y) as [b|] eqn:Hb; [|discriminate].
        cbn in H2. injection H2 as <-.
        destruct (decide (i <= x)%nat) as [Hix|Hix].
        -- destruct (lookup_lt_is_Some_2 columns (x - i)) as [cx Hcx]; [lia|].
           rewrite Hcx in H1.
           destruct (lines !! x) as [a|] eqn:Ha; [|discriminate].
           cbn in H1. injection H1 as <-. cbn [column setColumn].
           intros ->.
           assert (Hnc : collideAt lines (i + (x - i)) (i + (y - i)) = false).
           { apply Hsame; [lia|lia|congruence]. }
           replace (i + (x - i))%nat with x in Hnc by lia.
           replace (i + (y - i))%nat with y in Hnc by lia.
           rewrite (collideAt_lookup _ _ _ _ _ Ha Hb) in Hnc.
           rewrite checkCollision_setColumn in Hc. congruence.
        -- exfalso.
           assert (H1' : lines !! x = Some l1).
           { destruct (columns !! (x - i)%nat); exact H1. }
           pose proof (Hbound x y ltac:(lia) Hiy ltac:(lia)) as Hnc.
           rewrite (collideAt_lookup _ _ _ _ _ H1' Hb) in Hnc.
           replace (checkCollision l1 (setColumn cy b)) with (checkCollision l1 b) in Hc
             by reflexivity.
           congruence.
      * assert (H1' : lines !! x = Some l1).
        { destruct (decide (i <= x)%nat); [lia|]. destruct (columns !! (x - i)%nat); exact H1. }
        assert (H2' : lines !! y = Some l2).
        { destruct (columns !! (y - i)%nat); exact H2. }
        apply (Hsep x y l1 l2); auto. lia.
    + intros x l Hx H1.
      rewrite (writeColumns_lookup _ _ _ _ _ _ x Hw) in H1.
      destruct (decide (i <= x)%nat) as [Hix|Hix].
      * destruct (lookup_lt_is_Some_2 columns (x - i)) as [cx Hcx]; [lia|].
        rewrite Hcx in H1.
        destruct (lines !! x) as [a|] eqn:Ha; [|discriminate].
        cbn in H1. injection H1 as <-. cbn [column setColumn].
        rewrite Forall_forall in Hpos, Htot2.
        pose proof (list_elem_of_lookup_2 _ _ _ Hcx) as Hel.
        specialize (Hpos _ Hel). specialize (Htot2 _ Hel). lia.
      * assert (H1' : lines !! x = Some l).
        { destruct (columns !! (x - i)%nat); exact H1. }
        pose proof (Hcols x l ltac:(lia) H1'). lia.
    + exists lines', total'. split; [exact Hplace|]. split; [|auto].
      eapply sameLines_trans; eauto.
Qed.

(** ** The passes before the column placement *)

Lemma halfLine_apart (x y : Q) :
  halfLine x -> halfLine y -> x < y -> x + 0.5 <= y.
Proof.
  intros [a Ha] [b Hb] Hlt.
  assert (Hab : inject_Z a < inject_Z b) by lra.
  rewrite <- Zlt_Qlt in Hab.
  assert (Hab' : (a + 1 <= b)%Z) by lia.
  rewrite Zle_Qle, inject_Z_plus in Hab'. change (inject_Z 1) with 1 in Hab'.
  lra.
Qed.

Lemma linePositions_fold (l : list (nat * Accidental)) :
  forall prev extra entries,
  Forall (fun ia => validIndex ia.2) l ->
  exists prev' extra' entries',
    fold_left linePositionStep l (Ok (prev, extra, entries))
      = Ok (prev', extra', entries ++ entries') /\
    length entries' = length l /\
    (Forall (fun ia => onHalfLine ia.2) l ->
     Forall (fun e => halfLine (e_line e)) entries') /\
    Forall2 (fun ia e => e_pos e = ia.1 /\ e_accidental e = ia.2) l entries'.
Proof.
  induction l as [|[i a] l IH]; intros prev extra entries Hvalid.
  - exists prev, extra, []. cbn. rewrite app_nil_r. repeat split; constructor.
  - inversion Hvalid as [|? ? [k Hk] Hvalid']; subst. cbn in Hk.
    cbn [fold_left]. unfold linePositionStep at 2. cbn [bindR].
    rewrite Hk. cbn [definedR bindR].
    match goal with
    | |- context [Ok (?p, ?x, entries ++ [?e])] =>
        destruct (IH p x (entries ++ [e]) Hvalid')
          as (prev' & extra' & entries' & Hfold & Hlen & Hhalf & Hpos);
        exists prev', extra', (e :: entries')
    end.
    rewrite Hfold, <- app_assoc. cbn [app length]. split; [reflexivity|].
    split; [lia|]. split.
    + intros Hall. inversion Hall as [|? ? Ha Hall']; subst. cbn in Ha.
      constructor; [|auto].
      destruct (note_stave (acc_note a)) as [st|] eqn:Hst; cbn [e_line].
      * exists (roundQ (getYForLine st k / getSpacingBetweenLines st * 2)). field.
      * apply (Ha Hst k Hk).
    + constructor; [|exact Hpos].
      destruct (note_stave (acc_note a)); cbn; auto.
Qed.

Lemma insertByLine_Forall (P : AccidentalLinePositionsAndXSpaceNeeds -> Prop) x l :
  P x -> Forall P l -> Forall P (insertByLine x l).
Proof.
  intros Hx Hl. induction Hl as [|y l Hy Hl IH]; cbn.
  - repeat constructor; auto.
  - destruct (Qltb (e_line x) (e_line y)); repeat constructor; auto.
Qed.

Lemma insertByLine_length x l : length (insertByLine x l) = S (length l).
Proof.
  induction l as [|y l IH]; cbn; [reflexivity|].
  destruct (Qltb (e_line x) (e_line y)); cbn; lia.
Qed.

Lemma insertByLine_sorted x l :
  DescendingEntries l -> DescendingEntries (insertByLine x l).
Proof.
  unfold DescendingEntries. intros Hl. induction Hl as [|y l Hl IH Hy]; cbn.
  - repeat constructor.
  - destruct (Qltb (e_line x) (e_line y)) eqn:E.
    + apply Qltb_lt in E. constructor; [exact IH|].
      apply insertByLine_Forall; [lra|exact Hy].
    + apply Qltb_ge in E. constructor; [constructor; auto|].
      constructor; [exact E|].
      eapply Forall_impl; [exact Hy|]. cbn. intros z Hz. lra.
Qed.

Lemma sortByLine_spec (P : AccidentalLinePositionsAndXSpaceNeeds -> Prop) l :
  DescendingEntries (sortByLine l) /\
  length (sortByLine l) = length l /\
  (Forall P l -> Forall P (sortByLine l)).
Proof.
  unfold sortByLine. induction l as [|x l (IH1 & IH2 & IH3)]; cbn [foldr].
  - repeat split; [constructor|auto].
  - split; [apply insertByLine_sorted; exact IH1|]. split.
    + rewrite insertByLine_length. cbn. lia.
    + intros H. inversion H; subst. apply insertByLine_Forall; auto.
Qed.

Lemma snoc_cases {A : Type} (l : list A) : l = [] \/ exists l' x, l = l' ++ [x].
Proof. destruct l as [|a l] using rev_ind; [left|right]; eauto. Qed.

(** One step of the second loop either adds the accidental to the last
    line or opens a new line below it. *)
Lemma lineMetricStep_cases sp ms mx e :
  exists others cur,
    (lineMetricStep sp (ms, mx) e).1 = others ++ [cur] /\
    ((exists prior, ms = others ++ [prior] /\ line prior == e_line e /\
                    line cur = line prior /\ numAcc cur = S (numAcc prior))
     \/ (others = ms /\ line cur = e_line e /\ numAcc cur = 1%nat /\
         forall prior, last ms = Some prior -> ~ line prior == e_line e)).
Proof.
  unfold lineMetricStep.
  destruct (snoc_cases ms) as [->|(others & prior & ->)].
  - cbn [last]. eexists [], _. split; [reflexivity|]. right.
    repeat split. intros prior H. discriminate.
  - rewrite last_snoc.
    destruct (Qeq_bool (line prior) (e_line e)) eqn:E.
    + rewrite removelast_last. eexists others, _. split; [reflexivity|]. left.
      exists prior. apply Qeq_bool_iff in E. repeat split. exact E.
    + eexists (others ++ [prior]), _. split; [reflexivity|]. right.
      repeat split. intros prior' H. injection H as <-.
      intros Heq. apply Qeq_bool_iff in Heq. congruence.
Qed.

Lemma totalAcc_snoc others cur : totalAcc (others ++ [cur]) = (totalAcc others + numAcc cur)%nat.
Proof. unfold totalAcc. rewrite sum_list_with_app. cbn. lia. Qed.

Lemma Spaced_prefix (l1 l2 : list StaveLineAccidentalLayoutMetrics) :
  Spaced (l1 ++ l2) -> Spaced l1.
Proof.
  intros H i j a b Hij Ha Hb.
  apply (H i j); auto; apply lookup_app_l_Some; auto.
Qed.

Lemma Spaced_snoc (others : list StaveLineAccidentalLayoutMetrics) cur :
  Spaced others ->
  (forall i l, others !! i = Some l -> line cur + 0.5 <= line l) ->
  Spaced (others ++ [cur]).
Proof.
  intros Hs Hcur i j a b Hij Ha Hb.
  apply lookup_app_Some in Hb. destruct Hb as [Hb|[Hj Hb]].
  - pose proof (lookup_lt_Some _ _ _ Hb) as Hjlt.
    rewrite lookup_app_l in Ha by lia. apply (Hs i j); auto.
  - destruct (j - length others)%nat eqn:Hd; [|destruct n; discriminate].
    cbn in Hb. injection Hb as <-.
    rewrite lookup_app_l in Ha by lia. apply (Hcur i); auto.
Qed.

(** The second loop yields lines in strictly descending order, at least
    half a line apart, that account for every accidental. *)
Lemma lineMetrics_inv sp entries :
  forall ms mx,
  DescendingEntries entries ->
  Forall (fun e => halfLine (e_line e)) entries ->
  Spaced ms -> Forall (fun m => halfLine (line m)) ms ->
  (forall prior e, last ms = Some prior -> In e entries -> e_line e <= line prior) ->
  let r := fold_left (lineMetricStep sp) entries (ms, mx) in
  Spaced r.1 /\ totalAcc r.1 = (totalAcc ms + length entries)%nat.
Proof.
  induction entries as [|e entries IH]; intros ms mx Hsorted Hhalf Hs Hms Hbound.
  - cbn [fold_left fst length]. split; [exact Hs|]. rewrite Nat.add_0_r. reflexivity.
  - cbn [fold_left]. cbv zeta.
    inversion Hsorted as [|? ? Hsorted' Hbelow]; subst.
    inversion Hhalf as [|? ? He Hhalf']; subst.
    destruct (lineMetricStep_cases sp ms mx e) as (others & cur & Hstep & Hcase).
    destruct (lineMetricStep sp (ms, mx) e) as [ms1 mx1]. cbn in Hstep. subst ms1.
    assert (Hline : line cur == e_line e).
    { destruct Hcase as [(prior & _ & H1 & H2 & _)|(_ & H2 & _)]; rewrite H2; [exact H1|reflexivity]. }
    assert (Hacc : totalAcc (others ++ [cur]) = S (totalAcc ms)).
    { rewrite totalAcc_snoc.
      destruct Hcase as [(prior & -> & _ & _ & H3)|(-> & _ & H3 & _)].
      - rewrite totalAcc_snoc. lia.
      - lia. }
    destruct (IH (others ++ [cur]) mx1) as [IH1 IH2]; auto.
    + destruct Hcase as [(prior & -> & H1 & H2 & _)|(-> & H2 & _ & Hnew)].
      * apply Spaced_snoc; [apply (Spaced_prefix _ _ Hs)|].
        intros i l Hl. rewrite H2.
        apply (Hs i (length others) l prior).
        -- apply lookup_lt_Some in Hl. exact Hl.
        -- apply lookup_app_l_Some. exact Hl.
        -- rewrite lookup_app_r by lia. rewrite Nat.sub_diag. reflexivity.
      * apply Spaced_snoc; [exact Hs|].
        intros i l Hl. rewrite H2.
        destruct (last ms) as [prior|] eqn:Hlast.
        -- pose proof (Hbound prior e eq_refl (or_introl eq_refl)) as Hle.
           specialize (Hnew prior eq_refl).
           assert (Hlt : e_line e < line prior).
           { destruct (Qlt_le_dec (e_line e) (line prior)) as [?|Hge]; [auto|].
             exfalso. apply Hnew. lra. }
           assert (Hprior : halfLine (line prior)).
           { rewrite Forall_forall in Hms. apply Hms.
             rewrite last_lookup in Hlast. apply (list_elem_of_lookup_2 _ _ _ Hlast). }
           pose proof (halfLine_apart _ _ He Hprior Hlt) as Hgap.
           rewrite last_lookup in Hlast.
           pose proof (lookup_lt_Some _ _ _ Hl) as Hi.
           pose proof (Spaced_le ms i (pred (length ms)) l prior Hs ltac:(lia) Hl Hlast).
           lra.
        -- apply last_None in Hlast. subst ms. discriminate.
    + apply Forall_app. split.
      * destruct Hcase as [(prior & -> & _)|(-> & _)]; [|exact Hms].
        apply Forall_app in Hms. tauto.
      * constructor; [|constructor]. destruct He as [z Hz]. exists z. rewrite Hline. exact Hz.
    + intros prior e' Hlast Hin. rewrite last_snoc in Hlast. injection Hlast as <-.
      rewrite Hline. rewrite Forall_forall in Hbelow. apply Hbelow.
      apply list_elem_of_In. exact Hin.
    + split; [exact IH1|]. rewrite IH2, Hacc. cbn [length]. lia.
Qed.

(** ** The passes after the column placement *)

Lemma widenColumn_length ws l : length (widenColumn ws l) = length ws.
Proof.
  unfold widenColumn. destruct (ws !! column l); [|reflexivity].
  destruct (Qltb q (width l)); [apply length_insert|reflexivity].
Qed.

Lemma offsetStep_length ws os i : length (offsetStep ws os i) = length os.
Proof.
  unfold offsetStep. destruct (ws !! i); [|reflexivity].
  destruct (os !! (i - 1)%nat); [apply length_insert|reflexivity].
Qed.

Lemma fold_left_length_inv {A B : Type} (f : list A -> B -> list A) (l : list B) (a : list A) :
  (forall x y, length (f x y) = length x) -> length (fold_left f l a) = length a.
Proof.
  intros Hf. revert a. induction l as [|b l IH]; intros a; cbn; [reflexivity|].
  rewrite IH. apply Hf.
Qed.

Lemma columnOffsets_length total ls mx lines :
  length (columnOffsets total ls mx lines).2 = S total.
Proof.
  unfold columnOffsets. cbn [snd].
  rewrite fold_left_length_inv by (intros; apply offsetStep_length).
  rewrite length_insert, length_replicate. reflexivity.
Qed.

Lemma shiftLine_total sp mx off entries n :
  forall accidentals lineWidth accCount,
  (accCount + n <= length entries)%nat ->
  exists accidentals',
    shiftLine sp mx off entries accidentals lineWidth accCount n = Ok accidentals'.
Proof.
  induction n as [|n IH]; intros accidentals lineWidth accCount H; cbn [shiftLine].
  - eauto.
  - destruct (lookup_lt_is_Some_2 entries accCount ltac:(lia)) as [e He].
    rewrite He. cbn [definedR bindR]. apply IH. lia.
Qed.

Lemma shiftStep_fold_total sp mx os entries total lines :
  forall accidentals accCount,
  length os = S total ->
  Forall (fun l => (1 <= column l <= total)%nat) lines ->
  (accCount + totalAcc lines <= length entries)%nat ->
  exists r, fold_left (shiftStep sp mx os entries) lines (Ok (accidentals, accCount)) = Ok r.
Proof.
  induction lines as [|l lines IH]; intros accidentals accCount Hos Hcols Hacc.
  - cbn. eauto.
  - inversion Hcols as [|? ? Hl Hcols']; subst.
    unfold totalAcc in Hacc. cbn [sum_list_with] in Hacc. fold (totalAcc lines) in Hacc.
    cbn [fold_left]. unfold shiftStep at 2. cbn [bindR].
    destruct (column l) as [|c] eqn:Hc; [lia|].
    destruct (lookup_lt_is_Some_2 os c ltac:(lia)) as [o Ho].
    rewrite Ho. cbn [bindR].
    destruct (shiftLine_total sp mx o entries (numAcc l) accidentals 0 accCount ltac:(lia))
      as [accidentals' Hshift].
    rewrite Hshift. cbn [bindR]. apply IH; auto. lia.
Qed.

Lemma totalAcc_sameLines (lines lines' : list StaveLineAccidentalLayoutMetrics) :
  sameLines lines lines' -> totalAcc lines' = totalAcc lines.
Proof.
  intros H.
  assert (Herase : forall l, totalAcc (setColumn 0 <$> l) = totalAcc l).
  { induction l as [|a l IH]; [reflexivity|].
    unfold totalAcc in *. cbn. rewrite IH. reflexivity. }
  rewrite <- (Herase lines), <- (Herase lines'). f_equal.
  apply list_eq. intros m. rewrite !list_lookup_fmap. apply H.
Qed.

Lemma Forall_imap_snd {A : Type} (P : A -> Prop) (l : list A) :
  Forall P l -> Forall (fun ia : nat * A => P ia.2) (imap (fun i a => (i, a)) l).
Proof.
  intros H. apply Forall_lookup. intros i [j a] Hi.
  rewrite list_lookup_imap in Hi.
  destruct (l !! i) as [b|] eqn:Hb; [|discriminate].
  cbn in Hi. injection Hi as <- <-. cbn.
  rewrite Forall_forall in H. apply H. apply (list_elem_of_lookup_2 _ _ _ Hb).
Qed.

(** ** The layout produced by format *)

(** [format] returns, and in the layout it leaves no two lines, the upper
    one first, collide and share a column. *)
Lemma format_layout (table : ColumnsTable) (metrics : AccidentalMetrics)
    (accidentals : list Accidental) (state : ModifierContextState) :
  tableOk table = true ->
  Forall validIndex accidentals ->
  Forall onHalfLine accidentals ->
  exists out,
    format table metrics accidentals state = Ok out /\
    separatedBelow (out_lines out) (length (out_lines out)) /\
    columnsBelow (out_lines out) (length (out_lines out)) (out_totalColumns out) /\
    Spaced (out_lines out).
Proof.
  intros Ht Hvalid Hhalf. unfold format.
  case_bool_decide as Hempty.
  { eexists. split; [reflexivity|]. cbn [out_lines out_totalColumns length].
    split; [intros x y l1 l2 _ Hy; lia|].
    split; [intros x l Hx; lia|]. intros i j l1 l2 _ H. discriminate. }
  cbv zeta. unfold linePositions.
  destruct (linePositions_fold (imap (fun i a => (i, a)) accidentals) None 0 []
              (Forall_imap_snd _ _ Hvalid))
    as (prev & extra & entries & Hfold & Hlen & Hhalf' & _).
  rewrite Hfold. cbn [bindR snd app].
  specialize (Hhalf' (Forall_imap_snd _ _ Hhalf)).
  destruct (sortByLine_spec (fun e => halfLine (e_line e)) entries) as (Hsorted & Hlen' & Hhalf'').
  specialize (Hhalf'' Hhalf').
  pose proof (lineMetrics_inv (accidentalSpacing metrics) (sortByLine entries) [] 0
                Hsorted Hhalf'') as Hinv.
  unfold lineMetrics.
  destruct (fold_left (lineMetricStep (accidentalSpacing metrics)) (sortByLine entries) ([], 0))
    as [lines mx] eqn:Hlines.
  cbv zeta in Hinv. cbn [fst] in Hinv.
  destruct Hinv as [Hs Hacc].
  { intros i j a b _ Ha. discriminate. }
  { constructor. }
  { intros prior e H. discriminate. }
  destruct (placeGroups_spec table (length lines) lines 0 0 Ht Hs ltac:(lia) ltac:(lia))
    as (lines' & total' & Hplace & Hsame & Hsep & Hcols).
  { intros x y Hx. lia. }
  { intros x y l1 l2 _ Hy. lia. }
  { intros x l Hx. lia. }
  rewrite Hplace. cbn [bindR].
  destruct (columnOffsets total' (leftShift state + noteheadAccidentalPadding metrics) mx lines')
    as [ws os] eqn:Hoff.
  pose proof (columnOffsets_length total'
                (leftShift state + noteheadAccidentalPadding metrics) mx lines') as Hos.
  rewrite Hoff in Hos. cbn [snd] in Hos.
  destruct (last os) as [o|] eqn:Hlast.
  2: { apply last_None in Hlast. subst os. discriminate. }
  cbn [bindR].
  destruct (shiftStep_fold_total (accidentalSpacing metrics) mx os (sortByLine entries)
              total' lines' accidentals 0 Hos) as [r Hr].
  { apply Forall_lookup. intros i l Hl. apply (Hcols i l); [|exact Hl].
    apply (lookup_lt_Some _ _ _ Hl). }
  { rewrite (totalAcc_sameLines _ _ Hsame), Hacc. unfold totalAcc. cbn. lia. }
  rewrite Hr. cbn [bindR].
  eexists. split; [reflexivity|]. cbn [out_lines out_totalColumns].
  split; [exact Hsep|]. split; [exact Hcols|].
  apply (sameLines_Spaced lines); auto.
Qed.

(** C1 (amended).  For every non-empty list of accidentals that name a key
    of their note and lie on half-line granularity, and for a column table
    that suits its classifiers, [Accidental.format] returns, and any two
    per-stave-line layout entries that collide according to
    [checkCollision], called as [format] calls it with the upper line
    first, are assigned different columns. *)
Theorem format_separates_colliding_lines (table : ColumnsTable)
    (metrics : AccidentalMetrics) (accidentals : list Accidental)
    (state : ModifierContextState) :
  tableOk table = true ->
  accidentals <> [] ->
  Forall validIndex accidentals ->
  Forall onHalfLine accidentals ->
  exists out,
    format table metrics accidentals state = Ok out /\
    forall i j l1 l2, (i < j)%nat ->
      out_lines out !! i = Some l1 -> out_lines out !! j = Some l2 ->
      checkCollision l1 l2 = true -> column l1 <> column l2.
Proof.
  intros Ht _ Hvalid Hhalf.
  destruct (format_layout table metrics accidentals state Ht Hvalid Hhalf)
    as (out & Hout & Hsep & _ & _).
  exists out. split; [exact Hout|].
  intros i j l1 l2 Hij H1 H2 Hc.
  apply (Hsep i j l1 l2 Hij); auto.
  apply (lookup_lt_Some _ _ _ H2).
Qed.

(** The table VexFlow ships suits its classifiers, and the theorem applies
    to the chord with the double sharp. *)
Lemma format_separates_colliding_lines_witness :
  exists out,
    format accidentalColumnsTable sampleMetrics chordWithDblSharp {| leftShift := 0 |} = Ok out /\
    forall i j l1 l2, (i < j)%nat ->
      out_lines out !! i = Some l1 -> out_lines out !! j = Some l2 ->
      checkCollision l1 l2 = true -> column l1 <> column l2.
Proof.
  apply (format_separates_colliding_lines accidentalColumnsTable sampleMetrics
           chordWithDblSharp {| leftShift := 0 |}).
  - vm_compute. reflexivity.
  - discriminate.
  - repeat constructor; eexists; reflexivity.
  - repeat constructor; intros _ l Hl; injection Hl as <-;
      [exists 12%Z|exists 8%Z|exists 6%Z]; reflexivity.
Defined.

(** C1 (counterexample).  The claim as stated fails in two ways.  In the
    layout of the chord with the double sharp, the double-sharp line and
    the top line share column 1, and [checkCollision] called with the
    lower line first reports a collision.  And off the half-line grid two
    lines that collide, upper line first, share column 1. *)
Lemma format_colliding_lines_share_column :
  (exists out l1 l2,
     format accidentalColumnsTable sampleMetrics chordWithDblSharp {| leftShift := 0 |} = Ok out /\
     out_lines out !! 2%nat = Some l1 /\ out_lines out !! 0%nat = Some l2 /\
     checkCollision l1 l2 = true /\ column l1 = column l2) /\
  (exists out l1 l2,
     format accidentalColumnsTable sampleMetrics chordOnQuarterLines {| leftShift := 0 |} = Ok out /\
     out_lines out !! 0%nat = Some l1 /\ out_lines out !! 2%nat = Some l2 /\
     checkCollision l1 l2 = true /\ column l1 = column l2).
Proof.
  split; eexists _, _, _; (split; [vm_compute; reflexivity|]);
    cbn [out_lines]; repeat split; reflexivity.
Qed.

(* ================================================================== *)
(** * Properties of the Formatter *)
(* ================================================================== *)

Import Formatter.

(** Inversion of a successful bind. *)
Lemma bindR_Ok {A B : Type} (r : Result A) (k : A -> Result B) (y : B) :
  bindR r k = Ok y -> exists x, r = Ok x /\ k x = Ok y.
Proof. destruct r as [x|e]; cbn; [eauto|discriminate]. Qed.

Ltac bind_inv H :=
  let x := fresh "x" in
  let Hx := fresh "Hx" in
  apply bindR_Ok in H; destruct H as (x & Hx & H).

Tactic Notation "bind_inv_as" hyp(H) ident(x) ident(Hx) :=
  apply bindR_Ok in H; destruct H as (x & Hx & H).

(** ** getResolutionMultiplier *)

Lemma resolution_fold_Err totalTicks (voices : list Voice) e :
  fold_left (resolutionStep totalTicks) voices (Err e) = Err e.
Proof. induction voices as [|v voices IH]; cbn; auto. Qed.

Lemma resolution_fold totalTicks (voices : list Voice) :
  forall acc,
  match List.find (offending totalTicks) voices with
  | Some v =>
      fold_left (resolutionStep totalTicks) voices (Ok acc)
      = Err (if negb (equals (getTotalTicks v) totalTicks)
             then TickMismatch else IncompleteVoice)
  | None => exists m, fold_left (resolutionStep totalTicks) voices (Ok acc) = Ok m
  end.
Proof.
  induction voices as [|v voices IH]; intros acc; cbn [List.find fold_left].
  - eauto.
  - assert (Hstep : resolutionStep totalTicks (Ok acc) v =
                    if negb (equals (getTotalTicks v) totalTicks) then Err TickMismatch
                    else if Mode_eqb (getMode v) STRICT && negb (isComplete v)
                         then Err IncompleteVoice
                         else Ok (Z.max acc (LCM acc (getResolutionMultiplierOfVoice v))))
      by reflexivity.
    rewrite Hstep. clear Hstep.
    destruct (offending totalTicks v) eqn:Hoff; unfold offending in Hoff.
    + destruct (negb (equals (getTotalTicks v) totalTicks)) eqn:E1.
      * apply resolution_fold_Err.
      * cbn [orb] in Hoff. rewrite Hoff. apply resolution_fold_Err.
    + apply orb_false_iff in Hoff. destruct Hoff as [E1 E2].
      rewrite E1, E2. apply IH.
Qed.

(** C6 (amended).  [getResolutionMultiplier] raises an error whenever some
    voice's total ticks differ from the first voice's or a STRICT voice
    is not complete, and none otherwise; the error is decided by the
    first such voice in list order: "tick mismatch" if its total ticks
    differ, "incomplete voice" if not.  A STRICT voice in 4/4 that lacks
    one quarter note raises "incomplete voice" through [format]. *)
Theorem getResolutionMultiplier_first_offending_voice :
  (forall (first : Voice) (rest : list Voice),
     match List.find (offending (getTotalTicks first)) (first :: rest) with
     | Some v =>
         getResolutionMultiplier (first :: rest)
         = Err (if negb (equals (getTotalTicks v) (getTotalTicks first))
                then TickMismatch else IncompleteVoice)
     | None => exists m, getResolutionMultiplier (first :: rest) = Ok m
     end) /\
  (forall (M : MathFns) (cfg : StaveMetrics) (justifyWidth : option Q),
     getResolutionMultiplier [voice44 STRICT 12288 [0; 1; 2]%nat] = Err IncompleteVoice /\
     format M cfg [0%nat] justifyWidth false None incompleteStore newFormatter
     = Err IncompleteVoice).
Proof.
  split.
  - intros first rest. unfold getResolutionMultiplier.
    apply (resolution_fold (getTotalTicks first) (first :: rest) 1%Z).
  - intros M cfg justifyWidth. split; [reflexivity|].
    vm_compute. reflexivity.
Qed.

(** C6 (counterexample).  With a STRICT, incomplete 4/4 voice first and a
    3/4 voice second, some voice's total ticks differ from the first
    voice's, yet the error raised is "incomplete voice"; with a complete
    voice first, then the 3/4 voice, then the incomplete one, a STRICT
    voice is incomplete, yet the error raised is "tick mismatch". *)
Lemma getResolutionMultiplier_raises_one_error :
  (equals (getTotalTicks voice34) (getTotalTicks incompleteVoice) = false /\
   getResolutionMultiplier [incompleteVoice; voice34] = Err IncompleteVoice) /\
  (getMode incompleteVoice = STRICT /\ isComplete incompleteVoice = false /\
   getResolutionMultiplier [voice44 STRICT 16384 []; voice34; incompleteVoice]
   = Err TickMismatch).
Proof. vm_compute. repeat split; reflexivity. Qed.

(** ** createTickContexts on no voices *)

(** C10.  [createTickContexts] applied to an empty list of voices returns
    an AlignmentTickContexts whose map, array and list are empty and
    whose resolutionMultiplier is 0, raises no error and leaves the
    Formatter as it is, while [getResolutionMultiplier] raises "no voices
    to format" (BadArgument) on an empty list. *)
Theorem createTickContexts_no_voices (s : Store) (this : Formatter) :
  (exists contexts,
     createTickContexts [] s this = Ok (contexts, s, this) /\
     atc_map contexts = ∅ /\ atc_array contexts = [] /\ atc_list contexts = [] /\
     atc_resolutionMultiplier contexts = 0%Z) /\
  getResolutionMultiplier [] = Err BadArgument.
Proof.
  split; [|reflexivity].
  exists emptyTickContexts. repeat split; reflexivity.
Qed.

(** ** The cached minimum width *)

(** [evaluate] leaves the minimum width, the voices and the justify width
    of the Formatter alone. *)
Lemma evaluate_fields (M : MathFns) (s s' : Store) (this this' : Formatter) (c : Q) :
  evaluate M s this = Ok (c, s', this') ->
  hasMinTotalWidth this' = hasMinTotalWidth this /\
  minTotalWidth this' = minTotalWidth this /\
  voices this' = voices this /\
  justifyWidth this' = justifyWidth this /\
  atc_list (tickContexts this') = atc_list (tickContexts this).
Proof.
  unfold evaluate. intros H.
  bind_inv H. destruct x as [contextMap contextGaps].
  bind_inv H. destruct x as [s1 durationStats].
  bind_inv H. destruct x as [s2 totalDeviation].
  injection H as _ _ <-. repeat split; reflexivity.
Qed.

Lemma preFormatBeforeLoop_hasMinTotalWidth (M : MathFns) (cfg : StaveMetrics)
    (justifyWidth : Q) (voicesParam : option (list nat)) (stave : option nat)
    (s : Store) (this : Formatter) (b : BeforeLoop) :
  preFormatBeforeLoop M cfg justifyWidth voicesParam stave s this = Ok b ->
  match b with
  | Returned _ _ this' => hasMinTotalWidth this' = true
  | AtLoop h =>
      hasMinTotalWidth (lh_this h) = true /\
      jl_iterations (lh_state h) = maxIterations (formatterOptions this) /\
      jl_bodyRuns (lh_state h) = 0%nat
  end.
Proof.
  unfold preFormatBeforeLoop. intros H.
  bind_inv H. bind_inv H. bind_inv H.
  destruct (Qle_bool justifyWidth 0).
  { bind_inv H. destruct x2 as [[cost s1] this1]. injection H as <-.
    apply evaluate_fields in Hx2. destruct Hx2 as [Hx2 _]. rewrite Hx2. reflexivity. }
  do 6 bind_inv H. destruct x7 as [[actualWidth s1] contextMap].
  case_bool_decide.
  { injection H as <-. reflexivity. }
  bind_inv H. injection H as <-. cbn. auto.
Qed.

Lemma preFormat_hasMinTotalWidth (M : MathFns) (cfg : StaveMetrics) (justifyWidth : Q)
    (voicesParam : option (list nat)) (stave : option nat)
    (s s' : Store) (this this' : Formatter) (r : Q) :
  preFormat M cfg justifyWidth voicesParam stave s this = Ok (r, s', this') ->
  hasMinTotalWidth this' = true.
Proof.
  unfold preFormat. intros H. bind_inv H.
  apply preFormatBeforeLoop_hasMinTotalWidth in Hx.
  destruct x as [r0 s0 this0|h].
  - injection H as _ _ <-. exact Hx.
  - destruct Hx as [Hflag _].
    destruct (justifyLoop M (lh_env h) (lh_minDistance h) (lh_maxX h)
                (Z.to_nat (maxIterations (formatterOptions this))) (lh_state h))
      as [res|]; [|discriminate].
    bind_inv H. apply evaluate_fields in H. destruct H as [H _].
    rewrite H. exact Hflag.
Qed.

Lemma createModifierContexts_hasMinTotalWidth (voices : list nat)
    (s s' : Store) (this this' : Formatter) :
  createModifierContexts voices s this = Ok (s', this') ->
  hasMinTotalWidth this' = hasMinTotalWidth this /\ minTotalWidth this' = minTotalWidth this.
Proof.
  unfold createModifierContexts. intros H. case_bool_decide.
  - injection H as _ <-. auto.
  - do 3 bind_inv H. injection H as _ <-. auto.
Qed.

Lemma createTickContexts_hasMinTotalWidth (voices : list nat)
    (s s' : Store) (this this' : Formatter) contexts :
  createTickContexts voices s this = Ok (contexts, s', this') ->
  hasMinTotalWidth this' = hasMinTotalWidth this /\ minTotalWidth this' = minTotalWidth this.
Proof.
  unfold createTickContexts. intros H. case_bool_decide.
  - injection H as _ _ <-. auto.
  - do 3 bind_inv H. injection H as _ _ <-. auto.
Qed.

Lemma preCalculateMinTotalWidth_hasMinTotalWidth (M : MathFns) (cfg : StaveMetrics)
    (voices : option (list nat)) (s s' : Store) (this this' : Formatter) (r : option Q) :
  preCalculateMinTotalWidth M cfg voices s this = Ok (r, s', this') ->
  hasMinTotalWidth this' = true.
Proof.
  unfold preCalculateMinTotalWidth. intros H.
  destruct (hasMinTotalWidth this) eqn:Hflag.
  - injection H as _ _ <-. exact Hflag.
  - destruct voices as [voices|]; [|discriminate].
    bind_inv H. destruct x as [[contexts s1] this1].
    bind_inv H. injection H as _ _ <-. reflexivity.
Qed.

(** C7.  [getMinTotalWidth] raises the error named NoMinTotalWidth on a
    new Formatter and on one whose cached width [joinVoices] has just
    invalidated; after [preCalculateMinTotalWidth] or [preFormat] has
    returned it returns the stored minimum width without raising. *)
Theorem getMinTotalWidth_sequencing :
  (forall (SOFTMAX_FACTOR : Q) (options : FormatterOptionsArg),
     getMinTotalWidth (constructor SOFTMAX_FACTOR options) = Err NoMinTotalWidth) /\
  (forall (voices : list nat) (s s' : Store) (this this' : Formatter),
     joinVoices voices s this = Ok (s', this') ->
     getMinTotalWidth this' = Err NoMinTotalWidth) /\
  (forall (M : MathFns) (cfg : StaveMetrics) (voices : option (list nat))
          (s s' : Store) (this this' : Formatter) (r : option Q),
     preCalculateMinTotalWidth M cfg voices s this = Ok (r, s', this') ->
     getMinTotalWidth this' = Ok (minTotalWidth this')) /\
  (forall (M : MathFns) (cfg : StaveMetrics) (justifyWidth : Q)
          (voicesParam : option (list nat)) (stave : option nat)
          (s s' : Store) (this this' : Formatter) (r : Q),
     preFormat M cfg justifyWidth voicesParam stave s this = Ok (r, s', this') ->
     getMinTotalWidth this' = Ok (minTotalWidth this')).
Proof.
  split; [reflexivity|]. split; [|split].
  - intros voices s s' this this' H. unfold joinVoices in H.
    bind_inv H. destruct x as [s1 this1]. injection H as _ <-. reflexivity.
  - intros M cfg voices s s' this this' r H.
    apply preCalculateMinTotalWidth_hasMinTotalWidth in H.
    unfold getMinTotalWidth. rewrite H. reflexivity.
  - intros M cfg justifyWidth voicesParam stave s s' this this' r H.
    apply preFormat_hasMinTotalWidth in H.
    unfold getMinTotalWidth. rewrite H. reflexivity.
Qed.

(** The theorem applies to the four quarter notes: the width is there
    after [preCalculateMinTotalWidth], and gone again after [joinVoices]. *)
Lemma getMinTotalWidth_sequencing_witness :
  match preCalculateMinTotalWidth sampleMath sampleStaveMetrics (Some [0%nat])
          (fourQuarters 12 14 16 18) newFormatter with
  | Ok (_, s1, this1) =>
      getMinTotalWidth this1 = Ok (minTotalWidth this1) /\
      match joinVoices [0%nat] s1 this1 with
      | Ok (_, this2) => getMinTotalWidth this2 = Err NoMinTotalWidth
      | Err _ => False
      end
  | Err _ => False
  end.
Proof.
  destruct (preCalculateMinTotalWidth sampleMath sampleStaveMetrics (Some [0%nat])
              (fourQuarters 12 14 16 18) newFormatter)
    as [[[r s1] this1]|e] eqn:H.
  - split.
    + apply (proj1 (proj2 (proj2 getMinTotalWidth_sequencing))
               sampleMath sampleStaveMetrics (Some [0%nat]) (fourQuarters 12 14 16 18) s1
               newFormatter this1 r H).
    + destruct (joinVoices [0%nat] s1 this1) as [[s2 this2]|e] eqn:Hj.
      * apply (proj1 (proj2 getMinTotalWidth_sequencing) [0%nat] s1 s2 this1 this2 Hj).
      * vm_compute in H. injection H as _ <- <-. vm_compute in Hj. discriminate.
  - vm_compute in H. discriminate.
Defined.

(** ** The justification loop of preFormat *)

Lemma loopBody_counters (M : MathFns) (env : JustifyEnv) (minDistance maxX : Q)
    (st st' : JustifyLoop) :
  loopBody M env minDistance maxX st = Ok st' ->
  jl_iterations st' = (jl_iterations st - 1)%Z /\ jl_bodyRuns st' = S (jl_bodyRuns st).
Proof.
  unfold loopBody. intros H. do 3 bind_inv H.
  destruct x1 as [[actualWidth s] contextMap]. injection H as <-. cbn. auto.
Qed.

Lemma loopCondition_iterations (maxX : Q) (st : JustifyLoop) :
  loopCondition maxX st = true -> (0 < jl_iterations st)%Z.
Proof.
  unfold loopCondition. rewrite orb_true_iff, !andb_true_iff.
  intros [[_ H]|[_ H]]; apply Z.ltb_lt in H; lia.
Qed.

(** The loop ends within as many units of fuel as [iterations] counts,
    runs its body at most that often, and ends with its condition false. *)
Lemma justifyLoop_bound (M : MathFns) (env : JustifyEnv) (minDistance maxX : Q) (fuel : nat) :
  forall st, (Z.to_nat (jl_iterations st) <= fuel)%nat ->
  exists r,
    justifyLoop M env minDistance maxX fuel st = Some r /\
    forall st', r = Ok st' ->
      (jl_bodyRuns st' <= jl_bodyRuns st + Z.to_nat (jl_iterations st))%nat /\
      loopCondition maxX st' = false.
Proof.
  induction fuel as [|fuel IH]; intros st Hfuel; cbn [justifyLoop].
  - destruct (loopCondition maxX st) eqn:Hc.
    + apply loopCondition_iterations in Hc. lia.
    + eexists. split; [reflexivity|]. intros st' [= <-]. split; [lia|exact Hc].
  - destruct (loopCondition maxX st) eqn:Hc.
    + apply loopCondition_iterations in Hc.
      destruct (loopBody M env minDistance maxX st) as [st1|e] eqn:Hbody.
      * apply loopBody_counters in Hbody. destruct Hbody as [Hit Hruns].
        destruct (IH st1 ltac:(lia)) as (r & Hr & Hspec).
        exists r. split; [exact Hr|]. intros st' Hst'.
        destruct (Hspec st' Hst') as [H1 H2]. split; [lia|exact H2].
      * eexists. split; [reflexivity|]. intros st' [=].
    + eexists. split; [reflexivity|]. intros st' [= <-]. split; [lia|exact Hc].
Qed.

Lemma preFormatBeforeLoop_AtLoop (M : MathFns) (cfg : StaveMetrics)
    (justifyWidth : Q) (voicesParam : option (list nat)) (stave : option nat)
    (s : Store) (this : Formatter) (h : LoopHead) :
  preFormatBeforeLoop M cfg justifyWidth voicesParam stave s this = Ok (AtLoop h) ->
  0 < justifyWidth /\ (2 <= length (atc_list (tickContexts this)))%nat.
Proof.
  unfold preFormatBeforeLoop. intros H.
  bind_inv H. bind_inv H. bind_inv H.
  destruct (Qle_bool justifyWidth 0) eqn:Hw.
  { bind_inv H. destruct x2 as [[cost s1] this1]. discriminate. }
  split.
  { apply Qnot_le_lt. intros Hle. apply Qle_bool_iff in Hle. congruence. }
  bind_inv H. unfold definedR in Hx2.
  destruct (atc_list (tickContexts this) !! 0%nat) as [t|] eqn:Hfirst; [|discriminate].
  apply lookup_lt_Some in Hfirst.
  do 5 bind_inv H. destruct x7 as [[actualWidth s1] contextMap].
  case_bool_decide; [discriminate|]. lia.
Qed.

(** C5.  When [preFormat] reaches its justification loop, which takes a
    justify width above 0 and at least two tick contexts, the loop ends
    within [maxIterations] executions of its body (5 by default) and
    leaves its condition false; it does not wait for the margin to reach
    the padding band: for two half notes justified to 20 pixels it stops
    after 5 rounds, the iterations used up, with the realized width 12
    still above the largest admissible width 1. *)
Theorem preFormat_justification_loop_bounded :
  (forall (M : MathFns) (cfg : StaveMetrics) (justifyWidth : Q)
          (voicesParam : option (list nat)) (stave : option nat)
          (s : Store) (this : Formatter) (h : LoopHead),
     preFormatBeforeLoop M cfg justifyWidth voicesParam stave s this = Ok (AtLoop h) ->
     0 < justifyWidth /\ (2 <= length (atc_list (tickContexts this)))%nat /\
     exists r,
       justifyLoop M (lh_env h) (lh_minDistance h) (lh_maxX h)
                   (Z.to_nat (maxIterations (formatterOptions this))) (lh_state h) = Some r /\
       forall st, r = Ok st ->
         (jl_bodyRuns st <= Z.to_nat (maxIterations (formatterOptions this)))%nat /\
         loopCondition (lh_maxX h) st = false) /\
  (forall SOFTMAX_FACTOR : Q,
     maxIterations (formatterOptions (constructor SOFTMAX_FACTOR noOptions)) = 5%Z) /\
  (exists (s : Store) (this : Formatter) (h : LoopHead) (st : JustifyLoop),
     twoHalfNotesContexts = Ok (tickContexts this, s, this) /\
     preFormatBeforeLoop sampleMath sampleStaveMetrics 20 (Some [0%nat]) None s this
       = Ok (AtLoop h) /\
     justifyLoop sampleMath (lh_env h) (lh_minDistance h) (lh_maxX h)
                 (Z.to_nat (maxIterations (formatterOptions this))) (lh_state h)
       = Some (Ok st) /\
     jl_bodyRuns st = 5%nat /\ jl_iterations st = 0%Z /\
     lh_maxX h == 1 /\ jl_actualWidth st == 12 /\ lh_maxX h < jl_actualWidth st).
Proof.
  split; [|split].
  - intros M cfg justifyWidth voicesParam stave s this h H.
    destruct (preFormatBeforeLoop_AtLoop _ _ _ _ _ _ _ _ H) as [Hw Hn].
    split; [exact Hw|]. split; [exact Hn|].
    apply preFormatBeforeLoop_hasMinTotalWidth in H. destruct H as (_ & Hit & Hruns).
    destruct (justifyLoop_bound M (lh_env h) (lh_minDistance h) (lh_maxX h)
                (Z.to_nat (maxIterations (formatterOptions this))) (lh_state h))
      as (r & Hr & Hspec).
    { rewrite Hit. lia. }
    exists r. split; [exact Hr|]. intros st Hst.
    destruct (Hspec st Hst) as [H1 H2]. rewrite Hit, Hruns in H1. split; [lia|exact H2].
  - reflexivity.
  - unfold twoHalfNotesContexts.
    destruct (createTickContexts [0%nat] twoHalfNotes
                (set_voices [0%nat] (constructor 10 noOptions)))
      as [[[contexts s] this]|e] eqn:Hc; [|vm_compute in Hc; discriminate].
    exists s, this.
    destruct (preFormatBeforeLoop sampleMath sampleStaveMetrics 20 (Some [0%nat]) None s this)
      as [[r0 s0 this0|h]|e] eqn:Hb.
    1,3: exfalso; vm_compute in Hc; injection Hc as <- <- <-; vm_compute in Hb; discriminate.
    exists h.
    destruct (justifyLoop sampleMath (lh_env h) (lh_minDistance h) (lh_maxX h)
                (Z.to_nat (maxIterations (formatterOptions this))) (lh_state h))
      as [[st|e]|] eqn:Hl.
    2,3: exfalso; vm_compute in Hc; injection Hc as <- <- <-;
         vm_compute in Hb; injection Hb as <-; vm_compute in Hl; discriminate.
    exists st.
    vm_compute in Hc. injection Hc as <- <- <-.
    vm_compute in Hb. injection Hb as <-.
    vm_compute in Hl. injection Hl as <-.
    repeat split; reflexivity.
Qed.

(** The first part of the theorem applies to the two half notes justified
    to 20 pixels. *)
Lemma preFormat_justification_loop_bounded_witness :
  match twoHalfNotesContexts with
  | Ok (_, s, this) =>
      match preFormatBeforeLoop sampleMath sampleStaveMetrics 20 (Some [0%nat]) None s this with
      | Ok (AtLoop h) =>
          0 < 20 /\ (2 <= length (atc_list (tickContexts this)))%nat /\
          exists r,
            justifyLoop sampleMath (lh_env h) (lh_minDistance h) (lh_maxX h)
              (Z.to_nat (maxIterations (formatterOptions this))) (lh_state h) = Some r /\
            forall st, r = Ok st ->
              (jl_bodyRuns st <= Z.to_nat (maxIterations (formatterOptions this)))%nat /\
              loopCondition (lh_maxX h) st = false
      | _ => False
      end
  | Err _ => False
  end.
Proof.
  destruct twoHalfNotesContexts as [[[contexts s] this]|e] eqn:Hc;
    [|vm_compute in Hc; discriminate].
  destruct (preFormatBeforeLoop sampleMath sampleStaveMetrics 20 (Some [0%nat]) None s this)
    as [[r0 s0 this0|h]|e] eqn:Hb.
  1,3: vm_compute in Hc; injection Hc as _ <- <-; vm_compute in Hb; discriminate.
  apply (proj1 preFormat_justification_loop_bounded
           sampleMath sampleStaveMetrics 20 (Some [0%nat]) None s this h Hb).
Defined.

(** ** The tick contexts built by createTickContexts *)

Lemma fold_left_Err {A B : Type} (f : Result A -> B -> Result A) (l : list B) (e : Error) :
  (forall b, f (Err e) b = Err e) -> fold_left f l (Err e) = Err e.
Proof. intros Hf. induction l as [|b l IH]; cbn; [reflexivity|]. rewrite Hf. exact IH. Qed.

Lemma tickContextStep_distinct (voiceIndex : nat) (st st' : TickContextsLoop) (tickable : nat) :
  ticksDistinct st ->
  tickContextStep voiceIndex (Ok st) tickable = Ok st' ->
  ticksDistinct st'.
Proof.
  intros [Hnd Hdom] H. unfold tickContextStep in H. cbn [bindR] in H.
  bind_inv H.
  destruct (tcl_map st !! numerator (tcl_ticksUsed st)) as [c|] eqn:Hlookup;
    injection H as <-; unfold ticksDistinct; cbn [tcl_tickList tcl_map]; split.
  - exact Hnd.
  - intros tick Hin. rewrite lookup_alter_is_Some. apply Hdom. exact Hin.
  - apply NoDup_app. split; [exact Hnd|]. split; [|apply NoDup_singleton].
    intros tick Hin Hin'. apply list_elem_of_singleton in Hin'. subst tick.
    apply Hdom in Hin. rewrite Hlookup in Hin. destruct Hin as [? [=]].
  - intros tick Hin. rewrite lookup_alter_is_Some.
    apply elem_of_app in Hin. destruct Hin as [Hin|Hin].
    + destruct (decide (tick = numerator (tcl_ticksUsed st))) as [->|Hne].
      * rewrite lookup_insert_eq. eauto.
      * rewrite lookup_insert_ne by auto. apply Hdom. exact Hin.
    + apply list_elem_of_singleton in Hin. subst tick. rewrite lookup_insert_eq. eauto.
Qed.

Lemma tickContextStep_fold_distinct (voiceIndex : nat) (tickables : list nat) :
  forall st st',
  ticksDistinct st ->
  fold_left (tickContextStep voiceIndex) tickables (Ok st) = Ok st' ->
  ticksDistinct st'.
Proof.
  induction tickables as [|t tickables IH]; intros st st' Hst H; cbn [fold_left] in H.
  - injection H as <-. exact Hst.
  - destruct (tickContextStep voiceIndex (Ok st) t) as [st1|e] eqn:Hstep.
    + apply (IH st1 st'); [|exact H]. apply (tickContextStep_distinct _ _ _ _ Hst Hstep).
    + rewrite fold_left_Err in H by reflexivity. discriminate.
Qed.

Lemma tickContextVoice_fold_distinct (resolutionMultiplier : Z) (voices : list (nat * Voice)) :
  forall st st',
  ticksDistinct st ->
  fold_left (tickContextVoice resolutionMultiplier) voices (Ok st) = Ok st' ->
  ticksDistinct st'.
Proof.
  induction voices as [|[i v] voices IH]; intros st st' Hst H; cbn [fold_left] in H.
  - injection H as <-. exact Hst.
  - destruct (tickContextVoice resolutionMultiplier (Ok st) (i, v)) as [st1|e] eqn:Hstep.
    + apply (IH st1 st'); [|exact H].
      unfold tickContextVoice in Hstep. cbn [bindR] in Hstep.
      refine (tickContextStep_fold_distinct _ _ _ _ _ Hstep). exact Hst.
    + rewrite fold_left_Err in H by reflexivity. discriminate.
Qed.

(** Every tick value gets exactly one TickContext: the list of ticks that
    [createTickContexts] stores has no duplicates. *)
Lemma createTickContexts_NoDup (voices : list nat) (s s' : Store) (this this' : Formatter)
    (contexts : AlignmentTickContexts) :
  createTickContexts voices s this = Ok (contexts, s', this') ->
  voices <> [] ->
  tickContexts this' = contexts /\ NoDup (atc_list contexts).
Proof.
  unfold createTickContexts. intros H Hne. case_bool_decide as Hlen.
  { destruct voices; [congruence|discriminate]. }
  do 3 bind_inv H. injection H as <- _ <-. split; [reflexivity|].
  cbn [atc_list].
  apply tickContextVoice_fold_distinct in Hx1.
  - destruct Hx1 as [Hnd _]. rewrite merge_sort_Permutation. exact Hnd.
  - split; [constructor|]. intros tick Hin. apply elem_of_nil in Hin. contradiction.
Qed.

(** ** preCalculateMinTotalWidth *)

Lemma entropyStep_fold (ts : list Tickable) :
  forall st,
  wl_map (fold_left entropyStep ts st) = wl_map st /\
  wl_unalignedCtxCount (fold_left entropyStep ts st) = wl_unalignedCtxCount st /\
  wl_minTotalWidth (fold_left entropyStep ts st) = wl_minTotalWidth st.
Proof.
  induction ts as [|t ts IH]; intros st; cbn [fold_left]; [auto|].
  destruct (IH (entropyStep st t)) as (H1 & H2 & H3). rewrite H1, H2, H3. auto.
Qed.

Lemma widthStep_Ok (s : Store) (n : nat) (st st' : WidthLoop) (tick : Z) :
  widthStep s n (Ok st) tick = Ok st' ->
  exists context,
    wl_map st' = <[tick := context]> (wl_map st) /\
    wl_minTotalWidth st' = wl_minTotalWidth st + getWidth context /\
    (0 <= wl_unalignedCtxCount st -> 0 <= wl_unalignedCtxCount st').
Proof.
  unfold widthStep. cbn [bindR]. intros H. do 3 bind_inv H.
  injection H as <-. cbn [wl_map wl_minTotalWidth wl_unalignedCtxCount].
  match goal with
  | |- context [fold_left entropyStep x1 ?st0] =>
      destruct (entropyStep_fold x1 st0) as (H1 & H2 & H3)
  end.
  rewrite H1, H2, H3. cbn [wl_map wl_minTotalWidth wl_unalignedCtxCount].
  exists x0. split; [reflexivity|]. split; [reflexivity|].
  intros Hc. case_bool_decide; lra.
Qed.

(** The loop of [preCalculateMinTotalWidth] over distinct ticks sums the
    widths that the contexts have when it ends. *)
Lemma widthStep_fold (s : Store) (n : nat) (ticks : list Z) :
  NoDup ticks ->
  forall st st',
  fold_left (widthStep s n) ticks (Ok st) = Ok st' ->
  wl_minTotalWidth st'
    = fold_left Qplus (omap (fun tick => getWidth <$> wl_map st' !! tick) ticks)
                (wl_minTotalWidth st) /\
  (forall tick, tick ∉ ticks -> wl_map st' !! tick = wl_map st !! tick) /\
  (0 <= wl_unalignedCtxCount st -> 0 <= wl_unalignedCtxCount st').
Proof.
  induction 1 as [|tick ticks Hnotin Hnd IH]; intros st st' H; cbn [fold_left] in H.
  - injection H as <-. cbn. auto.
  - destruct (widthStep s n (Ok st) tick) as [st1|e] eqn:Hstep.
    2: { rewrite fold_left_Err in H by reflexivity. discriminate. }
    apply widthStep_Ok in Hstep. destruct Hstep as (context & Hmap & Hmin & Hcount).
    destruct (IH st1 st' H) as (IH1 & IH2 & IH3).
    assert (Hhere : wl_map st' !! tick = Some context).
    { rewrite (IH2 tick Hnotin), Hmap. apply lookup_insert_eq. }
    split; [|split].
    + cbn [omap list_omap]. rewrite Hhere. cbn [fmap option_fmap option_map fold_left].
      rewrite IH1, Hmin. reflexivity.
    + intros tick' Hnotin'. rewrite not_elem_of_cons in Hnotin'.
      destruct Hnotin' as [Hne Hnotin'].
      rewrite (IH2 tick' Hnotin'), Hmap. apply lookup_insert_ne. congruence.
    + auto.
Qed.


(** A fresh run of [preCalculateMinTotalWidth] stores the bare sum of the
    context widths and returns it with the padding estimate on top. *)
Lemma preCalculateMinTotalWidth_fresh (M : MathFns) (cfg : StaveMetrics)
    (voices : list nat) (s s' : Store) (this this' : Formatter) (r : option Q) :
  hasMinTotalWidth this = false ->
  voices <> [] ->
  preCalculateMinTotalWidth M cfg (Some voices) s this = Ok (r, s', this') ->
  hasMinTotalWidth this' = true /\
  minTotalWidth this' = sumContextWidths (tickContexts this') /\
  exists st,
    0 <= wl_unalignedCtxCount st /\
    r = match paddingEstimate M (unalignedNotePadding cfg)
                (length (atc_list (tickContexts this'))) st with
        | Some padding => Some (minTotalWidth this' + padding)
        | None => None
        end.
Proof.
  intros Hflag Hne H. unfold preCalculateMinTotalWidth in H. rewrite Hflag in H.
  bind_inv_as H created Hcreate. destruct created as [[contexts s1] this1].
  apply createTickContexts_NoDup in Hcreate; [|exact Hne].
  destruct Hcreate as [Hctx Hnd].
  bind_inv_as H st Hloop. injection H as <- _ <-.
  cbn [hasMinTotalWidth minTotalWidth tickContexts set_hasMinTotalWidth
       set_minTotalWidth set_tickContexts] in *.
  rewrite Hctx in *.
  destruct (widthStep_fold _ _ _ Hnd _ _ Hloop) as (Hsum & _ & Hcount).
  cbn [wl_minTotalWidth wl_unalignedCtxCount] in Hsum, Hcount.
  split; [reflexivity|]. split.
  - unfold sumContextWidths, sumArray. cbn [atc_list atc_map withMap]. exact Hsum.
  - exists st. split; [apply Hcount; lra|]. reflexivity.
Qed.















(** C9.  On a Formatter whose minimum width is already computed, a
    further call of [preCalculateMinTotalWidth] returns the stored
    [minTotalWidth] at once, whatever the voices, and changes nothing.
    After a first, fresh call the stored value is the bare sum of the
    tick-context widths, while the first call returned that sum plus its
    padding estimate; for four quarter notes of widths 12 to 18 the first
    call returns more than the 60 that the second one returns. *)
Theorem preCalculateMinTotalWidth_cached :
  (forall (M : MathFns) (cfg : StaveMetrics) (voices : option (list nat))
          (s : Store) (this : Formatter),
     hasMinTotalWidth this = true ->
     preCalculateMinTotalWidth M cfg voices s this
     = Ok (Some (minTotalWidth this), s, this)) /\
  (forall (M : MathFns) (cfg : StaveMetrics) (voices : list nat)
          (again : option (list nat)) (s s1 : Store) (this this1 : Formatter)
          (r : option Q),
     hasMinTotalWidth this = false -> voices <> [] ->
     preCalculateMinTotalWidth M cfg (Some voices) s this = Ok (r, s1, this1) ->
     preCalculateMinTotalWidth M cfg again s1 this1
     = Ok (Some (minTotalWidth this1), s1, this1) /\
     minTotalWidth this1 = sumContextWidths (tickContexts this1) /\
     exists st,
       r = match paddingEstimate M (unalignedNotePadding cfg)
                   (length (atc_list (tickContexts this1))) st with
           | Some padding => Some (minTotalWidth this1 + padding)
           | None => None
           end) /\
  (exists first s1 this1,
     preCalculateMinTotalWidth sampleMath sampleStaveMetrics (Some [0%nat])
       (fourQuarters 12 14 16 18) newFormatter = Ok (Some first, s1, this1) /\
     preCalculateMinTotalWidth sampleMath sampleStaveMetrics (Some [0%nat]) s1 this1
     = Ok (Some 60, s1, this1) /\
     60 < first).
Proof.
  split; [|split].
  - intros M cfg voices s this Hflag. unfold preCalculateMinTotalWidth.
    rewrite Hflag. reflexivity.
  - intros M cfg voices again s s1 this this1 r Hflag Hne H.
    destruct (preCalculateMinTotalWidth_fresh _ _ _ _ _ _ _ _ Hflag Hne H)
      as (Hflag1 & Hmin & st & _ & Hr).
    split; [|split; [exact Hmin|exists st; exact Hr]].
    unfold preCalculateMinTotalWidth. rewrite Hflag1. reflexivity.
  - destruct (preCalculateMinTotalWidth sampleMath sampleStaveMetrics (Some [0%nat])
                (fourQuarters 12 14 16 18) newFormatter)
      as [[[[first|] s1] this1]|e] eqn:H.
    2,3: exfalso; vm_compute in H; discriminate.
    exists first, s1, this1. split; [reflexivity|].
    vm_compute in H. injection H as <- <- <-.
    split; reflexivity.
Qed.

(** The second part of the theorem applies to the four quarter notes. *)
Lemma preCalculateMinTotalWidth_cached_witness :
  match preCalculateMinTotalWidth sampleMath sampleStaveMetrics (Some [0%nat])
          (fourQuarters 12 14 16 18) newFormatter with
  | Ok (_, s1, this1) =>
      preCalculateMinTotalWidth sampleMath sampleStaveMetrics None s1 this1
      = Ok (Some (minTotalWidth this1), s1, this1)
  | Err _ => False
  end.
Proof.
  destruct (preCalculateMinTotalWidth sampleMath sampleStaveMetrics (Some [0%nat])
              (fourQuarters 12 14 16 18) newFormatter)
    as [[[r s1] this1]|e] eqn:H.
  - apply (proj1 (proj2 preCalculateMinTotalWidth_cached)
             sampleMath sampleStaveMetrics [0%nat] None (fourQuarters 12 14 16 18) s1
             newFormatter this1 r); [reflexivity|discriminate|exact H].
  - vm_compute in H. discriminate.
Defined.

(** ** SimpleFormat *)





(** ** evaluate *)

Lemma eraseFM_fields (t1 t2 : Tickable) :
  eraseFM t1 = eraseFM t2 ->
  t_ticks t1 = t_ticks t2 /\ t_metrics t1 = t_metrics t2 /\
  t_tickContext t1 = t_tickContext t2.
Proof.
  intros H. repeat split.
  - apply (f_equal t_ticks) in H. exact H.
  - apply (f_equal t_metrics) in H. exact H.
  - apply (f_equal t_tickContext) in H. exact H.
Qed.

Lemma sameMap_lookup (m1 m2 : gmap Z TickContext) tick c1 :
  sameMap m1 m2 -> m1 !! tick = Some c1 ->
  exists c2, m2 !! tick = Some c2 /\ eraseFreedom c1 = eraseFreedom c2.
Proof.
  intros H H1. specialize (H tick). rewrite H1 in H.
  destruct (m2 !! tick) as [c2|]; [|discriminate].
  exists c2. split; [reflexivity|]. apply fmap_Some_eq in H. exact H.
Qed.

Lemma eraseFreedom_fields (c1 c2 : TickContext) :
  eraseFreedom c1 = eraseFreedom c2 ->
  tc_x c1 = tc_x c2 /\ tc_notePx c1 = tc_notePx c2 /\
  tc_totalLeftPx c1 = tc_totalLeftPx c2 /\ tc_totalRightPx c1 = tc_totalRightPx c2.
Proof.
  intros H. repeat split.
  - apply (f_equal tc_x) in H. exact H.
  - apply (f_equal tc_notePx) in H. exact H.
  - apply (f_equal tc_totalLeftPx) in H. exact H.
  - apply (f_equal tc_totalRightPx) in H. exact H.
Qed.

Lemma sameMap_refl (m : gmap Z TickContext) : sameMap m m.
Proof. intros tick. reflexivity. Qed.

Lemma sameMap_trans (m1 m2 m3 : gmap Z TickContext) :
  sameMap m1 m2 -> sameMap m2 m3 -> sameMap m1 m3.
Proof. intros H1 H2 tick. rewrite H1. apply H2. Qed.

Lemma sameMap_alter (m1 m2 : gmap Z TickContext) (f : TickContext -> TickContext) tick :
  sameMap m1 m2 ->
  (forall c1 c2, eraseFreedom c1 = eraseFreedom c2 ->
                 eraseFreedom (f c1) = eraseFreedom (f c2)) ->
  sameMap (alter f tick m1) (alter f tick m2).
Proof.
  intros H Hf tick'. destruct (decide (tick' = tick)) as [->|Hne].
  - rewrite !lookup_alter_eq. specialize (H tick).
    destruct (m1 !! tick) as [c1|], (m2 !! tick) as [c2|]; try discriminate; [|reflexivity].
    cbn. f_equal. apply Hf. apply fmap_Some_eq in H. exact H.
  - rewrite !lookup_alter_ne by auto. apply H.
Qed.

Lemma sameMap_alter_l (m : gmap Z TickContext) (f : TickContext -> TickContext) tick :
  (forall c, eraseFreedom (f c) = eraseFreedom c) ->
  sameMap m (alter f tick m).
Proof.
  intros Hf tick'. destruct (decide (tick' = tick)) as [->|Hne].
  - rewrite lookup_alter_eq. destruct (m !! tick) as [c|]; [|reflexivity].
    cbn. f_equal. symmetry. apply Hf.
  - rewrite lookup_alter_ne by auto. reflexivity.
Qed.

Lemma sameMap_getX (m1 m2 : gmap Z TickContext) (t1 t2 : Tickable) :
  sameMap m1 m2 -> eraseFM t1 = eraseFM t2 ->
  getXOfTickable m1 t1 = getXOfTickable m2 t2.
Proof.
  intros Hm Ht. apply eraseFM_fields in Ht. destruct Ht as (_ & _ & Hc).
  unfold getXOfTickable. rewrite Hc.
  destruct (t_tickContext t2) as [tick|]; [|reflexivity].
  specialize (Hm tick).
  destruct (m1 !! tick) as [c1|], (m2 !! tick) as [c2|]; try discriminate; [|reflexivity].
  apply fmap_Some_eq, eraseFreedom_fields in Hm. destruct Hm as (Hx & _).
  unfold getX. rewrite Hx. reflexivity.
Qed.

(** One step of the first pass of [evaluate] changes nothing but the
    freedom of the contexts; run on two maps that are the same up to the
    freedom, it ends the same way with the same gaps. *)
Lemma gapStep_same (ticks : list Z) (m1 m2 m1' : gmap Z TickContext)
    (g g1' : ContextGaps) (index : nat) :
  sameMap m1 m2 ->
  gapStep ticks (Ok (m1, g)) index = Ok (m1', g1') ->
  sameMap m1 m1' /\
  exists m2', gapStep ticks (Ok (m2, g)) index = Ok (m2', g1') /\ sameMap m1' m2'.
Proof.
  intros Hm H. unfold gapStep in *. cbn [bindR] in *.
  case_bool_decide.
  { injection H as <- <-. split; [apply sameMap_refl|]. eauto. }
  bind_inv_as H tick Htick. bind_inv_as H prevTick HprevTick.
  bind_inv_as H prevContext Hprev. bind_inv_as H context Hctx.
  rewrite Htick, HprevTick. cbn [bindR].
  unfold definedR in Hprev, Hctx.
  destruct (m1 !! prevTick) as [pc|] eqn:Hpc; [|discriminate]. injection Hprev as ->.
  destruct (m1 !! tick) as [cc|] eqn:Hcc; [|discriminate]. injection Hctx as ->.
  destruct (sameMap_lookup _ _ _ _ Hm Hpc) as (pc2 & Hpc2 & Epc).
  destruct (sameMap_lookup _ _ _ _ Hm Hcc) as (cc2 & Hcc2 & Ecc).
  rewrite Hpc2, Hcc2. cbn [definedR bindR].
  apply eraseFreedom_fields in Epc, Ecc.
  destruct Epc as (Px & Pn & _ & Pr). destruct Ecc as (Cx & _ & Cl & _).
  unfold getX in *. rewrite <- Px, <- Pn, <- Pr, <- Cx, <- Cl.
  injection H as <- <-. split.
  - eapply sameMap_trans; apply sameMap_alter_l; intros c; reflexivity.
  - eexists. split; [reflexivity|].
    apply sameMap_alter; [apply sameMap_alter; [exact Hm|]|];
      intros c1 c2 Hc; unfold eraseFreedom in *; cbn in *; exact Hc.
Qed.

Lemma gapStep_fold_same (ticks : list Z) (indices : list nat) :
  forall (m1 m2 m1' : gmap Z TickContext) (g g1' : ContextGaps),
  sameMap m1 m2 ->
  fold_left (gapStep ticks) indices (Ok (m1, g)) = Ok (m1', g1') ->
  sameMap m1 m1' /\
  exists m2', fold_left (gapStep ticks) indices (Ok (m2, g)) = Ok (m2', g1') /\
              sameMap m1' m2'.
Proof.
  induction indices as [|i indices IH]; intros m1 m2 m1' g g1' Hm H; cbn [fold_left] in *.
  - injection H as <- <-. split; [apply sameMap_refl|]. eauto.
  - destruct (gapStep ticks (Ok (m1, g)) i) as [[ma ga]|e] eqn:Hstep.
    2: { rewrite fold_left_Err in H by reflexivity. discriminate. }
    destruct (gapStep_same _ _ _ _ _ _ _ Hm Hstep) as (Hpres & mb & Hstep2 & Hab).
    rewrite Hstep2.
    destruct (IH _ _ _ _ _ Hab H) as (Hpres' & m2' & Hfold & Hrel).
    split; [eapply sameMap_trans; eauto|]. eauto.
Qed.

Lemma sameStore_refl (V : nat -> Prop) (s : Store) : sameStore V s s.
Proof.
  split; [reflexivity|]. intros id. unfold sameTickable.
  destruct (s_tickables s !! id); auto.
Qed.

Lemma sameStore_trans (V : nat -> Prop) (s1 s2 s3 : Store) :
  sameStore V s1 s2 -> sameStore V s2 s3 -> sameStore V s1 s3.
Proof.
  intros [Hv1 Ht1] [Hv2 Ht2]. split; [congruence|]. intros id.
  specialize (Ht1 id). specialize (Ht2 id). unfold sameTickable in *.
  destruct (s_tickables s1 !! id), (s_tickables s2 !! id), (s_tickables s3 !! id);
    try tauto.
  destruct Ht1 as [E1 U1], Ht2 as [E2 U2]. split; [congruence|].
  intros H. rewrite U1, U2; auto.
Qed.

Lemma sameStore_weaken (V V' : nat -> Prop) (s1 s2 : Store) :
  sameStore V s1 s2 -> (forall id, V' id -> V id) -> sameStore V' s1 s2.
Proof.
  intros [Hv Ht] HV. split; [exact Hv|]. intros id. specialize (Ht id).
  unfold sameTickable in *.
  destruct (s_tickables s1 !! id), (s_tickables s2 !! id); try exact Ht.
  destruct Ht as [He Hu]. split; [exact He|]. intros H. apply Hu, HV, H.
Qed.

Lemma sameStore_update (V V' : nat -> Prop) (s1 s2 : Store)
    (f1 f2 : Tickable -> Tickable) (id : nat) :
  sameStore V s1 s2 ->
  (forall t1 t2, eraseFM t1 = eraseFM t2 -> (V id -> usedOf t1 = usedOf t2) ->
     eraseFM (f1 t1) = eraseFM (f2 t2) /\ (V' id -> usedOf (f1 t1) = usedOf (f2 t2))) ->
  (forall id', id' <> id -> V' id' -> V id') ->
  sameStore V' (updateTickable f1 id s1) (updateTickable f2 id s2).
Proof.
  intros [Hv Ht] Hf HV. split; [exact Hv|]. intros id'.
  cbn [updateTickable s_tickables]. specialize (Ht id').
  destruct (decide (id' = id)) as [->|Hne].
  - rewrite !lookup_alter_eq. unfold sameTickable in *.
    destruct (s_tickables s1 !! id) as [t1|], (s_tickables s2 !! id) as [t2|];
      cbn; try exact Ht.
    destruct Ht as [E U]. apply Hf; assumption.
  - rewrite !lookup_alter_ne by congruence. unfold sameTickable in *.
    destruct (s_tickables s1 !! id'), (s_tickables s2 !! id'); try exact Ht.
    destruct Ht as [E U]. split; [exact E|]. intros H. apply U, (HV _ Hne H).
Qed.

(** An update that leaves the space used alone keeps the agreement of
    two stores. *)
Lemma sameStore_update_same (V : nat -> Prop) (s1 s2 : Store)
    (f : Tickable -> Tickable) (id : nat) :
  sameStore V s1 s2 ->
  (forall t1 t2, eraseFM t1 = eraseFM t2 -> eraseFM (f t1) = eraseFM (f t2)) ->
  (forall t, usedOf (f t) = usedOf t) ->
  sameStore V (updateTickable f id s1) (updateTickable f id s2).
Proof.
  intros Hs He Hu. apply (sameStore_update V V); [exact Hs| |tauto].
  intros t1 t2 E U. split; [apply He, E|]. rewrite !Hu. exact U.
Qed.

(** Writing the same space used into the same tickable of two stores. *)
Lemma sameStore_update_used (V : nat -> Prop) (s1 s2 : Store) (used : Q) (id : nat) :
  sameStore V s1 s2 ->
  sameStore (fun id' => V id' \/ id' = id)
    (updateTickable
       (fun t => setFormatterMetrics (setSpaceUsed used (getFormatterMetrics t)) t) id s1)
    (updateTickable
       (fun t => setFormatterMetrics (setSpaceUsed used (getFormatterMetrics t)) t) id s2).
Proof.
  intros Hs. apply (sameStore_update V); [exact Hs| |].
  - intros t1 t2 E _. split; [exact E|]. intros _. reflexivity.
  - intros id' Hne [H| ->]; [exact H|contradiction].
Qed.

(** An update of the formatter metrics alone, seen from the store before it. *)
Lemma sameStore_update_r (s1 s2 : Store) (f : Tickable -> Tickable) (id : nat) :
  sameStore (fun _ => False) s1 s2 -> (forall t, eraseFM (f t) = eraseFM t) ->
  sameStore (fun _ => False) s1 (updateTickable f id s2).
Proof.
  intros [Hv Ht] Hf. split; [exact Hv|]. intros id'.
  cbn [updateTickable s_tickables]. specialize (Ht id').
  destruct (decide (id' = id)) as [->|Hne].
  - rewrite lookup_alter_eq. unfold sameTickable in *.
    destruct (s_tickables s1 !! id) as [t1|], (s_tickables s2 !! id) as [t2|];
      cbn; try exact Ht.
    destruct Ht as [E _]. split; [|contradiction]. rewrite Hf. exact E.
  - rewrite lookup_alter_ne by congruence. exact Ht.
Qed.

Lemma sameStore_getTickable (V : nat -> Prop) (s1 s2 : Store) (id : nat) (t1 : Tickable) :
  sameStore V s1 s2 -> getTickable s1 id = Ok t1 ->
  exists t2, getTickable s2 id = Ok t2 /\ eraseFM t1 = eraseFM t2 /\
             (V id -> usedOf t1 = usedOf t2).
Proof.
  intros [_ Ht] H. specialize (Ht id). unfold getTickable, definedR in *.
  unfold sameTickable in Ht.
  destruct (s_tickables s1 !! id) as [t|]; [|discriminate]. injection H as ->.
  destruct (s_tickables s2 !! id) as [t2|]; [|contradiction]. exists t2. tauto.
Qed.

Lemma fold_left_preserves {A B : Type} (R : A -> A -> Prop)
    (f : Result A -> B -> Result A) (l : list B) :
  (forall a, R a a) -> (forall a b c, R a b -> R b c -> R a c) ->
  (forall e b, f (Err e) b = Err e) ->
  (forall a b a', f (Ok a) b = Ok a' -> R a a') ->
  forall a a', fold_left f l (Ok a) = Ok a' -> R a a'.
Proof.
  intros Hrefl Htrans Herr Hstep. induction l as [|b l IH]; intros a a' H; cbn in H.
  - injection H as <-. apply Hrefl.
  - destruct (f (Ok a) b) as [a1|e] eqn:Hf.
    + eapply Htrans; [eapply Hstep, Hf|apply IH, H].
    + rewrite fold_left_Err in H by (intros; apply Herr). discriminate.
Qed.

(** The second pass changes formatter metrics only. *)
Lemma spaceStep_preserves (m : gmap Z TickContext) (jw : Q) (notes : list nat)
    (s s' : Store) (d d' : gmap string DurationStats) (i : nat) :
  spaceStep m jw notes (Ok (s, d)) i = Ok (s', d') ->
  sameStore (fun _ => False) s s'.
Proof.
  unfold spaceStep. cbn [bindR]. intros H.
  bind_inv_as H id Hid. bind_inv_as H note Hnote. bind_inv_as H x Hx.
  case_bool_decide.
  - bind_inv_as H rightId Hright. bind_inv_as H rightNote HrightNote.
    bind_inv_as H rightX HrightX. injection H as <- _.
    repeat apply sameStore_update_r; try (intros t; reflexivity).
    apply sameStore_refl.
  - injection H as <- _.
    repeat apply sameStore_update_r; try (intros t; reflexivity).
    apply sameStore_refl.
Qed.

Lemma spaceVoice_preserves (m : gmap Z TickContext) (jw : Q)
    (s s' : Store) (d d' : gmap string DurationStats) (voice : nat) :
  spaceVoice m jw (Ok (s, d)) voice = Ok (s', d') ->
  sameStore (fun _ => False) s s'.
Proof.
  unfold spaceVoice. cbn [bindR fst]. intros H. bind_inv_as H v Hv.
  refine (fold_left_preserves (fun a a' => sameStore (fun _ => False) (fst a) (fst a'))
            _ _ _ _ _ _ (s, d) (s', d') H).
  - intros a. apply sameStore_refl.
  - intros a b c. apply sameStore_trans.
  - reflexivity.
  - intros [s1 d1] i [s2 d2]. cbn [fst]. apply spaceStep_preserves.
Qed.

Lemma deviationStep_preserves (M : MathFns) (d : gmap string DurationStats)
    (s s' : Store) (td td' : Q) (id : nat) :
  deviationStep M d (Ok (s, td)) id = Ok (s', td') ->
  sameStore (fun _ => False) s s'.
Proof.
  unfold deviationStep. cbn [bindR]. intros H.
  bind_inv_as H note Hnote. bind_inv_as H stats Hstats. injection H as <- _.
  apply sameStore_update_r; [apply sameStore_refl|]. intros t; reflexivity.
Qed.

Lemma deviationVoice_preserves (M : MathFns) (d : gmap string DurationStats)
    (s s' : Store) (td td' : Q) (voice : nat) :
  deviationVoice M d (Ok (s, td)) voice = Ok (s', td') ->
  sameStore (fun _ => False) s s'.
Proof.
  unfold deviationVoice. cbn [bindR fst]. intros H. bind_inv_as H v Hv.
  refine (fold_left_preserves (fun a a' => sameStore (fun _ => False) (fst a) (fst a'))
            _ _ _ _ _ _ (s, td) (s', td') H).
  - intros a. apply sameStore_refl.
  - intros a b c. apply sameStore_trans.
  - reflexivity.
  - intros [s1 d1] i [s2 d2]. cbn [fst]. apply deviationStep_preserves.
Qed.

(** The second pass, run on two stores that agree up to the formatter
    metrics: it ends the same way with the same statistics, and the two
    stores then agree on the space used by the note visited. *)
Lemma spaceStep_same (m1 m2 : gmap Z TickContext) (jw : Q) (notes : list nat)
    (V : nat -> Prop) (s1 s2 s1' : Store) (d d' : gmap string DurationStats) (i : nat) :
  sameMap m1 m2 -> sameStore V s1 s2 ->
  spaceStep m1 jw notes (Ok (s1, d)) i = Ok (s1', d') ->
  exists s2', spaceStep m2 jw notes (Ok (s2, d)) i = Ok (s2', d') /\
              sameStore (fun id => V id \/ notes !! i = Some id) s1' s2'.
Proof.
  intros Hm Hs. unfold spaceStep. cbn [bindR]. intros H.
  bind_inv_as H id Hid. rewrite Hid. cbn [bindR].
  bind_inv_as H note Hnote.
  destruct (sameStore_getTickable _ _ _ _ _ Hs Hnote) as (note2 & Hnote2 & E & _).
  rewrite Hnote2. cbn [bindR].
  rewrite <- (sameMap_getX _ _ _ _ Hm E).
  bind_inv_as H x Hx. rewrite Hx. cbn [bindR].
  assert (Hd : durationOf note2 = durationOf note).
  { unfold durationOf, getTicks. apply eraseFM_fields in E.
    destruct E as (-> & _). reflexivity. }
  assert (Hmet : getMetrics note2 = getMetrics note).
  { unfold getMetrics. apply eraseFM_fields in E.
    destruct E as (_ & -> & _). reflexivity. }
  rewrite Hd, Hmet.
  assert (HV : forall id', (V id' \/ notes !! i = Some id') -> V id' \/ id' = id).
  { intros id' [HV|Hl]; [left; exact HV|right].
    rewrite Hl in Hid. cbn in Hid. congruence. }
  case_bool_decide.
  - bind_inv_as H rightId Hright. rewrite Hright. cbn [bindR].
    bind_inv_as H rightNote HrightNote.
    destruct (sameStore_getTickable _ _ _ _ _ Hs HrightNote) as (right2 & Hright2 & Er & _).
    rewrite Hright2. cbn [bindR].
    rewrite <- (sameMap_getX _ _ _ _ Hm Er).
    bind_inv_as H rightX HrightX. rewrite HrightX. cbn [bindR].
    assert (Hrmet : getMetrics right2 = getMetrics rightNote).
    { unfold getMetrics. apply eraseFM_fields in Er.
      destruct Er as (_ & -> & _). reflexivity. }
    rewrite Hrmet. injection H as <- <-.
    eexists. split; [reflexivity|].
    apply (sameStore_weaken (fun id' => V id' \/ id' = id)); [|exact HV].
    repeat (apply sameStore_update_same;
            [|intros t1 t2 Et; exact Et|intros t; reflexivity]).
    apply sameStore_update_used, Hs.
  - injection H as <- <-.
    eexists. split; [reflexivity|].
    apply (sameStore_weaken (fun id' => V id' \/ id' = id)); [|exact HV].
    repeat (apply sameStore_update_same;
            [|intros t1 t2 Et; exact Et|intros t; reflexivity]).
    apply sameStore_update_used, Hs.
Qed.

Lemma spaceStep_fold_same (m1 m2 : gmap Z TickContext) (jw : Q) (notes : list nat)
    (indices : list nat) :
  forall (V : nat -> Prop) (s1 s2 s1' : Store) (d d' : gmap string DurationStats),
  sameMap m1 m2 -> sameStore V s1 s2 ->
  fold_left (spaceStep m1 jw notes) indices (Ok (s1, d)) = Ok (s1', d') ->
  exists s2', fold_left (spaceStep m2 jw notes) indices (Ok (s2, d)) = Ok (s2', d') /\
    sameStore (fun id => V id \/ exists i, i ∈ indices /\ notes !! i = Some id) s1' s2'.
Proof.
  induction indices as [|i indices IH]; intros V s1 s2 s1' d d' Hm Hs H;
    cbn [fold_left] in *.
  - injection H as <- <-. exists s2. split; [reflexivity|].
    apply (sameStore_weaken V); [exact Hs|].
    intros id [HV|(i & Hi & _)]; [exact HV|]. apply elem_of_nil in Hi. contradiction.
  - destruct (spaceStep m1 jw notes (Ok (s1, d)) i) as [[sa da]|e] eqn:Hstep.
    2: { rewrite fold_left_Err in H by reflexivity. discriminate. }
    destruct (spaceStep_same _ _ _ _ _ _ _ _ _ _ _ Hm Hs Hstep) as (sb & Hstep2 & Hab).
    rewrite Hstep2.
    destruct (IH _ _ _ _ _ _ Hm Hab H) as (s2' & Hfold & Hrel).
    exists s2'. split; [exact Hfold|].
    eapply sameStore_weaken; [exact Hrel|]. cbn beta.
    intros id [HV|(i0 & Hi0 & Hl)]; [left; left; exact HV|].
    apply elem_of_cons in Hi0. destruct Hi0 as [->|Hi0]; [left; right; exact Hl|].
    right. eauto.
Qed.

Lemma spaceVoice_same (m1 m2 : gmap Z TickContext) (jw : Q)
    (V : nat -> Prop) (s1 s2 s1' : Store) (d d' : gmap string DurationStats) (voice : nat) :
  sameMap m1 m2 -> sameStore V s1 s2 ->
  spaceVoice m1 jw (Ok (s1, d)) voice = Ok (s1', d') ->
  exists s2', spaceVoice m2 jw (Ok (s2, d)) voice = Ok (s2', d') /\
    sameStore (fun id => V id \/
                 exists v, s_voices s1 !! voice = Some v /\ id ∈ getTickables v) s1' s2'.
Proof.
  intros Hm Hs. unfold spaceVoice. cbn [bindR fst]. intros H.
  bind_inv_as H v Hv. unfold getVoiceOf in *. destruct Hs as [Hvoices Ht].
  rewrite <- Hvoices, Hv. cbn [bindR].
  destruct (spaceStep_fold_same _ _ _ _ _ _ _ _ _ _ _ Hm (conj Hvoices Ht) H)
    as (s2' & Hfold & Hrel).
  exists s2'. split; [exact Hfold|].
  eapply sameStore_weaken; [exact Hrel|]. cbn beta.
  intros id [HV|(v' & Hv' & Hin)]; [left; exact HV|right].
  rewrite Hv' in Hv. cbn in Hv. injection Hv as <-.
  apply list_elem_of_lookup_1 in Hin. destruct Hin as [i Hi].
  exists i. split; [|exact Hi].
  apply elem_of_seq. apply lookup_lt_Some in Hi. lia.
Qed.

Lemma spaceVoice_fold_same (m1 m2 : gmap Z TickContext) (jw : Q) (voices : list nat) :
  forall (V : nat -> Prop) (s1 s2 s1' : Store) (d d' : gmap string DurationStats),
  sameMap m1 m2 -> sameStore V s1 s2 ->
  fold_left (spaceVoice m1 jw) voices (Ok (s1, d)) = Ok (s1', d') ->
  exists s2', fold_left (spaceVoice m2 jw) voices (Ok (s2, d)) = Ok (s2', d') /\
    sameStore (fun id => V id \/
                 exists voice v, voice ∈ voices /\ s_voices s1 !! voice = Some v /\
                                 id ∈ getTickables v) s1' s2'.
Proof.
  induction voices as [|voice voices IH]; intros V s1 s2 s1' d d' Hm Hs H;
    cbn [fold_left] in *.
  - injection H as <- <-. exists s2. split; [reflexivity|].
    apply (sameStore_weaken V); [exact Hs|].
    intros id [HV|(voice & v & Hi & _)]; [exact HV|].
    apply elem_of_nil in Hi. contradiction.
  - destruct (spaceVoice m1 jw (Ok (s1, d)) voice) as [[sa da]|e] eqn:Hstep.
    2: { rewrite fold_left_Err in H by reflexivity. discriminate. }
    destruct (spaceVoice_same _ _ _ _ _ _ _ _ _ _ Hm Hs Hstep) as (sb & Hstep2 & Hab).
    rewrite Hstep2.
    destruct (IH _ _ _ _ _ _ Hm Hab H) as (s2' & Hfold & Hrel).
    exists s2'. split; [exact Hfold|].
    apply spaceVoice_preserves in Hstep. destruct Hstep as [Hvoices _].
    eapply sameStore_weaken; [exact Hrel|]. cbn beta.
    intros id [HV|(voice0 & v & Hi0 & Hl & Hin)]; [left; left; exact HV|].
    apply elem_of_cons in Hi0. destruct Hi0 as [->|Hi0]; [left; right; eauto|].
    right. exists voice0, v. rewrite <- Hvoices. auto.
Qed.

(** The third pass, run on two stores that agree up to the formatter
    metrics and on the space used by the notes it visits. *)
Lemma deviationStep_same (M : MathFns) (d : gmap string DurationStats)
    (V : nat -> Prop) (s1 s2 s1' : Store) (td td' : Q) (id : nat) :
  sameStore V s1 s2 -> V id ->
  deviationStep M d (Ok (s1, td)) id = Ok (s1', td') ->
  exists s2', deviationStep M d (Ok (s2, td)) id = Ok (s2', td') /\ sameStore V s1' s2'.
Proof.
  intros Hs HV. unfold deviationStep. cbn [bindR]. intros H.
  bind_inv_as H note Hnote.
  destruct (sameStore_getTickable _ _ _ _ _ Hs Hnote) as (note2 & Hnote2 & E & U).
  rewrite Hnote2. cbn [bindR].
  assert (Hd : durationOf note2 = durationOf note).
  { unfold durationOf, getTicks. apply eraseFM_fields in E.
    destruct E as (-> & _). reflexivity. }
  rewrite Hd. bind_inv_as H stats Hstats. rewrite Hstats. cbn [bindR].
  specialize (U HV). unfold usedOf in U. rewrite <- U.
  injection H as <- <-. eexists. split; [reflexivity|].
  apply (sameStore_update V); [exact Hs| |tauto].
  intros t1 t2 Et _. split; [exact Et|]. intros _. reflexivity.
Qed.

Lemma deviationStep_fold_same (M : MathFns) (d : gmap string DurationStats)
    (V : nat -> Prop) (ids : list nat) :
  forall (s1 s2 s1' : Store) (td td' : Q),
  sameStore V s1 s2 -> (forall id, id ∈ ids -> V id) ->
  fold_left (deviationStep M d) ids (Ok (s1, td)) = Ok (s1', td') ->
  exists s2', fold_left (deviationStep M d) ids (Ok (s2, td)) = Ok (s2', td') /\
              sameStore V s1' s2'.
Proof.
  induction ids as [|id ids IH]; intros s1 s2 s1' td td' Hs HV H; cbn [fold_left] in *.
  - injection H as <- <-. eauto.
  - destruct (deviationStep M d (Ok (s1, td)) id) as [[sa ta]|e] eqn:Hstep.
    2: { rewrite fold_left_Err in H by reflexivity. discriminate. }
    destruct (deviationStep_same _ _ _ _ _ _ _ _ _ Hs (HV id (list_elem_of_here _ _)) Hstep)
      as (sb & Hstep2 & Hab).
    rewrite Hstep2. apply (IH _ _ _ _ _ Hab); [|exact H].
    intros id' Hin. apply HV. apply list_elem_of_further, Hin.
Qed.

Lemma deviationVoice_fold_same (M : MathFns) (d : gmap string DurationStats)
    (V : nat -> Prop) (voices : list nat) :
  forall (s1 s2 s1' : Store) (td td' : Q),
  sameStore V s1 s2 ->
  (forall voice v id, voice ∈ voices -> s_voices s1 !! voice = Some v ->
                      id ∈ getTickables v -> V id) ->
  fold_left (deviationVoice M d) voices (Ok (s1, td)) = Ok (s1', td') ->
  exists s2', fold_left (deviationVoice M d) voices (Ok (s2, td)) = Ok (s2', td') /\
              sameStore V s1' s2'.
Proof.
  induction voices as [|voice voices IH]; intros s1 s2 s1' td td' Hs HV H;
    cbn [fold_left] in *.
  - injection H as <- <-. eauto.
  - destruct (deviationVoice M d (Ok (s1, td)) voice) as [[sa ta]|e] eqn:Hstep.
    2: { rewrite fold_left_Err in H by reflexivity. discriminate. }
    pose proof (deviationVoice_preserves _ _ _ _ _ _ _ Hstep) as [Hvoices _].
    assert (Hstep2 : exists sb, deviationVoice M d (Ok (s2, td)) voice = Ok (sb, ta) /\
                                sameStore V sa sb).
    { unfold deviationVoice in *. cbn [bindR fst] in *.
      bind_inv_as Hstep v Hv. unfold getVoiceOf in *.
      destruct Hs as [Hsv Ht]. rewrite <- Hsv, Hv. cbn [bindR].
      apply (deviationStep_fold_same _ _ _ _ _ _ _ _ _ (conj Hsv Ht)); [|exact Hstep].
      intros id Hin. apply (HV voice v id); [apply list_elem_of_here| |exact Hin].
      destruct (s_voices s1 !! voice); cbn in Hv; congruence. }
    destruct Hstep2 as (sb & Hstep2 & Hab). rewrite Hstep2.
    apply (IH _ _ _ _ _ Hab); [|exact H].
    intros voice0 v id Hin Hl. apply (HV voice0 v id); [apply list_elem_of_further, Hin|].
    rewrite Hvoices. exact Hl.
Qed.

Lemma spaceVoice_fold_preserves (m : gmap Z TickContext) (jw : Q) (voices : list nat)
    (s s' : Store) (d d' : gmap string DurationStats) :
  fold_left (spaceVoice m jw) voices (Ok (s, d)) = Ok (s', d') ->
  sameStore (fun _ => False) s s'.
Proof.
  intros H.
  refine (fold_left_preserves (fun a a' => sameStore (fun _ => False) (fst a) (fst a'))
            _ _ _ _ _ _ (s, d) (s', d') H).
  - intros a. apply sameStore_refl.
  - intros a b c. apply sameStore_trans.
  - reflexivity.
  - intros [s1 d1] i [s2 d2]. cbn [fst]. apply spaceVoice_preserves.
Qed.

Lemma deviationVoice_fold_preserves (M : MathFns) (d : gmap string DurationStats)
    (voices : list nat) (s s' : Store) (td td' : Q) :
  fold_left (deviationVoice M d) voices (Ok (s, td)) = Ok (s', td') ->
  sameStore (fun _ => False) s s'.
Proof.
  intros H.
  refine (fold_left_preserves (fun a a' => sameStore (fun _ => False) (fst a) (fst a'))
            _ _ _ _ _ _ (s, td) (s', td') H).
  - intros a. apply sameStore_refl.
  - intros a b c. apply sameStore_trans.
  - reflexivity.
  - intros [s1 d1] i [s2 d2]. cbn [fst]. apply deviationVoice_preserves.
Qed.

(** C3: if [evaluate] is called twice in a row, on the store and the
    formatter exactly as the first call left them (so no tickable and no
    tick context has changed its x position in between), the second call
    returns as well, with the same cost as the first. *)
Theorem evaluate_twice_same_cost (M : MathFns) (s s' : Store) (this this' : Formatter)
    (cost : Q) :
  evaluate M s this = Ok (cost, s', this') ->
  exists s'' this'', evaluate M s' this' = Ok (cost, s'', this'').
Proof.
  unfold evaluate. intros H.
  bind_inv_as H r1 Hgap. destruct r1 as [m1 g1].
  bind_inv_as H r2 Hspace. destruct r2 as [sp dstats].
  bind_inv_as H r3 Hdev. destruct r3 as [sd td].
  injection H as <- <- <-.
  cbn [tickContexts justifyWidth voices totalCost set_lossHistory set_totalCost
       set_durationStats set_tickContexts set_contextGaps withMap atc_list atc_map]
    in *.
  (* the first pass *)
  destruct (gapStep_fold_same _ _ _ _ _ _ _ (sameMap_refl _) Hgap) as (Hm01 & _).
  destruct (gapStep_fold_same _ _ _ _ _ _ _ Hm01 Hgap) as (_ & m2 & Hgap2 & Hm12).
  rewrite Hgap2. cbn [bindR].
  (* the second pass *)
  pose proof (spaceVoice_fold_preserves _ _ _ _ _ _ _ Hspace) as Hs1.
  pose proof (deviationVoice_fold_preserves _ _ _ _ _ _ _ Hdev) as Hs2.
  pose proof (sameStore_trans _ _ _ _ Hs1 Hs2) as Hs.
  destruct (spaceVoice_fold_same _ _ _ _ _ _ _ _ _ _ Hm12 Hs Hspace)
    as (sp2 & Hspace2 & Hsp).
  rewrite Hspace2. cbn [bindR].
  (* the third pass *)
  assert (HV : forall voice v id, voice ∈ voices this -> s_voices sp !! voice = Some v ->
                 id ∈ getTickables v ->
                 False \/ exists voice v, voice ∈ voices this /\
                            s_voices s !! voice = Some v /\ id ∈ getTickables v).
  { intros voice v id Hin Hl Hid. right. exists voice, v.
    destruct Hs1 as [Hvoices _]. rewrite Hvoices. auto. }
  destruct (deviationVoice_fold_same M dstats _ _ _ _ _ _ _ Hsp HV Hdev)
    as (sd2 & Hdev2 & _).
  rewrite Hdev2. cbn [bindR]. eauto.
Qed.

(** The theorem applies to the two half notes, their tick contexts
    created and the justify width set to 20 pixels. *)
Lemma evaluate_twice_same_cost_witness :
  match twoHalfNotesContexts with
  | Ok (_, s, this) =>
      match evaluate sampleMath s (set_justifyWidth 20 this) with
      | Ok (cost, s', this') =>
          exists s'' this'', evaluate sampleMath s' this' = Ok (cost, s'', this'')
      | Err _ => False
      end
  | Err _ => False
  end.
Proof.
  destruct twoHalfNotesContexts as [[[contexts s] this]|e] eqn:Hc;
    [|vm_compute in Hc; discriminate].
  destruct (evaluate sampleMath s (set_justifyWidth 20 this))
    as [[[cost s'] this']|e] eqn:H.
  - apply (evaluate_twice_same_cost sampleMath s s' (set_justifyWidth 20 this) this' cost H).
  - vm_compute in Hc. injection Hc as _ <- <-. vm_compute in H. discriminate.
Defined.

(* ================================================================== *)
(** * Further properties of the accidental layout *)
(* ================================================================== *)

(** ** The distances at which lines collide *)

Lemma Qabs_cases (x : Q) : (0 <= x /\ Qabs x == x) \/ (x <= 0 /\ Qabs x == - x).
Proof.
  destruct (Qlt_le_dec x 0) as [H|H].
  - right. split; [lra|]. apply Qabs_neg. lra.
  - left. split; [exact H|]. apply Qabs_pos. exact H.
Qed.

(** X1.  Two lines of accidentals less than 2 stave lines apart always
    collide, and two lines 3.5 stave lines or more apart never do,
    whatever their flat and double-sharp flags and whichever of the two
    is passed first. *)
Theorem checkCollision_distance_bounds (l1 l2 : StaveLineAccidentalLayoutMetrics) :
  (Qabs (line l2 - line l1) < 2 -> checkCollision l1 l2 = true) /\
  (3.5 <= Qabs (line l2 - line l1) -> checkCollision l1 l2 = false).
Proof.
  unfold checkCollision. cbv zeta. split; intros H.
  - apply Qabs_Qlt_condition in H.
    destruct (Qltb 0 (line l2 - line l1)) eqn:E;
      [apply Qltb_lt in E | apply Qltb_ge in E];
      apply Qltb_lt, Qabs_Qlt_condition;
      destruct (dblSharpLine l1), (dblSharpLine l2), (flatLine l1), (flatLine l2);
      cbn [orb]; cbv iota; lra.
  - destruct (Qltb 0 (line l2 - line l1)) eqn:E;
      [apply Qltb_lt in E | apply Qltb_ge in E]; apply Qltb_ge.
    + destruct (Qabs_cases (line l2 - line l1)) as [[_ Ha]|[Hn _]]; [|lra].
      rewrite Ha in H.
      destruct (dblSharpLine l1), (dblSharpLine l2), (flatLine l2);
        cbn [orb]; cbv iota;
        match goal with |- _ <= Qabs ?x =>
          apply Qle_trans with x; [lra|apply Qle_Qabs] end.
    + destruct (Qabs_cases (line l2 - line l1)) as [[Hp Ha]|[_ Ha]];
        rewrite Ha in H; [lra|].
      destruct (dblSharpLine l1), (dblSharpLine l2), (flatLine l1);
        cbn [orb]; cbv iota;
        match goal with |- _ <= Qabs ?x =>
          rewrite <- (Qabs_opp x); apply Qle_trans with (- x); [lra|apply Qle_Qabs] end.
Qed.

(** The theorem applies to lines 4 and 3, and to lines 6 and 2. *)
Lemma checkCollision_distance_bounds_witness :
  checkCollision (layoutLineAt 4 false false) (layoutLineAt 3 true false) = true /\
  checkCollision (layoutLineAt 6 false true) (layoutLineAt 2 false false) = false.
Proof.
  split.
  - apply (proj1 (checkCollision_distance_bounds _ _)). vm_compute. reflexivity.
  - apply (proj2 (checkCollision_distance_bounds _ _)). vm_compute. discriminate.
Defined.

(** X2.  When neither line is a double-sharp line, [checkCollision]
    gives the same answer for both orders of its arguments. *)
Theorem checkCollision_symmetric_without_dblSharp
    (l1 l2 : StaveLineAccidentalLayoutMetrics) :
  dblSharpLine l1 = false -> dblSharpLine l2 = false ->
  checkCollision l1 l2 = checkCollision l2 l1.
Proof.
  intros H1 H2. apply eq_true_iff_eq. unfold checkCollision. cbv zeta.
  rewrite H1, H2, !orb_false_r.
  destruct (Qltb 0 (line l2 - line l1)) eqn:E;
    [apply Qltb_lt in E | apply Qltb_ge in E];
  destruct (Qltb 0 (line l1 - line l2)) eqn:E';
    [apply Qltb_lt in E' | apply Qltb_ge in E' | apply Qltb_lt in E' | apply Qltb_ge in E'];
  try lra;
  rewrite !Qltb_lt, !Qabs_Qlt_condition;
  destruct (flatLine l1), (flatLine l2); cbv iota;
  (split; intros [? ?]; split); lra.
Qed.

(** The theorem applies to a flat line at 5 and a plain line at 2.5. *)
Lemma checkCollision_symmetric_without_dblSharp_witness :
  checkCollision (layoutLineAt 5 true false) (layoutLineAt 2.5 false false)
  = checkCollision (layoutLineAt 2.5 false false) (layoutLineAt 5 true false).
Proof.
  apply checkCollision_symmetric_without_dblSharp; reflexivity.
Defined.

(** ** What format leaves behind *)

(** The passes of [format] on a non-empty array, one by one. *)
Lemma format_inv (table : ColumnsTable) (metrics : AccidentalMetrics)
    (accidentals : list Accidental) (state : ModifierContextState) (out : FormatOutput) :
  Accidental.format table metrics accidentals state = Ok out ->
  accidentals <> [] ->
  exists entries lines mx lines' total ws os totalShift r,
    linePositions accidentals = Ok entries /\
    lineMetrics (accidentalSpacing metrics) (sortByLine entries) = (lines, mx) /\
    placeGroups table (length lines) lines 0 0 = Ok (lines', total) /\
    columnOffsets total (leftShift state + noteheadAccidentalPadding metrics) mx lines'
      = (ws, os) /\
    last os = Some totalShift /\
    fold_left (Accidental.shiftStep (accidentalSpacing metrics) mx os (sortByLine entries))
              lines' (Ok (accidentals, 0%nat)) = Ok r /\
    out = {| out_accidentals := r.1;
             out_state := {| leftShift := totalShift + leftPadding metrics |};
             out_lines := lines'; out_totalColumns := total |}.
Proof.
  unfold Accidental.format. intros H Hne.
  rewrite bool_decide_eq_false_2 in H by (destruct accidentals; [congruence|discriminate]).
  cbv zeta in H.
  destruct (linePositions accidentals) as [entries|e] eqn:He; [|discriminate].
  cbn [bindR] in H.
  destruct (lineMetrics (accidentalSpacing metrics) (sortByLine entries)) as [lines mx] eqn:Hl.
  destruct (placeGroups table (length lines) lines 0 0) as [[lines' total]|e] eqn:Hp;
    [|discriminate].
  cbn [bindR] in H.
  destruct (columnOffsets total (leftShift state + noteheadAccidentalPadding metrics) mx lines')
    as [ws os] eqn:Ho.
  destruct (last os) as [totalShift|] eqn:Hlast; [|discriminate].
  cbn [bindR] in H.
  destruct (fold_left (Accidental.shiftStep (accidentalSpacing metrics) mx os (sortByLine entries))
              lines' (Ok (accidentals, 0%nat))) as [r|e] eqn:Hr; [|discriminate].
  cbn [bindR] in H. injection H as <-.
  exists entries, lines, mx, lines', total, ws, os, totalShift, r.
  repeat (split; [first [assumption|reflexivity]|]). reflexivity.
Qed.

(** *** The accidentals keep everything but their x shift *)

Lemma alter_setXShift_erase (x : Q) (i : nat) (l : list Accidental) :
  (fun a => setXShift a 0) <$> alter (fun a => setXShift a x) i l
  = (fun a => setXShift a 0) <$> l.
Proof.
  apply list_eq. intros j. rewrite !list_lookup_fmap.
  destruct (decide (j = i)) as [->|Hne].
  - rewrite list_lookup_alter_eq. destruct (l !! i); reflexivity.
  - rewrite list_lookup_alter_ne by congruence. reflexivity.
Qed.

Lemma shiftLine_erase sp mx off entries n :
  forall accidentals lineWidth accCount accidentals',
  shiftLine sp mx off entries accidentals lineWidth accCount n = Ok accidentals' ->
  (fun a => setXShift a 0) <$> accidentals' = (fun a => setXShift a 0) <$> accidentals.
Proof.
  induction n as [|n IH]; intros accidentals lineWidth accCount accidentals' H;
    cbn [shiftLine] in H.
  - injection H as <-. reflexivity.
  - destruct (entries !! accCount) as [e|]; [|discriminate]. cbn [definedR bindR] in H.
    apply IH in H. rewrite H. apply alter_setXShift_erase.
Qed.

Lemma shiftStep_fold_erase sp mx os entries lines :
  forall accidentals accCount r,
  fold_left (Accidental.shiftStep sp mx os entries) lines (Ok (accidentals, accCount)) = Ok r ->
  (fun a => setXShift a 0) <$> r.1 = (fun a => setXShift a 0) <$> accidentals.
Proof.
  induction lines as [|l lines IH]; intros accidentals accCount r H; cbn [fold_left] in H.
  - injection H as <-. reflexivity.
  - destruct (Accidental.shiftStep sp mx os entries (Ok (accidentals, accCount)) l)
      as [[acc1 n1]|e] eqn:Hstep.
    2: { rewrite fold_left_Err in H by reflexivity. discriminate. }
    apply IH in H. rewrite H.
    unfold Accidental.shiftStep in Hstep. cbn [bindR] in Hstep.
    destruct (match column l with
              | O => Err UndefinedValue
              | S c => match os !! c with Some o => Ok o | None => Err UndefinedValue end
              end) as [off|e]; [|discriminate].
    cbn [bindR] in Hstep.
    destruct (shiftLine sp mx off entries accidentals 0 accCount (numAcc l))
      as [acc'|e] eqn:Hline; [|discriminate].
    cbn [bindR] in Hstep. injection Hstep as <- _.
    apply (shiftLine_erase _ _ _ _ _ _ _ _ _ Hline).
Qed.

(** X3.  When [format] returns, the array holds the same accidentals in
    the same order, and each of them is as it was but for its x shift:
    type, width, note and index are untouched. *)
Theorem format_changes_xShift_only (table : ColumnsTable) (metrics : AccidentalMetrics)
    (accidentals : list Accidental) (state : ModifierContextState) (out : FormatOutput) :
  Accidental.format table metrics accidentals state = Ok out ->
  length (out_accidentals out) = length accidentals /\
  forall i a, accidentals !! i = Some a ->
    exists x, out_accidentals out !! i = Some (setXShift a x).
Proof.
  intros H.
  assert (He : (fun a => setXShift a 0) <$> out_accidentals out
               = (fun a => setXShift a 0) <$> accidentals).
  { destruct accidentals as [|a0 accidentals'] eqn:Hacc.
    - unfold Accidental.format in H. cbn in H. injection H as <-. reflexivity.
    - rewrite <- Hacc in *.
      destruct (format_inv _ _ _ _ _ H ltac:(rewrite Hacc; discriminate))
        as (entries & lines & mx & lines' & total & ws & os & totalShift & r
            & _ & _ & _ & _ & _ & Hr & ->).
      cbn [out_accidentals]. apply (shiftStep_fold_erase _ _ _ _ _ _ _ _ Hr). }
  split.
  - apply (f_equal length) in He. rewrite !length_fmap in He. exact He.
  - intros i a Ha. apply (f_equal (fun l => l !! i)) in He.
    rewrite !list_lookup_fmap, Ha in He. cbn in He.
    destruct (out_accidentals out !! i) as [a'|]; [|discriminate].
    exists (- acc_xShift a'). f_equal. injection He as E1 E2 E3 E4.
    destruct a, a' as [ty' w' n' i' [xn xd]]. cbn in *. subst.
    unfold setXShift, Qopp. cbn. rewrite Z.opp_involutive. reflexivity.
Qed.

(** The theorem applies to the chord with the double sharp. *)
Lemma format_changes_xShift_only_witness :
  match Accidental.format accidentalColumnsTable sampleMetrics chordWithDblSharp
          {| leftShift := 0 |} with
  | Ok out =>
      length (out_accidentals out) = length chordWithDblSharp /\
      forall i a, chordWithDblSharp !! i = Some a ->
        exists x, out_accidentals out !! i = Some (setXShift a x)
  | Err _ => False
  end.
Proof.
  destruct (Accidental.format accidentalColumnsTable sampleMetrics chordWithDblSharp
              {| leftShift := 0 |}) as [out|e] eqn:H.
  - apply (format_changes_xShift_only _ _ _ _ _ H).
  - vm_compute in H. discriminate.
Defined.

(** *** The widths and offsets of the columns *)

Lemma widenColumn_spec (ws : list Q) (l : StaveLineAccidentalLayoutMetrics) :
  (forall i w, ws !! i = Some w -> exists w', widenColumn ws l !! i = Some w' /\ w <= w') /\
  (forall w', widenColumn ws l !! column l = Some w' -> width l <= w').
Proof.
  unfold widenColumn. destruct (ws !! column l) as [w0|] eqn:Hc.
  - destruct (Qltb w0 (width l)) eqn:E; [apply Qltb_lt in E|apply Qltb_ge in E].
    + split.
      * intros i w Hi. destruct (decide (i = column l)) as [->|Hne].
        -- rewrite list_lookup_insert_eq by (apply (lookup_lt_Some _ _ _ Hc)).
           exists (width l). split; [reflexivity|]. rewrite Hc in Hi. injection Hi as <-. lra.
        -- rewrite list_lookup_insert_ne by congruence. exists w. split; [exact Hi|lra].
      * intros w'. rewrite list_lookup_insert_eq by (apply (lookup_lt_Some _ _ _ Hc)).
        intros [= <-]. lra.
    + split.
      * intros i w Hi. exists w. split; [exact Hi|lra].
      * intros w'. rewrite Hc. intros [= <-]. exact E.
  - split.
    + intros i w Hi. exists w. split; [exact Hi|lra].
    + intros w'. rewrite Hc. discriminate.
Qed.

Lemma widenColumn_fold (lines : list StaveLineAccidentalLayoutMetrics) :
  forall ws : list Q,
  (forall i w, ws !! i = Some w ->
     exists w', fold_left widenColumn lines ws !! i = Some w' /\ w <= w') /\
  (forall l w', l ∈ lines -> fold_left widenColumn lines ws !! column l = Some w' ->
     width l <= w').
Proof.
  induction lines as [|l0 lines IH]; intros ws; cbn [fold_left].
  - split.
    + intros i w Hi. exists w. split; [exact Hi|lra].
    + intros l w' Hl. apply elem_of_nil in Hl. contradiction.
  - destruct (widenColumn_spec ws l0) as [Hmono Hcol].
    destruct (IH (widenColumn ws l0)) as [IHmono IHcol]. split.
    + intros i w Hi. destruct (Hmono i w Hi) as (w1 & H1 & Hle1).
      destruct (IHmono i w1 H1) as (w2 & H2 & Hle2). exists w2. split; [exact H2|lra].
    + intros l w' Hl Hw'. apply elem_of_cons in Hl. destruct Hl as [->|Hl].
      * destruct (fold_left widenColumn lines (widenColumn ws l0) !! column l0) eqn:E;
          [|discriminate].
        injection Hw' as ->.
        destruct (lookup_lt_is_Some_2 (widenColumn ws l0) (column l0)) as [w1 H1].
        { rewrite widenColumn_length. apply lookup_lt_Some in E.
          rewrite fold_left_length_inv in E by (intros; apply widenColumn_length).
          rewrite widenColumn_length in E. exact E. }
        destruct (IHmono _ _ H1) as (w2 & H2 & Hle). rewrite E in H2. injection H2 as <-.
        pose proof (Hcol w1 H1). lra.
      * apply (IHcol l w' Hl Hw').
Qed.

Lemma offsetStep_fold (ws : list Q) (n : nat) :
  forall os : list Q,
  (n < length ws)%nat -> length os = length ws ->
  let os' := fold_left (offsetStep ws) (seq 1 n) os in
  length os' = length os /\ os' !! 0%nat = os !! 0%nat /\
  forall k, (1 <= k <= n)%nat ->
    exists w o, ws !! k = Some w /\ os' !! (k - 1)%nat = Some o /\ os' !! k = Some (w + o).
Proof.
  induction n as [|n IH]; intros os Hn Hlen; cbv zeta.
  - cbn [seq fold_left]. split; [reflexivity|]. split; [reflexivity|]. intros k Hk. lia.
  - rewrite seq_S, fold_left_app. cbn [fold_left].
    destruct (IH os ltac:(lia) Hlen) as (Hl & H0 & Hk). cbv zeta in Hl, H0, Hk.
    set (os1 := fold_left (offsetStep ws) (seq 1 n) os) in *.
    replace (1 + n)%nat with (S n) by lia.
    destruct (lookup_lt_is_Some_2 ws (S n) Hn) as [w Hw].
    destruct (lookup_lt_is_Some_2 os1 n ltac:(lia)) as [o Ho].
    unfold offsetStep. rewrite Hw. replace (S n - 1)%nat with n by lia. rewrite Ho.
    split; [rewrite length_insert; exact Hl|]. split.
    + rewrite list_lookup_insert_ne by lia. exact H0.
    + intros k Hkr. destruct (decide (k = S n)) as [->|Hne].
      * exists w, o. split; [exact Hw|]. replace (S n - 1)%nat with n by lia.
        rewrite list_lookup_insert_ne by lia. split; [exact Ho|].
        rewrite list_lookup_insert_eq by lia. reflexivity.
      * destruct (Hk k ltac:(lia)) as (w' & o' & H1 & H2 & H3).
        exists w', o'. split; [exact H1|].
        rewrite !list_lookup_insert_ne by lia. split; assumption.
Qed.

(** The offset of the last column exceeds the offset of column 0 by at
    least the width of every column, when no width is negative. *)
Lemma offsets_bound (ws os : list Q) (n : nat) (o0 : Q) :
  os !! 0%nat = Some o0 ->
  (forall k, (1 <= k <= n)%nat ->
     exists w o, ws !! k = Some w /\ os !! (k - 1)%nat = Some o /\ os !! k = Some (w + o)) ->
  (forall k w, (1 <= k <= n)%nat -> ws !! k = Some w -> 0 <= w) ->
  forall m, (m <= n)%nat ->
  exists om, os !! m = Some om /\ o0 <= om /\
    forall c w, (1 <= c <= m)%nat -> ws !! c = Some w -> o0 + w <= om.
Proof.
  intros H0 Hrec Hpos. induction m as [|m IH]; intros Hm.
  - exists o0. split; [exact H0|]. split; [lra|]. intros c w Hc. lia.
  - destruct (IH ltac:(lia)) as (om & Hom & Hle & Hcols).
    destruct (Hrec (S m) ltac:(lia)) as (w & o & Hw & Ho & Hnew).
    replace (S m - 1)%nat with m in Ho by lia. rewrite Hom in Ho. injection Ho as <-.
    pose proof (Hpos (S m) w ltac:(lia) Hw) as Hw0.
    exists (w + om). split; [exact Hnew|]. split; [lra|].
    intros c w' Hc Hw'. destruct (decide (c = S m)) as [->|Hne].
    + rewrite Hw in Hw'. injection Hw' as <-. lra.
    + pose proof (Hcols c w' ltac:(lia) Hw'). lra.
Qed.

Lemma columnOffsets_spec (total : nat) (ls mx : Q)
    (lines : list StaveLineAccidentalLayoutMetrics) (ws os : list Q) (totalShift : Q) :
  columnOffsets total ls mx lines = (ws, os) ->
  last os = Some totalShift ->
  ls <= totalShift /\
  forall l, l ∈ lines -> (1 <= column l <= total)%nat -> ls + width l <= totalShift.
Proof.
  unfold columnOffsets. intros H Hlast.
  pose (ws0 := <[0%nat := ls + mx]> (replicate (S total) 0)).
  pose (os0 := <[0%nat := ls]> (replicate (S total) 0)).
  pose proof (f_equal fst H) as Hws. pose proof (f_equal snd H) as Hos. clear H.
  change (fold_left widenColumn lines ws0 = ws) in Hws.
  change (fold_left (offsetStep (fold_left widenColumn lines ws0))
            (seq 1 (length (fold_left widenColumn lines ws0) - 1)) os0 = os) in Hos.
  assert (Hlws0 : length ws0 = S total)
    by (unfold ws0; rewrite length_insert, length_replicate; reflexivity).
  assert (Hlos0 : length os0 = S total)
    by (unfold os0; rewrite length_insert, length_replicate; reflexivity).
  assert (Hlws : length ws = S total).
  { rewrite <- Hws, fold_left_length_inv by (intros; apply widenColumn_length). exact Hlws0. }
  destruct (widenColumn_fold lines ws0) as [Hmono Hcol]. rewrite Hws in Hmono, Hcol.
  rewrite Hws, Hlws in Hos. replace (S total - 1)%nat with total in Hos by lia.
  destruct (offsetStep_fold ws total os0 ltac:(lia) ltac:(lia)) as (Hlos & H0 & Hrec).
  cbv zeta in Hlos, H0, Hrec. rewrite Hos in Hlos, H0, Hrec.
  assert (H00 : os !! 0%nat = Some ls).
  { rewrite H0. unfold os0. apply list_lookup_insert_eq.
    rewrite length_replicate. lia. }
  assert (Hpos : forall k w, (1 <= k <= total)%nat -> ws !! k = Some w -> 0 <= w).
  { intros k w Hk Hw.
    destruct (Hmono k 0) as (w' & Hw' & Hle).
    { unfold ws0. rewrite list_lookup_insert_ne by lia.
      apply lookup_replicate_2. lia. }
    rewrite Hw in Hw'. injection Hw' as <-. exact Hle. }
  destruct (offsets_bound ws os total ls H00 Hrec Hpos total ltac:(lia))
    as (om & Hom & Hle & Hcols).
  rewrite last_lookup, Hlos, Hlos0 in Hlast. cbn [pred] in Hlast.
  rewrite Hom in Hlast. injection Hlast as <-.
  split; [exact Hle|]. intros l Hl Hc.
  destruct (lookup_lt_is_Some_2 ws (column l) ltac:(lia)) as [w Hw].
  pose proof (Hcol l w Hl Hw). pose proof (Hcols (column l) w Hc Hw). lra.
Qed.

(** X5.  With a well-formed column table and accidentals on the
    half-line grid, the left shift that [format] leaves in the state is
    at least the left shift it found plus the notehead padding and the
    left padding, and at least that plus the width of any one line of
    accidentals: the space reserved to the left of the note is never
    narrower than a line of accidentals. *)
Theorem format_leftShift_covers_lines (table : ColumnsTable) (metrics : AccidentalMetrics)
    (accidentals : list Accidental) (state : ModifierContextState) :
  tableOk table = true ->
  accidentals <> [] ->
  Forall validIndex accidentals ->
  Forall onHalfLine accidentals ->
  exists out,
    Accidental.format table metrics accidentals state = Ok out /\
    leftShift state + noteheadAccidentalPadding metrics + leftPadding metrics
      <= leftShift (out_state out) /\
    forall l, l ∈ out_lines out ->
      leftShift state + noteheadAccidentalPadding metrics + width l + leftPadding metrics
        <= leftShift (out_state out).
Proof.
  intros Ht Hne Hvalid Hhalf.
  destruct (format_layout table metrics accidentals state Ht Hvalid Hhalf)
    as (out & Hout & _ & Hcols & _).
  exists out. split; [exact Hout|].
  destruct (format_inv _ _ _ _ _ Hout Hne)
    as (entries & lines & mx & lines' & total & ws & os & totalShift & r
        & _ & _ & _ & Hoff & Hlast & _ & ->).
  cbn [out_state out_lines out_totalColumns leftShift] in *.
  destruct (columnOffsets_spec _ _ _ _ _ _ _ Hoff Hlast) as [Hle Hlines].
  split; [lra|]. intros l Hl.
  assert (Hc : (1 <= column l <= total)%nat).
  { apply list_elem_of_lookup_1 in Hl. destruct Hl as [i Hi].
    apply (Hcols i l); [apply (lookup_lt_Some _ _ _ Hi)|exact Hi]. }
  pose proof (Hlines l Hl Hc). lra.
Qed.

(** The theorem applies to the chord with the double sharp. *)
Lemma format_leftShift_covers_lines_witness :
  exists out,
    Accidental.format accidentalColumnsTable sampleMetrics chordWithDblSharp
      {| leftShift := 0 |} = Ok out /\
    leftShift {| leftShift := 0 |} + noteheadAccidentalPadding sampleMetrics
      + leftPadding sampleMetrics <= leftShift (out_state out) /\
    forall l, l ∈ out_lines out ->
      leftShift {| leftShift := 0 |} + noteheadAccidentalPadding sampleMetrics + width l
        + leftPadding sampleMetrics <= leftShift (out_state out).
Proof.
  apply (format_leftShift_covers_lines accidentalColumnsTable sampleMetrics
           chordWithDblSharp {| leftShift := 0 |}).
  - vm_compute. reflexivity.
  - discriminate.
  - repeat constructor; eexists; reflexivity.
  - repeat constructor; intros _ l Hl; injection Hl as <-;
      [exists 12%Z|exists 8%Z|exists 6%Z]; reflexivity.
Defined.

(** *** Every accidental is counted on one line *)

Lemma lineMetrics_totalAcc sp entries :
  forall ms mx,
  totalAcc (fold_left (lineMetricStep sp) entries (ms, mx)).1
  = (totalAcc ms + length entries)%nat.
Proof.
  induction entries as [|e entries IH]; intros ms mx; cbn [fold_left length].
  - cbn [fst]. lia.
  - destruct (lineMetricStep_cases sp ms mx e) as (others & cur & Hstep & Hcase).
    destruct (lineMetricStep sp (ms, mx) e) as [ms1 mx1]. cbn [fst] in Hstep. subst ms1.
    rewrite IH, totalAcc_snoc.
    destruct Hcase as [(prior & -> & _ & _ & Hn)|(-> & _ & Hn & _)]; rewrite Hn.
    + rewrite totalAcc_snoc. lia.
    + lia.
Qed.

Lemma placeGroups_sameLines (table : ColumnsTable) (fuel : nat) :
  forall (lines : list StaveLineAccidentalLayoutMetrics) total i lines' total',
  placeGroups table fuel lines total i = Ok (lines', total') -> sameLines lines lines'.
Proof.
  induction fuel as [|fuel IH]; intros lines total i lines' total' H; cbn [placeGroups] in H.
  - case_bool_decide; [|discriminate]. injection H as <- <-. intros m. reflexivity.
  - case_bool_decide.
    { injection H as <- <-. intros m. reflexivity. }
    destruct (groupColumns table lines i (extendGroup lines i (length lines)))
      as [columns|e]; [|discriminate].
    cbn [bindR] in H.
    destruct (writeColumns lines total i columns) as [lines1 total1] eqn:Hw.
    apply writeColumns_sameLines in Hw. apply IH in H.
    apply (sameLines_trans _ _ _ Hw H).
Qed.

(** X4.  With a well-formed column table and accidentals on the
    half-line grid, the lines of accidentals that [format] builds hold
    every accidental once (their counts add up to the number of
    accidentals), run from the top down at least half a stave line
    apart, and each has a column between 1 and the total number of
    columns. *)
Theorem format_lines_account_for_accidentals (table : ColumnsTable)
    (metrics : AccidentalMetrics) (accidentals : list Accidental)
    (state : ModifierContextState) :
  tableOk table = true ->
  Forall validIndex accidentals ->
  Forall onHalfLine accidentals ->
  exists out,
    Accidental.format table metrics accidentals state = Ok out /\
    totalAcc (out_lines out) = length accidentals /\
    (forall i j l1 l2, (i < j)%nat ->
       out_lines out !! i = Some l1 -> out_lines out !! j = Some l2 ->
       line l2 + 0.5 <= line l1) /\
    (forall l, l ∈ out_lines out -> (1 <= column l <= out_totalColumns out)%nat).
Proof.
  intros Ht Hvalid Hhalf.
  destruct (format_layout table metrics accidentals state Ht Hvalid Hhalf)
    as (out & Hout & _ & Hcols & Hspaced).
  exists out. split; [exact Hout|]. split; [|split].
  - destruct accidentals as [|a0 accidentals'] eqn:Hacc.
    { unfold Accidental.format in Hout. cbn in Hout. injection Hout as <-. reflexivity. }
    rewrite <- Hacc in *.
    destruct (format_inv _ _ _ _ _ Hout ltac:(rewrite Hacc; discriminate))
      as (entries & lines & mx & lines' & total & ws & os & totalShift & r
          & He & Hl & Hp & _ & _ & _ & ->).
    cbn [out_lines].
    rewrite (totalAcc_sameLines _ _ (placeGroups_sameLines _ _ _ _ _ _ _ Hp)).
    unfold lineMetrics in Hl.
    pose proof (lineMetrics_totalAcc (accidentalSpacing metrics) (sortByLine entries) [] 0) as Hn.
    rewrite Hl in Hn. cbn [fst] in Hn. rewrite Hn.
    destruct (sortByLine_spec (fun _ => True) entries) as (_ & -> & _).
    unfold linePositions in He.
    destruct (linePositions_fold (imap (fun i a => (i, a)) accidentals) None 0 []
                (Forall_imap_snd _ _ Hvalid))
      as (prev & extra & entries' & Hfold & Hlen & _).
    rewrite Hfold in He. cbn [bindR snd app] in He. injection He as <-.
    rewrite Hlen, length_imap. unfold totalAcc. cbn. reflexivity.
  - exact Hspaced.
  - intros l Hl. apply list_elem_of_lookup_1 in Hl. destruct Hl as [i Hi].
    apply (Hcols i l); [apply (lookup_lt_Some _ _ _ Hi)|exact Hi].
Qed.

(** The theorem applies to the chord with the double sharp. *)
Lemma format_lines_account_for_accidentals_witness :
  exists out,
    Accidental.format accidentalColumnsTable sampleMetrics chordWithDblSharp
      {| leftShift := 0 |} = Ok out /\
    totalAcc (out_lines out) = length chordWithDblSharp /\
    (forall i j l1 l2, (i < j)%nat ->
       out_lines out !! i = Some l1 -> out_lines out !! j = Some l2 ->
       line l2 + 0.5 <= line l1) /\
    (forall l, l ∈ out_lines out -> (1 <= column l <= out_totalColumns out)%nat).
Proof.
  apply (format_lines_account_for_accidentals accidentalColumnsTable sampleMetrics
           chordWithDblSharp {| leftShift := 0 |}).
  - vm_compute. reflexivity.
  - repeat constructor; eexists; reflexivity.
  - repeat constructor; intros _ l Hl; injection Hl as <-;
      [exists 12%Z|exists 8%Z|exists 6%Z]; reflexivity.
Defined.

(** ** The x shifts that format assigns *)

Lemma insertByLine_perm (x : AccidentalLinePositionsAndXSpaceNeeds) l :
  insertByLine x l ≡ₚ x :: l.
Proof.
  induction l as [|y l IH]; cbn [insertByLine]; [reflexivity|].
  destruct (Qltb (e_line x) (e_line y)); [|reflexivity].
  rewrite IH. apply perm_swap.
Qed.

Lemma sortByLine_perm (l : list AccidentalLinePositionsAndXSpaceNeeds) :
  sortByLine l ≡ₚ l.
Proof.
  unfold sortByLine. induction l as [|x l IH]; cbn [foldr]; [reflexivity|].
  rewrite insertByLine_perm, IH. reflexivity.
Qed.

Lemma maxQ_ge_r (x y : Q) : y <= maxQ x y.
Proof.
  unfold maxQ. destruct (Qle_bool x y) eqn:E; [lra|].
  destruct (Qlt_le_dec y x) as [H|H]; [lra|].
  apply Qle_bool_iff in H. congruence.
Qed.

Lemma lineMetrics_maxExtra (sp : Q) (entries : list AccidentalLinePositionsAndXSpaceNeeds) :
  forall ms mx, 0 <= mx -> 0 <= (fold_left (lineMetricStep sp) entries (ms, mx)).2.
Proof.
  induction entries as [|e entries IH]; intros ms mx Hmx; cbn [fold_left]; [exact Hmx|].
  destruct (lineMetricStep sp (ms, mx) e) as [ms1 mx1] eqn:Hstep.
  apply IH. apply (f_equal snd) in Hstep. cbn [snd] in Hstep. rewrite <- Hstep.
  unfold lineMetricStep.
  destruct (match last ms with
            | Some prior =>
                if Qeq_bool (line prior) (e_line e) then (removelast ms, prior)
                else (ms, {| line := e_line e; flatLine := true; dblSharpLine := true;
                             numAcc := 0; width := 0; column := 0 |})
            | None => (ms, {| line := e_line e; flatLine := true; dblSharpLine := true;
                              numAcc := 0; width := 0; column := 0 |})
            end) as [others cur].
  cbn [snd]. pose proof (maxQ_ge_r (e_extraXSpaceNeeded e) mx). lra.
Qed.

(** No column begins to the right of the first. *)
Lemma columnOffsets_offsets (total : nat) (ls mx : Q)
    (lines : list StaveLineAccidentalLayoutMetrics) (ws os : list Q) :
  columnOffsets total ls mx lines = (ws, os) ->
  forall m, (m <= total)%nat -> exists om, os !! m = Some om /\ ls <= om.
Proof.
  unfold columnOffsets. intros H m Hm.
  pose (ws0 := <[0%nat := ls + mx]> (replicate (S total) 0)).
  pose (os0 := <[0%nat := ls]> (replicate (S total) 0)).
  pose proof (f_equal fst H) as Hws. pose proof (f_equal snd H) as Hos. clear H.
  change (fold_left widenColumn lines ws0 = ws) in Hws.
  change (fold_left (offsetStep (fold_left widenColumn lines ws0))
            (seq 1 (length (fold_left widenColumn lines ws0) - 1)) os0 = os) in Hos.
  assert (Hlws0 : length ws0 = S total)
    by (unfold ws0; rewrite length_insert, length_replicate; reflexivity).
  assert (Hlos0 : length os0 = S total)
    by (unfold os0; rewrite length_insert, length_replicate; reflexivity).
  assert (Hlws : length ws = S total).
  { rewrite <- Hws, fold_left_length_inv by (intros; apply widenColumn_length). exact Hlws0. }
  destruct (widenColumn_fold lines ws0) as [Hmono Hcol]. rewrite Hws in Hmono, Hcol.
  rewrite Hws, Hlws in Hos. replace (S total - 1)%nat with total in Hos by lia.
  destruct (offsetStep_fold ws total os0 ltac:(lia) ltac:(lia)) as (Hlos & H0 & Hrec).
  cbv zeta in Hlos, H0, Hrec. rewrite Hos in Hlos, H0, Hrec.
  assert (H00 : os !! 0%nat = Some ls).
  { rewrite H0. unfold os0. apply list_lookup_insert_eq.
    rewrite length_replicate. lia. }
  assert (Hpos : forall k w, (1 <= k <= total)%nat -> ws !! k = Some w -> 0 <= w).
  { intros k w Hk Hw.
    destruct (Hmono k 0) as (w' & Hw' & Hle).
    { unfold ws0. rewrite list_lookup_insert_ne by lia.
      apply lookup_replicate_2. lia. }
    rewrite Hw in Hw'. injection Hw' as <-. exact Hle. }
  destruct (offsets_bound ws os total ls H00 Hrec Hpos m Hm) as (om & Hom & Hle & _).
  eauto.
Qed.

(** The accidentals of one line: those written so far are shifted by
    [base] or more, and so are those of this line afterwards. *)
Lemma shiftLine_bound (sp mx off base : Q)
    (entries : list AccidentalLinePositionsAndXSpaceNeeds) (n : nat) :
  0 <= sp -> base <= off + mx ->
  Forall (fun e => 0 <= acc_width (e_accidental e)) entries ->
  forall accidentals lineWidth accCount accidentals',
  0 <= lineWidth ->
  (forall j e a, (j < accCount)%nat -> entries !! j = Some e ->
     accidentals !! e_pos e = Some a -> acc_xShift a <= - base) ->
  shiftLine sp mx off entries accidentals lineWidth accCount n = Ok accidentals' ->
  forall j e a, (j < accCount + n)%nat -> entries !! j = Some e ->
    accidentals' !! e_pos e = Some a -> acc_xShift a <= - base.
Proof.
  intros Hsp Hoff Hw. induction n as [|n IH];
    intros accidentals lineWidth accCount accidentals' Hlw Hgood H; cbn [shiftLine] in H.
  - injection H as <-. intros j e a Hj. apply Hgood. lia.
  - destruct (entries !! accCount) as [entry|] eqn:Hentry; [|discriminate].
    cbn [definedR bindR] in H.
    assert (Hwe : 0 <= acc_width (e_accidental entry)).
    { rewrite Forall_forall in Hw. apply Hw. apply (list_elem_of_lookup_2 _ _ _ Hentry). }
    intros j e a Hj. replace (accCount + S n)%nat with (S accCount + n)%nat in Hj by lia.
    revert j e a Hj. refine (IH _ _ _ _ _ _ H); [lra|].
    intros j e a Hj He Ha.
    destruct (decide (e_pos e = e_pos entry)) as [Heq|Hne].
    + rewrite Heq in Ha. rewrite list_lookup_alter_eq in Ha.
      destruct (accidentals !! e_pos entry) as [a0|]; [|discriminate].
      cbn in Ha. injection Ha as <-. cbn [setXShift acc_xShift]. lra.
    + rewrite list_lookup_alter_ne in Ha by congruence.
      assert (j <> accCount) by (intros ->; rewrite Hentry in He; congruence).
      apply (Hgood j e a); [lia|exact He|exact Ha].
Qed.

Lemma shiftStep_fold_bound (sp mx base : Q) (os : list Q)
    (entries : list AccidentalLinePositionsAndXSpaceNeeds) (total : nat)
    (lines : list StaveLineAccidentalLayoutMetrics) :
  0 <= sp -> 0 <= mx ->
  Forall (fun e => 0 <= acc_width (e_accidental e)) entries ->
  (forall m, (m <= total)%nat -> exists om, os !! m = Some om /\ base <= om) ->
  Forall (fun l => (1 <= column l <= total)%nat) lines ->
  forall accidentals accCount r,
  (forall j e a, (j < accCount)%nat -> entries !! j = Some e ->
     accidentals !! e_pos e = Some a -> acc_xShift a <= - base) ->
  fold_left (Accidental.shiftStep sp mx os entries) lines (Ok (accidentals, accCount)) = Ok r ->
  forall j e a, (j < accCount + totalAcc lines)%nat -> entries !! j = Some e ->
    r.1 !! e_pos e = Some a -> acc_xShift a <= - base.
Proof.
  intros Hsp Hmx Hw Hos. induction lines as [|l lines IH];
    intros Hcols accidentals accCount r Hgood H; cbn [fold_left] in H.
  - injection H as <-. intros j e a Hj. apply Hgood. unfold totalAcc in Hj. cbn in Hj. lia.
  - inversion Hcols as [|? ? Hc Hcols']; subst.
    destruct (Accidental.shiftStep sp mx os entries (Ok (accidentals, accCount)) l)
      as [[acc1 n1]|e] eqn:Hstep.
    2: { rewrite fold_left_Err in H by reflexivity. discriminate. }
    unfold Accidental.shiftStep in Hstep. cbn [bindR] in Hstep.
    destruct (column l) as [|c] eqn:Hcol; [lia|].
    destruct (Hos c ltac:(lia)) as (off & Hoff & Hle). rewrite Hoff in Hstep.
    cbn [bindR] in Hstep.
    destruct (shiftLine sp mx off entries accidentals 0 accCount (numAcc l))
      as [acc'|e] eqn:Hline; [|discriminate].
    cbn [bindR] in Hstep. injection Hstep as <- <-.
    intros j e a Hj.
    assert (Hj' : (j < accCount + numAcc l + totalAcc lines)%nat).
    { unfold totalAcc in Hj |- *. cbn in Hj. lia. }
    clear Hj. revert j e a Hj'. refine (IH Hcols' _ _ _ _ H).
    refine (shiftLine_bound sp mx off base entries (numAcc l) Hsp _ Hw _ _ _ _ _ Hgood Hline);
      lra.
Qed.

(** X22.  With a well-formed column table, accidentals on the half-line
    grid, widths that are not negative and a spacing that is not
    negative, every accidental that [format] has laid out reports an x
    shift ([getXShift()]) of at most minus the left shift [format] found
    in the state plus the notehead padding: [format] passes to
    [setXShift] at least that sum, and an Accidental, being on the left
    of its note, stores it negated.  No accidental is put nearer to the
    note than that. *)
Theorem format_xShift_clears_notehead (table : ColumnsTable) (metrics : AccidentalMetrics)
    (accidentals : list Accidental) (state : ModifierContextState) :
  tableOk table = true ->
  Forall validIndex accidentals ->
  Forall onHalfLine accidentals ->
  0 <= accidentalSpacing metrics ->
  Forall (fun a => 0 <= acc_width a) accidentals ->
  accidentals <> [] ->
  exists out,
    Accidental.format table metrics accidentals state = Ok out /\
    forall a, a ∈ out_accidentals out ->
      acc_xShift a <= - (leftShift state + noteheadAccidentalPadding metrics).
Proof.
  intros Ht Hvalid Hhalf Hsp Hwidths Hne.
  destruct (format_layout table metrics accidentals state Ht Hvalid Hhalf)
    as (out & Hout & _ & Hcols & _).
  exists out. split; [exact Hout|].
  destruct (format_inv _ _ _ _ _ Hout Hne)
    as (entries & lines & mx & lines' & total & ws & os & totalShift & r
        & He & Hl & Hp & Hoff & _ & Hr & ->).
  cbn [out_accidentals out_lines out_totalColumns] in *.
  (* the entries, one for every accidental *)
  unfold linePositions in He.
  destruct (linePositions_fold (imap (fun i a => (i, a)) accidentals) None 0 []
              (Forall_imap_snd _ _ Hvalid))
    as (prev & extra & entries' & Hfold & Hlen & _ & Hall).
  rewrite Hfold in He. cbn [bindR snd app] in He. injection He as <-.
  rewrite length_imap in Hlen.
  assert (Hw : Forall (fun e => 0 <= acc_width (e_accidental e)) (sortByLine entries')).
  { rewrite sortByLine_perm. apply Forall_lookup. intros i e Hi.
    destruct (Forall2_lookup_r _ _ _ _ _ Hall Hi) as ([i' a] & Hia & _ & Ha).
    rewrite list_lookup_imap in Hia.
    destruct (accidentals !! i) as [a0|] eqn:Ha0; [|discriminate].
    cbn in Hia. injection Hia as <- <-. cbn [snd] in Ha. rewrite Ha.
    rewrite Forall_forall in Hwidths. apply Hwidths.
    apply (list_elem_of_lookup_2 _ _ _ Ha0). }
  (* the greatest extra space is not negative *)
  assert (Hmx : 0 <= mx).
  { unfold lineMetrics in Hl.
    pose proof (lineMetrics_maxExtra (accidentalSpacing metrics) (sortByLine entries') [] 0
                  ltac:(lra)) as H.
    rewrite Hl in H. exact H. }
  (* every accidental is on one of the lines *)
  assert (Htotal : totalAcc lines' = length accidentals).
  { rewrite (totalAcc_sameLines _ _ (placeGroups_sameLines _ _ _ _ _ _ _ Hp)).
    unfold lineMetrics in Hl.
    pose proof (lineMetrics_totalAcc (accidentalSpacing metrics) (sortByLine entries') [] 0)
      as Hn.
    rewrite Hl in Hn. cbn [fst] in Hn. rewrite Hn.
    destruct (sortByLine_spec (fun _ => True) entries') as (_ & -> & _).
    rewrite Hlen. unfold totalAcc. cbn. reflexivity. }
  assert (Hcols' : Forall (fun l => (1 <= column l <= total)%nat) lines').
  { apply Forall_lookup. intros i l Hi.
    apply (Hcols i l); [apply (lookup_lt_Some _ _ _ Hi)|exact Hi]. }
  pose proof (shiftStep_fold_bound (accidentalSpacing metrics) mx
                (leftShift state + noteheadAccidentalPadding metrics) os
                (sortByLine entries') total lines' Hsp Hmx Hw
                (columnOffsets_offsets _ _ _ _ _ _ Hoff) Hcols'
                accidentals 0%nat r ltac:(intros; lia) Hr) as Hgood.
  intros a Ha. apply list_elem_of_lookup_1 in Ha. destruct Ha as [i Hi].
  assert (Hlr : length r.1 = length accidentals).
  { pose proof (shiftStep_fold_erase _ _ _ _ _ _ _ _ Hr) as E.
    apply (f_equal length) in E. rewrite !length_fmap in E. exact E. }
  assert (Hilt : (i < length accidentals)%nat).
  { rewrite <- Hlr. apply (lookup_lt_Some _ _ _ Hi). }
  destruct (lookup_lt_is_Some_2 entries' i ltac:(lia)) as [e Hei].
  destruct (Forall2_lookup_r _ _ _ _ _ Hall Hei) as ([i' a0] & Hia & Hpos & _).
  rewrite list_lookup_imap in Hia.
  destruct (accidentals !! i) as [a1|] eqn:Ha1; [|discriminate].
  cbn in Hia. injection Hia as <- <-. cbn [fst] in Hpos.
  assert (Hin : e ∈ sortByLine entries').
  { rewrite sortByLine_perm. apply (list_elem_of_lookup_2 _ _ _ Hei). }
  apply list_elem_of_lookup_1 in Hin. destruct Hin as [k Hk].
  apply (Hgood k e a).
  - rewrite Htotal, <- Hlen.
    destruct (sortByLine_spec (fun _ => True) entries') as (_ & <- & _).
    apply (lookup_lt_Some _ _ _ Hk).
  - exact Hk.
  - rewrite Hpos. exact Hi.
Qed.

(** The theorem applies to the chord with the double sharp. *)
Lemma format_xShift_clears_notehead_witness :
  exists out,
    Accidental.format accidentalColumnsTable sampleMetrics chordWithDblSharp
      {| leftShift := 0 |} = Ok out /\
    forall a, a ∈ out_accidentals out ->
      acc_xShift a
        <= - (leftShift {| leftShift := 0 |} + noteheadAccidentalPadding sampleMetrics).
Proof.
  apply (format_xShift_clears_notehead accidentalColumnsTable sampleMetrics
           chordWithDblSharp {| leftShift := 0 |}).
  - vm_compute. reflexivity.
  - repeat constructor; eexists; reflexivity.
  - repeat constructor; intros _ l Hl; injection Hl as <-;
      [exists 12%Z|exists 8%Z|exists 6%Z]; reflexivity.
  - vm_compute. discriminate.
  - repeat constructor; vm_compute; discriminate.
  - discriminate.
Defined.

(* ================================================================== *)
(** * Further properties of the Formatter *)
(* ================================================================== *)

(** ** The tick contexts of createTickContexts *)

Lemma tickContextStep_known (voiceIndex : nat) (st st' : TickContextsLoop) (tickable : nat) :
  ticksKnown st ->
  tickContextStep voiceIndex (Ok st) tickable = Ok st' ->
  ticksKnown st'.
Proof.
  intros (Hdom & Harr & Hid) H. unfold tickContextStep in H. cbn [bindR] in H.
  bind_inv_as H t Ht.
  destruct (tcl_map st !! numerator (tcl_ticksUsed st)) as [c|] eqn:Hlookup;
    injection H as <-; unfold ticksKnown; cbn [tcl_tickList tcl_map tcl_tickContexts].
  - split; [|split; [exact Harr|]].
    + intros tick Hs. rewrite lookup_alter_is_Some in Hs. apply Hdom, Hs.
    + intros tick c' Hc'.
      destruct (decide (tick = numerator (tcl_ticksUsed st))) as [->|Hne].
      * rewrite lookup_alter_eq, Hlookup in Hc'. cbn in Hc'. injection Hc' as <-.
        cbn. apply (Hid _ _ Hlookup).
      * rewrite lookup_alter_ne in Hc' by congruence. apply (Hid _ _ Hc').
  - split; [|split; [rewrite Harr; reflexivity|]].
    + intros tick Hs. rewrite lookup_alter_is_Some in Hs. apply elem_of_app.
      destruct (decide (tick = numerator (tcl_ticksUsed st))) as [->|Hne].
      * right. apply list_elem_of_singleton. reflexivity.
      * left. rewrite lookup_insert_ne in Hs by congruence. apply Hdom, Hs.
    + intros tick c' Hc'.
      destruct (decide (tick = numerator (tcl_ticksUsed st))) as [->|Hne].
      * rewrite lookup_alter_eq, lookup_insert_eq in Hc'. cbn in Hc'. injection Hc' as <-.
        reflexivity.
      * rewrite lookup_alter_ne, lookup_insert_ne in Hc' by congruence. apply (Hid _ _ Hc').
Qed.

Lemma tickContextStep_fold_known (voiceIndex : nat) (tickables : list nat) :
  forall st st',
  ticksKnown st ->
  fold_left (tickContextStep voiceIndex) tickables (Ok st) = Ok st' ->
  ticksKnown st'.
Proof.
  induction tickables as [|t tickables IH]; intros st st' Hst H; cbn [fold_left] in H.
  - injection H as <-. exact Hst.
  - destruct (tickContextStep voiceIndex (Ok st) t) as [st1|e] eqn:Hstep.
    + apply (IH st1 st'); [|exact H]. apply (tickContextStep_known _ _ _ _ Hst Hstep).
    + rewrite fold_left_Err in H by reflexivity. discriminate.
Qed.

Lemma tickContextVoice_fold_known (resolutionMultiplier : Z) (voices : list (nat * Voice)) :
  forall st st',
  ticksKnown st ->
  fold_left (tickContextVoice resolutionMultiplier) voices (Ok st) = Ok st' ->
  ticksKnown st'.
Proof.
  induction voices as [|[i v] voices IH]; intros st st' Hst H; cbn [fold_left] in H.
  - injection H as <-. exact Hst.
  - destruct (tickContextVoice resolutionMultiplier (Ok st) (i, v)) as [st1|e] eqn:Hstep.
    2: { rewrite fold_left_Err in H by reflexivity. discriminate. }
    apply (IH st1 st'); [|exact H].
    unfold tickContextVoice in Hstep. cbn [bindR] in Hstep.
    refine (tickContextStep_fold_known _ _ _ _ _ Hstep). exact Hst.
Qed.

Lemma resolutionStep_ge (totalTicks : Fraction) (voices : list Voice) :
  forall acc m, (1 <= acc)%Z ->
  fold_left (resolutionStep totalTicks) voices (Ok acc) = Ok m -> (1 <= m)%Z.
Proof.
  induction voices as [|v voices IH]; intros acc m Hacc H; cbn [fold_left] in H.
  - injection H as <-. exact Hacc.
  - unfold resolutionStep at 2 in H. cbn [bindR] in H.
    destruct (negb (equals (getTotalTicks v) totalTicks)).
    { rewrite fold_left_Err in H by reflexivity. discriminate. }
    destruct (Mode_eqb (getMode v) STRICT && negb (isComplete v)).
    { rewrite fold_left_Err in H by reflexivity. discriminate. }
    apply IH in H; [exact H|]. lia.
Qed.

Lemma getResolutionMultiplier_positive (voices : list Voice) (m : Z) :
  getResolutionMultiplier voices = Ok m -> (1 <= m)%Z.
Proof.
  unfold getResolutionMultiplier. destruct voices as [|first rest]; [discriminate|].
  apply resolutionStep_ge. lia.
Qed.

(** X6.  When [createTickContexts] returns for at least one voice, the
    contexts it returns are those [getTickContexts] gives afterwards;
    their list of ticks is strictly increasing and is a rearrangement of
    the array of ticks in order of creation; a tick is in the list
    exactly when [getTickContext] finds a context for it, and that
    context has the tick as its id; and the resolution multiplier is at
    least 1. *)
Theorem createTickContexts_ticks (voices : list nat) (s s' : Store) (this this' : Formatter)
    (contexts : AlignmentTickContexts) :
  createTickContexts voices s this = Ok (contexts, s', this') ->
  voices <> [] ->
  getTickContexts this' = contexts /\
  StronglySorted Z.lt (atc_list contexts) /\
  atc_array contexts ≡ₚ atc_list contexts /\
  (forall tick, tick ∈ atc_list contexts <-> is_Some (getTickContext this' tick)) /\
  (forall tick c, getTickContext this' tick = Some c -> tc_tickID c = tick) /\
  (1 <= atc_resolutionMultiplier contexts)%Z.
Proof.
  unfold createTickContexts. intros H Hne. case_bool_decide as Hlen.
  { destruct voices; [congruence|discriminate]. }
  bind_inv_as H vs Hvs. bind_inv_as H m Hm. bind_inv_as H st Hst.
  injection H as <- _ <-.
  unfold getTickContexts, getTickContext.
  cbn [tickContexts set_tickContexts atc_list atc_array atc_map atc_resolutionMultiplier].
  assert (Hnd : ticksDistinct st).
  { refine (tickContextVoice_fold_distinct _ _ _ _ _ Hst).
    split; [constructor|]. intros tick Hin. apply elem_of_nil in Hin. contradiction. }
  destruct Hnd as [Hnd Hsub].
  assert (Hknown : ticksKnown st).
  { refine (tickContextVoice_fold_known _ _ _ _ _ Hst).
    split; [|split; [reflexivity|]]; cbn [tcl_map].
    - intros tick [c Hc]. rewrite lookup_empty in Hc. discriminate.
    - intros tick c Hc. rewrite lookup_empty in Hc. discriminate. }
  destruct Hknown as (Hdom & Harr & Hid).
  split; [reflexivity|]. split; [|split; [|split; [|split]]].
  - assert (Hsorted : StronglySorted Z.le (merge_sort Z.le (tcl_tickList st)))
      by (apply StronglySorted_merge_sort; apply _).
    assert (Hnd' : NoDup (merge_sort Z.le (tcl_tickList st)))
      by (rewrite merge_sort_Permutation; exact Hnd).
    revert Hsorted Hnd'. generalize (merge_sort Z.le (tcl_tickList st)).
    induction l as [|a l IH]; intros Hsorted Hnd'; [constructor|].
    apply StronglySorted_inv in Hsorted. destruct Hsorted as [Hs Hall].
    apply NoDup_cons in Hnd'. destruct Hnd' as [Hnotin Hnd'].
    constructor; [apply IH; assumption|].
    rewrite Forall_forall in Hall |- *. intros x Hx.
    pose proof (Hall x Hx). assert (x <> a) by (intros ->; contradiction). lia.
  - rewrite Harr, merge_sort_Permutation. reflexivity.
  - intros tick. rewrite merge_sort_Permutation. split; [apply Hsub|apply Hdom].
  - exact Hid.
  - apply (getResolutionMultiplier_positive _ _ Hm).
Qed.

(** The theorem applies to the voice of two half notes. *)
Lemma createTickContexts_ticks_witness :
  match createTickContexts [0%nat] twoHalfNotes newFormatter with
  | Ok (contexts, s', this') =>
      getTickContexts this' = contexts /\
      StronglySorted Z.lt (atc_list contexts) /\
      atc_array contexts ≡ₚ atc_list contexts /\
      (forall tick, tick ∈ atc_list contexts <-> is_Some (getTickContext this' tick)) /\
      (forall tick c, getTickContext this' tick = Some c -> tc_tickID c = tick) /\
      (1 <= atc_resolutionMultiplier contexts)%Z
  | Err _ => False
  end.
Proof.
  destruct (createTickContexts [0%nat] twoHalfNotes newFormatter)
    as [[[contexts s'] this']|e] eqn:H.
  - apply (createTickContexts_ticks _ _ _ _ _ _ H). discriminate.
  - vm_compute in H. discriminate.
Defined.

(** ** The tickables and their tick contexts *)

Lemma tickContextStep_assigned (s0 : Store) (seen : list nat) (voiceIndex : nat)
    (st st' : TickContextsLoop) (tickable : nat) :
  contextsAssigned s0 seen st ->
  tickContextStep voiceIndex (Ok st) tickable = Ok st' ->
  contextsAssigned s0 (seen ++ [tickable]) st'.
Proof.
  intros (Hv & Hsame & Hseen) H. unfold tickContextStep in H. cbn [bindR] in H.
  bind_inv_as H t Ht.
  set (tick := numerator (tcl_ticksUsed st)) in *.
  assert (Hmap : exists map0,
            tcl_map st' = alter (addTickable tickable voiceIndex) tick map0 /\
            is_Some (map0 !! tick) /\
            (forall k c, tcl_map st !! k = Some c -> map0 !! k = Some c) /\
            tcl_store st' = updateTickable (setTickContext tick) tickable (tcl_store st)).
  { destruct (tcl_map st !! tick) as [c|] eqn:Hl; injection H as <-; cbn [tcl_map tcl_store].
    - exists (tcl_map st). split; [reflexivity|]. split; [rewrite Hl; eauto|]. auto.
    - exists (<[tick := newTickContext tick]> (tcl_map st)). split; [reflexivity|].
      split; [rewrite lookup_insert_eq; eauto|]. split; [|reflexivity].
      intros k c Hk. rewrite lookup_insert_ne; [exact Hk|]. intros ->. congruence. }
  clear H. destruct Hmap as (map0 & Hmap & [c0 Hc0] & Hkeep & Hstore).
  unfold contextsAssigned. rewrite Hstore, Hmap. cbn [updateTickable s_voices s_tickables].
  split; [exact Hv|]. split.
  - intros id. destruct (decide (id = tickable)) as [->|Hne].
    + rewrite lookup_alter_eq, <- Hsame.
      destruct (s_tickables (tcl_store st) !! tickable); reflexivity.
    + rewrite lookup_alter_ne by congruence. apply Hsame.
  - intros id Hin. destruct (decide (id = tickable)) as [->|Hne].
    + unfold getTickable in Ht.
      destruct (s_tickables (tcl_store st) !! tickable) as [t1|] eqn:Hl; [|discriminate].
      exists (setTickContext tick t1), tick, (addTickable tickable voiceIndex c0).
      rewrite !lookup_alter_eq, Hl, Hc0. cbn.
      repeat split; try reflexivity. apply elem_of_app. right.
      apply list_elem_of_singleton. reflexivity.
    + apply elem_of_app in Hin. destruct Hin as [Hin|Hin].
      2: { apply list_elem_of_singleton in Hin. contradiction. }
      destruct (Hseen id Hin) as (t1 & tick1 & c1 & Hl & Htc & Hc1 & Hmem).
      rewrite lookup_alter_ne by congruence.
      destruct (decide (tick1 = tick)) as [->|Hnt].
      * exists t1, tick, (addTickable tickable voiceIndex c1).
        rewrite lookup_alter_eq, (Hkeep _ _ Hc1). cbn.
        repeat split; try assumption; try reflexivity.
        apply elem_of_app. left. exact Hmem.
      * exists t1, tick1, c1. rewrite lookup_alter_ne by congruence.
        rewrite (Hkeep _ _ Hc1). repeat split; assumption.
Qed.

Lemma tickContextStep_fold_assigned (s0 : Store) (voiceIndex : nat) (tickables : list nat) :
  forall seen st st',
  contextsAssigned s0 seen st ->
  fold_left (tickContextStep voiceIndex) tickables (Ok st) = Ok st' ->
  contextsAssigned s0 (seen ++ tickables) st'.
Proof.
  induction tickables as [|t tickables IH]; intros seen st st' Hst H; cbn [fold_left] in H.
  - injection H as <-. rewrite app_nil_r. exact Hst.
  - destruct (tickContextStep voiceIndex (Ok st) t) as [st1|e] eqn:Hstep.
    2: { rewrite fold_left_Err in H by reflexivity. discriminate. }
    pose proof (tickContextStep_assigned _ _ _ _ _ _ Hst Hstep) as H1.
    pose proof (IH _ _ _ H1 H) as H2. rewrite <- app_assoc in H2. exact H2.
Qed.

Lemma tickContextVoice_fold_assigned (s0 : Store) (resolutionMultiplier : Z)
    (voices : list (nat * Voice)) :
  forall seen st st',
  contextsAssigned s0 seen st ->
  fold_left (tickContextVoice resolutionMultiplier) voices (Ok st) = Ok st' ->
  contextsAssigned s0 (seen ++ voices ≫= (fun iv => getTickables iv.2)) st'.
Proof.
  induction voices as [|[i v] voices IH]; intros seen st st' Hst H; cbn [fold_left] in H.
  - injection H as <-. cbn. rewrite app_nil_r. exact Hst.
  - destruct (tickContextVoice resolutionMultiplier (Ok st) (i, v)) as [st1|e] eqn:Hstep.
    2: { rewrite fold_left_Err in H by reflexivity. discriminate. }
    unfold tickContextVoice in Hstep. cbn [bindR] in Hstep.
    apply (tickContextStep_fold_assigned s0 _ _ seen) in Hstep; [|exact Hst].
    pose proof (IH _ _ _ Hstep H) as H2. cbn. rewrite app_assoc. exact H2.
Qed.

Lemma getVoices_lookup (s : Store) (voices : list nat) :
  forall vs, getVoices s voices = Ok vs ->
  forall v voice, v ∈ voices -> s_voices s !! v = Some voice -> voice ∈ vs.
Proof.
  induction voices as [|v0 voices IH]; intros vs H v voice Hin Hl; cbn [getVoices] in H.
  - apply elem_of_nil in Hin. contradiction.
  - bind_inv_as H voice0 Hv0. bind_inv_as H rest Hrest. injection H as <-.
    apply elem_of_cons in Hin. destruct Hin as [->|Hin].
    + unfold getVoiceOf in Hv0. rewrite Hl in Hv0. cbn in Hv0. injection Hv0 as <-.
      apply list_elem_of_here.
    + apply list_elem_of_further. apply (IH rest Hrest v voice Hin Hl).
Qed.

(** X7.  When [createTickContexts] returns for at least one voice, it
    has left the voices as they were and has changed nothing of a
    tickable but its tick context; and every tickable of every voice
    given refers to a tick context that [getTickContext] finds and that
    holds the tickable among its tickables. *)
Theorem createTickContexts_assigns_contexts (voices : list nat) (s s' : Store)
    (this this' : Formatter) (contexts : AlignmentTickContexts) :
  createTickContexts voices s this = Ok (contexts, s', this') ->
  voices <> [] ->
  s_voices s' = s_voices s /\
  (forall id, setTickContext 0 <$> s_tickables s' !! id
              = setTickContext 0 <$> s_tickables s !! id) /\
  forall v voice id,
    v ∈ voices -> s_voices s !! v = Some voice -> id ∈ getTickables voice ->
    exists t tick c,
      s_tickables s' !! id = Some t /\ t_tickContext t = Some tick /\
      getTickContext this' tick = Some c /\ id ∈ tc_tickables c.
Proof.
  unfold createTickContexts. intros H Hne. case_bool_decide as Hlen.
  { destruct voices; [congruence|discriminate]. }
  bind_inv_as H vs Hvs. bind_inv_as H m Hm. bind_inv_as H st Hst.
  injection H as <- <- <-.
  apply (tickContextVoice_fold_assigned s _ _ []) in Hst.
  2: { split; [reflexivity|]. split; [reflexivity|].
       intros id Hin. apply elem_of_nil in Hin. contradiction. }
  destruct Hst as (Hv & Hsame & Hseen). cbn [app] in Hseen.
  split; [exact Hv|]. split; [exact Hsame|].
  intros v voice id Hin Hl Hid.
  unfold getTickContext. cbn [tickContexts set_tickContexts atc_map].
  apply Hseen. apply list_elem_of_bind.
  pose proof (getVoices_lookup _ _ _ Hvs v voice Hin Hl) as Hvoice.
  apply list_elem_of_lookup_1 in Hvoice. destruct Hvoice as [i Hi].
  exists (i, voice). split; [exact Hid|].
  apply (list_elem_of_lookup_2 _ i). rewrite list_lookup_imap, Hi. reflexivity.
Qed.

(** The theorem applies to the voice of two half notes. *)
Lemma createTickContexts_assigns_contexts_witness :
  match createTickContexts [0%nat] twoHalfNotes newFormatter with
  | Ok (contexts, s', this') =>
      s_voices s' = s_voices twoHalfNotes /\
      (forall id, setTickContext 0 <$> s_tickables s' !! id
                  = setTickContext 0 <$> s_tickables twoHalfNotes !! id) /\
      forall v voice id,
        v ∈ [0%nat] -> s_voices twoHalfNotes !! v = Some voice -> id ∈ getTickables voice ->
        exists t tick c,
          s_tickables s' !! id = Some t /\ t_tickContext t = Some tick /\
          getTickContext this' tick = Some c /\ id ∈ tc_tickables c
  | Err _ => False
  end.
Proof.
  destruct (createTickContexts [0%nat] twoHalfNotes newFormatter)
    as [[[contexts s'] this']|e] eqn:H.
  - apply (createTickContexts_assigns_contexts _ _ _ _ _ _ H). discriminate.
  - vm_compute in H. discriminate.
Defined.

(** ** The modifier contexts of createModifierContexts *)

Lemma allMembers_alter (tickable index : nat) (contexts : list ModifierContext) :
  (index < length contexts)%nat ->
  allMembers (alter (fun c => {| mc_members := mc_members c ++ [tickable] |}) index contexts)
  ≡ₚ allMembers contexts ++ [tickable].
Proof.
  unfold allMembers. revert index. induction contexts as [|c contexts IH]; intros index H.
  - cbn in H. lia.
  - destruct index as [|index]; cbn.
    + rewrite <- !app_assoc. apply Permutation_app_head. apply Permutation_app_comm.
    + rewrite IH by (cbn in H; lia). rewrite app_assoc. reflexivity.
Qed.

Lemma modifierContextStep_members (seen : list nat) (st st' : ModifierContextsLoop)
    (tickable : nat) :
  membersAre seen st ->
  modifierContextStep (Ok st) tickable = Ok st' ->
  membersAre (seen ++ [tickable]) st' /\ mcl_store st' = mcl_store st.
Proof.
  intros [Hm Hidx] H. unfold modifierContextStep in H. cbn [bindR] in H.
  bind_inv_as H t Ht.
  destruct (mcl_map st !! (t_stave t, numerator (mcl_ticksUsed st))) as [index|] eqn:Hl;
    injection H as <-; (split; [|reflexivity]); unfold membersAre;
    cbn [mcl_contexts mcl_map]; split.
  - rewrite allMembers_alter by (apply (Hidx _ _ Hl)). rewrite Hm. reflexivity.
  - intros key i Hk. rewrite length_alter. apply (Hidx _ _ Hk).
  - rewrite allMembers_alter by (rewrite length_app; cbn; lia).
    unfold allMembers in *. rewrite bind_app. cbn. rewrite app_nil_r, Hm. reflexivity.
  - intros key i Hk. rewrite length_alter, length_app. cbn.
    destruct (decide (key = (t_stave t, numerator (mcl_ticksUsed st)))) as [->|Hne].
    + rewrite lookup_insert_eq in Hk. injection Hk as <-. lia.
    + rewrite lookup_insert_ne in Hk by congruence. pose proof (Hidx _ _ Hk). lia.
Qed.

Lemma modifierContextStep_fold_members (tickables : list nat) :
  forall seen st st',
  membersAre seen st ->
  fold_left modifierContextStep tickables (Ok st) = Ok st' ->
  membersAre (seen ++ tickables) st' /\ mcl_store st' = mcl_store st.
Proof.
  induction tickables as [|t tickables IH]; intros seen st st' Hst H; cbn [fold_left] in H.
  - injection H as <-. rewrite app_nil_r. auto.
  - destruct (modifierContextStep (Ok st) t) as [st1|e] eqn:Hstep.
    2: { rewrite fold_left_Err in H by reflexivity. discriminate. }
    destruct (modifierContextStep_members _ _ _ _ Hst Hstep) as [H1 Hs1].
    destruct (IH _ _ _ H1 H) as [H2 Hs2].
    rewrite <- app_assoc in H2. cbn in H2. split; [exact H2|congruence].
Qed.

Lemma modifierContextVoice_fold_members (resolutionMultiplier : Z) (vs : list Voice) :
  forall seen st st',
  membersAre seen st ->
  fold_left (modifierContextVoice resolutionMultiplier) vs (Ok st) = Ok st' ->
  membersAre (seen ++ vs ≫= getTickables) st' /\ mcl_store st' = mcl_store st.
Proof.
  induction vs as [|v vs IH]; intros seen st st' Hst H; cbn [fold_left] in H.
  - injection H as <-. cbn. rewrite app_nil_r. auto.
  - destruct (modifierContextVoice resolutionMultiplier (Ok st) v) as [st1|e] eqn:Hstep.
    2: { rewrite fold_left_Err in H by reflexivity. discriminate. }
    unfold modifierContextVoice in Hstep. cbn [bindR] in Hstep.
    apply (modifierContextStep_fold_members _ seen) in Hstep; [|exact Hst].
    destruct Hstep as [H1 Hs1]. cbn [mcl_store] in Hs1.
    destruct (IH _ _ _ H1 H) as [H2 Hs2].
    cbn. rewrite app_assoc. split; [exact H2|congruence].
Qed.

(** X8.  When [createModifierContexts] returns for at least one voice,
    it has appended exactly one set of modifier contexts to the
    Formatter's; every tickable of the voices has been added to exactly
    one of its contexts, once; and every entry of its map refers to a
    context of its array. *)
Theorem createModifierContexts_members (voices : list nat) (s s' : Store)
    (this this' : Formatter) :
  createModifierContexts voices s this = Ok (s', this') ->
  voices <> [] ->
  exists vs contexts,
    getVoices s voices = Ok vs /\
    modifierContexts this' = modifierContexts this ++ [contexts] /\
    allMembers (amc_array contexts) ≡ₚ vs ≫= getTickables /\
    (forall key index, amc_map contexts !! key = Some index ->
       is_Some (amc_array contexts !! index)).
Proof.
  unfold createModifierContexts. intros H Hne. case_bool_decide as Hlen.
  { destruct voices; [congruence|discriminate]. }
  bind_inv_as H vs Hvs. bind_inv_as H m Hm. bind_inv_as H st Hst.
  injection H as <- <-.
  apply (modifierContextVoice_fold_members _ _ []) in Hst.
  2: { split; [reflexivity|]. cbn [mcl_map]. intros key index Hk.
       rewrite lookup_empty in Hk. discriminate. }
  destruct Hst as [[Hperm Hidx] Hs]. cbn [mcl_store app] in *.
  exists vs, {| amc_map := mcl_map st; amc_array := mcl_contexts st;
                amc_resolutionMultiplier := m |}.
  cbn [amc_array amc_map modifierContexts set_modifierContexts].
  split; [exact Hvs|]. split; [reflexivity|]. split; [exact Hperm|].
  intros key index Hk. apply lookup_lt_is_Some_2. apply (Hidx _ _ Hk).
Qed.

(** The theorem applies to the four quarter notes. *)
Lemma createModifierContexts_members_witness :
  match createModifierContexts [0%nat] (fourQuarters 12 12 12 12) newFormatter with
  | Ok (s', this') =>
      exists vs contexts,
        getVoices (fourQuarters 12 12 12 12) [0%nat] = Ok vs /\
        modifierContexts this' = modifierContexts newFormatter ++ [contexts] /\
        allMembers (amc_array contexts) ≡ₚ vs ≫= getTickables /\
        (forall key index, amc_map contexts !! key = Some index ->
           is_Some (amc_array contexts !! index))
  | Err _ => False
  end.
Proof.
  destruct (createModifierContexts [0%nat] (fourQuarters 12 12 12 12) newFormatter)
    as [[s' this']|e] eqn:H.
  - apply (createModifierContexts_members _ _ _ _ _ H). discriminate.
  - vm_compute in H. discriminate.
Defined.

(** ** The layout of preFormat *)

Lemma sameButX_refl (m : gmap Z TickContext) : sameButX m m.
Proof. intros tick. reflexivity. Qed.

Lemma sameButX_trans (m1 m2 m3 : gmap Z TickContext) :
  sameButX m1 m2 -> sameButX m2 m3 -> sameButX m1 m3.
Proof. intros H1 H2 tick. rewrite H1. apply H2. Qed.

Lemma sameMap_sameButX (m1 m2 : gmap Z TickContext) : sameMap m1 m2 -> sameButX m1 m2.
Proof. intros H tick. rewrite (H tick). reflexivity. Qed.

Lemma sameButX_alter_setX (m : gmap Z TickContext) (x : Q) (tick : Z) :
  sameButX m (alter (setX x) tick m).
Proof.
  intros tick'. destruct (decide (tick' = tick)) as [->|Hne].
  - rewrite lookup_alter_eq. destruct (m !! tick); reflexivity.
  - rewrite lookup_alter_ne by congruence. reflexivity.
Qed.

Lemma sameButX_fields (m1 m2 : gmap Z TickContext) (tick : Z) (c1 : TickContext) :
  sameButX m1 m2 -> m1 !! tick = Some c1 ->
  exists c2, m2 !! tick = Some c2 /\ getWidth c2 = getWidth c1 /\
             tc_totalLeftPx c2 = tc_totalLeftPx c1 /\ tc_tickID c2 = tc_tickID c1.
Proof.
  intros H H1. specialize (H tick). rewrite H1 in H.
  destruct (m2 !! tick) as [c2|]; [|discriminate].
  exists c2. split; [reflexivity|]. cbn in H. injection H as E1 E2 E3 E4 E5 E6 E7.
  unfold getWidth. auto.
Qed.

(** [evaluate] changes nothing of the tick contexts but their freedom. *)
Lemma evaluate_contexts (M : MathFns) (s s' : Store) (this this' : Formatter) (cost : Q) :
  evaluate M s this = Ok (cost, s', this') ->
  sameMap (atc_map (tickContexts this)) (atc_map (tickContexts this')) /\
  atc_list (tickContexts this') = atc_list (tickContexts this) /\
  minTotalWidth this' = minTotalWidth this /\
  hasMinTotalWidth this' = hasMinTotalWidth this.
Proof.
  unfold evaluate. intros H.
  bind_inv_as H r1 Hgap. destruct r1 as [m1 g1].
  bind_inv_as H r2 Hspace. destruct r2 as [sp dstats].
  bind_inv_as H r3 Hdev. destruct r3 as [sd td].
  injection H as _ _ <-.
  cbn [tickContexts set_lossHistory set_totalCost set_durationStats set_tickContexts
       set_contextGaps withMap atc_list atc_map minTotalWidth hasMinTotalWidth].
  destruct (gapStep_fold_same _ _ _ _ _ _ _ (sameMap_refl _) Hgap) as (Hm & _).
  auto.
Qed.

(** *** The first pass of preFormat *)

Lemma pass1Step_inv (s : Store) (st st' : Pass1) (tick : Z) :
  pass1Step s (Ok st) tick = Ok st' ->
  exists c,
    is_Some (p1_map st !! tick) /\
    p1_map st' = <[tick := c]> (p1_map st) /\
    getX c = p1_x st + p1_shift st + tc_totalLeftPx c /\
    p1_x st' = getX c /\
    p1_shift st' = getWidth c - tc_totalLeftPx c.
Proof.
  unfold pass1Step. cbn [bindR]. intros H.
  bind_inv_as H c0 Hc0. bind_inv_as H c Hc. bind_inv_as H maxTicks Hmax.
  injection H as <-. cbn [p1_map p1_x p1_shift].
  exists (setX (p1_x st + p1_shift st + tc_totalLeftPx c) c).
  split; [destruct (p1_map st !! tick); [eauto|discriminate]|].
  repeat split; reflexivity.
Qed.

Lemma sumArray_snoc (l : list Q) (x : Q) : sumArray (l ++ [x]) = sumArray l + x.
Proof. unfold sumArray. rewrite fold_left_app. reflexivity. Qed.

Lemma omap_ext_elem {A B : Type} (f g : A -> option B) (l : list A) :
  (forall x, x ∈ l -> f x = g x) -> omap f l = omap g l.
Proof.
  induction l as [|a l IH]; intros H; cbn; [reflexivity|].
  rewrite (H a) by (apply list_elem_of_here). rewrite IH; [reflexivity|].
  intros x Hx. apply H. apply list_elem_of_further, Hx.
Qed.

Lemma omap_snoc_Some {A B : Type} (f : A -> option B) (l : list A) (x : A) (y : B) :
  f x = Some y -> omap f (l ++ [x]) = omap f l ++ [y].
Proof. intros H. rewrite omap_app. cbn. rewrite H. reflexivity. Qed.

Lemma pass1Step_laidOut (s : Store) (done : list Z) (st st' : Pass1) (tick : Z) :
  laidOut done st -> tick ∉ done ->
  pass1Step s (Ok st) tick = Ok st' ->
  laidOut (done ++ [tick]) st'.
Proof.
  intros (Hdom & Hsum & Hlast & Hhead & Hadj) Hnotin H.
  destruct (pass1Step_inv _ _ _ _ H) as (c & _ & Hmap & Hx & Hx' & Hshift').
  assert (Hother : forall t, t ∈ done -> p1_map st' !! t = p1_map st !! t).
  { intros t Ht. rewrite Hmap. apply lookup_insert_ne. intros ->. contradiction. }
  assert (Hnew : p1_map st' !! tick = Some c) by (rewrite Hmap; apply lookup_insert_eq).
  assert (Hedge : leftEdge c == p1_x st + p1_shift st) by (unfold leftEdge; rewrite Hx; lra).
  unfold laidOut. rewrite last_snoc. split; [|split; [|split; [|split]]].
  - intros t Ht. apply elem_of_app in Ht. destruct Ht as [Ht|Ht].
    + rewrite Hother by exact Ht. apply Hdom, Ht.
    + apply list_elem_of_singleton in Ht. subst t. rewrite Hnew. eauto.
  - rewrite (omap_snoc_Some _ _ _ (getWidth c)) by (rewrite Hnew; reflexivity).
    rewrite sumArray_snoc.
    rewrite (omap_ext_elem _ (fun t => getWidth <$> p1_map st !! t))
      by (intros t Ht; rewrite Hother by exact Ht; reflexivity).
    rewrite <- Hsum, Hx', Hshift', Hx. lra.
  - exists c. split; [exact Hnew|]. rewrite Hx', Hshift'. unfold leftEdge. lra.
  - intros t c' Hh Hc'. destruct done as [|t0 done'].
    + cbn in Hh. injection Hh as <-. rewrite Hnew in Hc'. injection Hc' as <-.
      cbn [last] in Hlast. rewrite Hedge. exact Hlast.
    + cbn in Hh. injection Hh as <-.
      rewrite Hother in Hc' by (apply list_elem_of_here).
      apply (Hhead t0 c' eq_refl Hc').
  - intros i t1 t2 c1 c2 H1 H2 Hc1 Hc2.
    destruct (decide (S i < length done)%nat) as [Hlt|Hge].
    + rewrite lookup_app_l in H1 by lia. rewrite lookup_app_l in H2 by lia.
      rewrite Hother in Hc1 by (apply (list_elem_of_lookup_2 _ _ _ H1)).
      rewrite Hother in Hc2 by (apply (list_elem_of_lookup_2 _ _ _ H2)).
      apply (Hadj i t1 t2 c1 c2 H1 H2 Hc1 Hc2).
    + assert (Hi : S i = length done).
      { apply lookup_lt_Some in H2. rewrite length_app in H2. cbn in H2. lia. }
      rewrite lookup_app_l in H1 by lia.
      rewrite lookup_app_r in H2 by lia. rewrite Hi, Nat.sub_diag in H2.
      cbn in H2. injection H2 as <-. rewrite Hnew in Hc2. injection Hc2 as <-.
      rewrite last_lookup in Hlast. replace (pred (length done)) with i in Hlast by lia.
      rewrite H1 in Hlast. destruct Hlast as (c1' & Hc1' & Hl).
      rewrite Hother in Hc1 by (apply (list_elem_of_lookup_2 _ _ _ H1)).
      rewrite Hc1 in Hc1'. injection Hc1' as <-. rewrite Hedge, Hl. reflexivity.
Qed.

Lemma pass1Step_fold_laidOut (s : Store) (rest : list Z) :
  forall (done : list Z) (st st' : Pass1),
  laidOut done st -> NoDup (done ++ rest) ->
  fold_left (pass1Step s) rest (Ok st) = Ok st' ->
  laidOut (done ++ rest) st'.
Proof.
  induction rest as [|tick rest IH]; intros done st st' Hst Hnd H; cbn [fold_left] in H.
  - injection H as <-. rewrite app_nil_r. exact Hst.
  - destruct (pass1Step s (Ok st) tick) as [st1|e] eqn:Hstep.
    2: { rewrite fold_left_Err in H by reflexivity. discriminate. }
    assert (Hnotin : tick ∉ done).
    { apply NoDup_app in Hnd. destruct Hnd as (_ & Hd & _). intros Hin.
      apply (Hd tick Hin). apply list_elem_of_here. }
    pose proof (pass1Step_laidOut _ _ _ _ _ Hst Hnotin Hstep) as H1.
    replace (done ++ tick :: rest) with ((done ++ [tick]) ++ rest)
      by (rewrite <- app_assoc; reflexivity).
    apply (IH _ _ _ H1); [|exact H]. rewrite <- app_assoc. exact Hnd.
Qed.

(** *** The justification moves contexts, and never the first one *)

Lemma shiftStep_map (env : JustifyEnv) (ideal : list Distance) (st st' : ShiftLoop)
    (index : nat) :
  Formatter.shiftStep env ideal (Ok st) index = Ok st' ->
  sameButX (sl_map st) (sl_map st') /\
  forall tick, (0 < index)%nat -> je_contextList env !! index <> Some tick ->
               sl_map st' !! tick = sl_map st !! tick.
Proof.
  unfold Formatter.shiftStep. cbn [bindR]. intros H.
  bind_inv_as H tick Htick. bind_inv_as H context Hcontext.
  bind_inv_as H st1 Hst1. bind_inv_as H context1 Hcontext1. bind_inv_as H ts Hts.
  injection H as <-. cbn [sl_map].
  case_bool_decide as Hidx.
  - bind_inv_as Hst1 ideal1 Hideal. bind_inv_as Hst1 fromId HfromId.
    bind_inv_as Hst1 from Hfrom. bind_inv_as Hst1 fromX HfromX.
    injection Hst1 as <-. cbn [sl_map]. split; [apply sameButX_alter_setX|].
    intros tick' _ Hne. apply lookup_alter_ne. intros ->.
    apply Hne. destruct (je_contextList env !! index); cbn in Htick; congruence.
  - injection Hst1 as <-. split; [apply sameButX_refl|]. intros tick' Hpos. lia.
Qed.

Lemma shiftStep_fold_map (env : JustifyEnv) (ideal : list Distance) (indices : list nat) :
  forall st st',
  fold_left (Formatter.shiftStep env ideal) indices (Ok st) = Ok st' ->
  sameButX (sl_map st) (sl_map st') /\
  forall tick, (forall i, (0 < i)%nat -> je_contextList env !! i <> Some tick) ->
               sl_map st' !! tick = sl_map st !! tick.
Proof.
  induction indices as [|i indices IH]; intros st st' H; cbn [fold_left] in H.
  - injection H as <-. split; [apply sameButX_refl|reflexivity].
  - destruct (Formatter.shiftStep env ideal (Ok st) i) as [st1|e] eqn:Hstep.
    2: { rewrite fold_left_Err in H by reflexivity. discriminate. }
    destruct (shiftStep_map _ _ _ _ _ Hstep) as [Hs1 Hk1].
    destruct (IH _ _ H) as [Hs2 Hk2].
    split; [apply (sameButX_trans _ _ _ Hs1 Hs2)|].
    intros tick Hne. rewrite Hk2 by exact Hne.
    destruct (decide (0 < i)%nat) as [Hpos|Hzero].
    + apply Hk1; [exact Hpos|]. apply Hne, Hpos.
    + unfold Formatter.shiftStep in Hstep. cbn [bindR] in Hstep.
      bind_inv_as Hstep tick0 Htick. bind_inv_as Hstep context Hcontext.
      rewrite bool_decide_eq_false_2 in Hstep by exact Hzero. cbn [bindR] in Hstep.
      bind_inv_as Hstep context1 Hcontext1. bind_inv_as Hstep ts Hts.
      injection Hstep as <-. reflexivity.
Qed.

Lemma shiftToIdealDistances_map (env : JustifyEnv) (s s' : Store)
    (m m' : gmap Z TickContext) (ideal : list Distance) (width : Q) :
  shiftToIdealDistances env s m ideal = Ok (width, s', m') ->
  sameButX m m' /\
  forall tick, (forall i, (0 < i)%nat -> je_contextList env !! i <> Some tick) ->
               m' !! tick = m !! tick.
Proof.
  unfold shiftToIdealDistances. intros H.
  bind_inv_as H st Hst. bind_inv_as H lastContext Hl. bind_inv_as H firstContext Hf.
  injection H as _ _ <-.
  apply (shiftStep_fold_map _ _ _ _ _ Hst).
Qed.

Lemma loopBody_map (M : MathFns) (env : JustifyEnv) (minDistance maxX : Q)
    (st st' : JustifyLoop) :
  loopBody M env minDistance maxX st = Ok st' ->
  sameButX (jl_map st) (jl_map st') /\
  forall tick, (forall i, (0 < i)%nat -> je_contextList env !! i <> Some tick) ->
               jl_map st' !! tick = jl_map st !! tick.
Proof.
  unfold loopBody. intros H.
  bind_inv_as H paddingMax Hp. bind_inv_as H distances Hd. bind_inv_as H r Hr.
  destruct r as [[actualWidth s] contextMap]. injection H as <-. cbn [jl_map].
  apply (shiftToIdealDistances_map _ _ _ _ _ _ _ Hr).
Qed.

Lemma justifyLoop_map (M : MathFns) (env : JustifyEnv) (minDistance maxX : Q) (fuel : nat) :
  forall st st',
  justifyLoop M env minDistance maxX fuel st = Some (Ok st') ->
  sameButX (jl_map st) (jl_map st') /\
  forall tick, (forall i, (0 < i)%nat -> je_contextList env !! i <> Some tick) ->
               jl_map st' !! tick = jl_map st !! tick.
Proof.
  induction fuel as [|fuel IH]; intros st st' H; cbn [justifyLoop] in H.
  - destruct (loopCondition maxX st); [discriminate|]. injection H as <-.
    split; [apply sameButX_refl|reflexivity].
  - destruct (loopCondition maxX st).
    + destruct (loopBody M env minDistance maxX st) as [st1|e] eqn:Hbody; [|discriminate].
      destruct (loopBody_map _ _ _ _ _ _ Hbody) as [Hs1 Hk1].
      destruct (IH _ _ H) as [Hs2 Hk2].
      split; [apply (sameButX_trans _ _ _ Hs1 Hs2)|].
      intros tick Hne. rewrite Hk2, Hk1 by exact Hne. reflexivity.
    + injection H as <-. split; [apply sameButX_refl|reflexivity].
Qed.

Lemma sameMap_getX_lookup (m1 m2 : gmap Z TickContext) (tick : Z) :
  sameMap m1 m2 -> getX <$> m2 !! tick = getX <$> m1 !! tick.
Proof.
  intros H. specialize (H tick).
  destruct (m1 !! tick) as [c1|], (m2 !! tick) as [c2|]; try discriminate; [|reflexivity].
  cbn in *. injection H as E. unfold getX. congruence.
Qed.

(** What [preFormat] leaves of its first pass: the contexts as the first
    pass laid them out, up to their freedom and, when it justifies, up
    to the x of the contexts after the first. *)
Lemma preFormat_contexts (M : MathFns) (cfg : StaveMetrics) (justifyWidth : Q)
    (voicesParam : option (list nat)) (stave : option nat)
    (s s' : Store) (this this' : Formatter) (r : Q) :
  preFormat M cfg justifyWidth voicesParam stave s this = Ok (r, s', this') ->
  exists s0 p1,
    fold_left (pass1Step s0) (atc_list (tickContexts this))
      (Ok {| p1_map := atc_map (tickContexts this); p1_x := 0; p1_shift := 0;
             p1_minTotalWidth := 0; p1_totalTicks := 0 |}) = Ok p1 /\
    atc_list (tickContexts this') = atc_list (tickContexts this) /\
    minTotalWidth this' = p1_x p1 + p1_shift p1 /\
    hasMinTotalWidth this' = true /\
    sameButX (p1_map p1) (atc_map (tickContexts this')) /\
    forall tick,
      justifyWidth <= 0 \/
      (forall i, (0 < i)%nat -> atc_list (tickContexts this) !! i <> Some tick) ->
      getX <$> atc_map (tickContexts this') !! tick = getX <$> p1_map p1 !! tick.
Proof.
  unfold preFormat. intros H. bind_inv_as H b Hb.
  unfold preFormatBeforeLoop in Hb.
  bind_inv_as Hb s0 Hs0. bind_inv_as Hb p1 Hp1. bind_inv_as Hb exps Hexps.
  exists s0, p1. split; [exact Hp1|].
  destruct (Qle_bool justifyWidth 0) eqn:Hjw.
  - bind_inv_as Hb ev Hev. destruct ev as [[cost s1] this1]. injection Hb as <-.
    injection H as _ _ <-.
    destruct (evaluate_contexts _ _ _ _ _ _ Hev) as (Hm & Hl & Hw & Hh).
    cbn [tickContexts set_tickContexts set_minTotalWidth set_hasMinTotalWidth set_lossHistory
         withMap atc_list atc_map minTotalWidth hasMinTotalWidth] in Hm, Hl, Hw, Hh.
    split; [exact Hl|]. split; [exact Hw|]. split; [exact Hh|].
    split; [apply sameMap_sameButX, Hm|].
    intros tick _. apply sameMap_getX_lookup, Hm.
  - assert (Hpos : ~ justifyWidth <= 0).
    { intros Hle. apply Qle_bool_iff in Hle. congruence. }
    bind_inv_as Hb firstTick Hft. bind_inv_as Hb lastTick Hlt.
    bind_inv_as Hb firstContext Hfc. bind_inv_as Hb lastContext Hlc.
    bind_inv_as Hb distances Hd. bind_inv_as Hb sh Hsh.
    destruct sh as [[actualWidth s1] m1].
    destruct (shiftToIdealDistances_map _ _ _ _ _ _ _ Hsh) as [Hs1 Hk1].
    cbn [je_contextList] in Hk1.
    case_bool_decide as Hone.
    + injection Hb as <-. injection H as _ _ <-.
      cbn [tickContexts set_tickContexts set_minTotalWidth set_hasMinTotalWidth
           set_lossHistory withMap atc_list atc_map minTotalWidth hasMinTotalWidth].
      repeat (split; [reflexivity|]). split; [exact Hs1|].
      intros tick [Hle|Hne]; [contradiction|]. rewrite Hk1 by exact Hne. reflexivity.
    + bind_inv_as Hb paddingMax Hpm. injection Hb as <-.
      cbn [lh_env lh_minDistance lh_maxX lh_state lh_contexts lh_this] in H.
      match type of H with
      | match ?j with _ => _ end = _ => destruct j as [[st|e]|] eqn:Hloop
      end; try discriminate.
      cbn [bindR] in H.
      destruct (justifyLoop_map _ _ _ _ _ _ _ Hloop) as [Hs2 Hk2].
      cbn [jl_map je_contextList] in Hs2, Hk2.
      destruct (evaluate_contexts _ _ _ _ _ _ H) as (Hm & Hl & Hw & Hh).
      cbn [tickContexts set_tickContexts set_minTotalWidth set_hasMinTotalWidth
           set_lossHistory set_justifyWidth withMap atc_list atc_map minTotalWidth
           hasMinTotalWidth] in Hm, Hl, Hw, Hh.
      split; [exact Hl|]. split; [exact Hw|]. split; [exact Hh|]. split.
      * apply (sameButX_trans _ _ _ Hs1). apply (sameButX_trans _ _ _ Hs2).
        apply sameMap_sameButX, Hm.
      * intros tick [Hle|Hne]; [contradiction|].
        rewrite (sameMap_getX_lookup _ _ _ Hm), Hk2, Hk1 by exact Hne. reflexivity.
Qed.

Lemma sameButX_sym (m1 m2 : gmap Z TickContext) : sameButX m1 m2 -> sameButX m2 m1.
Proof. intros H tick. symmetry. apply H. Qed.

Lemma sameButX_width (m1 m2 : gmap Z TickContext) (tick : Z) :
  sameButX m1 m2 -> getWidth <$> m1 !! tick = getWidth <$> m2 !! tick.
Proof.
  intros H. destruct (m1 !! tick) as [c1|] eqn:H1.
  - destruct (sameButX_fields _ _ _ _ H H1) as (c2 & -> & E & _). cbn. rewrite E. reflexivity.
  - specialize (H tick). rewrite H1 in H. destruct (m2 !! tick); [discriminate|reflexivity].
Qed.

Lemma laidOut_start (m : gmap Z TickContext) :
  laidOut [] {| p1_map := m; p1_x := 0; p1_shift := 0; p1_minTotalWidth := 0;
                p1_totalTicks := 0 |}.
Proof.
  unfold laidOut. cbn [p1_map p1_x p1_shift last head omap].
  split; [intros t Ht; apply elem_of_nil in Ht; contradiction|].
  split; [reflexivity|]. split; [lra|]. split; [discriminate|].
  intros i t1 t2 c1 c2 H. discriminate.
Qed.

(** After [preFormat] the minimum total width is the sum of the widths of
    the tick contexts, the first context lies with its left edge at
    x = 0, and without justification every context begins where the one
    before it ends. *)
Lemma preFormat_layout (M : MathFns) (cfg : StaveMetrics) (justifyWidth : Q)
    (voicesParam : option (list nat)) (stave : option nat)
    (s s' : Store) (this this' : Formatter) (r : Q) :
  preFormat M cfg justifyWidth voicesParam stave s this = Ok (r, s', this') ->
  NoDup (atc_list (tickContexts this)) ->
  hasMinTotalWidth this' = true /\
  minTotalWidth this' == sumContextWidths (tickContexts this') /\
  (forall t c, atc_list (tickContexts this') !! 0%nat = Some t ->
     atc_map (tickContexts this') !! t = Some c -> leftEdge c == 0) /\
  (justifyWidth <= 0 ->
   forall i t1 t2 c1 c2,
     atc_list (tickContexts this') !! i = Some t1 ->
     atc_list (tickContexts this') !! S i = Some t2 ->
     atc_map (tickContexts this') !! t1 = Some c1 ->
     atc_map (tickContexts this') !! t2 = Some c2 ->
     leftEdge c2 == leftEdge c1 + getWidth c1).
Proof.
  intros H Hnd.
  destruct (preFormat_contexts _ _ _ _ _ _ _ _ _ _ H)
    as (s0 & p1 & Hp1 & Hlist & Hw & Hh & Hsame & Hx).
  pose proof (pass1Step_fold_laidOut s0 _ [] _ _ (laidOut_start _) Hnd Hp1)
    as (Hdom & Hsum & _ & Hhead & Hadj).
  cbn [app] in *.
  assert (Hback : forall t c', atc_map (tickContexts this') !! t = Some c' ->
            exists c, p1_map p1 !! t = Some c /\ getWidth c = getWidth c' /\
                      tc_totalLeftPx c = tc_totalLeftPx c').
  { intros t c' Hc'.
    destruct (sameButX_fields _ _ _ _ (sameButX_sym _ _ Hsame) Hc') as (c & Hc & E1 & E2 & _).
    eauto. }
  split; [exact Hh|]. split; [|split].
  - rewrite Hw, Hsum. unfold sumContextWidths. rewrite Hlist.
    rewrite (omap_ext_elem _ (fun tick => getWidth <$> atc_map (tickContexts this') !! tick));
      [reflexivity|].
    intros t _. apply sameButX_width, Hsame.
  - rewrite Hlist. intros t c' Ht Hc'.
    destruct (Hback _ _ Hc') as (c & Hc & E1 & E2).
    assert (Ex : getX c' = getX c).
    { specialize (Hx t). rewrite Hc', Hc in Hx. cbn in Hx.
      assert (Some (getX c') = Some (getX c)) as [= ->]; [|reflexivity].
      apply Hx. right. intros i Hi Hin.
      pose proof (NoDup_lookup _ _ _ _ Hnd Hin Ht). lia. }
    unfold leftEdge. rewrite Ex, <- E2. apply (Hhead t c); [|exact Hc].
    destruct (atc_list (tickContexts this)); [discriminate|]. cbn in *. exact Ht.
  - rewrite Hlist. intros Hjw i t1 t2 c1' c2' H1 H2 Hc1' Hc2'.
    destruct (Hback _ _ Hc1') as (c1 & Hc1 & E1 & F1).
    destruct (Hback _ _ Hc2') as (c2 & Hc2 & E2 & F2).
    assert (Ex1 : getX c1' = getX c1).
    { pose proof (Hx t1 (or_introl Hjw)) as Hx1. rewrite Hc1', Hc1 in Hx1.
      cbn in Hx1. congruence. }
    assert (Ex2 : getX c2' = getX c2).
    { pose proof (Hx t2 (or_introl Hjw)) as Hx2. rewrite Hc2', Hc2 in Hx2.
      cbn in Hx2. congruence. }
    unfold leftEdge. rewrite Ex1, Ex2, <- E1, <- F1, <- F2.
    apply (Hadj i t1 t2 c1 c2 H1 H2 Hc1 Hc2).
Qed.

(** X9.  When [preFormat] returns on tick contexts whose list has no
    tick twice, the first context stands with its left edge at 0: its x
    is the space its tickables need to the left.  Without justification
    ([justifyWidth <= 0]) every further context begins where the one
    before it ends: its left edge is the left edge of its predecessor
    plus the predecessor's width. *)
Theorem preFormat_contexts_side_by_side (M : MathFns) (cfg : StaveMetrics) (justifyWidth : Q)
    (voicesParam : option (list nat)) (stave : option nat)
    (s s' : Store) (this this' : Formatter) (r : Q) :
  preFormat M cfg justifyWidth voicesParam stave s this = Ok (r, s', this') ->
  NoDup (atc_list (tickContexts this)) ->
  (forall t c, atc_list (tickContexts this') !! 0%nat = Some t ->
     getTickContext this' t = Some c -> getX c == tc_totalLeftPx c) /\
  (justifyWidth <= 0 ->
   forall i t1 t2 c1 c2,
     atc_list (tickContexts this') !! i = Some t1 ->
     atc_list (tickContexts this') !! S i = Some t2 ->
     getTickContext this' t1 = Some c1 ->
     getTickContext this' t2 = Some c2 ->
     leftEdge c2 == leftEdge c1 + getWidth c1).
Proof.
  intros H Hnd.
  destruct (preFormat_layout _ _ _ _ _ _ _ _ _ _ H Hnd) as (_ & _ & Hhead & Hadj).
  split; [|exact Hadj].
  intros t c Ht Hc. pose proof (Hhead t c Ht Hc) as H0. unfold leftEdge in H0. lra.
Qed.

(** The theorem applies to the two half notes without justification. *)
Lemma preFormat_contexts_side_by_side_witness :
  match twoHalfNotesContexts with
  | Ok (_, s, this) =>
      match preFormat sampleMath sampleStaveMetrics 0 (Some [0%nat]) None s this with
      | Ok (r, s', this') =>
          (forall t c, atc_list (tickContexts this') !! 0%nat = Some t ->
             getTickContext this' t = Some c -> getX c == tc_totalLeftPx c) /\
          (forall i t1 t2 c1 c2,
             atc_list (tickContexts this') !! i = Some t1 ->
             atc_list (tickContexts this') !! S i = Some t2 ->
             getTickContext this' t1 = Some c1 ->
             getTickContext this' t2 = Some c2 ->
             leftEdge c2 == leftEdge c1 + getWidth c1)
      | Err _ => False
      end
  | Err _ => False
  end.
Proof.
  destruct twoHalfNotesContexts as [[[contexts s] this]|e] eqn:Hc;
    [|vm_compute in Hc; discriminate].
  destruct (preFormat sampleMath sampleStaveMetrics 0 (Some [0%nat]) None s this)
    as [[[r s'] this']|e] eqn:H.
  - assert (Hnd : NoDup (atc_list (tickContexts this))).
    { vm_compute in Hc. injection Hc as _ _ <-. cbn.
      apply NoDup_cons. split; [|apply NoDup_singleton].
      intros Hin. apply list_elem_of_singleton in Hin. discriminate. }
    destruct (preFormat_contexts_side_by_side _ _ _ _ _ _ _ _ _ _ H Hnd) as [H1 H2].
    split; [exact H1|]. apply H2. discriminate.
  - vm_compute in Hc. injection Hc as _ <- <-. vm_compute in H. discriminate.
Defined.

(** X11.  After [format] has returned, [getMinTotalWidth] does not
    raise, and the width it returns is the sum of the widths of the tick
    contexts. *)
Theorem format_minTotalWidth (M : MathFns) (cfg : StaveMetrics) (voices : list nat)
    (justifyWidth : option Q) (optAlignRests : bool) (optStave : option nat)
    (s s' : Store) (this this' : Formatter) :
  Formatter.format M cfg voices justifyWidth optAlignRests optStave s this = Ok (s', this') ->
  exists w,
    getMinTotalWidth this' = Ok w /\
    w == sumContextWidths (tickContexts this').
Proof.
  unfold Formatter.format. intros H.
  bind_inv_as H s1 Hs1. bind_inv_as H r1 Hr1. destruct r1 as [[contexts s2] this2].
  bind_inv_as H r2 Hr2. destruct r2 as [[cost s3] this3].
  assert (Hne : voices <> []).
  { intros ->. unfold alignRests in Hs1. cbn in Hs1. discriminate. }
  destruct (createTickContexts_NoDup _ _ _ _ _ _ Hr1 Hne) as [Hc Hnd].
  rewrite <- Hc in Hnd.
  destruct (preFormat_layout _ _ _ _ _ _ _ _ _ _ Hr2 Hnd) as (Hh & Hw & _).
  assert (Hthis : this' = this3).
  { destruct optStave; [|congruence].
    unfold postFormat in H. bind_inv_as H u Hu. congruence. }
  subst this'. exists (minTotalWidth this3). split; [|exact Hw].
  unfold getMinTotalWidth. rewrite Hh. reflexivity.
Qed.

(** The theorem applies to the two half notes. *)
Lemma format_minTotalWidth_witness :
  match Formatter.format sampleMath sampleStaveMetrics [0%nat] None false None
          twoHalfNotes newFormatter with
  | Ok (s', this') =>
      exists w, getMinTotalWidth this' = Ok w /\ w == sumContextWidths (tickContexts this')
  | Err _ => False
  end.
Proof.
  destruct (Formatter.format sampleMath sampleStaveMetrics [0%nat] None false None
              twoHalfNotes newFormatter) as [[s' this']|e] eqn:H.
  - apply (format_minTotalWidth _ _ _ _ _ _ _ _ _ _ H).
  - vm_compute in H. discriminate.
Defined.

(** *** evaluate *)

Lemma gapStep_fold_gaps (ticks : list Z) (indices : list nat) :
  forall m g m' g',
  Forall (fun i => (0 < i)%nat) indices ->
  fold_left (gapStep ticks) indices (Ok (m, g)) = Ok (m', g') ->
  length (gaps g') = (length (gaps g) + length indices)%nat /\
  (gaps_total g == sumArray (List.map (fun x => x.2 - x.1) (gaps g)) ->
   gaps_total g' == sumArray (List.map (fun x => x.2 - x.1) (gaps g'))).
Proof.
  induction indices as [|i indices IH]; intros m g m' g' Hpos H; cbn [fold_left] in H.
  - injection H as <- <-. cbn. split; [lia|auto].
  - inversion Hpos as [|? ? Hi Hpos']; subst.
    destruct (gapStep ticks (Ok (m, g)) i) as [[m1 g1]|e] eqn:Hstep.
    2: { rewrite fold_left_Err in H by reflexivity. discriminate. }
    destruct (IH _ _ _ _ Hpos' H) as [Hlen Hsum].
    unfold gapStep in Hstep. cbn [bindR] in Hstep.
    rewrite bool_decide_eq_false_2 in Hstep by lia.
    bind_inv_as Hstep tick Htick. bind_inv_as Hstep prevTick Hprev.
    bind_inv_as Hstep prevContext Hpc. bind_inv_as Hstep context Hc.
    injection Hstep as _ <-. cbn [gaps gaps_total] in *.
    rewrite length_app in Hlen. cbn [length] in *. split; [lia|].
    intros H0. apply Hsum. rewrite map_app. cbn [List.map]. rewrite sumArray_snoc.
    cbn [fst snd]. rewrite H0. reflexivity.
Qed.

(** X12.  When [evaluate] returns a cost, it has appended that cost to
    the loss history and stored it as the total cost; it has recorded
    one gap for every pair of neighbouring tick contexts, and the total
    of the gaps is the sum of their lengths; and it has moved no tick
    context and changed no width. *)
Theorem evaluate_bookkeeping (M : MathFns) (s s' : Store) (this this' : Formatter)
    (cost : Q) :
  evaluate M s this = Ok (cost, s', this') ->
  lossHistory this' = lossHistory this ++ [cost] /\
  totalCost this' = cost /\
  length (gaps (contextGaps this')) = pred (length (atc_list (tickContexts this))) /\
  gaps_total (contextGaps this')
    == sumArray (List.map (fun x => x.2 - x.1) (gaps (contextGaps this'))) /\
  (forall tick, getX <$> getTickContext this' tick = getX <$> getTickContext this tick) /\
  (forall tick, getWidth <$> getTickContext this' tick = getWidth <$> getTickContext this tick).
Proof.
  intros H. pose proof (evaluate_contexts _ _ _ _ _ _ H) as (Hm & _).
  unfold evaluate in H.
  bind_inv_as H r1 Hgap. destruct r1 as [m1 g1].
  bind_inv_as H r2 Hspace. destruct r2 as [sp dstats].
  bind_inv_as H r3 Hdev. destruct r3 as [sd td].
  injection H as <- _ <-.
  cbn [lossHistory totalCost contextGaps set_lossHistory set_totalCost set_durationStats
       set_tickContexts set_contextGaps] in *.
  split; [reflexivity|]. split; [reflexivity|].
  assert (Hg : length (gaps g1) = pred (length (atc_list (tickContexts this))) /\
               gaps_total g1 == sumArray (List.map (fun x => x.2 - x.1) (gaps g1))).
  { destruct (atc_list (tickContexts this)) as [|t0 ticks] eqn:Hl.
    - cbn in Hgap. injection Hgap as _ <-. cbn. split; [reflexivity|]. reflexivity.
    - cbn [length seq fold_left] in Hgap.
      assert (Hfirst : gapStep (t0 :: ticks) (Ok (atc_map (tickContexts this),
                         {| gaps_total := 0; gaps := [] |})) 0
                       = Ok (atc_map (tickContexts this), {| gaps_total := 0; gaps := [] |}))
        by reflexivity.
      rewrite Hfirst in Hgap.
      apply gapStep_fold_gaps in Hgap.
      + destruct Hgap as [Hlen Hsum]. rewrite length_seq in Hlen. cbn in Hlen |- *.
        split; [exact Hlen|]. apply Hsum. cbn. reflexivity.
      + apply Forall_forall. intros i Hi. apply elem_of_seq in Hi. lia. }
  destruct Hg as [Hlen Hsum]. split; [exact Hlen|]. split; [exact Hsum|].
  split; intros tick; unfold getTickContext.
  - apply sameMap_getX_lookup, Hm.
  - symmetry. apply sameButX_width, sameMap_sameButX, Hm.
Qed.

(** The theorem applies to the two half notes, their tick contexts
    created and the justify width set to 20 pixels. *)
Lemma evaluate_bookkeeping_witness :
  match twoHalfNotesContexts with
  | Ok (_, s, this) =>
      match evaluate sampleMath s (set_justifyWidth 20 this) with
      | Ok (cost, s', this') =>
          lossHistory this' = lossHistory (set_justifyWidth 20 this) ++ [cost] /\
          totalCost this' = cost /\
          length (gaps (contextGaps this'))
            = pred (length (atc_list (tickContexts (set_justifyWidth 20 this)))) /\
          gaps_total (contextGaps this')
            == sumArray (List.map (fun x => x.2 - x.1) (gaps (contextGaps this'))) /\
          (forall tick, getX <$> getTickContext this' tick
                        = getX <$> getTickContext (set_justifyWidth 20 this) tick) /\
          (forall tick, getWidth <$> getTickContext this' tick
                        = getWidth <$> getTickContext (set_justifyWidth 20 this) tick)
      | Err _ => False
      end
  | Err _ => False
  end.
Proof.
  destruct twoHalfNotesContexts as [[[contexts s] this]|e] eqn:Hc;
    [|vm_compute in Hc; discriminate].
  destruct (evaluate sampleMath s (set_justifyWidth 20 this))
    as [[[cost s'] this']|e] eqn:H.
  - apply (evaluate_bookkeeping sampleMath s s' (set_justifyWidth 20 this) this' cost H).
  - vm_compute in Hc. injection Hc as _ <- <-. vm_compute in H. discriminate.
Defined.

(** ** preFormat on few tick contexts *)

(** *** preFormat on one tick context, and on none *)

(** X10.  With a positive justify width, [preFormat] on a Formatter
    without any tick context fails with a [TypeError], and on a single
    tick context, when it returns, it returns 0 and leaves the loss
    history empty: the layout is never evaluated. *)
Theorem preFormat_few_contexts (M : MathFns) (cfg : StaveMetrics) (justifyWidth : Q)
    (voicesParam : option (list nat)) (stave : option nat) (s : Store) (this : Formatter) :
  0 < justifyWidth ->
  (atc_list (tickContexts this) = [] ->
   preFormat M cfg justifyWidth voicesParam stave s this = Err TypeError) /\
  (forall tick r s' this',
     atc_list (tickContexts this) = [tick] ->
     preFormat M cfg justifyWidth voicesParam stave s this = Ok (r, s', this') ->
     r = 0 /\ lossHistory this' = []).
Proof.
  intros Hjw.
  assert (Hb : Qle_bool justifyWidth 0 = false).
  { destruct (Qle_bool justifyWidth 0) eqn:E; [|reflexivity].
    apply Qle_bool_iff in E. lra. }
  split.
  - intros Hl. unfold preFormat, preFormatBeforeLoop. rewrite Hl.
    destruct (match voicesParam with
              | Some voicesParam0 =>
                  match stave with
                  | Some stave0 => fold_left (setStaveOfVoice stave0) voicesParam0 (Ok s)
                  | None => Ok s
                  end
              | None => Ok s
              end) as [s0|e] eqn:Hs0.
    + cbn [bindR fold_left mapResult]. rewrite Hb. reflexivity.
    + cbn [bindR].
      assert (e = TypeError) as ->; [|reflexivity].
      destruct voicesParam as [vp|]; [|discriminate].
      destruct stave as [st|]; [|discriminate].
      revert Hs0. generalize s. induction vp as [|v vp IH]; intros s1 H; cbn [fold_left] in H.
      * discriminate.
      * unfold setStaveOfVoice at 2 in H. cbn [bindR] in H.
        unfold getVoiceOf in H. destruct (s_voices s1 !! v); cbn [definedR bindR] in H.
        -- apply IH in H. exact H.
        -- rewrite fold_left_Err in H by reflexivity. congruence.
  - intros tick r s' this' Hl H. unfold preFormat in H. bind_inv_as H b Hbefore.
    unfold preFormatBeforeLoop in Hbefore. rewrite Hl, Hb in Hbefore.
    bind_inv_as Hbefore s0 Hs0. bind_inv_as Hbefore p1 Hp1. bind_inv_as Hbefore exps Hexps.
    bind_inv_as Hbefore firstTick Hft. bind_inv_as Hbefore lastTick Hlt.
    bind_inv_as Hbefore firstContext Hfc. bind_inv_as Hbefore lastContext Hlc.
    bind_inv_as Hbefore distances Hd. bind_inv_as Hbefore sh Hsh.
    destruct sh as [[actualWidth s1] m1].
    rewrite bool_decide_eq_true_2 in Hbefore by reflexivity.
    injection Hbefore as <-. injection H as <- _ <-. split; reflexivity.
Qed.

(** The theorem applies to a new Formatter, and to two voices that hold
    one whole note each, at the same tick. *)
Lemma preFormat_few_contexts_witness :
  preFormat sampleMath sampleStaveMetrics 20 None None twoAlignedVoices newFormatter
    = Err TypeError /\
  match createTickContexts [0%nat; 1%nat] twoAlignedVoices newFormatter with
  | Ok (_, s, this) =>
      match preFormat sampleMath sampleStaveMetrics 20 None None s this with
      | Ok (r, s', this') => r = 0 /\ lossHistory this' = []
      | Err _ => False
      end
  | Err _ => False
  end.
Proof.
  assert (Hjw : 0 < 20) by reflexivity.
  split.
  - apply (proj1 (preFormat_few_contexts sampleMath sampleStaveMetrics 20 None None
                    twoAlignedVoices newFormatter Hjw)).
    reflexivity.
  - destruct (createTickContexts [0%nat; 1%nat] twoAlignedVoices newFormatter)
      as [[[contexts s] this]|e] eqn:Hc; [|vm_compute in Hc; discriminate].
    destruct (preFormat sampleMath sampleStaveMetrics 20 None None s this)
      as [[[r s'] this']|e] eqn:H.
    + apply (proj2 (preFormat_few_contexts sampleMath sampleStaveMetrics 20 None None
                      s this Hjw) 0%Z r s' this'); [|exact H].
      vm_compute in Hc. injection Hc as _ _ <-. reflexivity.
    + vm_compute in Hc. injection Hc as _ <- <-. vm_compute in H. discriminate.
Defined.

(** *** The duration statistics of evaluate *)

Lemma updateStats_consistent (duration : string) (space : Q)
    (durationStats : gmap string DurationStats) :
  statsConsistent durationStats -> statsConsistent (updateStats duration space durationStats).
Proof.
  intros H d stats. unfold updateStats.
  destruct (durationStats !! duration) as [old|] eqn:Hold.
  - destruct (decide (d = duration)) as [->|Hne].
    + rewrite lookup_insert_eq. intros [= <-]. cbn.
      destruct (H _ _ Hold) as [Hc _]. split; [lra|reflexivity].
    + rewrite lookup_insert_ne by congruence. apply H.
  - destruct (decide (d = duration)) as [->|Hne].
    + rewrite lookup_insert_eq. intros [= <-]. cbn. split; [lra|]. field.
    + rewrite lookup_insert_ne by congruence. apply H.
Qed.

Lemma spaceStep_stats (m : gmap Z TickContext) (jw : Q) (notes : list nat)
    (s s' : Store) (d d' : gmap string DurationStats) (i : nat) :
  statsConsistent d ->
  spaceStep m jw notes (Ok (s, d)) i = Ok (s', d') -> statsConsistent d'.
Proof.
  intros Hd. unfold spaceStep. cbn [bindR]. intros H.
  bind_inv_as H id Hid. bind_inv_as H note Hnote. bind_inv_as H x Hx.
  case_bool_decide.
  - bind_inv_as H rightId Hright. bind_inv_as H rightNote HrightNote.
    bind_inv_as H rightX HrightX. injection H as _ <-.
    apply updateStats_consistent, Hd.
  - injection H as _ <-. apply updateStats_consistent, Hd.
Qed.

Lemma spaceVoice_stats (m : gmap Z TickContext) (jw : Q)
    (s s' : Store) (d d' : gmap string DurationStats) (voice : nat) :
  statsConsistent d ->
  spaceVoice m jw (Ok (s, d)) voice = Ok (s', d') -> statsConsistent d'.
Proof.
  intros Hd. unfold spaceVoice. cbn [bindR fst]. intros H. bind_inv_as H v Hv.
  refine (fold_left_preserves (fun a a' => statsConsistent a.2 -> statsConsistent a'.2)
            _ _ _ _ _ _ (s, d) (s', d') H Hd).
  - auto.
  - auto.
  - reflexivity.
  - intros [s1 d1] i [s2 d2] Hstep Hc. cbn [snd] in *.
    apply (spaceStep_stats _ _ _ _ _ _ _ _ Hc Hstep).
Qed.

(** X13.  When [evaluate] returns, the duration statistics it leaves in
    the Formatter are consistent: every duration class it has an entry
    for was seen at least once, and its mean is its total over its
    count. *)
Theorem evaluate_durationStats (M : MathFns) (s s' : Store) (this this' : Formatter)
    (cost : Q) :
  evaluate M s this = Ok (cost, s', this') ->
  statsConsistent (durationStats this').
Proof.
  unfold evaluate. intros H.
  bind_inv_as H r1 Hgap. destruct r1 as [m1 g1].
  bind_inv_as H r2 Hspace. destruct r2 as [sp dstats].
  bind_inv_as H r3 Hdev. destruct r3 as [sd td].
  injection H as _ _ <-.
  cbn [durationStats set_lossHistory set_totalCost set_durationStats].
  refine (fold_left_preserves (fun a a' => statsConsistent a.2 -> statsConsistent a'.2)
            _ _ _ _ _ _ (s, ∅) (sp, dstats) Hspace _).
  - auto.
  - auto.
  - reflexivity.
  - intros [s1 d1] i [s2 d2] Hstep Hc. cbn [snd] in *.
    apply (spaceVoice_stats _ _ _ _ _ _ _ Hc Hstep).
  - intros d stats Hl. cbn in Hl. rewrite lookup_empty in Hl. discriminate.
Qed.

(** The theorem applies to the two half notes, their tick contexts
    created and the justify width set to 20 pixels. *)
Lemma evaluate_durationStats_witness :
  match twoHalfNotesContexts with
  | Ok (_, s, this) =>
      match evaluate sampleMath s (set_justifyWidth 20 this) with
      | Ok (cost, s', this') => statsConsistent (durationStats this')
      | Err _ => False
      end
  | Err _ => False
  end.
Proof.
  destruct twoHalfNotesContexts as [[[contexts s] this]|e] eqn:Hc;
    [|vm_compute in Hc; discriminate].
  destruct (evaluate sampleMath s (set_justifyWidth 20 this))
    as [[[cost s'] this']|e] eqn:H.
  - apply (evaluate_durationStats sampleMath s s' (set_justifyWidth 20 this) this' cost H).
  - vm_compute in Hc. injection Hc as _ <- <-. vm_compute in H. discriminate.
Defined.

(** ** SimpleFormat, the alignment of rests, and no voices *)

(** *** SimpleFormat *)

Lemma simpleFormatStep_chained (x0 paddingBetween accumulator accumulator' : Q)
    (s s' : Store) (created created' : list TickContext) (note : nat) :
  chained x0 paddingBetween accumulator created ->
  simpleFormatStep paddingBetween (Ok (accumulator, s, created)) note
    = Ok (accumulator', s', created') ->
  chained x0 paddingBetween accumulator' created' /\
  length created' = S (length created).
Proof.
  intros (Hlast & Hhead & Hadj) H. unfold simpleFormatStep in H. cbn [bindR] in H.
  bind_inv_as H c Hc. injection H as <- _ <-.
  set (c' := setX (accumulator + tc_totalLeftPx c) c) in *.
  assert (Hedge : leftEdge c' == accumulator) by (unfold leftEdge, c'; cbn; lra).
  split; [|rewrite length_app; cbn; lia].
  unfold chained. rewrite last_snoc. split; [|split].
  - rewrite Hedge. unfold c'. cbn. lra.
  - intros c1 Hh. destruct created as [|c0 created0].
    + cbn in Hh. injection Hh as <-. cbn [last] in Hlast. rewrite Hedge. exact Hlast.
    + cbn in Hh. injection Hh as <-. apply Hhead. reflexivity.
  - intros i c1 c2 H1 H2.
    destruct (decide (S i < length created)%nat) as [Hlt|Hge].
    + rewrite lookup_app_l in H1 by lia. rewrite lookup_app_l in H2 by lia.
      apply (Hadj i c1 c2 H1 H2).
    + assert (Hi : S i = length created).
      { apply lookup_lt_Some in H2. rewrite length_app in H2. cbn in H2. lia. }
      rewrite lookup_app_l in H1 by lia.
      rewrite lookup_app_r in H2 by lia. rewrite Hi, Nat.sub_diag in H2.
      cbn in H2. injection H2 as <-.
      rewrite last_lookup in Hlast. replace (pred (length created)) with i in Hlast by lia.
      rewrite H1 in Hlast. rewrite Hedge. exact Hlast.
Qed.

Lemma simpleFormatStep_fold_chained (x0 paddingBetween : Q) (notes : list nat) :
  forall accumulator accumulator' s s' created created',
  chained x0 paddingBetween accumulator created ->
  fold_left (simpleFormatStep paddingBetween) notes (Ok (accumulator, s, created))
    = Ok (accumulator', s', created') ->
  chained x0 paddingBetween accumulator' created' /\
  length created' = (length created + length notes)%nat.
Proof.
  induction notes as [|note notes IH];
    intros accumulator accumulator' s s' created created' Hc H; cbn [fold_left] in H.
  - injection H as <- <- <-. cbn. split; [exact Hc|lia].
  - destruct (simpleFormatStep paddingBetween (Ok (accumulator, s, created)) note)
      as [[[a1 s1] cr1]|e] eqn:Hstep.
    2: { rewrite fold_left_Err in H by reflexivity. discriminate. }
    destruct (simpleFormatStep_chained _ _ _ _ _ _ _ _ _ Hc Hstep) as [Hc1 Hl1].
    destruct (IH _ _ _ _ _ _ Hc1 H) as [Hc2 Hl2].
    split; [exact Hc2|]. cbn [length]. lia.
Qed.

(** X14.  When [SimpleFormat] returns, it has made one tick context for
    every note, in the order of the notes.  The left edge of the first
    is at the start x (0 if none is given), and the left edge of every
    further one is that of the one before it plus its width, its extra
    space on the right and the padding (10 if none is given). *)
Theorem SimpleFormat_chains_contexts (notes : list nat) (x paddingBetween : option Q)
    (s s' : Store) (contexts : list TickContext) :
  SimpleFormat notes x paddingBetween s = Ok (s', contexts) ->
  length contexts = length notes /\
  (forall c, head contexts = Some c -> getX c == default 0 x + tc_totalLeftPx c) /\
  (forall i c1 c2, contexts !! i = Some c1 -> contexts !! S i = Some c2 ->
     getX c2 - tc_totalLeftPx c2
       == getX c1 - tc_totalLeftPx c1 + getWidth c1 + tc_totalRightPx c1
          + default 10 paddingBetween).
Proof.
  unfold SimpleFormat. intros H. bind_inv_as H st Hst.
  destruct st as [[accumulator s1] created]. injection H as _ <-. cbn [snd fst].
  apply (simpleFormatStep_fold_chained (default 0 x)) in Hst.
  2: { unfold chained. cbn. split; [reflexivity|]. split; [discriminate|].
       intros i c1 c2 H1. discriminate. }
  destruct Hst as [(_ & Hhead & Hadj) Hlen]. cbn in Hlen.
  split; [exact Hlen|]. split.
  - intros c Hc. pose proof (Hhead c Hc) as H0. unfold leftEdge in H0. lra.
  - intros i c1 c2 H1 H2. apply (Hadj i c1 c2 H1 H2).
Qed.

(** The theorem applies to the four quarter notes, laid out from x = 5
    with a padding of 7. *)
Lemma SimpleFormat_chains_contexts_witness :
  match SimpleFormat [0; 1; 2; 3]%nat (Some 5) (Some 7) (fourQuarters 12 14 16 18) with
  | Ok (s', contexts) =>
      length contexts = length [0; 1; 2; 3]%nat /\
      (forall c, head contexts = Some c -> getX c == default 0 (Some 5) + tc_totalLeftPx c) /\
      (forall i c1 c2, contexts !! i = Some c1 -> contexts !! S i = Some c2 ->
         getX c2 - tc_totalLeftPx c2
           == getX c1 - tc_totalLeftPx c1 + getWidth c1 + tc_totalRightPx c1
              + default 10 (Some 7))
  | Err _ => False
  end.
Proof.
  destruct (SimpleFormat [0; 1; 2; 3]%nat (Some 5) (Some 7) (fourQuarters 12 14 16 18))
    as [[s' contexts]|e] eqn:H.
  - apply (SimpleFormat_chains_contexts _ _ _ _ _ _ H).
  - vm_compute in H. discriminate.
Defined.

(** *** AlignRestsToNotes *)

Lemma alignRestStep_moved (M : MathFns) (alignAllNotes alignTuplets : bool)
    (tickables : list nat) (s0 s s' : Store) (index : nat) :
  restsMoved alignAllNotes alignTuplets s0 s ->
  alignRestStep M alignAllNotes alignTuplets tickables (Ok s) index = Ok s' ->
  restsMoved alignAllNotes alignTuplets s0 s'.
Proof.
  intros [Hv Ht] H. unfold alignRestStep in H. cbn [bindR] in H.
  bind_inv_as H id Hid. bind_inv_as H cur Hcur.
  destruct (negb (t_isStaveNote cur && t_isRest cur)) eqn:E1.
  { injection H as <-. split; auto. }
  destruct (t_hasTuplet cur && negb alignTuplets) eqn:E2.
  { injection H as <-. split; auto. }
  destruct (negb (Qeq_bool (getLineForRest cur) 3)) eqn:E3.
  { injection H as <-. split; auto. }
  destruct (negb (alignAllNotes || t_hasBeam cur)) eqn:E4.
  { injection H as <-. split; auto. }
  bind_inv_as H notes Hnotes. bind_inv_as H propsLine Hline.
  injection H as <-. split; cbn [updateTickable s_voices s_tickables]; [exact Hv|].
  intros id' t0 Ht0.
  destruct (Ht id' t0 Ht0) as (t & Hlook & Hkey & Hsame).
  destruct (decide (id' = id)) as [->|Hne].
  - rewrite lookup_alter_eq, Hlook. cbn.
    exists (setKeyLine propsLine t). split; [reflexivity|]. split; [exact Hkey|].
    intros Hna. exfalso. specialize (Hsame Hna). subst t.
    unfold getTickable in Hcur. rewrite Hlook in Hcur. cbn in Hcur. injection Hcur as ->.
    unfold alignable in Hna.
    apply negb_false_iff in E1, E3, E4. rewrite E1, E2, E3, E4 in Hna. discriminate.
  - rewrite lookup_alter_ne by congruence. eauto.
Qed.

Lemma alignRestStep_fold_moved (M : MathFns) (alignAllNotes alignTuplets : bool)
    (tickables : list nat) (s0 : Store) (indices : list nat) :
  forall s s',
  restsMoved alignAllNotes alignTuplets s0 s ->
  fold_left (alignRestStep M alignAllNotes alignTuplets tickables) indices (Ok s) = Ok s' ->
  restsMoved alignAllNotes alignTuplets s0 s'.
Proof.
  induction indices as [|i indices IH]; intros s s' Hs H; cbn [fold_left] in H.
  - injection H as <-. exact Hs.
  - destruct (alignRestStep M alignAllNotes alignTuplets tickables (Ok s) i)
      as [s2|e] eqn:Hstep.
    2: { rewrite fold_left_Err in H by reflexivity. discriminate. }
    apply (IH s2 s'); [|exact H]. apply (alignRestStep_moved _ _ _ _ _ _ _ _ Hs Hstep).
Qed.

Lemma restsMoved_refl (alignAllNotes alignTuplets : bool) (s : Store) :
  restsMoved alignAllNotes alignTuplets s s.
Proof. split; [reflexivity|]. intros id t0 Ht0. exists t0. auto. Qed.

(** X15.  When [AlignRestsToNotes] returns, the voices are as they
    were and every tickable is there as it was but for the line of its
    key; and a tickable that is not a rest open to alignment (a stave
    note that is a rest on line 3, beamed unless all notes are aligned,
    outside a tuplet unless tuplets are aligned) is not changed at
    all. *)
Theorem AlignRestsToNotes_moves_rests_only (M : MathFns) (tickables : list nat)
    (alignAllNotes alignTuplets : bool) (s s' : Store) :
  AlignRestsToNotes M tickables alignAllNotes alignTuplets s = Ok s' ->
  s_voices s' = s_voices s /\
  forall id t, s_tickables s !! id = Some t ->
    exists t', s_tickables s' !! id = Some t' /\
               setKeyLine 0 t' = setKeyLine 0 t /\
               (alignable alignAllNotes alignTuplets t = false -> t' = t).
Proof.
  unfold AlignRestsToNotes. intros H.
  apply (alignRestStep_fold_moved _ _ _ _ s _ _ _ (restsMoved_refl _ _ s) H).
Qed.

(** The theorem applies to a rest between a note on line 6 and a note on
    line 2, with all notes aligned. *)
Lemma AlignRestsToNotes_moves_rests_only_witness :
  match AlignRestsToNotes sampleMath [0; 1; 2]%nat true false noteRestNote with
  | Ok s' =>
      s_voices s' = s_voices noteRestNote /\
      forall id t, s_tickables noteRestNote !! id = Some t ->
        exists t', s_tickables s' !! id = Some t' /\
                   setKeyLine 0 t' = setKeyLine 0 t /\
                   (alignable true false t = false -> t' = t)
  | Err _ => False
  end.
Proof.
  destruct (AlignRestsToNotes sampleMath [0; 1; 2]%nat true false noteRestNote)
    as [s'|e] eqn:H.
  - apply (AlignRestsToNotes_moves_rests_only _ _ _ _ _ _ H).
  - vm_compute in H. discriminate.
Defined.

(** *** No voices *)

(** X16.  Without voices: [format] and [alignRests] raise
    [BadArgument] on an empty array of voices, while
    [createModifierContexts] returns without any effect and [joinVoices]
    only clears the flag of the minimum width.
    [preCalculateMinTotalWidth] on a new Formatter raises [BadArgument]
    when [voices] is missing; on an empty array it returns a result that
    is not a finite number, and leaves a minimum width of 0 and no tick
    context. *)
Theorem formatting_without_voices (M : MathFns) (cfg : StaveMetrics)
    (justifyWidth : option Q) (optAlignRests : bool) (optStave : option nat)
    (s : Store) (this : Formatter) (SOFTMAX_FACTOR : Q) (options : FormatterOptionsArg) :
  Formatter.format M cfg [] justifyWidth optAlignRests optStave s this = Err BadArgument /\
  alignRests M [] optAlignRests s = Err BadArgument /\
  createModifierContexts [] s this = Ok (s, this) /\
  joinVoices [] s this = Ok (s, set_hasMinTotalWidth false this) /\
  preCalculateMinTotalWidth M cfg None s (constructor SOFTMAX_FACTOR options)
    = Err BadArgument /\
  exists this',
    preCalculateMinTotalWidth M cfg (Some []) s (constructor SOFTMAX_FACTOR options)
      = Ok (None, s, this') /\
    getMinTotalWidth this' = Ok 0 /\
    atc_list (tickContexts this') = [].
Proof.
  split; [reflexivity|]. split; [reflexivity|]. split; [reflexivity|].
  split; [reflexivity|]. split; [reflexivity|].
  eexists. split; [reflexivity|]. split; reflexivity.
Qed.

(* ================================================================== *)
(** * Properties of the stave *)
(* ================================================================== *)

(** ** Lines and y coordinates of the stave *)

(** X17.  On a stave whose lines are a non-zero distance apart,
    [getLineForY] and [getYForLine] are inverse to each other, in both
    directions; with a distance of 0 [getLineForY] has no finite result.
    And [getYForNote] of a line is [getYForLine] of 5 less that line. *)
Theorem getLineForY_reverses_getYForLine (s : Accidental.Stave) :
  (spacingBetweenLinesPx s == 0 -> forall y, Stave.getLineForY s y = None) /\
  (~ spacingBetweenLinesPx s == 0 ->
   (forall line, exists l, Stave.getLineForY s (getYForLine s line) = Some l /\ l == line) /\
   (forall y, exists l, Stave.getLineForY s y = Some l /\ getYForLine s l == y)) /\
  (forall line, Stave.getYForNote s line == getYForLine s (5 - line)).
Proof.
  unfold Stave.getLineForY, Stave.getYForNote, getYForLine. cbv zeta.
  split; [|split].
  - intros H y. apply Qeq_bool_iff in H. rewrite H. reflexivity.
  - intros H.
    assert (Hb : Qeq_bool (spacingBetweenLinesPx s) 0 = false).
    { destruct (Qeq_bool (spacingBetweenLinesPx s) 0) eqn:E; [|reflexivity].
      apply Qeq_bool_iff in E. contradiction. }
    rewrite Hb. split.
    + intros line. eexists. split; [reflexivity|]. field. exact H.
    + intros y. eexists. split; [reflexivity|]. field. exact H.
  - intros line. ring.
Qed.

(** The theorem applies to the sample stave, whose lines are 10 pixels
    apart, and to the same stave with its lines 0 pixels apart. *)
Lemma getLineForY_reverses_getYForLine_witness :
  (forall y,
     Stave.getLineForY
       {| stave_y := 40; spacingBetweenLinesPx := 0; spaceAboveStaffLn := 4 |} y = None) /\
  (forall line, exists l,
     Stave.getLineForY Stave.sampleStave (getYForLine Stave.sampleStave line) = Some l /\
     l == line) /\
  (forall y, exists l,
     Stave.getLineForY Stave.sampleStave y = Some l /\ getYForLine Stave.sampleStave l == y).
Proof.
  split.
  - apply (proj1 (getLineForY_reverses_getYForLine
                    {| stave_y := 40; spacingBetweenLinesPx := 0; spaceAboveStaffLn := 4 |})).
    reflexivity.
  - apply (proj1 (proj2 (getLineForY_reverses_getYForLine Stave.sampleStave))).
    discriminate.
Defined.

(** ** The configuration of the lines *)

Lemma configured_lookup (st : Stave.Lines) (i : nat) :
  Stave.configured st -> (i < Z.to_nat (Stave.numLines st))%nat ->
  exists b, Stave.lineConfig st !! i = Some (Some {| Stave.visible := Some b |}).
Proof.
  intros [Hlen Hall] Hi.
  destruct (lookup_lt_is_Some_2 (Stave.lineConfig st) i ltac:(lia)) as [c Hc].
  rewrite Forall_forall in Hall.
  destruct (Hall c (list_elem_of_lookup_2 _ _ _ Hc)) as [b ->]. eauto.
Qed.

(** [resetLines], which the constructor and [setNumLines] call, leaves
    every line with its configuration. *)
Lemma resetLines_configured (st : Stave.Lines) :
  (0 <= Stave.numLines st)%Z -> Stave.configured (Stave.resetLines st).
Proof.
  intros Hn. unfold Stave.configured, Stave.resetLines.
  cbn [Stave.numLines Stave.lineConfig].
  split; [rewrite length_replicate; lia|].
  apply Forall_replicate. eauto.
Qed.

(** X23.  [setNumLines] with a number that is not negative leaves that
    number of lines, every one of them with its configuration and
    visible, whatever the configuration of the lines was before; and the
    bottom text position is then on the bottom line:
    [getYForBottomText] of 0 is [getBottomLineY]. *)
Theorem setNumLines_resets_lines (n : Z) (st : Stave.Lines) :
  (0 <= n)%Z ->
  let st' := Stave.setNumLines n st in
  Stave.getNumLines st' = n /\
  Stave.configured st' /\
  (forall i, (i < Z.to_nat n)%nat ->
     Stave.getConfigForLines st' !! i = Some (Some {| Stave.visible := Some true |})) /\
  Stave.getYForBottomText st' 0 == Stave.getBottomLineY st'.
Proof.
  intros Hn. cbv zeta.
  unfold Stave.setNumLines, Stave.resetLines, Stave.getNumLines, Stave.getConfigForLines,
    Stave.configured, Stave.getYForBottomText, Stave.getBottomLineY, getYForLine.
  cbn [Stave.numLines Stave.lineConfig Stave.bottomTextPosition Stave.geometry].
  split; [reflexivity|]. split; [|split].
  - split; [rewrite length_replicate; lia|].
    apply Forall_replicate. eauto.
  - intros i Hi. apply lookup_replicate_2. exact Hi.
  - ring.
Qed.

(** The theorem applies to a stave of five lines that is given three. *)
Lemma setNumLines_resets_lines_witness :
  let st' := Stave.setNumLines 3 Stave.fiveLines in
  Stave.getNumLines st' = 3%Z /\
  Stave.configured st' /\
  (forall i, (i < Z.to_nat 3)%nat ->
     Stave.getConfigForLines st' !! i = Some (Some {| Stave.visible := Some true |})) /\
  Stave.getYForBottomText st' 0 == Stave.getBottomLineY st'.
Proof.
  apply (setNumLines_resets_lines 3 Stave.fiveLines). lia.
Defined.

(** X18.  [setConfigForLine] raises [StaveConfigError] for a line
    number below 0 or not below the number of lines, and for a
    configuration without [visible].  Otherwise, on a stave whose lines
    all have their configuration, it replaces the configuration of that
    one line and leaves the number of lines and every other line as they
    were. *)
Theorem setConfigForLine_replaces_one_line (lineNumber : Z) (config : Stave.StaveLineConfig)
    (st : Stave.Lines) :
  ((lineNumber < 0)%Z \/ (Stave.numLines st <= lineNumber)%Z \/
   Stave.visible config = None ->
   Stave.setConfigForLine lineNumber config st = Stave.Thrown Stave.StaveConfigError) /\
  ((0 <= lineNumber < Stave.numLines st)%Z -> Stave.visible config <> None ->
   Stave.configured st ->
   exists st',
     Stave.setConfigForLine lineNumber config st = Stave.Done st' /\
     Stave.configured st' /\
     Stave.numLines st' = Stave.numLines st /\
     Stave.lineConfig st' !! Z.to_nat lineNumber = Some (Some config) /\
     forall i, i <> Z.to_nat lineNumber ->
       Stave.lineConfig st' !! i = Stave.lineConfig st !! i).
Proof.
  unfold Stave.setConfigForLine. split.
  - intros [H|[H|H]].
    + assert ((lineNumber <? 0)%Z = true) as -> by lia. rewrite orb_true_r. reflexivity.
    + assert ((Stave.numLines st <=? lineNumber)%Z = true) as -> by lia. reflexivity.
    + destruct ((Stave.numLines st <=? lineNumber)%Z || (lineNumber <? 0)%Z); [reflexivity|].
      rewrite H. reflexivity.
  - intros Hr Hv [Hlen Hall].
    assert ((Stave.numLines st <=? lineNumber)%Z = false) as -> by lia.
    assert ((lineNumber <? 0)%Z = false) as -> by lia. cbn [orb].
    destruct (Stave.visible config) as [b|] eqn:Hb; [|congruence].
    eexists. split; [reflexivity|].
    unfold Stave.configured, Stave.setLineConfig, Stave.writeAt.
    cbn [Stave.numLines Stave.lineConfig].
    rewrite bool_decide_eq_true_2 by lia.
    split; [split|split; [reflexivity|split]].
    + rewrite length_insert. exact Hlen.
    + apply Forall_insert; [exact Hall|]. exists b. destruct config. cbn in Hb. congruence.
    + apply list_lookup_insert_eq. lia.
    + intros i Hi. apply list_lookup_insert_ne. congruence.
Qed.

(** The theorem applies to the five lines of a new stave: line 5 is out
    of range, and line 2 can be hidden. *)
Lemma setConfigForLine_replaces_one_line_witness :
  Stave.setConfigForLine 5 {| Stave.visible := Some false |} Stave.fiveLines
    = Stave.Thrown Stave.StaveConfigError /\
  exists st',
    Stave.setConfigForLine 2 {| Stave.visible := Some false |} Stave.fiveLines
      = Stave.Done st' /\
    Stave.configured st' /\
    Stave.numLines st' = Stave.numLines Stave.fiveLines /\
    Stave.lineConfig st' !! Z.to_nat 2 = Some (Some {| Stave.visible := Some false |}) /\
    forall i, i <> Z.to_nat 2 ->
      Stave.lineConfig st' !! i = Stave.lineConfig Stave.fiveLines !! i.
Proof.
  split.
  - apply (proj1 (setConfigForLine_replaces_one_line 5 {| Stave.visible := Some false |}
                    Stave.fiveLines)).
    right. left. vm_compute. discriminate.
  - apply (proj2 (setConfigForLine_replaces_one_line 2 {| Stave.visible := Some false |}
                    Stave.fiveLines)).
    + vm_compute. split; [discriminate|reflexivity].
    + discriminate.
    + apply resetLines_configured. vm_compute. discriminate.
Defined.

(** ** The x position of the stave *)

Lemma call_keeps_offsets (p : Stave.Position) (c : Stave.PositionCall) :
  Stave.startX (Stave.call p c) - Stave.pos_x (Stave.call p c)
    == Stave.startX p - Stave.pos_x p /\
  Forall2 (fun m m' => m' - Stave.pos_x (Stave.call p c) == m - Stave.pos_x p)
          (Stave.modifiers p) (Stave.modifiers (Stave.call p c)) /\
  (Stave.endX p == Stave.pos_x p + Stave.pos_width p ->
   Stave.endX (Stave.call p c)
     == Stave.pos_x (Stave.call p c) + Stave.pos_width (Stave.call p c)).
Proof.
  destruct c as [x|width]; unfold Stave.call, Stave.setX, Stave.setWidth;
    cbn [Stave.pos_x Stave.startX Stave.endX Stave.modifiers Stave.pos_width].
  - split; [ring|]. split.
    + induction (Stave.modifiers p) as [|m ms IH]; cbn [List.map]; constructor;
        [ring|exact IH].
    + intros H. rewrite H. ring.
  - split; [reflexivity|]. split.
    + induction (Stave.modifiers p) as [|m ms IH]; constructor; [reflexivity|exact IH].
    + intros _. reflexivity.
Qed.

(** X21.  Through any sequence of calls of [setX] and [setWidth], the
    start x of the notes and the x of every modifier keep their distance
    from the x of the stave; and if the end x was the x of the stave
    plus its width before, as the constructor leaves it, it is so
    after. *)
Theorem setX_setWidth_keep_offsets (p0 : Stave.Position) (calls : list Stave.PositionCall) :
  let p := fold_left Stave.call calls p0 in
  Stave.getTieStartX p - Stave.pos_x p == Stave.getTieStartX p0 - Stave.pos_x p0 /\
  Forall2 (fun m0 m => m - Stave.pos_x p == m0 - Stave.pos_x p0)
          (Stave.modifiers p0) (Stave.modifiers p) /\
  (Stave.getTieEndX p0 == Stave.pos_x p0 + Stave.pos_width p0 ->
   Stave.getTieEndX p == Stave.pos_x p + Stave.pos_width p).
Proof.
  cbv zeta. unfold Stave.getTieStartX, Stave.getTieEndX.
  revert p0. induction calls as [|c calls IH]; intros p0; cbn [fold_left].
  - split; [reflexivity|]. split; [|auto].
    induction (Stave.modifiers p0) as [|m ms IHm]; constructor; [reflexivity|exact IHm].
  - destruct (IH (Stave.call p0 c)) as (H1 & H2 & H3).
    destruct (call_keeps_offsets p0 c) as (C1 & C2 & C3).
    split; [rewrite H1; exact C1|]. split.
    + revert C2 H2.
      generalize (Stave.modifiers (fold_left Stave.call calls (Stave.call p0 c))).
      generalize (Stave.modifiers (Stave.call p0 c)).
      generalize (Stave.pos_x (fold_left Stave.call calls (Stave.call p0 c))).
      generalize (Stave.pos_x (Stave.call p0 c)).
      intros x1 x2 l1. induction (Stave.modifiers p0) as [|m0 ms0 IHm] in l1 |- *;
        intros l2 C2 H2.
      * inversion C2; subst. inversion H2; subst. constructor.
      * inversion C2 as [|? m1 ? l1' E1 C2']; subst.
        inversion H2 as [|? m2 ? l2' E2 H2']; subst.
        constructor; [lra|]. apply (IHm l1' l2' C2' H2').
    + intros H. apply H3, C3, H.
Qed.

(** The theorem applies to a new stave at x = 10 of width 300 that is
    moved to x = 50 and made 200 wide. *)
Lemma setX_setWidth_keep_offsets_witness :
  let p0 := Stave.newPosition 10 300 in
  let p := fold_left Stave.call [Stave.CallSetX 50; Stave.CallSetWidth 200] p0 in
  Stave.getTieStartX p - Stave.pos_x p == Stave.getTieStartX p0 - Stave.pos_x p0 /\
  Forall2 (fun m0 m => m - Stave.pos_x p == m0 - Stave.pos_x p0)
          (Stave.modifiers p0) (Stave.modifiers p) /\
  Stave.getTieEndX p == Stave.pos_x p + Stave.pos_width p.
Proof.
  cbv zeta.
  destruct (setX_setWidth_keep_offsets (Stave.newPosition 10 300)
              [Stave.CallSetX 50; Stave.CallSetWidth 200]) as (H1 & H2 & H3).
  split; [exact H1|]. split; [exact H2|]. apply H3. reflexivity.
Defined.

(** *** setConfigForLines *)

(** What the loop of [setConfigForLines] has done when it has visited the
    first [k] entries: these hold the caller's entry, or the stave's own
    where the caller's has no [visible]; the rest of the two arrays is
    as it was, and neither has grown. *)
Lemma configStep_fold (given : list Stave.StaveLineConfig)
    (old : list (option Stave.StaveLineConfig)) (k : nat) :
  length old = length given -> (k <= length given)%nat ->
  exists lc cur,
    fold_left Stave.configStep (seq 0 k) (Some <$> given, old) = (lc, cur) /\
    length lc = length given /\ length cur = length given /\
    (forall i, (k <= i)%nat -> lc !! i = (Some <$> given) !! i /\ cur !! i = old !! i) /\
    (forall i g, (i < k)%nat -> given !! i = Some g ->
       lc !! i = Some (match Stave.visible g with
                       | Some _ => Some g
                       | None => mjoin (old !! i)
                       end)).
Proof.
  intros Hlen. induction k as [|k IH]; intros Hk.
  - exists (Some <$> given), old. cbn [seq fold_left].
    split; [reflexivity|]. split; [apply length_fmap|]. split; [exact Hlen|].
    split; [auto|]. intros i g Hi. lia.
  - destruct (IH ltac:(lia)) as (lc & cur & Hfold & Hl1 & Hl2 & Hrest & Hdone).
    rewrite seq_S, fold_left_app, Hfold. cbn [fold_left plus Stave.configStep].
    destruct (Hrest k ltac:(lia)) as [Hlck Hcurk].
    destruct (lookup_lt_is_Some_2 given k ltac:(lia)) as [g Hg].
    rewrite list_lookup_fmap, Hg in Hlck. cbn in Hlck. rewrite Hlck.
    set (lc' := match Stave.visible g with
                | Some _ => lc
                | None => <[k := mjoin (cur !! k)]> lc
                end).
    assert (Hl1' : length lc' = length given).
    { unfold lc'. destruct (Stave.visible g); [exact Hl1|]. rewrite length_insert. exact Hl1. }
    eexists lc', _. split; [reflexivity|]. split; [exact Hl1'|]. split; [|split].
    + unfold Stave.writeAt. rewrite bool_decide_eq_true_2 by lia.
      rewrite length_insert. exact Hl2.
    + intros i Hi. destruct (Hrest i ltac:(lia)) as [H1 H2]. split.
      * unfold lc'. destruct (Stave.visible g); [exact H1|].
        rewrite list_lookup_insert_ne by lia. exact H1.
      * unfold Stave.writeAt. rewrite bool_decide_eq_true_2 by lia.
        rewrite list_lookup_insert_ne by lia. exact H2.
    + intros i g' Hi Hg'. destruct (decide (i = k)) as [->|Hne].
      * rewrite Hg in Hg'. injection Hg' as <-. unfold lc'.
        destruct (Stave.visible g) eqn:Hv.
        -- exact Hlck.
        -- rewrite list_lookup_insert_eq by lia. rewrite Hcurk. reflexivity.
      * unfold lc'. destruct (Stave.visible g).
        -- apply (Hdone i g' ltac:(lia) Hg').
        -- rewrite list_lookup_insert_ne by lia. apply (Hdone i g' ltac:(lia) Hg').
Qed.

(** X19.  [setConfigForLines] raises [StaveConfigError] when the array
    it is given has not one entry for every line.  Otherwise, on a stave
    whose lines all have their configuration, every line gets the entry
    given for it, or keeps its own where the entry given has no
    [visible]; the number of lines is as it was and every line has its
    configuration again. *)
Theorem setConfigForLines_keeps_missing_flags (given : list Stave.StaveLineConfig)
    (st : Stave.Lines) :
  (Z.of_nat (length given) <> Stave.numLines st ->
   Stave.setConfigForLines given st = Stave.Thrown Stave.StaveConfigError) /\
  (Z.of_nat (length given) = Stave.numLines st -> Stave.configured st ->
   exists st',
     Stave.setConfigForLines given st = Stave.Done st' /\
     Stave.configured st' /\
     Stave.numLines st' = Stave.numLines st /\
     forall i g old, given !! i = Some g -> Stave.lineConfig st !! i = Some (Some old) ->
       Stave.lineConfig st' !! i
       = Some (Some (match Stave.visible g with Some _ => g | None => old end))).
Proof.
  unfold Stave.setConfigForLines. split.
  - intros H. rewrite bool_decide_eq_true_2 by exact H. reflexivity.
  - intros H [Hlen Hall]. rewrite bool_decide_eq_false_2 by (intros Hne; contradiction).
    destruct (configStep_fold given (Stave.lineConfig st) (length given) ltac:(lia) ltac:(lia))
      as (lc & cur & Hfold & Hl1 & _ & _ & Hdone).
    rewrite Hfold. eexists. split; [reflexivity|].
    unfold Stave.configured, Stave.setLineConfig. cbn [Stave.numLines Stave.lineConfig].
    split; [split|split; [reflexivity|]].
    + lia.
    + apply Forall_lookup. intros i c Hc.
      destruct (lookup_lt_is_Some_2 given i) as [g Hg].
      { apply lookup_lt_Some in Hc. lia. }
      rewrite (Hdone i g (lookup_lt_Some _ _ _ Hg) Hg) in Hc. injection Hc as <-.
      destruct (lookup_lt_is_Some_2 (Stave.lineConfig st) i) as [o Ho].
      { apply lookup_lt_Some in Hg. lia. }
      rewrite Forall_forall in Hall.
      destruct (Hall o (list_elem_of_lookup_2 _ _ _ Ho)) as [b ->].
      rewrite Ho. cbn. destruct g as [[v|]]; cbn; eauto.
    + intros i g old Hg Hold.
      rewrite (Hdone i g (lookup_lt_Some _ _ _ Hg) Hg), Hold. cbn.
      destruct (Stave.visible g); reflexivity.
Qed.

(** The theorem applies to the five lines of a new stave: four entries
    are too few, and of five entries the ones without [visible] keep the
    line as it is. *)
Lemma setConfigForLines_keeps_missing_flags_witness :
  Stave.setConfigForLines
    [ {| Stave.visible := Some false |}; {| Stave.visible := None |};
      {| Stave.visible := Some true |}; {| Stave.visible := None |} ] Stave.fiveLines
    = Stave.Thrown Stave.StaveConfigError /\
  exists st',
    Stave.setConfigForLines
      [ {| Stave.visible := Some false |}; {| Stave.visible := None |};
        {| Stave.visible := Some true |}; {| Stave.visible := None |};
        {| Stave.visible := Some false |} ] Stave.fiveLines = Stave.Done st' /\
    Stave.configured st' /\
    Stave.numLines st' = Stave.numLines Stave.fiveLines /\
    forall i g old,
      [ {| Stave.visible := Some false |}; {| Stave.visible := None |};
        {| Stave.visible := Some true |}; {| Stave.visible := None |};
        {| Stave.visible := Some false |} ] !! i = Some g ->
      Stave.lineConfig Stave.fiveLines !! i = Some (Some old) ->
      Stave.lineConfig st' !! i
      = Some (Some (match Stave.visible g with Some _ => g | None => old end)).
Proof.
  split.
  - apply (proj1 (setConfigForLines_keeps_missing_flags _ Stave.fiveLines)).
    vm_compute. discriminate.
  - apply (proj2 (setConfigForLines_keeps_missing_flags _ Stave.fiveLines)).
    + reflexivity.
    + apply resetLines_configured. vm_compute. discriminate.
Defined.

(** ** sortByCategory *)

Section SortByCategoryProperties.

Variable Modifier : Type.
Variable getCategory : Modifier -> string.
Variable order : string -> option Q.

Lemma orderAbove_ranked (a b : Modifier) :
  (Stave.ranked getCategory order) a -> (Stave.ranked getCategory order) b ->
  Stave.orderAbove getCategory order a b = Qltb (Stave.rank getCategory order b) (Stave.rank getCategory order a).
Proof.
  intros [x Hx] [y Hy]. unfold Stave.orderAbove, Stave.rank. rewrite Hx, Hy. reflexivity.
Qed.

Lemma swapStep_cons (x : Modifier) (l : list Modifier) (j : nat) :
  (Stave.swapStep getCategory order) (x :: l) (S j) = x :: (Stave.swapStep getCategory order) l j.
Proof.
  unfold Stave.swapStep. cbn [lookup list_lookup plus].
  change (list_lookup j l) with (l !! j).
  change (list_lookup (j + 1)%nat l) with (l !! (j + 1)%nat).
  destruct (l !! j) as [a|]; [|reflexivity].
  destruct (l !! (j + 1)%nat) as [b|]; [|reflexivity].
  destruct (Stave.orderAbove getCategory order a b); reflexivity.
Qed.

Lemma swapStep_fold_cons (x : Modifier) (k : nat) :
  forall (a : nat) (l : list Modifier),
  fold_left (Stave.swapStep getCategory order) (seq (S a) k) (x :: l) = x :: fold_left (Stave.swapStep getCategory order) (seq a k) l.
Proof.
  induction k as [|k IH]; intros a l; cbn [seq fold_left]; [reflexivity|].
  rewrite swapStep_cons. apply IH.
Qed.

Lemma swapStep_perm (l : list Modifier) :
  forall j, Stave.swapStep getCategory order l j ≡ₚ l.
Proof.
  induction l as [|x l IH]; intros j.
  - unfold Stave.swapStep. destruct j; reflexivity.
  - destruct j as [|j].
    + destruct l as [|b rest]; [reflexivity|].
      unfold Stave.swapStep. cbn [lookup list_lookup plus].
      destruct (Stave.orderAbove getCategory order x b); [|reflexivity].
      cbn. apply perm_swap.
    + rewrite swapStep_cons. rewrite IH. reflexivity.
Qed.

Lemma sortByCategory_perm (items : list Modifier) :
  Stave.sortByCategory getCategory order items ≡ₚ items.
Proof.
  unfold Stave.sortByCategory. generalize (rev (seq 0 (length items))).
  intros idxs. revert items. induction idxs as [|i idxs IH]; intros items; cbn [fold_left].
  - reflexivity.
  - rewrite IH. generalize (seq 0 i). intros js. revert items.
    induction js as [|j js IHj]; intros items; cbn [fold_left]; [reflexivity|].
    rewrite IHj. apply swapStep_perm.
Qed.

(** One pass of the inner loop over a whole array moves a modifier of
    the highest rank to the end. *)
Lemma inner_pass (l : list Modifier) :
  forall i, length l = S i -> Forall (Stave.ranked getCategory order) l ->
  exists init mx,
    fold_left (Stave.swapStep getCategory order) (seq 0 i) l = init ++ [mx] /\
    init ++ [mx] ≡ₚ l /\
    Forall (fun m => Stave.rank getCategory order m <= Stave.rank getCategory order mx) init.
Proof.
  intros i. revert l. induction i as [|i IH]; intros l Hlen Hr.
  - destruct l as [|a [|b rest]]; try discriminate. exists [], a. cbn.
    split; [reflexivity|]. split; [reflexivity|constructor].
  - destruct l as [|a [|b rest]]; try discriminate. cbn [seq fold_left].
    inversion Hr as [|? ? Ha Hr']; subst. inversion Hr' as [|? ? Hb Hr'']; subst.
    assert (Hstep : exists lo hi,
              (Stave.swapStep getCategory order) (a :: b :: rest) 0 = lo :: hi :: rest /\
              lo :: hi :: rest ≡ₚ a :: b :: rest /\
              Stave.rank getCategory order lo <= Stave.rank getCategory order hi /\ (Stave.ranked getCategory order) lo /\ (Stave.ranked getCategory order) hi).
    { unfold Stave.swapStep. cbn [lookup list_lookup plus].
      rewrite (orderAbove_ranked a b Ha Hb).
      destruct (Qltb (Stave.rank getCategory order b) (Stave.rank getCategory order a)) eqn:E.
      - apply Qltb_lt in E. exists b, a. cbn. split; [reflexivity|].
        split; [apply perm_swap|]. split; [lra|]. split; assumption.
      - apply Qltb_ge in E. exists a, b. split; [reflexivity|].
        split; [reflexivity|]. split; [exact E|]. split; assumption. }
    destruct Hstep as (lo & hi & -> & Hperm & Hle & Hlo & Hhi).
    rewrite swapStep_fold_cons.
    destruct (IH (hi :: rest) ltac:(cbn in *; lia) ltac:(constructor; assumption))
      as (init & mx & Hfold & Hp & Hmax).
    rewrite Hfold. exists (lo :: init), mx. split; [reflexivity|]. split.
    + cbn. rewrite Hp. exact Hperm.
    + constructor; [|exact Hmax].
      assert (Hin : hi ∈ init ++ [mx]) by (rewrite Hp; apply list_elem_of_here).
      apply elem_of_app in Hin. destruct Hin as [Hin|Hin].
      * rewrite Forall_forall in Hmax. pose proof (Hmax hi Hin). lra.
      * apply list_elem_of_singleton in Hin. subst hi. exact Hle.
Qed.

Lemma swapStep_length (l : list Modifier) (j : nat) : length ((Stave.swapStep getCategory order) l j) = length l.
Proof.
  unfold Stave.swapStep. destruct (l !! j); [|reflexivity].
  destruct (l !! (j + 1)%nat); [|reflexivity].
  destruct (Stave.orderAbove _ _ _ _); [|reflexivity].
  rewrite !length_insert. reflexivity.
Qed.

Lemma swapStep_app (pre suf : list Modifier) (j : nat) :
  (j + 1 < length pre)%nat -> (Stave.swapStep getCategory order) (pre ++ suf) j = (Stave.swapStep getCategory order) pre j ++ suf.
Proof.
  intros H. unfold Stave.swapStep.
  rewrite !lookup_app_l by lia.
  destruct (pre !! j); [|reflexivity].
  destruct (pre !! (j + 1)%nat); [|reflexivity].
  destruct (Stave.orderAbove _ _ _ _); [|reflexivity].
  rewrite insert_app_l by lia. rewrite insert_app_l by (rewrite length_insert; lia).
  reflexivity.
Qed.

Lemma swapStep_fold_app (suf : list Modifier) (js : list nat) :
  forall pre : list Modifier,
  Forall (fun j => (j + 1 < length pre)%nat) js ->
  fold_left (Stave.swapStep getCategory order) js (pre ++ suf) = fold_left (Stave.swapStep getCategory order) js pre ++ suf.
Proof.
  induction js as [|j js IH]; intros pre H; cbn [fold_left]; [reflexivity|].
  inversion H as [|? ? Hj Hjs]; subst.
  rewrite swapStep_app by exact Hj. apply IH.
  rewrite swapStep_length. exact Hjs.
Qed.

(** The outer loop from [i = n - 1] down to 0 on an array of [n]
    modifiers. *)
Lemma outer_loop (n : nat) :
  forall l : list Modifier, length l = n -> Forall (Stave.ranked getCategory order) l ->
  let r := fold_left (fun items i => fold_left (Stave.swapStep getCategory order) (seq 0 i) items) (rev (seq 0 n)) l in
  r ≡ₚ l /\ StronglySorted (fun a b => Stave.rank getCategory order a <= Stave.rank getCategory order b) r.
Proof.
  induction n as [|n IH]; intros l Hlen Hr; cbv zeta.
  - destruct l; [|discriminate]. cbn. split; [reflexivity|constructor].
  - rewrite seq_S, rev_app_distr. cbn [rev app fold_left plus].
    destruct (inner_pass l n Hlen Hr) as (init & mx & Hfold & Hp & Hmax).
    rewrite Hfold.
    assert (Hlinit : length init = n).
    { apply Permutation_length in Hp. rewrite length_app in Hp. cbn in Hp. lia. }
    assert (Hrinit : Forall (Stave.ranked getCategory order) init).
    { assert (Hall : Forall (Stave.ranked getCategory order) (init ++ [mx])) by (rewrite Hp; exact Hr).
      apply Forall_app in Hall. tauto. }
    assert (Hpre : forall (idxs : list nat) (pre : list Modifier),
              length pre = n -> Forall (fun i => (i < n)%nat) idxs ->
              fold_left (fun items i => fold_left (Stave.swapStep getCategory order) (seq 0 i) items) idxs (pre ++ [mx])
              = fold_left (fun items i => fold_left (Stave.swapStep getCategory order) (seq 0 i) items) idxs pre ++ [mx]).
    { induction idxs as [|i idxs IHis]; intros pre Hl His; cbn [fold_left]; [reflexivity|].
      inversion His as [|? ? Hi His']; subst.
      rewrite swapStep_fold_app.
      - apply IHis; [|exact His'].
        rewrite fold_left_length_inv by (intros; apply swapStep_length). exact Hl.
      - apply Forall_forall. intros j Hj. apply elem_of_seq in Hj. lia. }
    rewrite Hpre; [|exact Hlinit|].
    2: { apply Forall_forall. intros i Hi. apply list_elem_of_In in Hi.
         apply in_rev in Hi. apply list_elem_of_In, elem_of_seq in Hi. lia. }
    destruct (IH init Hlinit Hrinit) as [Hp' Hs']. cbv zeta in Hp', Hs'.
    split.
    + rewrite Hp'. exact Hp.
    + revert Hs'. rewrite <- Hp' in Hmax.
      generalize (fold_left (fun items i => fold_left (Stave.swapStep getCategory order) (seq 0 i) items)
                            (rev (seq 0 n)) init) Hmax.
      clear. induction l as [|x l IHl]; intros Hmax Hs; cbn.
      * repeat constructor.
      * inversion Hmax; subst. apply StronglySorted_inv in Hs. destruct Hs as [Hs Hx].
        constructor; [apply IHl; assumption|].
        apply Forall_app. split; [exact Hx|repeat constructor; assumption].
Qed.

End SortByCategoryProperties.

(** X20.  [sortByCategory] only rearranges the modifiers: none is lost
    or doubled.  When the category of every modifier has a place in the
    order, the result is sorted: no modifier is followed, anywhere
    behind it, by one of a lower place. *)
Theorem sortByCategory_sorts {Modifier : Type} (getCategory : Modifier -> string)
    (order : string -> option Q) (items : list Modifier) :
  Stave.sortByCategory getCategory order items ≡ₚ items /\
  (Forall (Stave.ranked getCategory order) items ->
   StronglySorted
     (fun a b => Stave.rank getCategory order a <= Stave.rank getCategory order b)
     (Stave.sortByCategory getCategory order items)).
Proof.
  split; [apply sortByCategory_perm|].
  intros H. unfold Stave.sortByCategory.
  apply (outer_loop Modifier getCategory order (length items) items eq_refl H).
Qed.

(** The theorem applies to five modifiers of the four categories. *)
Lemma sortByCategory_sorts_witness :
  Stave.sortByCategory id Stave.sampleOrder Stave.sampleModifiers ≡ₚ Stave.sampleModifiers /\
  StronglySorted
    (fun a b => Stave.rank id Stave.sampleOrder a <= Stave.rank id Stave.sampleOrder b)
    (Stave.sortByCategory id Stave.sampleOrder Stave.sampleModifiers).
Proof.
  destruct (sortByCategory_sorts id Stave.sampleOrder Stave.sampleModifiers) as [H1 H2].
  split; [exact H1|]. apply H2.
  repeat constructor; eexists; reflexivity.
Defined.
